(** * Verification of the React fiber reconciler core

    A shallow embedding of the update queue (ReactUpdateQueue.js), the sync
    callback queue (SchedulerWithReactIntegration.js), fiber double buffering
    (ReactFiber.js) and the scheduling / commit code of the work loop
    (ReactFiberWorkLoop.js), with the properties stated about them.

    Conventions.  JavaScript numbers used as expiration times, effect tags,
    modes and priority levels are integers and are modelled in [Z].  A pointer
    into a persistent singly linked list (the [next] chain of updates, the
    [nextEffect] chain of fibers) is modelled by the list it heads whenever the
    code only reads the chain; where the code writes through aliases
    ([enqueueUpdate], the fiber tree) the objects live in an explicit store
    ([gmap]) and pointers are addresses. *)

From Stdlib Require Import ZArith List Lia Bool String.
From stdpp Require Import base numbers option list gmap.

Open Scope Z_scope.

(** ** shared/ReactSideEffectTags.js *)
Module SideEffectTags.
Definition NoEffect : Z := 0.
Definition PerformedWork : Z := 1.
Definition Placement : Z := 2.
Definition Update : Z := 4.
Definition PlacementAndUpdate : Z := 6.
Definition Deletion : Z := 8.
Definition ContentReset : Z := 16.
Definition Callback : Z := 32.
Definition DidCapture : Z := 64.
Definition Ref : Z := 128.
Definition Snapshot : Z := 256.
Definition Passive : Z := 512.
Definition Hydrating : Z := 1024.
Definition HydratingAndUpdate : Z := 1028.
Definition LifecycleEffectMask : Z := 932.
Definition HostEffectMask : Z := 2047.
Definition Incomplete : Z := 2048.
Definition ShouldCapture : Z := 4096.
End SideEffectTags.

(** ** react-reconciler/src/ReactTypeOfMode.js *)
Module TypeOfMode.
Definition NoMode : Z := 0.
Definition StrictMode : Z := 1.
Definition BlockingMode : Z := 2.
Definition ConcurrentMode : Z := 4.
Definition ProfileMode : Z := 8.
End TypeOfMode.

(** ** ReactUpdateQueue.js: replaying a queue

    [processUpdateQueue] only reads the [next] chains, so a queue is viewed as
    its two lists of pending updates (primary and captured) in insertion
    order, together with the two effect lists it builds.  [firstUpdate] is the
    head of [updates], [lastUpdate] its last element; both are null exactly
    when the list is empty.

    The effect lists are chains through the [nextEffect] field of the
    updates themselves.  Putting an update on one is
    [update.nextEffect = null; lastEffect.nextEffect = update], which adds it
    at the end when the update is on no effect list yet; the lists below are
    the chains under that condition, so what is proved about them is stated
    for processing that starts with both effect lists empty.  An update has
    no identity here: [commitUpdateEffects] sets [callback] to null on the
    updates it runs, also on those still in the queue, and this is not
    tracked; statements about a committed queue are up to that field. *)
Module UpdateQueue.
Import SideEffectTags.

(** A state value: [null], [undefined], or anything else. *)
Inductive jsval (Obj : Type) : Type :=
| JUndefined
| JNull
| JObj (o : Obj).
Arguments JUndefined {Obj}.
Arguments JNull {Obj}.
Arguments JObj {Obj} o.

Inductive UpdateTag : Set :=
| UpdateState    (* 0 *)
| ReplaceState   (* 1 *)
| ForceUpdate    (* 2 *)
| CaptureUpdate  (* 3 *).

Section Replay.
Context {Obj Props Inst Cfg Cb : Type}.
(** [assign prev partial] is [Object.assign({}, prev, partial)]. *)
Variable assign : jsval Obj -> Obj -> Obj.
(** Constants of ReactFiberExpirationTime.js used by this file and by the
    two work-loop hooks it calls. *)
Variables NoWork Idle : Z.

Abbreviation State := (jsval Obj).

(** [typeof payload === 'function'] or not. *)
Inductive Payload : Type :=
| PFun (f : Inst -> State -> Props -> State)
| PVal (v : State).

Record Update : Type := mkUpdate {
  expirationTime : Z;
  suspenseConfig : option Cfg;
  tag : UpdateTag;
  payload : Payload;
  callback : option Cb
}.

Record Queue : Type := mkQueue {
  baseState : State;
  updates : list Update;
  capturedUpdates : list Update;
  effects : list Update;
  capturedEffects : list Update
}.

Definition createUpdateQueue (base : State) : Queue :=
  mkQueue base [] [] [] [].

Definition cloneUpdateQueue (currentQueue : Queue) : Queue :=
  mkQueue (baseState currentQueue) (updates currentQueue) [] [] [].

(** [shared] is the test [current !== null && queue === current.updateQueue]. *)
Definition ensureWorkInProgressQueueIsAClone (shared : bool) (queue : Queue) : Queue :=
  if shared then cloneUpdateQueue queue else queue.

(** The render-session variables written by [markRenderEventTimeAndConfig]
    and [markUnprocessedUpdateTime] (ReactFiberWorkLoop.js). *)
Record Session : Type := mkSession {
  latestProcessedExpirationTime : Z;
  latestSuspenseTimeout : Z;
  canSuspendUsingConfig : option Cfg;
  nextUnprocessedUpdateTime : Z
}.

Definition markRenderEventTimeAndConfig (t : Z) (cfg : option Cfg) (s : Session) : Session :=
  let s1 :=
    if (t <? latestProcessedExpirationTime s) && (Idle <? t)
    then mkSession t (latestSuspenseTimeout s) (canSuspendUsingConfig s)
                   (nextUnprocessedUpdateTime s)
    else s in
  match cfg with
  | Some c =>
      if (t <? latestSuspenseTimeout s1) && (Idle <? t)
      then mkSession (latestProcessedExpirationTime s1) t (Some c)
                     (nextUnprocessedUpdateTime s1)
      else s1
  | None => s1
  end.

Definition markUnprocessedUpdateTime (t : Z) (s : Session) : Session :=
  if nextUnprocessedUpdateTime s <? t
  then mkSession (latestProcessedExpirationTime s) (latestSuspenseTimeout s)
                 (canSuspendUsingConfig s) t
  else s.

(** What [getStateFromUpdate] may write besides its result: the
    work-in-progress fiber's effect tag and the module flag [hasForceUpdate]. *)
Record Flags : Type := mkFlags {
  effectTag : Z;
  hasForceUpdate : bool
}.

Definition mergePartial (prevState partialState : State) : State :=
  match partialState with
  | JObj o => JObj (assign prevState o)
  | _ => prevState   (* null and undefined are treated as no-ops *)
  end.

Definition callPayload (p : Payload) (prevState : State) (nextProps : Props)
    (instance : Inst) : State :=
  match p with
  | PFun f => f instance prevState nextProps
  | PVal v => v
  end.

Definition getStateFromUpdate (fl : Flags) (update : Update) (prevState : State)
    (nextProps : Props) (instance : Inst) : State * Flags :=
  match tag update with
  | ReplaceState =>
      (callPayload (payload update) prevState nextProps instance, fl)
  | CaptureUpdate =>
      let fl' := mkFlags (Z.lor (Z.land (effectTag fl) (Z.lnot ShouldCapture)) DidCapture)
                         (hasForceUpdate fl) in
      (mergePartial prevState (callPayload (payload update) prevState nextProps instance),
       fl')
  | UpdateState =>
      (mergePartial prevState (callPayload (payload update) prevState nextProps instance),
       fl)
  | ForceUpdate =>
      (prevState, mkFlags (effectTag fl) true)
  end.

(** The variables of the two loops of [processUpdateQueue].  A non-null
    [newFirstUpdate] is the sublist it heads. *)
Record Loop : Type := mkLoop {
  newBaseState : State;
  newFirstUpdate : option (list Update);
  newFirstCapturedUpdate : option (list Update);
  newExpirationTime : Z;
  resultState : State;
  flags : Flags;
  session : Session;
  firstEffect : list Update;
  firstCapturedEffect : list Update
}.

Definition raiseRemaining (t : Z) (newExp : Z) : Z :=
  if newExp <? t then t else newExp.

Definition markCallback (fl : Flags) : Flags :=
  mkFlags (Z.lor (effectTag fl) Callback) (hasForceUpdate fl).

(** One iteration of the first loop, on the node heading [update]. *)
Definition stepUpdate (props : Props) (instance : Inst) (renderExpirationTime : Z)
    (update : list Update) (u : Update) (l : Loop) : Loop :=
  let updateExpirationTime := expirationTime u in
  if updateExpirationTime <? renderExpirationTime then
    let '(nfu, nbs) :=
      match newFirstUpdate l with
      | None => (Some update, resultState l)
      | Some x => (Some x, newBaseState l)
      end in
    mkLoop nbs nfu (newFirstCapturedUpdate l)
           (raiseRemaining updateExpirationTime (newExpirationTime l))
           (resultState l) (flags l) (session l)
           (firstEffect l) (firstCapturedEffect l)
  else
    let s := markRenderEventTimeAndConfig updateExpirationTime (suspenseConfig u)
               (session l) in
    let '(st, fl) := getStateFromUpdate (flags l) u (resultState l) props instance in
    match callback u with
    | Some _ =>
        mkLoop (newBaseState l) (newFirstUpdate l) (newFirstCapturedUpdate l)
               (newExpirationTime l) st (markCallback fl) s
               (firstEffect l ++ [u]) (firstCapturedEffect l)
    | None =>
        mkLoop (newBaseState l) (newFirstUpdate l) (newFirstCapturedUpdate l)
               (newExpirationTime l) st fl s
               (firstEffect l) (firstCapturedEffect l)
    end.

Fixpoint walkUpdates (props : Props) (instance : Inst) (renderExpirationTime : Z)
    (update : list Update) (l : Loop) : Loop :=
  match update with
  | [] => l
  | u :: rest =>
      walkUpdates props instance renderExpirationTime rest
        (stepUpdate props instance renderExpirationTime update u l)
  end.

(** One iteration of the second loop (captured updates). *)
Definition stepCaptured (props : Props) (instance : Inst) (renderExpirationTime : Z)
    (update : list Update) (u : Update) (l : Loop) : Loop :=
  let updateExpirationTime := expirationTime u in
  if updateExpirationTime <? renderExpirationTime then
    let '(nfc, nbs) :=
      match newFirstCapturedUpdate l with
      | None =>
          (Some update,
           match newFirstUpdate l with
           | None => resultState l
           | Some _ => newBaseState l
           end)
      | Some x => (Some x, newBaseState l)
      end in
    mkLoop nbs (newFirstUpdate l) nfc
           (raiseRemaining updateExpirationTime (newExpirationTime l))
           (resultState l) (flags l) (session l)
           (firstEffect l) (firstCapturedEffect l)
  else
    let '(st, fl) := getStateFromUpdate (flags l) u (resultState l) props instance in
    match callback u with
    | Some _ =>
        mkLoop (newBaseState l) (newFirstUpdate l) (newFirstCapturedUpdate l)
               (newExpirationTime l) st (markCallback fl) (session l)
               (firstEffect l) (firstCapturedEffect l ++ [u])
    | None =>
        mkLoop (newBaseState l) (newFirstUpdate l) (newFirstCapturedUpdate l)
               (newExpirationTime l) st fl (session l)
               (firstEffect l) (firstCapturedEffect l)
    end.

Fixpoint walkCaptured (props : Props) (instance : Inst) (renderExpirationTime : Z)
    (update : list Update) (l : Loop) : Loop :=
  match update with
  | [] => l
  | u :: rest =>
      walkCaptured props instance renderExpirationTime rest
        (stepCaptured props instance renderExpirationTime update u l)
  end.

(** The fields of the work-in-progress fiber that [processUpdateQueue]
    reads or writes, and everything else it leaves behind. *)
Record Processed : Type := mkProcessed {
  queue : Queue;
  wipEffectTag : Z;
  wipExpirationTime : Z;
  memoizedState : State;
  forceUpdate : bool;
  sessionAfter : Session
}.

Definition chainOf (p : option (list Update)) : list Update :=
  match p with Some l => l | None => [] end.

Definition processUpdateQueue (shared : bool) (wipTag : Z) (ses : Session)
    (queue0 : Queue) (props : Props) (instance : Inst)
    (renderExpirationTime : Z) : Processed :=
  let q := ensureWorkInProgressQueueIsAClone shared queue0 in
  let l0 := mkLoop (baseState q) None None NoWork (baseState q)
                   (mkFlags wipTag false) ses (effects q) (capturedEffects q) in
  let l1 := walkUpdates props instance renderExpirationTime (updates q) l0 in
  let l2 := walkCaptured props instance renderExpirationTime (capturedUpdates q) l1 in
  let fl :=
    match newFirstCapturedUpdate l2 with
    | None => flags l2
    | Some _ => markCallback (flags l2)
    end in
  let nbs :=
    match newFirstUpdate l2, newFirstCapturedUpdate l2 with
    | None, None => resultState l2
    | _, _ => newBaseState l2
    end in
  mkProcessed
    (mkQueue nbs (chainOf (newFirstUpdate l2)) (chainOf (newFirstCapturedUpdate l2))
             (firstEffect l2) (firstCapturedEffect l2))
    (effectTag fl)
    (newExpirationTime l2)
    (resultState l2)
    (hasForceUpdate fl)
    (markUnprocessedUpdateTime (newExpirationTime l2) (session l2)).

(** [commitUpdateQueue]: a skipped captured update is joined to the end of
    the primary list when that list is not empty, the captured list and
    both effect lists are cleared.  The callbacks run by
    [commitUpdateEffects] are not modelled, and neither is the
    [effect.callback = null] it does on each update it runs. *)
Definition commitUpdateQueue (finishedQueue : Queue) : Queue :=
  let ups :=
    match capturedUpdates finishedQueue, updates finishedQueue with
    | _ :: _, _ :: _ => updates finishedQueue ++ capturedUpdates finishedQueue
    | _, _ => updates finishedQueue
    end in
  mkQueue (baseState finishedQueue) ups [] [] [].

(** *** Replaying a queue several times *)

(** One processing pass of a fiber: whether the queue is still shared with
    the current fiber, the threshold rendered at, and whether the pass was
    committed afterwards. *)
Record Pass : Type := mkPass {
  passShared : bool;
  passTime : Z;
  passCommitted : bool
}.

Record World : Type := mkWorld {
  wQueue : Queue;
  wEffectTag : Z;
  wSession : Session
}.

Definition runPass (props : Props) (instance : Inst) (w : World) (p : Pass) : World :=
  let r := processUpdateQueue (passShared p) (wEffectTag w) (wSession w) (wQueue w)
             props instance (passTime p) in
  mkWorld (if passCommitted p then commitUpdateQueue (queue r) else queue r)
          (wipEffectTag r) (sessionAfter r).

Definition runPasses (props : Props) (instance : Inst) (w : World) (ps : list Pass) : World :=
  fold_left (runPass props instance) ps w.

(** *** Specification-side functions *)

(** The state an update produces, whatever it does to the flags. *)
Definition nextState (props : Props) (instance : Inst) (u : Update) (s : State) : State :=
  fst (getStateFromUpdate (mkFlags 0 false) u s props instance).

(** Apply every update of a list, in order. *)
Definition applyUpdates (props : Props) (instance : Inst) (us : list Update)
    (s : State) : State :=
  fold_left (fun acc u => nextState props instance u acc) us s.

(** Apply, in order, the updates whose priority reaches the threshold. *)
Definition replayState (props : Props) (instance : Inst) (renderExpirationTime : Z)
    (us : list Update) (s : State) : State :=
  fold_left (fun acc u =>
               if expirationTime u <? renderExpirationTime then acc
               else nextState props instance u acc) us s.

Definition sufficient (renderExpirationTime : Z) (u : Update) : Prop :=
  renderExpirationTime <= expirationTime u.

(** *** Lemmas about the two loops *)

Lemma getStateFromUpdate_state fl u s props instance :
  fst (getStateFromUpdate fl u s props instance) = nextState props instance u s.
Proof.
  unfold nextState, getStateFromUpdate. destruct (tag u); reflexivity.
Qed.

Lemma stepUpdate_result props instance r upd u l :
  resultState (stepUpdate props instance r upd u l) =
  if expirationTime u <? r then resultState l
  else nextState props instance u (resultState l).
Proof.
  unfold stepUpdate. destruct (expirationTime u <? r).
  - destruct (newFirstUpdate l); reflexivity.
  - rewrite <- (getStateFromUpdate_state (flags l)).
    destruct (getStateFromUpdate (flags l) u (resultState l) props instance) as [st fl].
    destruct (callback u); reflexivity.
Qed.

Lemma stepCaptured_result props instance r upd u l :
  resultState (stepCaptured props instance r upd u l) =
  if expirationTime u <? r then resultState l
  else nextState props instance u (resultState l).
Proof.
  unfold stepCaptured. destruct (expirationTime u <? r).
  - destruct (newFirstCapturedUpdate l); reflexivity.
  - rewrite <- (getStateFromUpdate_state (flags l)).
    destruct (getStateFromUpdate (flags l) u (resultState l) props instance) as [st fl].
    destruct (callback u); reflexivity.
Qed.

Lemma walkUpdates_result props instance r us : forall l,
  resultState (walkUpdates props instance r us l) =
  replayState props instance r us (resultState l).
Proof.
  induction us as [|u us IH]; intros l; [reflexivity|].
  cbn [walkUpdates]. rewrite IH, stepUpdate_result. reflexivity.
Qed.

Lemma walkCaptured_result props instance r us : forall l,
  resultState (walkCaptured props instance r us l) =
  replayState props instance r us (resultState l).
Proof.
  induction us as [|u us IH]; intros l; [reflexivity|].
  cbn [walkCaptured]. rewrite IH, stepCaptured_result. reflexivity.
Qed.

Lemma replayState_app props instance r us vs s :
  replayState props instance r (us ++ vs) s =
  replayState props instance r vs (replayState props instance r us s).
Proof. unfold replayState. apply fold_left_app. Qed.

Lemma replayState_sufficient props instance r us : forall s,
  Forall (sufficient r) us ->
  replayState props instance r us s = applyUpdates props instance us s.
Proof.
  induction us as [|u us IH]; intros s H; [reflexivity|].
  inversion H as [|? ? Hu Hus]; subst.
  unfold replayState, applyUpdates in *. cbn [fold_left].
  unfold sufficient in Hu.
  destruct (Z.ltb_spec (expirationTime u) r); [lia|]. now apply IH.
Qed.

Lemma sufficient_weaken r t us :
  t <= r -> Forall (sufficient r) us -> Forall (sufficient t) us.
Proof.
  intros Hle H. induction H as [|u us Hu Hus IH]; constructor; [|assumption].
  unfold sufficient in *. lia.
Qed.

(** A skipped update fixes [newFirstUpdate] and [newBaseState] for the rest
    of the first loop. *)
Lemma stepUpdate_keeps props instance r upd u l x :
  newFirstUpdate l = Some x ->
  newFirstUpdate (stepUpdate props instance r upd u l) = Some x /\
  newBaseState (stepUpdate props instance r upd u l) = newBaseState l.
Proof.
  intros H. unfold stepUpdate. destruct (expirationTime u <? r).
  - rewrite H. split; reflexivity.
  - destruct (getStateFromUpdate (flags l) u (resultState l) props instance) as [st fl].
    destruct (callback u); split; assumption || reflexivity.
Qed.

Lemma walkUpdates_keeps props instance r us : forall l x,
  newFirstUpdate l = Some x ->
  newFirstUpdate (walkUpdates props instance r us l) = Some x /\
  newBaseState (walkUpdates props instance r us l) = newBaseState l.
Proof.
  induction us as [|u us IH]; intros l x H; [split; [assumption|reflexivity]|].
  cbn [walkUpdates].
  destruct (stepUpdate_keeps props instance r (u :: us) u l x H) as [H1 H2].
  destruct (IH _ _ H1) as [H3 H4]. split; [assumption|congruence].
Qed.

Lemma stepUpdate_applied props instance r upd u l :
  sufficient r u ->
  newFirstUpdate (stepUpdate props instance r upd u l) = newFirstUpdate l /\
  newFirstCapturedUpdate (stepUpdate props instance r upd u l) = newFirstCapturedUpdate l.
Proof.
  unfold sufficient, stepUpdate. intros H.
  destruct (Z.ltb_spec (expirationTime u) r); [lia|].
  destruct (getStateFromUpdate (flags l) u (resultState l) props instance) as [st fl].
  destruct (callback u); split; reflexivity.
Qed.

Lemma walkUpdates_captured props instance r us : forall l,
  newFirstCapturedUpdate (walkUpdates props instance r us l) = newFirstCapturedUpdate l.
Proof.
  induction us as [|u us IH]; intros l; [reflexivity|].
  cbn [walkUpdates]. rewrite IH. unfold stepUpdate.
  destruct (expirationTime u <? r).
  - destruct (newFirstUpdate l); reflexivity.
  - destruct (getStateFromUpdate (flags l) u (resultState l) props instance) as [st fl].
    destruct (callback u); reflexivity.
Qed.

Lemma walkUpdates_none props instance r us : forall l,
  Forall (sufficient r) us ->
  newFirstUpdate (walkUpdates props instance r us l) = newFirstUpdate l.
Proof.
  induction us as [|u us IH]; intros l H; [reflexivity|].
  inversion H as [|? ? Hu Hus]; subst. cbn [walkUpdates].
  rewrite (IH _ Hus). apply stepUpdate_applied. assumption.
Qed.

(** The first loop on a list whose first skipped update is [u]. *)
Lemma walkUpdates_first_skip props instance r pre u post : forall l,
  newFirstUpdate l = None ->
  Forall (sufficient r) pre ->
  expirationTime u < r ->
  let l' := walkUpdates props instance r (pre ++ u :: post) l in
  newFirstUpdate l' = Some (u :: post) /\
  newBaseState l' = applyUpdates props instance pre (resultState l).
Proof.
  induction pre as [|p pre IH]; intros l Hnone Hpre Hu; cbn zeta.
  - cbn [app walkUpdates].
    assert (Hs : newFirstUpdate (stepUpdate props instance r (u :: post) u l)
                   = Some (u :: post) /\
                 newBaseState (stepUpdate props instance r (u :: post) u l)
                   = resultState l).
    { unfold stepUpdate. destruct (Z.ltb_spec (expirationTime u) r); [|lia].
      rewrite Hnone. split; reflexivity. }
    destruct Hs as [Hs1 Hs2].
    destruct (walkUpdates_keeps props instance r post _ _ Hs1) as [H1 H2].
    split; [assumption|]. rewrite H2, Hs2. reflexivity.
  - inversion Hpre as [|? ? Hp Hpre']; subst.
    cbn [app walkUpdates].
    destruct (stepUpdate_applied props instance r (p :: pre ++ u :: post) p l Hp)
      as [Hf _].
    specialize (IH (stepUpdate props instance r (p :: pre ++ u :: post) p l)).
    cbn zeta in IH. rewrite Hf in IH.
    destruct (IH Hnone Hpre' Hu) as [H1 H2]. split; [assumption|].
    rewrite H2, stepUpdate_result.
    unfold sufficient in Hp.
    destruct (Z.ltb_spec (expirationTime p) r); [lia|]. reflexivity.
Qed.

Lemma stepCaptured_first props instance r upd u l :
  newFirstUpdate (stepCaptured props instance r upd u l) = newFirstUpdate l /\
  (forall x, newFirstUpdate l = Some x ->
     newBaseState (stepCaptured props instance r upd u l) = newBaseState l).
Proof.
  unfold stepCaptured. destruct (expirationTime u <? r).
  - destruct (newFirstCapturedUpdate l); (split; [reflexivity|]);
      intros x Hx; [reflexivity|]. rewrite Hx. reflexivity.
  - destruct (getStateFromUpdate (flags l) u (resultState l) props instance) as [st fl].
    destruct (callback u); split; reflexivity || (intros; reflexivity).
Qed.

Lemma walkCaptured_first props instance r us : forall l,
  newFirstUpdate (walkCaptured props instance r us l) = newFirstUpdate l /\
  (forall x, newFirstUpdate l = Some x ->
     newBaseState (walkCaptured props instance r us l) = newBaseState l).
Proof.
  induction us as [|u us IH]; intros l; [split; [reflexivity|intros; reflexivity]|].
  cbn [walkCaptured].
  destruct (stepCaptured_first props instance r (u :: us) u l) as [H1 H2].
  destruct (IH (stepCaptured props instance r (u :: us) u l)) as [H3 H4].
  split; [congruence|]. intros x Hx.
  rewrite (H4 x) by congruence. apply (H2 x Hx).
Qed.

Lemma walkCaptured_none props instance r us : forall l,
  Forall (sufficient r) us ->
  newFirstCapturedUpdate (walkCaptured props instance r us l) = newFirstCapturedUpdate l.
Proof.
  induction us as [|u us IH]; intros l H; [reflexivity|].
  inversion H as [|? ? Hu Hus]; subst. cbn [walkCaptured].
  rewrite (IH _ Hus). unfold stepCaptured. unfold sufficient in Hu.
  destruct (Z.ltb_spec (expirationTime u) r); [lia|].
  destruct (getStateFromUpdate (flags l) u (resultState l) props instance) as [st fl].
  destruct (callback u); reflexivity.
Qed.

Lemma first_skipped r (us : list Update) :
  Forall (sufficient r) us \/
  exists pre u post,
    us = pre ++ u :: post /\ Forall (sufficient r) pre /\ expirationTime u < r.
Proof.
  induction us as [|u us IH]; [left; constructor|].
  destruct (Z.ltb_spec (expirationTime u) r) as [Hlt|Hge].
  - right. exists [], u, us. repeat split; [constructor|assumption].
  - destruct IH as [Hall|(pre & v & post & -> & Hpre & Hv)].
    + left. constructor; assumption.
    + right. exists (u :: pre), v, post. repeat split; [|assumption].
      constructor; assumption.
Qed.

Lemma ensure_updates shared q :
  updates (ensureWorkInProgressQueueIsAClone shared q) = updates q /\
  baseState (ensureWorkInProgressQueueIsAClone shared q) = baseState q.
Proof. destruct shared; split; reflexivity. Qed.

Lemma process_memoized shared tg ses q props instance r :
  memoizedState (processUpdateQueue shared tg ses q props instance r) =
  replayState props instance r
    (capturedUpdates (ensureWorkInProgressQueueIsAClone shared q))
    (replayState props instance r (updates q) (baseState q)).
Proof.
  unfold processUpdateQueue. cbn [memoizedState].
  rewrite walkCaptured_result, walkUpdates_result. cbn [resultState].
  destruct (ensure_updates shared q) as [-> ->]. reflexivity.
Qed.

Lemma process_queue_skip shared tg ses q props instance r pre u post :
  updates q = pre ++ u :: post ->
  Forall (sufficient r) pre ->
  expirationTime u < r ->
  updates (queue (processUpdateQueue shared tg ses q props instance r)) = u :: post /\
  baseState (queue (processUpdateQueue shared tg ses q props instance r)) =
    applyUpdates props instance pre (baseState q).
Proof.
  intros Hq Hpre Hu. unfold processUpdateQueue. cbn [queue updates baseState].
  destruct (ensure_updates shared q) as [E1 E2]. rewrite E1, E2, Hq.
  set (l0 := mkLoop _ _ _ _ _ _ _ _ _).
  destruct (walkUpdates_first_skip props instance r pre u post l0 eq_refl Hpre Hu)
    as [H1 H2].
  set (l1 := walkUpdates props instance r (pre ++ u :: post) l0) in *.
  destruct (walkCaptured_first props instance r
              (capturedUpdates (ensureWorkInProgressQueueIsAClone shared q)) l1)
    as [H3 H4].
  rewrite H3, H1. cbn [chainOf]. split; [reflexivity|].
  rewrite (H4 _ H1), H2. reflexivity.
Qed.

Lemma process_queue_noskip shared tg ses q props instance r :
  Forall (sufficient r) (updates q) ->
  Forall (sufficient r) (capturedUpdates (ensureWorkInProgressQueueIsAClone shared q)) ->
  baseState (queue (processUpdateQueue shared tg ses q props instance r)) =
    memoizedState (processUpdateQueue shared tg ses q props instance r) /\
  updates (queue (processUpdateQueue shared tg ses q props instance r)) = [] /\
  capturedUpdates (queue (processUpdateQueue shared tg ses q props instance r)) = [].
Proof.
  intros Hu Hc. unfold processUpdateQueue.
  cbn [queue updates baseState memoizedState capturedUpdates].
  destruct (ensure_updates shared q) as [E1 E2]. rewrite E1, E2.
  set (l0 := mkLoop _ _ _ _ _ _ _ _ _).
  set (l1 := walkUpdates props instance r (updates q) l0).
  set (cs := capturedUpdates (ensureWorkInProgressQueueIsAClone shared q)) in *.
  assert (F1 : newFirstUpdate l1 = None) by (apply (walkUpdates_none _ _ _ _ l0 Hu)).
  assert (C1 : newFirstCapturedUpdate l1 = None)
    by (apply (walkUpdates_captured _ _ _ _ l0)).
  destruct (walkCaptured_first props instance r cs l1) as [H3 _].
  rewrite H3, F1, (walkCaptured_none _ _ _ _ l1 Hc), C1.
  repeat split; reflexivity.
Qed.

Lemma process_captured_empty shared tg ses q props instance r :
  capturedUpdates q = [] ->
  capturedUpdates (queue (processUpdateQueue shared tg ses q props instance r)) = [].
Proof.
  intros Hc. unfold processUpdateQueue. cbn [queue capturedUpdates].
  assert (E : capturedUpdates (ensureWorkInProgressQueueIsAClone shared q) = [])
    by (destruct shared; [reflexivity|exact Hc]).
  rewrite E. cbn [walkCaptured]. rewrite walkUpdates_captured. reflexivity.
Qed.

(** A pass at a threshold at least [t] leaves behind a queue that replays
    at [t] to the same state. *)
Lemma process_rebase shared tg ses q props instance r t :
  capturedUpdates q = [] ->
  t <= r ->
  let q' := queue (processUpdateQueue shared tg ses q props instance r) in
  replayState props instance t (updates q') (baseState q') =
  replayState props instance t (updates q) (baseState q).
Proof.
  intros Hc Hle q'. subst q'.
  assert (E : capturedUpdates (ensureWorkInProgressQueueIsAClone shared q) = [])
    by (destruct shared; [reflexivity|exact Hc]).
  destruct (first_skipped r (updates q)) as [Hall|(pre & u & post & Hq & Hpre & Hu)].
  - destruct (process_queue_noskip shared tg ses q props instance r Hall) as (Hb & Hu & _).
    { rewrite E. constructor. }
    rewrite Hu, Hb, process_memoized, E. cbn [replayState fold_left].
    rewrite (replayState_sufficient _ _ r _ _ Hall).
    rewrite (replayState_sufficient _ _ t _ _ (sufficient_weaken r t _ Hle Hall)).
    reflexivity.
  - destruct (process_queue_skip shared tg ses q props instance r pre u post Hq Hpre Hu)
      as [H1 H2].
    rewrite H1, H2, Hq, replayState_app.
    rewrite (replayState_sufficient _ _ t pre _ (sufficient_weaken r t _ Hle Hpre)).
    reflexivity.
Qed.

Lemma commit_plain q :
  capturedUpdates q = [] ->
  capturedUpdates (commitUpdateQueue q) = [] /\
  updates (commitUpdateQueue q) = updates q /\
  baseState (commitUpdateQueue q) = baseState q.
Proof.
  intros H. unfold commitUpdateQueue. rewrite H. repeat split; reflexivity.
Qed.

Lemma runPasses_rebase props instance t ps : forall w,
  capturedUpdates (wQueue w) = [] ->
  Forall (fun p => t <= passTime p) ps ->
  let w' := runPasses props instance w ps in
  capturedUpdates (wQueue w') = [] /\
  replayState props instance t (updates (wQueue w')) (baseState (wQueue w')) =
  replayState props instance t (updates (wQueue w)) (baseState (wQueue w)).
Proof.
  induction ps as [|p ps IH]; intros w Hc Hps; cbn zeta.
  - split; [assumption|reflexivity].
  - inversion Hps as [|? ? Hp Hps']; subst.
    unfold runPasses in *. cbn [fold_left].
    set (r := processUpdateQueue (passShared p) (wEffectTag w) (wSession w) (wQueue w)
                props instance (passTime p)).
    assert (Hc1 : capturedUpdates (queue r) = [])
      by (apply process_captured_empty; assumption).
    assert (Hr : replayState props instance t (updates (queue r)) (baseState (queue r)) =
                 replayState props instance t (updates (wQueue w)) (baseState (wQueue w)))
      by (apply process_rebase; assumption).
    specialize (IH (runPass props instance w p)). cbn zeta in IH.
    unfold runPass in *. fold r in IH |- *. cbn [wQueue] in IH.
    destruct (passCommitted p).
    + destruct (commit_plain (queue r) Hc1) as (K1 & K2 & K3).
      destruct (IH K1 Hps') as [I1 I2]. split; [assumption|].
      rewrite I2, K2, K3. assumption.
    + destruct (IH Hc1 Hps') as [I1 I2]. split; [assumption|].
      rewrite I2. assumption.
Qed.

(** *** The claims about replay *)

(** C1 (update-queue determinism).  Take any base state and any sequence
    [us] of enqueued updates whose payloads are values or pure functions.
    After any number of intermediate passes of [processUpdateQueue], each at
    a threshold at least the final one (committed or not, on the shared or
    on the cloned queue), processing at the final threshold [t] memoizes the
    same state as processing the untouched queue at [t]; that state is
    [replayState t us base], a function of the update sequence, the
    starting state and the threshold alone. *)
Theorem process_deterministic (props : Props) (instance : Inst) (base : State)
    (us effs ceffs : list Update) (ps : list Pass) (t : Z)
    (tg tg1 tg2 : Z) (ses ses1 ses2 : Session) (sh1 sh2 : bool) :
  Forall (fun p => t <= passTime p) ps ->
  let q0 := mkQueue base us [] effs ceffs in
  let w := runPasses props instance (mkWorld q0 tg ses) ps in
  memoizedState (processUpdateQueue sh1 tg1 ses1 (wQueue w) props instance t) =
  memoizedState (processUpdateQueue sh2 tg2 ses2 q0 props instance t) /\
  memoizedState (processUpdateQueue sh2 tg2 ses2 q0 props instance t) =
  replayState props instance t us base.
Proof.
  intros Hps q0 w.
  destruct (runPasses_rebase props instance t ps (mkWorld q0 tg ses) eq_refl Hps)
    as [Hc Hr].
  fold w in Hc, Hr. cbn [wQueue] in Hr.
  assert (E1 : capturedUpdates (ensureWorkInProgressQueueIsAClone sh1 (wQueue w)) = [])
    by (destruct sh1; [reflexivity|exact Hc]).
  assert (E2 : capturedUpdates (ensureWorkInProgressQueueIsAClone sh2 q0) = [])
    by (destruct sh2; reflexivity).
  rewrite !process_memoized, E1, E2. cbn [replayState fold_left].
  split; [exact Hr|reflexivity].
Qed.

(** C2 (skipped-update rebasing).  When [processUpdateQueue] runs at
    threshold [r]: if [u] is the first update of the primary list below the
    threshold, the list left in the queue is [u] with everything after it,
    whatever the priorities, and the new base state is the old base state
    with the updates before [u] applied; if no update was skipped, the new
    base state is the result state and the update list is empty. *)
Theorem skipped_update_rebasing (shared : bool) (tg : Z) (ses : Session) (q : Queue)
    (props : Props) (instance : Inst) (r : Z) :
  let res := processUpdateQueue shared tg ses q props instance r in
  (forall pre u post,
      updates q = pre ++ u :: post ->
      Forall (sufficient r) pre ->
      expirationTime u < r ->
      updates (queue res) = u :: post /\
      baseState (queue res) = applyUpdates props instance pre (baseState q)) /\
  (Forall (sufficient r) (updates q) ->
   Forall (sufficient r) (capturedUpdates (ensureWorkInProgressQueueIsAClone shared q)) ->
   baseState (queue res) = memoizedState res /\
   updates (queue res) = [] /\
   capturedUpdates (queue res) = []).
Proof.
  intros res. split.
  - intros pre u post. apply process_queue_skip.
  - apply process_queue_noskip.
Qed.

(** C3 (no-op preservation).  For a merge-style update whose payload is
    null or undefined, or a function returning one of them,
    [getStateFromUpdate] returns the previous state itself, and a queue
    holding just that update is processed to a memoized state that is the
    queue's base state itself: the value is handed back, [Object.assign] is
    not called. *)
Theorem noop_preserved (shared : bool) (tg : Z) (ses : Session) (fl : Flags)
    (base : State) (u : Update) (effs ceffs : list Update)
    (props : Props) (instance : Inst) (r : Z) :
  tag u = UpdateState ->
  callPayload (payload u) base props instance = JNull \/
  callPayload (payload u) base props instance = JUndefined ->
  getStateFromUpdate fl u base props instance = (base, fl) /\
  memoizedState
    (processUpdateQueue shared tg ses (mkQueue base [u] [] effs ceffs) props instance r)
  = base.
Proof.
  intros Ht Hp.
  assert (G : forall f, getStateFromUpdate f u base props instance = (base, f)).
  { intros f. unfold getStateFromUpdate. rewrite Ht.
    destruct Hp as [-> | ->]; reflexivity. }
  split; [apply G|].
  rewrite process_memoized.
  assert (E : capturedUpdates
                (ensureWorkInProgressQueueIsAClone shared (mkQueue base [u] [] effs ceffs))
              = []) by (destruct shared; reflexivity).
  rewrite E. cbn [replayState fold_left updates baseState].
  destruct (expirationTime u <? r); [reflexivity|].
  unfold nextState. rewrite G. reflexivity.
Qed.

(** By contrast a non-null partial state always goes through
    [Object.assign], which builds a new object. *)
Lemma merge_assigns fl u prev o props instance :
  tag u = UpdateState ->
  callPayload (payload u) prev props instance = JObj o ->
  getStateFromUpdate fl u prev props instance = (JObj (assign prev o), fl).
Proof.
  intros Ht Hp. unfold getStateFromUpdate. rewrite Ht, Hp. reflexivity.
Qed.

(** *** What processing leaves on the fiber and on the effect lists *)

(** The [newExpirationTime] that a loop reaches from [e]. *)
Lemma walkUpdates_newExpirationTime props instance r us : forall l,
  newExpirationTime (walkUpdates props instance r us l) =
  fold_left (fun acc u => if expirationTime u <? r
                          then raiseRemaining (expirationTime u) acc else acc)
            us (newExpirationTime l).
Proof.
  induction us as [|u us IH]; intros l; [reflexivity|].
  cbn [walkUpdates fold_left]. rewrite IH. f_equal.
  unfold stepUpdate. destruct (expirationTime u <? r).
  - destruct (newFirstUpdate l); reflexivity.
  - destruct (getStateFromUpdate (flags l) u (resultState l) props instance) as [st fl].
    destruct (callback u); reflexivity.
Qed.

Lemma walkCaptured_newExpirationTime props instance r us : forall l,
  newExpirationTime (walkCaptured props instance r us l) =
  fold_left (fun acc u => if expirationTime u <? r
                          then raiseRemaining (expirationTime u) acc else acc)
            us (newExpirationTime l).
Proof.
  induction us as [|u us IH]; intros l; [reflexivity|].
  cbn [walkCaptured fold_left]. rewrite IH. f_equal.
  unfold stepCaptured. destruct (expirationTime u <? r).
  - destruct (newFirstCapturedUpdate l); [reflexivity|].
    destruct (newFirstUpdate l); reflexivity.
  - destruct (getStateFromUpdate (flags l) u (resultState l) props instance) as [st fl].
    destruct (callback u); reflexivity.
Qed.

Lemma raised_bounds (r : Z) (us : list Update) : forall e,
  let m := fold_left (fun acc u => if expirationTime u <? r
                                   then raiseRemaining (expirationTime u) acc else acc)
                     us e in
  e <= m /\
  (forall u, u ∈ us -> expirationTime u < r -> expirationTime u <= m) /\
  (m = e \/ exists u, u ∈ us /\ expirationTime u < r /\ m = expirationTime u).
Proof.
  induction us as [|u us IH]; intros e; cbn [fold_left].
  - split; [lia|]. split; [|left; reflexivity].
    intros u Hu. apply elem_of_nil in Hu. contradiction.
  - set (e1 := if expirationTime u <? r then raiseRemaining (expirationTime u) e else e).
    destruct (IH e1) as (Hle & Hall & Hor).
    assert (He1 : e <= e1 /\ (expirationTime u < r -> expirationTime u <= e1) /\
                  (e1 = e \/ (expirationTime u < r /\ e1 = expirationTime u))).
    { subst e1. unfold raiseRemaining.
      destruct (Z.ltb_spec (expirationTime u) r);
        [destruct (Z.ltb_spec e (expirationTime u))|]; lia. }
    destruct He1 as (A & B & C).
    split; [lia|]. split.
    + intros x Hx Hlt. apply elem_of_cons in Hx as [->|Hx].
      * specialize (B Hlt). lia.
      * apply Hall; assumption.
    + destruct Hor as [Hm|(x & Hx & Hlt & Hm)].
      * destruct C as [C|[Hlt C]].
        -- left. congruence.
        -- right. exists u. split; [apply elem_of_cons; left; reflexivity|].
           split; [exact Hlt|congruence].
      * right. exists x. split; [apply elem_of_cons; right; exact Hx|].
        split; assumption.
Qed.

(** processUpdateQueue: the expiration time it leaves on the
    work-in-progress fiber is the highest time among the updates it skipped,
    in either list, and [NoWork] when that is higher or nothing was skipped;
    so no skipped update is above it, and the same time is reported to
    [markUnprocessedUpdateTime]. *)
Theorem process_remaining_time (shared : bool) (tg : Z) (ses : Session) (q : Queue)
    (props : Props) (instance : Inst) (r : Z) :
  let res := processUpdateQueue shared tg ses q props instance r in
  let pending := updates q ++ capturedUpdates (ensureWorkInProgressQueueIsAClone shared q) in
  NoWork <= wipExpirationTime res /\
  (forall u, u ∈ pending -> expirationTime u < r ->
             expirationTime u <= wipExpirationTime res) /\
  (wipExpirationTime res = NoWork \/
   exists u, u ∈ pending /\ expirationTime u < r /\
             wipExpirationTime res = expirationTime u) /\
  wipExpirationTime res <= nextUnprocessedUpdateTime (sessionAfter res).
Proof.
  intros res pending.
  assert (E : wipExpirationTime res =
              fold_left (fun acc u => if expirationTime u <? r
                                      then raiseRemaining (expirationTime u) acc else acc)
                        pending NoWork).
  { subst res pending. unfold processUpdateQueue. cbn [wipExpirationTime].
    rewrite walkCaptured_newExpirationTime, walkUpdates_newExpirationTime.
    cbn [newExpirationTime]. rewrite fold_left_app.
    destruct (ensure_updates shared q) as [-> _]. reflexivity. }
  destruct (raised_bounds r pending NoWork) as (A & B & C).
  rewrite <- E in A, B, C.
  split; [exact A|]. split; [exact B|]. split; [exact C|].
  subst res. unfold processUpdateQueue at 2. cbn [sessionAfter].
  unfold markUnprocessedUpdateTime.
  match goal with |- context [if ?x <? ?y then _ else _] =>
    destruct (Z.ltb_spec x y) end; cbn [nextUnprocessedUpdateTime].
  - unfold processUpdateQueue. cbn [wipExpirationTime]. lia.
  - unfold processUpdateQueue. cbn [wipExpirationTime]. lia.
Qed.

(** An update the loop at threshold [r] processes and whose callback is not
    null. *)
Definition callsBack (r : Z) (u : Update) : Prop :=
  r <= expirationTime u /\ is_Some (callback u).

#[local] Instance callsBack_dec (r : Z) (u : Update) : Decision (callsBack r u).
Proof. unfold callsBack. apply _. Defined.

Lemma walkUpdates_effects props instance r us : forall l,
  firstEffect (walkUpdates props instance r us l) = firstEffect l ++ filter (callsBack r) us /\
  firstCapturedEffect (walkUpdates props instance r us l) = firstCapturedEffect l.
Proof.
  induction us as [|u us IH]; intros l.
  - cbn. rewrite app_nil_r. split; reflexivity.
  - cbn [walkUpdates]. destruct (IH (stepUpdate props instance r (u :: us) u l)) as [-> ->].
    unfold stepUpdate. destruct (Z.ltb_spec (expirationTime u) r).
    + rewrite filter_cons_False by (unfold callsBack; lia).
      destruct (newFirstUpdate l); split; reflexivity.
    + destruct (getStateFromUpdate (flags l) u (resultState l) props instance) as [st fl].
      destruct (callback u) as [c|] eqn:Ec; cbn [firstEffect firstCapturedEffect].
      * rewrite filter_cons_True by (unfold callsBack; rewrite Ec; split; [lia|eauto]).
        rewrite <- app_assoc. split; reflexivity.
      * rewrite filter_cons_False
          by (unfold callsBack; rewrite Ec; intros [_ [? ?]]; discriminate).
        split; reflexivity.
Qed.

Lemma walkCaptured_effects props instance r us : forall l,
  firstEffect (walkCaptured props instance r us l) = firstEffect l /\
  firstCapturedEffect (walkCaptured props instance r us l)
  = firstCapturedEffect l ++ filter (callsBack r) us.
Proof.
  induction us as [|u us IH]; intros l.
  - cbn. rewrite app_nil_r. split; reflexivity.
  - cbn [walkCaptured]. destruct (IH (stepCaptured props instance r (u :: us) u l)) as [-> ->].
    unfold stepCaptured. destruct (Z.ltb_spec (expirationTime u) r).
    + rewrite filter_cons_False by (unfold callsBack; lia).
      destruct (newFirstCapturedUpdate l); [|destruct (newFirstUpdate l)];
        split; reflexivity.
    + destruct (getStateFromUpdate (flags l) u (resultState l) props instance) as [st fl].
      destruct (callback u) as [c|] eqn:Ec; cbn [firstEffect firstCapturedEffect].
      * rewrite filter_cons_True by (unfold callsBack; rewrite Ec; split; [lia|eauto]).
        rewrite <- app_assoc. split; reflexivity.
      * rewrite filter_cons_False
          by (unfold callsBack; rewrite Ec; intros [_ [? ?]]; discriminate).
        split; reflexivity.
Qed.

(** [(effectTag & Callback) !== NoEffect]. *)
Definition hasCallbackBit (fl : Flags) : Prop := Z.testbit (effectTag fl) 5 = true.

Lemma markCallback_bit (fl : Flags) : hasCallbackBit (markCallback fl).
Proof.
  unfold hasCallbackBit, markCallback. cbn [effectTag].
  rewrite Z.lor_spec. apply orb_true_r.
Qed.

Lemma getStateFromUpdate_bit fl u s props instance :
  hasCallbackBit fl -> hasCallbackBit (snd (getStateFromUpdate fl u s props instance)).
Proof.
  unfold hasCallbackBit, getStateFromUpdate. intros H.
  destruct (tag u); cbn [snd effectTag]; try exact H.
  rewrite Z.lor_spec, Z.land_spec, H. reflexivity.
Qed.

Lemma stepUpdate_bit props instance r upd u l :
  hasCallbackBit (flags l) \/ callsBack r u ->
  hasCallbackBit (flags (stepUpdate props instance r upd u l)).
Proof.
  intros H. unfold stepUpdate. destruct (Z.ltb_spec (expirationTime u) r).
  - destruct H as [H|[H _]]; [|lia]. destruct (newFirstUpdate l); exact H.
  - pose proof (getStateFromUpdate_bit (flags l) u (resultState l) props instance) as G.
    destruct (getStateFromUpdate (flags l) u (resultState l) props instance) as [st fl].
    destruct (callback u) as [c|] eqn:Ec; cbn [flags].
    + apply markCallback_bit.
    + apply G. destruct H as [H|[_ [? H]]]; [exact H|congruence].
Qed.

Lemma stepCaptured_bit props instance r upd u l :
  hasCallbackBit (flags l) \/ callsBack r u ->
  hasCallbackBit (flags (stepCaptured props instance r upd u l)).
Proof.
  intros H. unfold stepCaptured. destruct (Z.ltb_spec (expirationTime u) r).
  - destruct H as [H|[H _]]; [|lia].
    destruct (newFirstCapturedUpdate l); [|destruct (newFirstUpdate l)]; exact H.
  - pose proof (getStateFromUpdate_bit (flags l) u (resultState l) props instance) as G.
    destruct (getStateFromUpdate (flags l) u (resultState l) props instance) as [st fl].
    destruct (callback u) as [c|] eqn:Ec; cbn [flags].
    + apply markCallback_bit.
    + apply G. destruct H as [H|[_ [? H]]]; [exact H|congruence].
Qed.

Lemma walkUpdates_bit props instance r us : forall l,
  hasCallbackBit (flags l) \/ Exists (callsBack r) us ->
  hasCallbackBit (flags (walkUpdates props instance r us l)).
Proof.
  induction us as [|u us IH]; intros l H.
  - destruct H as [H|H]; [exact H|inversion H].
  - cbn [walkUpdates]. apply IH.
    destruct H as [H|H].
    + left. apply stepUpdate_bit. left. exact H.
    + inversion H as [? ? Hu|? ? Hus]; subst.
      * left. apply stepUpdate_bit. right. exact Hu.
      * right. exact Hus.
Qed.

Lemma walkCaptured_bit props instance r us : forall l,
  hasCallbackBit (flags l) \/ Exists (callsBack r) us ->
  hasCallbackBit (flags (walkCaptured props instance r us l)).
Proof.
  induction us as [|u us IH]; intros l H.
  - destruct H as [H|H]; [exact H|inversion H].
  - cbn [walkCaptured]. apply IH.
    destruct H as [H|H].
    + left. apply stepCaptured_bit. left. exact H.
    + inversion H as [? ? Hu|? ? Hus]; subst.
      * left. apply stepCaptured_bit. right. exact Hu.
      * right. exact Hus.
Qed.

(** processUpdateQueue, when both effect lists are empty as the processing
    starts (as they are on the clone made of a shared queue): afterwards
    the effect list holds exactly the updates of the primary list that were
    processed and have a callback, in queue order, and the captured effect
    list those of the captured list; a skipped update is on neither.
    Whenever an update is put on one of the two lists, the [Callback] bit is
    set on the work-in-progress fiber. *)
Theorem process_callbacks (shared : bool) (tg : Z) (ses : Session) (q : Queue)
    (props : Props) (instance : Inst) (r : Z) :
  let q0 := ensureWorkInProgressQueueIsAClone shared q in
  let res := processUpdateQueue shared tg ses q props instance r in
  effects q0 = [] ->
  capturedEffects q0 = [] ->
  effects (queue res) = filter (callsBack r) (updates q0) /\
  capturedEffects (queue res) = filter (callsBack r) (capturedUpdates q0) /\
  (Exists (callsBack r) (updates q0 ++ capturedUpdates q0) ->
   Z.land (wipEffectTag res) Callback <> NoEffect).
Proof.
  assert (Hland : forall fl, hasCallbackBit fl -> Z.land (effectTag fl) Callback <> NoEffect).
  { unfold hasCallbackBit. intros fl Hb Hz.
    assert (Ht : Z.testbit (Z.land (effectTag fl) Callback) 5 = true)
      by (rewrite Z.land_spec, Hb; reflexivity).
    rewrite Hz in Ht. discriminate. }
  intros q0 res He Hce. subst res. unfold processUpdateQueue. fold q0.
  cbn [queue effects capturedEffects wipEffectTag].
  set (l0 := mkLoop _ _ _ _ _ _ _ _ _).
  destruct (walkUpdates_effects props instance r (updates q0) l0) as [E1 C1].
  destruct (walkCaptured_effects props instance r (capturedUpdates q0)
              (walkUpdates props instance r (updates q0) l0)) as [E2 C2].
  split; [rewrite E2, E1; subst l0; cbn [firstEffect]; rewrite He; reflexivity|].
  split; [rewrite C2, C1; subst l0; cbn [firstCapturedEffect]; rewrite Hce; reflexivity|].
  intros Hex.
  assert (Hbit : hasCallbackBit
                   (flags (walkCaptured props instance r (capturedUpdates q0)
                             (walkUpdates props instance r (updates q0) l0)))).
  { apply Exists_app in Hex as [Hex|Hex].
    - apply walkCaptured_bit. left. apply walkUpdates_bit. right. exact Hex.
    - apply walkCaptured_bit. right. exact Hex. }
  apply Hland. destruct (newFirstCapturedUpdate _); [apply markCallback_bit|exact Hbit].
Qed.

(** A processed update of kind [ForceUpdate]. *)
Definition forces (r : Z) (u : Update) : Prop :=
  r <= expirationTime u /\ tag u = ForceUpdate.

Lemma getStateFromUpdate_force fl u s props instance :
  hasForceUpdate (snd (getStateFromUpdate fl u s props instance)) = true <->
  hasForceUpdate fl = true \/ tag u = ForceUpdate.
Proof.
  unfold getStateFromUpdate. destruct (tag u); cbn [snd hasForceUpdate];
    split; intros H; try (left; exact H); try (destruct H as [H|H]; [exact H|discriminate]).
  - right. reflexivity.
  - reflexivity.
Qed.

Lemma stepUpdate_force props instance r upd u l :
  hasForceUpdate (flags (stepUpdate props instance r upd u l)) = true <->
  hasForceUpdate (flags l) = true \/ forces r u.
Proof.
  unfold stepUpdate, forces. destruct (Z.ltb_spec (expirationTime u) r).
  - assert (E : hasForceUpdate
                  (flags (let '(nfu, nbs) :=
                            match newFirstUpdate l with
                            | Some x => (Some x, newBaseState l)
                            | None => (Some upd, resultState l)
                            end in
                          mkLoop nbs nfu (newFirstCapturedUpdate l)
                            (raiseRemaining (expirationTime u) (newExpirationTime l))
                            (resultState l) (flags l) (session l) (firstEffect l)
                            (firstCapturedEffect l)))
                = hasForceUpdate (flags l))
      by (destruct (newFirstUpdate l); reflexivity).
    rewrite E. split; [intros; left; assumption|]. intros [?|[? _]]; [assumption|lia].
  - pose proof (getStateFromUpdate_force (flags l) u (resultState l) props instance) as G.
    destruct (getStateFromUpdate (flags l) u (resultState l) props instance) as [st fl].
    cbn [snd] in G.
    destruct (callback u); cbn [flags markCallback hasForceUpdate]; rewrite G;
      split; (intros [?|?]; [left; assumption|right]); tauto || (split; [lia|assumption]).
Qed.

Lemma stepCaptured_force props instance r upd u l :
  hasForceUpdate (flags (stepCaptured props instance r upd u l)) = true <->
  hasForceUpdate (flags l) = true \/ forces r u.
Proof.
  unfold stepCaptured, forces. destruct (Z.ltb_spec (expirationTime u) r).
  - assert (E : forall x, hasForceUpdate
                  (flags (let '(nfc, nbs) := x in
                          mkLoop nbs (newFirstUpdate l) nfc
                            (raiseRemaining (expirationTime u) (newExpirationTime l))
                            (resultState l) (flags l) (session l) (firstEffect l)
                            (firstCapturedEffect l)))
                = hasForceUpdate (flags l))
      by (intros [? ?]; reflexivity).
    rewrite E. split; [intros; left; assumption|]. intros [?|[? _]]; [assumption|lia].
  - pose proof (getStateFromUpdate_force (flags l) u (resultState l) props instance) as G.
    destruct (getStateFromUpdate (flags l) u (resultState l) props instance) as [st fl].
    cbn [snd] in G.
    destruct (callback u); cbn [flags markCallback hasForceUpdate]; rewrite G;
      split; (intros [?|?]; [left; assumption|right]); tauto || (split; [lia|assumption]).
Qed.

Lemma walkUpdates_force props instance r us : forall l,
  hasForceUpdate (flags (walkUpdates props instance r us l)) = true <->
  hasForceUpdate (flags l) = true \/ Exists (forces r) us.
Proof.
  induction us as [|u us IH]; intros l.
  - cbn. rewrite Exists_nil. tauto.
  - cbn [walkUpdates]. rewrite IH, stepUpdate_force, Exists_cons. tauto.
Qed.

Lemma walkCaptured_force props instance r us : forall l,
  hasForceUpdate (flags (walkCaptured props instance r us l)) = true <->
  hasForceUpdate (flags l) = true \/ Exists (forces r) us.
Proof.
  induction us as [|u us IH]; intros l.
  - cbn. rewrite Exists_nil. tauto.
  - cbn [walkCaptured]. rewrite IH, stepCaptured_force, Exists_cons. tauto.
Qed.

(** processUpdateQueue: [hasForceUpdate] is reset when processing starts, so
    afterwards [checkHasForceUpdateAfterProcessing()] answers true exactly
    when one of the updates processed in this pass is a [ForceUpdate]; a
    skipped [ForceUpdate] does not count, nor does one of an earlier pass. *)
Theorem process_force_update (shared : bool) (tg : Z) (ses : Session) (q : Queue)
    (props : Props) (instance : Inst) (r : Z) :
  let q0 := ensureWorkInProgressQueueIsAClone shared q in
  forceUpdate (processUpdateQueue shared tg ses q props instance r) = true <->
  Exists (forces r) (updates q0 ++ capturedUpdates q0).
Proof.
  intros q0. unfold processUpdateQueue. fold q0. cbn [forceUpdate].
  set (l0 := mkLoop _ _ _ _ _ _ _ _ _).
  assert (E : forall l, hasForceUpdate
                (match newFirstCapturedUpdate l with
                 | Some _ => markCallback (flags l)
                 | None => flags l
                 end) = hasForceUpdate (flags l))
    by (intros l; destruct (newFirstCapturedUpdate l); reflexivity).
  rewrite E, walkCaptured_force, walkUpdates_force, Exists_app.
  subst l0. cbn [flags hasForceUpdate]. split.
  - intros [[H|H]|H]; [discriminate|left; exact H|right; exact H].
  - intros [H|H]; [left; right; exact H|right; exact H].
Qed.

(** *** What a commit keeps of the queue *)







End Replay.

(** *** The example of the file header: base state [''], queue
    [A1 - B2 - C1 - D2], every update appending its letter.  (The header
    counts priorities downwards; as expiration times the urgent updates [A]
    and [C] get 2, the others 1.) *)
Section Letters.
Definition letters (s : jsval string) : string :=
  match s with JObj x => x | _ => EmptyString end.

Definition assignLetters (prev : jsval string) (partial : string) : string := partial.

Definition append (t : Z) (letter : string) : @Update string unit unit unit unit :=
  mkUpdate t None ReplaceState
    (PFun (fun _ prev _ => JObj (String.append (letters prev) letter))) None.

Definition headerQueue : @Queue string unit unit unit unit :=
  mkQueue (JObj EmptyString)
    [append 2 "A"; append 1 "B"; append 2 "C"; append 1 "D"] [] [] [].

Definition noSession : @Session unit := mkSession 0 0 None 0.

Definition nullUpdate : @Update string unit unit unit unit :=
  mkUpdate 5 None UpdateState (PVal JNull) None.
End Letters.

Lemma process_deterministic_witness :
  Forall (fun p => 1 <= passTime p) [mkPass true 2 true; mkPass false 1 false] /\
  memoizedState
    (processUpdateQueue assignLetters 0 2 false 0 noSession
       (wQueue (runPasses assignLetters 0 2 tt tt (mkWorld headerQueue 0 noSession)
                  [mkPass true 2 true; mkPass false 1 false]))
       tt tt 1)
  = JObj "ABCD"%string.
Proof.
  assert (H : Forall (fun p : Pass => 1 <= passTime p)
                [mkPass true 2 true; mkPass false 1 false])
    by (repeat constructor; cbn; lia).
  split; [exact H|].
  destruct (process_deterministic assignLetters 0 2 tt tt (JObj EmptyString)
              [append 2 "A"; append 1 "B"; append 2 "C"; append 1 "D"] [] []
              [mkPass true 2 true; mkPass false 1 false] 1
              0 0 0 noSession noSession noSession false false H) as [H1 H2].
  etransitivity; [exact H1|]. etransitivity; [exact H2|]. reflexivity.
Defined.

Lemma skipped_update_rebasing_witness :
  (let res := processUpdateQueue assignLetters 0 2 false 0 noSession headerQueue tt tt 2 in
   updates (queue res) = [append 1 "B"; append 2 "C"; append 1 "D"] /\
   baseState (queue res) = JObj "A"%string) /\
  (let res := processUpdateQueue assignLetters 0 2 false 0 noSession headerQueue tt tt 1 in
   baseState (queue res) = memoizedState res /\
   updates (queue res) = [] /\ capturedUpdates (queue res) = []).
Proof.
  split; cbn zeta.
  - apply (proj1 (skipped_update_rebasing assignLetters 0 2 false 0 noSession headerQueue
                    tt tt 2)
             [append 2 "A"] (append 1 "B") [append 2 "C"; append 1 "D"]).
    + reflexivity.
    + repeat constructor. unfold sufficient. cbn. lia.
    + cbn. lia.
  - apply (proj2 (skipped_update_rebasing assignLetters 0 2 false 0 noSession headerQueue
                    tt tt 1)).
    + repeat constructor; unfold sufficient; cbn; lia.
    + constructor.
Defined.

Lemma noop_preserved_witness :
  getStateFromUpdate assignLetters (mkFlags 0 false) nullUpdate (JObj "s"%string) tt tt
    = (JObj "s"%string, mkFlags 0 false) /\
  memoizedState
    (processUpdateQueue assignLetters 0 2 false 0 noSession
       (mkQueue (JObj "s"%string) [nullUpdate] [] [] []) tt tt 1)
  = JObj "s"%string.
Proof.
  apply (noop_preserved assignLetters 0 2 false 0 noSession (mkFlags 0 false)
           (JObj "s"%string) nullUpdate [] [] tt tt 1).
  - reflexivity.
  - left. reflexivity.
Defined.

(** A queue whose second update is skipped at threshold 2; the first carries
    a callback, the third forces an update. *)
Section Notify.
Definition notify : @Update string unit unit unit unit :=
  mkUpdate 2 None UpdateState (PVal (JObj "n"%string)) (Some tt).
Definition later : @Update string unit unit unit unit :=
  mkUpdate 1 None UpdateState (PVal (JObj "l"%string)) (Some tt).
Definition force : @Update string unit unit unit unit :=
  mkUpdate 2 None ForceUpdate (PVal JNull) None.
Definition notifyQueue : @Queue string unit unit unit unit :=
  mkQueue (JObj EmptyString) [notify; later; force] [] [] [].
End Notify.

Lemma process_remaining_time_witness :
  1 <= wipExpirationTime
         (processUpdateQueue assignLetters 0 2 false 0 noSession notifyQueue tt tt 2).
Proof.
  apply (proj1 (proj2 (process_remaining_time assignLetters 0 2 false 0 noSession
                         notifyQueue tt tt 2)) later).
  - apply elem_of_cons. right. apply elem_of_cons. left. reflexivity.
  - cbn. lia.
Defined.

Lemma process_callbacks_witness :
  Z.land (wipEffectTag
            (processUpdateQueue assignLetters 0 2 false 0 noSession notifyQueue tt tt 2))
         Callback <> NoEffect.
Proof.
  apply (proj2 (proj2 (process_callbacks assignLetters 0 2 false 0 noSession
                         notifyQueue tt tt 2 eq_refl eq_refl))).
  apply Exists_cons. left. split; [cbn; lia|cbn; eauto].
Defined.

(** The effect list of that pass: the callback of the processed update,
    not the one of the skipped update. *)
Example process_callbacks_notify :
  effects (queue (processUpdateQueue assignLetters 0 2 false 0 noSession notifyQueue
                    tt tt 2)) = [notify].
Proof. reflexivity. Qed.


Lemma process_force_update_witness :
  forceUpdate (processUpdateQueue assignLetters 0 2 false 0 noSession notifyQueue tt tt 2)
  = true.
Proof.
  apply (proj2 (process_force_update assignLetters 0 2 false 0 noSession
                  notifyQueue tt tt 2)).
  apply Exists_cons. right. apply Exists_cons. right. apply Exists_cons. left.
  split; [cbn; lia|reflexivity].
Defined.
End UpdateQueue.


(** ** SchedulerWithReactIntegration.js: the synchronous callback queue

    A callback of the queue is called with [isSync = true]; it may schedule
    further sync callbacks while it runs (they are pushed on the array being
    flushed, which is the same object as [syncQueue]), and it then returns
    null, returns a continuation that is called in turn, or throws.

    This is all a callback does here.  A callback that calls
    [flushSyncCallbackQueue] itself while the queue is being flushed (the
    call finds [isFlushingSyncQueue] set and only cancels the pending host
    task), or that schedules or cancels tasks of the host, is not covered:
    what is proved below about [immediateQueueCallbackNode] and the host's
    tasks across a flush is about the statements of
    SchedulerWithReactIntegration.js, not about such callbacks; and a chain of continuations is finite. *)
Module SyncQueue.

Section Flush.
Context {Err : Type}.

#[warnings="-register-all"]
Inductive Callback : Type :=
| Done (scheduled : list Callback)
| Continue (scheduled : list Callback) (continuation : Callback)
| Throws (scheduled : list Callback) (error : Err).

(** The priorities of the host scheduler and the two functions of this module
    that are handed to it as tasks. *)
Inductive SchedulerPriority : Set :=
| Scheduler_ImmediatePriority
| Scheduler_UserBlockingPriority
| Scheduler_NormalPriority
| Scheduler_LowPriority
| Scheduler_IdlePriority.

Inductive HostTask : Set :=
| Task_flushSyncCallbackQueueImpl
| Task_flushSyncCallbackQueue.

Record HostEntry : Set := mkHostEntry {
  entryPriority : SchedulerPriority;
  entryTask : HostTask;
  entryCancelled : bool
}.

(** The module variables, and the task list of the host scheduler; a callback
    node is an index into that list. *)
Record State : Type := mkState {
  syncQueue : option (list Callback);
  immediateQueueCallbackNode : option nat;
  isFlushingSyncQueue : bool;
  hostTasks : list HostEntry
}.

Definition Scheduler_scheduleCallback (p : SchedulerPriority) (t : HostTask)
    (tasks : list HostEntry) : list HostEntry * nat :=
  (tasks ++ [mkHostEntry p t false], length tasks).

Definition Scheduler_cancelCallback (node : nat) (tasks : list HostEntry) : list HostEntry :=
  alter (fun e => mkHostEntry (entryPriority e) (entryTask e) true) node tasks.

Definition scheduleSyncCallback (callback : Callback) (s : State) : State :=
  match syncQueue s with
  | None =>
      let '(tasks, node) :=
        Scheduler_scheduleCallback Scheduler_ImmediatePriority
          Task_flushSyncCallbackQueueImpl (hostTasks s) in
      mkState (Some [callback]) (Some node) (isFlushingSyncQueue s) tasks
  | Some q =>
      mkState (Some (q ++ [callback])) (immediateQueueCallbackNode s)
              (isFlushingSyncQueue s) (hostTasks s)
  end.

(** The inner [do ... while (callback !== null)] loop on one queue entry: the
    callbacks it pushed on the queue, in order, and the error if it threw. *)
Fixpoint runChain (callback : Callback) : list Callback * option Err :=
  match callback with
  | Done scheduled => (scheduled, None)
  | Continue scheduled continuation =>
      let '(more, r) := runChain continuation in (scheduled ++ more, r)
  | Throws scheduled error => (scheduled, Some error)
  end.

(** How the [for] loop ends: it ran off the end of the array, or entry [i]
    threw and [remaining] is [queue.slice(i + 1)] at that moment. *)
Inductive LoopEnd : Type :=
| Finished
| Threw (error : Err) (remaining : list Callback).

(** The [for (; i < queue.length; i++)] loop, on [todo = queue.slice(i)].
    The array can grow while it is walked, so the loop is given fuel. *)
Fixpoint flushLoop (fuel : nat) (todo : list Callback) : option LoopEnd :=
  match todo with
  | [] => Some Finished
  | callback :: rest =>
      match fuel with
      | O => None
      | S fuel' =>
          match runChain callback with
          | (pushed, Some error) => Some (Threw error (rest ++ pushed))
          | (pushed, None) => flushLoop fuel' (rest ++ pushed)
          end
      end
  end.

(** [flushSyncCallbackQueueImpl]: the state it leaves and the error it throws
    to its caller, if any; [None] when the fuel does not suffice. *)
Definition flushSyncCallbackQueueImpl (fuel : nat) (s : State) : option (State * option Err) :=
  match isFlushingSyncQueue s, syncQueue s with
  | false, Some queue =>
      match flushLoop fuel queue with
      | None => None
      | Some Finished =>
          Some (mkState None (immediateQueueCallbackNode s) false (hostTasks s), None)
      | Some (Threw error remaining) =>
          let '(tasks, _) :=
            Scheduler_scheduleCallback Scheduler_ImmediatePriority
              Task_flushSyncCallbackQueue (hostTasks s) in
          Some (mkState (Some remaining) (immediateQueueCallbackNode s) false tasks,
                Some error)
      end
  | _, _ => Some (s, None)
  end.

Definition flushSyncCallbackQueue (fuel : nat) (s : State) : option (State * option Err) :=
  let s1 :=
    match immediateQueueCallbackNode s with
    | Some node =>
        mkState (syncQueue s) None (isFlushingSyncQueue s)
                (Scheduler_cancelCallback node (hostTasks s))
    | None => s
    end in
  flushSyncCallbackQueueImpl fuel s1.

(** *** Specification-side functions *)

Definition pushedBy (c : Callback) : list Callback := fst (runChain c).
Definition completes (c : Callback) : Prop := snd (runChain c) = None.
Definition throws (e : Err) (c : Callback) : Prop := snd (runChain c) = Some e.

Fixpoint size (c : Callback) : nat :=
  let sizes := fix sizes (l : list Callback) : nat :=
    match l with
    | [] => O
    | x :: r => (size x + sizes r)%nat
    end in
  match c with
  | Done scheduled => S (sizes scheduled)
  | Continue scheduled continuation => S (sizes scheduled + size continuation)
  | Throws scheduled _ => S (sizes scheduled)
  end.

Fixpoint weight (l : list Callback) : nat :=
  match l with
  | [] => O
  | x :: r => (size x + weight r)%nat
  end.

(** *** Lemmas *)

Lemma weight_app (a b : list Callback) : weight (a ++ b) = (weight a + weight b)%nat.
Proof. induction a as [|x a IH]; cbn; [reflexivity|]. rewrite IH. lia. Qed.

Lemma size_unfold (c : Callback) :
  size c =
  match c with
  | Done scheduled => S (weight scheduled)
  | Continue scheduled continuation => S (weight scheduled + size continuation)
  | Throws scheduled _ => S (weight scheduled)
  end.
Proof.
  assert (E : forall l : list Callback,
             (fix sizes (l : list Callback) : nat :=
                match l with
                | [] => O
                | x :: r => (size x + sizes r)%nat
                end) l = weight l).
  { induction l as [|x l IH]; cbn; [reflexivity|]. rewrite IH. reflexivity. }
  destruct c; cbn; rewrite E; reflexivity.
Qed.

Lemma size_pos (c : Callback) : (0 < size c)%nat.
Proof. rewrite size_unfold. destruct c; lia. Qed.

(** A callback can only schedule callbacks it contains. *)
Lemma weight_pushedBy (c : Callback) : (weight (pushedBy c) < size c)%nat.
Proof.
  unfold pushedBy. induction c as [l|l k IH|l e]; rewrite size_unfold; cbn.
  - lia.
  - destruct (runChain k) as [more r]. cbn in *. rewrite weight_app. lia.
  - lia.
Qed.

Lemma weight_flat_map (l : list Callback) :
  l <> [] -> (weight (flat_map pushedBy l) < weight l)%nat.
Proof.
  induction l as [|x l IH]; [congruence|]. intros _. cbn.
  rewrite weight_app. pose proof (weight_pushedBy x).
  destruct l as [|y l]; [cbn; lia|].
  assert (H1 : y :: l <> []) by congruence. specialize (IH H1). lia.
Qed.

(** Enough fuel: the loop always comes to an end. *)
Lemma flushLoop_total (fuel : nat) : forall todo,
  (weight todo <= fuel)%nat -> is_Some (flushLoop fuel todo).
Proof.
  induction fuel as [|fuel IH]; intros [|c rest] H; cbn; try (eexists; reflexivity).
  - cbn in H. pose proof (size_pos c). lia.
  - pose proof (weight_pushedBy c) as Hp. unfold pushedBy in Hp.
    destruct (runChain c) as [pushed [e|]]; [eexists; reflexivity|].
    apply IH. cbn in H, Hp. rewrite weight_app. lia.
Qed.

(** The loop on a queue whose entries, with those scheduled on the way, are
    [done], then [thrower], then [retained]. *)
Lemma flushLoop_throw (done : list Callback) : forall fuel queue thrower retained e,
  (weight queue <= fuel)%nat ->
  queue ++ flat_map pushedBy (done ++ [thrower]) = done ++ thrower :: retained ->
  Forall completes done ->
  throws e thrower ->
  flushLoop fuel queue = Some (Threw e retained).
Proof.
  induction done as [|d ds IH]; intros fuel queue thrower retained e Hf Hq Hd Ht.
  - cbn in Hq. rewrite app_nil_r in Hq.
    destruct queue as [|c q1].
    + exfalso. cbn in Hq. pose proof (weight_pushedBy thrower) as Hw.
      rewrite Hq in Hw. cbn in Hw. lia.
    + cbn in Hq. injection Hq as -> Hr.
      cbn in Hf. pose proof (size_pos thrower).
      destruct fuel as [|fuel]; [lia|]. cbn.
      unfold throws in Ht. unfold pushedBy in Hr.
      destruct (runChain thrower) as [pushed r]. cbn in Ht, Hr. subst r.
      rewrite Hr. reflexivity.
  - inversion Hd as [|? ? Hd1 Hd2]; subst.
    destruct queue as [|c q1].
    + exfalso.
      assert (Hne : (d :: ds) ++ [thrower] <> []) by (cbn; congruence).
      pose proof (weight_flat_map _ Hne) as Hw.
      change ([] ++ flat_map pushedBy ((d :: ds) ++ [thrower]))
        with (flat_map pushedBy ((d :: ds) ++ [thrower])) in Hq.
      rewrite Hq in Hw. rewrite !weight_app in Hw. cbn [weight] in Hw. lia.
    + cbn [app flat_map] in Hq. injection Hq as -> Hr.
      cbn in Hf. pose proof (size_pos d).
      destruct fuel as [|fuel]; [lia|]. cbn [flushLoop].
      pose proof (weight_pushedBy d) as Hw.
      unfold completes in Hd1. unfold pushedBy in Hr, Hw.
      destruct (runChain d) as [pushed r]. cbn in Hd1, Hr, Hw. subst r.
      apply (IH fuel (q1 ++ pushed) thrower retained e).
      * rewrite weight_app. lia.
      * rewrite <- app_assoc. exact Hr.
      * assumption.
      * assumption.
Qed.

(** *** The claim about the flush *)

(** C9 (sync-queue flush error recovery).  Let the queue, together with the
    callbacks scheduled while it is flushed, consist of [done], whose entries
    all complete, then [thrower], which throws [e], then [retained].  Then
    [flushSyncCallbackQueueImpl] throws [e] to its caller, after it has stored
    exactly [retained], every entry after the throwing one in order, as the
    new [syncQueue], has asked the host scheduler for a run of
    [flushSyncCallbackQueue] at immediate priority, and has reset
    [isFlushingSyncQueue]. *)
Theorem flush_error_recovery (s : State) (queue done retained : list Callback)
    (thrower : Callback) (e : Err) (fuel : nat) :
  isFlushingSyncQueue s = false ->
  syncQueue s = Some queue ->
  queue ++ flat_map pushedBy (done ++ [thrower]) = done ++ thrower :: retained ->
  Forall completes done ->
  throws e thrower ->
  (weight queue <= fuel)%nat ->
  flushSyncCallbackQueueImpl fuel s =
  Some (mkState (Some retained) (immediateQueueCallbackNode s) false
          (hostTasks s ++
             [mkHostEntry Scheduler_ImmediatePriority Task_flushSyncCallbackQueue false]),
        Some e).
Proof.
  intros Hfl Hq Hdec Hdone Hthrow Hfuel.
  unfold flushSyncCallbackQueueImpl. rewrite Hfl, Hq.
  rewrite (flushLoop_throw done fuel queue thrower retained e Hfuel Hdec Hdone Hthrow).
  reflexivity.
Qed.

(** *** Progress of a flush, and what scheduling asks of the host *)

Lemma flushLoop_progress (fuel : nat) : forall todo,
  (weight todo <= fuel)%nat ->
  flushLoop fuel todo = Some Finished \/
  exists e remaining,
    flushLoop fuel todo = Some (Threw e remaining) /\ (weight remaining < weight todo)%nat.
Proof.
  induction fuel as [|fuel IH]; intros [|c rest] H; cbn [flushLoop];
    try (left; reflexivity).
  - cbn in H. pose proof (size_pos c). lia.
  - pose proof (weight_pushedBy c) as Hp. unfold pushedBy in Hp.
    destruct (runChain c) as [pushed [e|]]; cbn in Hp.
    + right. exists e, (rest ++ pushed). split; [reflexivity|].
      rewrite weight_app. cbn. lia.
    + assert (Hw : (weight (rest ++ pushed) <= fuel)%nat)
        by (rewrite weight_app; cbn in H; lia).
      destruct (IH (rest ++ pushed) Hw) as [E|(e & rem & E & Hlt)].
      * left. exact E.
      * right. exists e, rem. split; [exact E|].
        rewrite weight_app in Hlt. cbn. lia.
Qed.

Lemma flush_progress_aux (s : State) (queue : list Callback) (fuel : nat) :
  isFlushingSyncQueue s = false ->
  syncQueue s = Some queue ->
  (weight queue <= fuel)%nat ->
  exists s' r,
    flushSyncCallbackQueueImpl fuel s = Some (s', r) /\
    isFlushingSyncQueue s' = false /\
    immediateQueueCallbackNode s' = immediateQueueCallbackNode s /\
    ((r = None /\ syncQueue s' = None /\ hostTasks s' = hostTasks s) \/
     (exists e retained,
         r = Some e /\ syncQueue s' = Some retained /\
         (weight retained < weight queue)%nat /\
         hostTasks s' = hostTasks s ++
           [mkHostEntry Scheduler_ImmediatePriority Task_flushSyncCallbackQueue false])).
Proof.
  intros Hfl Hq Hfuel. unfold flushSyncCallbackQueueImpl. rewrite Hfl, Hq.
  destruct (flushLoop_progress fuel queue Hfuel) as [E|(e & rem & E & Hlt)]; rewrite E.
  - eexists _, _. split; [reflexivity|]. cbn. repeat split. left. repeat split.
  - eexists _, _. split; [reflexivity|]. cbn. repeat split.
    right. exists e, rem. repeat split. exact Hlt.
Qed.

Definition scheduleAll (callbacks : list Callback) (s : State) : State :=
  fold_left (fun acc c => scheduleSyncCallback c acc) callbacks s.

Lemma scheduleAll_queued (cs : list Callback) : forall s q,
  syncQueue s = Some q ->
  syncQueue (scheduleAll cs s) = Some (q ++ cs) /\
  hostTasks (scheduleAll cs s) = hostTasks s /\
  immediateQueueCallbackNode (scheduleAll cs s) = immediateQueueCallbackNode s /\
  isFlushingSyncQueue (scheduleAll cs s) = isFlushingSyncQueue s.
Proof.
  induction cs as [|c cs IH]; intros s q Hq; cbn [scheduleAll fold_left].
  - rewrite app_nil_r. repeat split. exact Hq.
  - destruct (IH (scheduleSyncCallback c s) (q ++ [c])) as (A & B & C & D).
    { unfold scheduleSyncCallback. rewrite Hq. reflexivity. }
    unfold scheduleAll in *. rewrite A, B, C, D. rewrite <- app_assoc.
    unfold scheduleSyncCallback. rewrite Hq. repeat split.
Qed.

Lemma schedule_once_aux (s : State) (c : Callback) (cs : list Callback) :
  syncQueue s = None ->
  let s' := scheduleAll (c :: cs) s in
  syncQueue s' = Some (c :: cs) /\
  hostTasks s' = hostTasks s ++
    [mkHostEntry Scheduler_ImmediatePriority Task_flushSyncCallbackQueueImpl false] /\
  immediateQueueCallbackNode s' = Some (length (hostTasks s)) /\
  isFlushingSyncQueue s' = isFlushingSyncQueue s.
Proof.
  intros Hq s'. subst s'. cbn [scheduleAll fold_left].
  destruct (scheduleAll_queued cs (scheduleSyncCallback c s) [c]) as (A & B & C & D).
  { unfold scheduleSyncCallback. rewrite Hq. reflexivity. }
  unfold scheduleAll in *. rewrite A, B, C, D.
  unfold scheduleSyncCallback. rewrite Hq. cbn. repeat split.
Qed.

(** scheduleSyncCallback: however many callbacks are scheduled on an empty
    queue, the queue holds them in the order scheduled and the host scheduler
    is asked for one task only, [flushSyncCallbackQueueImpl] at immediate
    priority, whose node is kept in [immediateQueueCallbackNode]. *)
Theorem schedule_once (s : State) (c : Callback) (cs : list Callback) :
  syncQueue s = None ->
  let s' := scheduleAll (c :: cs) s in
  syncQueue s' = Some (c :: cs) /\
  hostTasks s' = hostTasks s ++
    [mkHostEntry Scheduler_ImmediatePriority Task_flushSyncCallbackQueueImpl false] /\
  immediateQueueCallbackNode s' = Some (length (hostTasks s)) /\
  isFlushingSyncQueue s' = isFlushingSyncQueue s.
Proof.
  intros Hq s'. subst s'. cbn [scheduleAll fold_left].
  destruct (scheduleAll_queued cs (scheduleSyncCallback c s) [c]) as (A & B & C & D).
  { unfold scheduleSyncCallback. rewrite Hq. reflexivity. }
  unfold scheduleAll in *. rewrite A, B, C, D.
  unfold scheduleSyncCallback. rewrite Hq. cbn. repeat split.
Qed.

(** flushSyncCallbackQueue after scheduling: the host task that
    [scheduleSyncCallback] asked for is cancelled before the callbacks are
    run, and [immediateQueueCallbackNode] is null afterwards, whether the
    flush returns or throws; so the scheduler will not flush the same queue
    again. *)
Theorem flush_cancels_host_task (s : State) (c : Callback) (cs : list Callback)
    (fuel : nat) :
  syncQueue s = None ->
  isFlushingSyncQueue s = false ->
  (weight (c :: cs) <= fuel)%nat ->
  exists s' r,
    flushSyncCallbackQueue fuel (scheduleAll (c :: cs) s) = Some (s', r) /\
    immediateQueueCallbackNode s' = None /\
    hostTasks s' !! length (hostTasks s)
    = Some (mkHostEntry Scheduler_ImmediatePriority Task_flushSyncCallbackQueueImpl true) /\
    (r = None -> syncQueue s' = None).
Proof.
  intros Hq Hfl Hfuel.
  destruct (schedule_once_aux s c cs Hq) as (A & B & C & D).
  unfold flushSyncCallbackQueue. rewrite C.
  set (s1 := mkState _ None _ _).
  assert (H1 : isFlushingSyncQueue s1 = false)
    by (subst s1; cbn [isFlushingSyncQueue]; rewrite D; exact Hfl).
  assert (H2 : syncQueue s1 = Some (c :: cs)) by (subst s1; cbn [syncQueue]; exact A).
  destruct (flush_progress_aux s1 (c :: cs) fuel H1 H2 Hfuel)
    as (s' & r & E & _ & N & Hor).
  exists s', r. split; [exact E|]. split; [rewrite N; reflexivity|].
  assert (Ht : hostTasks s1 !! length (hostTasks s)
               = Some (mkHostEntry Scheduler_ImmediatePriority
                         Task_flushSyncCallbackQueueImpl true)).
  { subst s1. cbn [hostTasks]. unfold Scheduler_cancelCallback. rewrite B.
    rewrite list_lookup_alter, lookup_app_r by lia.
    rewrite Nat.sub_diag. destruct (decide _); [reflexivity|congruence]. }
  split.
  - destruct Hor as [(_ & _ & ->)|(e & rem & _ & _ & _ & ->)]; [exact Ht|].
    rewrite lookup_app_l; [exact Ht|]. apply lookup_lt_Some in Ht. exact Ht.
  - intros ->. destruct Hor as [(_ & Hn & _)|(e & rem & He & _)]; [exact Hn|discriminate].
Qed.

End Flush.

(** A queue of three entries: the first schedules a fourth callback and
    returns a continuation, the second throws, the third is never reached. *)
Section ThreeCallbacks.
Definition extra : @Callback nat := Done [].
Definition first : @Callback nat := Continue [extra] (Done []).
Definition second : @Callback nat := Throws [] 7%nat.
Definition third : @Callback nat := Done [].
Definition busy : @State nat := mkState (Some [first; second; third]) (Some 0%nat) false
  [mkHostEntry Scheduler_ImmediatePriority Task_flushSyncCallbackQueueImpl false].
End ThreeCallbacks.

Lemma flush_error_recovery_witness :
  flushSyncCallbackQueueImpl 10 busy =
  Some (mkState (Some [third; extra]) (Some 0%nat) false
          [mkHostEntry Scheduler_ImmediatePriority Task_flushSyncCallbackQueueImpl false;
           mkHostEntry Scheduler_ImmediatePriority Task_flushSyncCallbackQueue false],
        Some 7%nat).
Proof.
  apply (flush_error_recovery busy [first; second; third] [first] [third; extra] second
           7%nat 10).
  - reflexivity.
  - reflexivity.
  - reflexivity.
  - repeat constructor.
  - reflexivity.
  - vm_compute. lia.
Defined.

Section Idle.
Definition idleQueue : @State nat := mkState None None false [].
End Idle.

Lemma schedule_once_witness :
  syncQueue (scheduleAll [first; third] idleQueue) = Some [first; third] /\
  hostTasks (scheduleAll [first; third] idleQueue)
  = [mkHostEntry Scheduler_ImmediatePriority Task_flushSyncCallbackQueueImpl false].
Proof.
  destruct (schedule_once idleQueue first [third]) as (A & B & _).
  - reflexivity.
  - split; [exact A|exact B].
Defined.

Lemma flush_cancels_host_task_witness :
  exists s' r,
    flushSyncCallbackQueue 10 (scheduleAll [first; third] idleQueue) = Some (s', r) /\
    immediateQueueCallbackNode s' = None /\
    hostTasks s' !! 0%nat
    = Some (mkHostEntry Scheduler_ImmediatePriority Task_flushSyncCallbackQueueImpl true).
Proof.
  destruct (flush_cancels_host_task idleQueue first [third] 10)
    as (s' & r & E & N & T & _).
  - reflexivity.
  - reflexivity.
  - cbn. lia.
  - exists s', r. repeat split; assumption.
Defined.
End SyncQueue.


(** ** ReactFiber.js: fibers and their alternates

    Fibers are objects with identity: they live in a store and point at each
    other by address.  Fields of type [any] hold values of an arbitrary type
    [Val]; [None] stands for [null]. *)
Module Fiber.
Import SideEffectTags TypeOfMode.

Abbreviation addr := nat (only parsing).

Section Fibers.
Context {Val : Type}.
(** [enableProfilerTimer] of shared/ReactFeatureFlags and [NoWork] of
    ReactFiberExpirationTime.js. *)
Variable enableProfilerTimer : bool.
Variable NoWork : Z.

Record Dependencies : Type := mkDependencies {
  depExpirationTime : Z;
  firstContext : option Val;
  responders : option Val
}.

Record Fiber : Type := mkFiber {
  tag : Z;
  key : option string;
  elementType : option Val;
  type : option Val;
  stateNode : option Val;
  return_ : option addr;
  child : option addr;
  sibling : option addr;
  index : Z;
  ref : option Val;
  pendingProps : option Val;
  memoizedProps : option Val;
  updateQueue : option addr;
  memoizedState : option Val;
  dependencies : option Dependencies;
  mode : Z;
  effectTag : Z;
  nextEffect : option addr;
  firstEffect : option addr;
  lastEffect : option addr;
  expirationTime : Z;
  childExpirationTime : Z;
  alternate : option addr;
  (* set only when enableProfilerTimer is on *)
  actualDuration : option Z;
  actualStartTime : option Z;
  selfBaseDuration : option Z;
  treeBaseDuration : option Z
}.

Abbreviation Store := (gmap nat Fiber).

(** [new FiberNode(tag, pendingProps, key, mode)]. *)
Definition createFiber (tag0 : Z) (pendingProps0 : option Val) (key0 : option string)
    (mode0 : Z) : Fiber :=
  mkFiber tag0 key0 None None None
          None None None 0
          None pendingProps0 None None None None
          mode0
          NoEffect None None None
          NoWork NoWork
          None
          (if enableProfilerTimer then Some 0 else None)
          (if enableProfilerTimer then Some (-1) else None)
          (if enableProfilerTimer then Some 0 else None)
          (if enableProfilerTimer then Some 0 else None).

(** Single-field writes. *)
Definition set_alternate (v : option addr) (f : Fiber) : Fiber :=
  mkFiber (tag f) (key f) (elementType f) (type f) (stateNode f) (return_ f) (child f)
    (sibling f) (index f) (ref f) (pendingProps f) (memoizedProps f) (updateQueue f)
    (memoizedState f) (dependencies f) (mode f) (effectTag f) (nextEffect f)
    (firstEffect f) (lastEffect f) (expirationTime f) (childExpirationTime f) v
    (actualDuration f) (actualStartTime f) (selfBaseDuration f) (treeBaseDuration f).

Definition set_updateQueue (v : option addr) (f : Fiber) : Fiber :=
  mkFiber (tag f) (key f) (elementType f) (type f) (stateNode f) (return_ f) (child f)
    (sibling f) (index f) (ref f) (pendingProps f) (memoizedProps f) v
    (memoizedState f) (dependencies f) (mode f) (effectTag f) (nextEffect f)
    (firstEffect f) (lastEffect f) (expirationTime f) (childExpirationTime f) (alternate f)
    (actualDuration f) (actualStartTime f) (selfBaseDuration f) (treeBaseDuration f).

Definition set_effectTag (v : Z) (f : Fiber) : Fiber :=
  mkFiber (tag f) (key f) (elementType f) (type f) (stateNode f) (return_ f) (child f)
    (sibling f) (index f) (ref f) (pendingProps f) (memoizedProps f) (updateQueue f)
    (memoizedState f) (dependencies f) (mode f) v (nextEffect f)
    (firstEffect f) (lastEffect f) (expirationTime f) (childExpirationTime f) (alternate f)
    (actualDuration f) (actualStartTime f) (selfBaseDuration f) (treeBaseDuration f).

Definition set_nextEffect (v : option addr) (f : Fiber) : Fiber :=
  mkFiber (tag f) (key f) (elementType f) (type f) (stateNode f) (return_ f) (child f)
    (sibling f) (index f) (ref f) (pendingProps f) (memoizedProps f) (updateQueue f)
    (memoizedState f) (dependencies f) (mode f) (effectTag f) v
    (firstEffect f) (lastEffect f) (expirationTime f) (childExpirationTime f) (alternate f)
    (actualDuration f) (actualStartTime f) (selfBaseDuration f) (treeBaseDuration f).

Definition set_expirationTime (v : Z) (f : Fiber) : Fiber :=
  mkFiber (tag f) (key f) (elementType f) (type f) (stateNode f) (return_ f) (child f)
    (sibling f) (index f) (ref f) (pendingProps f) (memoizedProps f) (updateQueue f)
    (memoizedState f) (dependencies f) (mode f) (effectTag f) (nextEffect f)
    (firstEffect f) (lastEffect f) v (childExpirationTime f) (alternate f)
    (actualDuration f) (actualStartTime f) (selfBaseDuration f) (treeBaseDuration f).

Definition set_childExpirationTime (v : Z) (f : Fiber) : Fiber :=
  mkFiber (tag f) (key f) (elementType f) (type f) (stateNode f) (return_ f) (child f)
    (sibling f) (index f) (ref f) (pendingProps f) (memoizedProps f) (updateQueue f)
    (memoizedState f) (dependencies f) (mode f) (effectTag f) (nextEffect f)
    (firstEffect f) (lastEffect f) (expirationTime f) v (alternate f)
    (actualDuration f) (actualStartTime f) (selfBaseDuration f) (treeBaseDuration f).

Definition set_durations (actual treeBase : option Z) (f : Fiber) : Fiber :=
  mkFiber (tag f) (key f) (elementType f) (type f) (stateNode f) (return_ f) (child f)
    (sibling f) (index f) (ref f) (pendingProps f) (memoizedProps f) (updateQueue f)
    (memoizedState f) (dependencies f) (mode f) (effectTag f) (nextEffect f)
    (firstEffect f) (lastEffect f) (expirationTime f) (childExpirationTime f) (alternate f)
    actual (actualStartTime f) (selfBaseDuration f) treeBase.

Definition cloneDependencies (d : option Dependencies) : option Dependencies :=
  match d with
  | None => None
  | Some x => Some (mkDependencies (depExpirationTime x) (firstContext x) (responders x))
  end.

(** The first branch of [createWorkInProgress]: a new fiber paired with
    [current] (whose own [alternate] is written separately). *)
Definition freshAlternate (current : addr) (cur : Fiber) (pendingProps0 : option Val) : Fiber :=
  let w := createFiber (tag cur) pendingProps0 (key cur) (mode cur) in
  mkFiber (tag w) (key w) (elementType cur) (type cur) (stateNode cur) (return_ w) (child w)
    (sibling w) (index w) (ref w) (pendingProps w) (memoizedProps w) (updateQueue w)
    (memoizedState w) (dependencies w) (mode w) (effectTag w) (nextEffect w)
    (firstEffect w) (lastEffect w) (expirationTime w) (childExpirationTime w) (Some current)
    (actualDuration w) (actualStartTime w) (selfBaseDuration w) (treeBaseDuration w).

(** The second branch: the existing alternate, made ready for reuse. *)
Definition reuseAlternate (w : Fiber) (pendingProps0 : option Val) : Fiber :=
  mkFiber (tag w) (key w) (elementType w) (type w) (stateNode w) (return_ w) (child w)
    (sibling w) (index w) (ref w) pendingProps0 (memoizedProps w) (updateQueue w)
    (memoizedState w) (dependencies w) (mode w)
    NoEffect None None None
    (expirationTime w) (childExpirationTime w) (alternate w)
    (if enableProfilerTimer then Some 0 else actualDuration w)
    (if enableProfilerTimer then Some (-1) else actualStartTime w)
    (selfBaseDuration w) (treeBaseDuration w).

(** The assignments common to both branches. *)
Definition copyFromCurrent (w cur : Fiber) : Fiber :=
  mkFiber (tag w) (key w) (elementType w) (type w) (stateNode w) (return_ w) (child cur)
    (sibling cur) (index cur) (ref cur) (pendingProps w) (memoizedProps cur) (updateQueue cur)
    (memoizedState cur) (cloneDependencies (dependencies cur)) (mode w)
    (effectTag w) (nextEffect w) (firstEffect w) (lastEffect w)
    (expirationTime cur) (childExpirationTime cur) (alternate w)
    (actualDuration w) (actualStartTime w)
    (if enableProfilerTimer then selfBaseDuration cur else selfBaseDuration w)
    (if enableProfilerTimer then treeBaseDuration cur else treeBaseDuration w).

(** [createWorkInProgress(current, pendingProps, expirationTime)]: the new
    store and the address returned.  [None] only if an address dangles. *)
Definition createWorkInProgress (h : Store) (current : addr) (pendingProps0 : option Val)
    (expirationTime0 : Z) : option (Store * addr) :=
  cur ← h !! current;
  '(h1, w) ←
    match alternate cur with
    | None =>
        let w := fresh (dom h) in
        Some (alter (set_alternate (Some w)) current
                (<[w := freshAlternate current cur pendingProps0]> h), w)
    | Some w =>
        wf ← h !! w;
        Some (<[w := reuseAlternate wf pendingProps0]> h, w)
    end;
  cur1 ← h1 !! current;
  wf1 ← h1 !! w;
  Some (<[w := copyFromCurrent wf1 cur1]> h1, w).

(** [resetWorkInProgress(workInProgress, renderExpirationTime)]. *)
Definition resetWorkInProgress (h : Store) (workInProgress : addr)
    (renderExpirationTime : Z) : option (Store * addr) :=
  w ← h !! workInProgress;
  let w1 :=
    mkFiber (tag w) (key w) (elementType w) (type w) (stateNode w) (return_ w) (child w)
      (sibling w) (index w) (ref w) (pendingProps w) (memoizedProps w) (updateQueue w)
      (memoizedState w) (dependencies w) (mode w)
      (Z.land (effectTag w) Placement) None None None
      (expirationTime w) (childExpirationTime w) (alternate w)
      (actualDuration w) (actualStartTime w) (selfBaseDuration w) (treeBaseDuration w) in
  let h1 := <[workInProgress := w1]> h in
  match alternate w1 with
  | None =>
      let w2 :=
        mkFiber (tag w1) (key w1) (elementType w1) (type w1) (stateNode w1) (return_ w1)
          None (sibling w1) (index w1) (ref w1) (pendingProps w1) None None
          None None (mode w1)
          (effectTag w1) (nextEffect w1) (firstEffect w1) (lastEffect w1)
          renderExpirationTime NoWork (alternate w1)
          (actualDuration w1) (actualStartTime w1)
          (if enableProfilerTimer then Some 0 else selfBaseDuration w1)
          (if enableProfilerTimer then Some 0 else treeBaseDuration w1) in
      Some (<[workInProgress := w2]> h1, workInProgress)
  | Some c =>
      cur ← h1 !! c;
      let w2 :=
        mkFiber (tag w1) (key w1) (elementType w1) (type w1) (stateNode w1) (return_ w1)
          (child cur) (sibling w1) (index w1) (ref w1) (pendingProps w1)
          (memoizedProps cur) (updateQueue cur)
          (memoizedState cur) (cloneDependencies (dependencies cur)) (mode w1)
          (effectTag w1) (nextEffect w1) (firstEffect w1) (lastEffect w1)
          (expirationTime cur) (childExpirationTime cur) (alternate w1)
          (actualDuration w1) (actualStartTime w1)
          (if enableProfilerTimer then selfBaseDuration cur else selfBaseDuration w1)
          (if enableProfilerTimer then treeBaseDuration cur else treeBaseDuration w1) in
      Some (<[workInProgress := w2]> h1, workInProgress)
  end.

(** *** The claim about reuse *)

(** C8, as the code has it (alternate reuse reset).  When [current] already
    has an alternate, [createWorkInProgress] allocates nothing and returns that
    alternate, with the new pending props, its effect tag reset to [NoEffect]
    (no bit of the previous tag survives, the placement bit included), its
    [nextEffect], [firstEffect] and [lastEffect] cleared, and its child
    pointer, memoized props and state, update queue and expiration times
    copied from [current]. *)
Theorem reuse_resets (h : Store) (current w : addr) (cur wf : Fiber)
    (pendingProps0 : option Val) (expirationTime0 : Z) :
  h !! current = Some cur ->
  alternate cur = Some w ->
  h !! w = Some wf ->
  exists h' wf',
    createWorkInProgress h current pendingProps0 expirationTime0 = Some (h', w) /\
    dom h' = dom h /\
    h' !! w = Some wf' /\
    effectTag wf' = NoEffect /\
    nextEffect wf' = None /\ firstEffect wf' = None /\ lastEffect wf' = None /\
    pendingProps wf' = pendingProps0 /\
    child wf' = child cur /\
    memoizedProps wf' = memoizedProps cur /\
    memoizedState wf' = memoizedState cur /\
    updateQueue wf' = updateQueue cur /\
    expirationTime wf' = expirationTime cur /\
    childExpirationTime wf' = childExpirationTime cur.
Proof.
  intros Hc Ha Hw. unfold createWorkInProgress.
  rewrite Hc. cbn. rewrite Ha, Hw. cbn.
  assert (Hd : forall x : Fiber, dom (<[w:=x]> (<[w:=reuseAlternate wf pendingProps0]> h))
                                 = dom h).
  { intros x. rewrite dom_insert_lookup_L by (rewrite lookup_insert_eq; eauto).
    apply dom_insert_lookup_L. eauto. }
  destruct (decide (w = current)) as [->|Hne].
  - assert (wf = cur) by congruence. subst wf.
    eexists _, _. split.
    { rewrite lookup_insert_eq. cbn. reflexivity. }
    split; [apply Hd|].
    rewrite lookup_insert_eq. repeat split; reflexivity.
  - eexists _, _. split.
    { rewrite (lookup_insert_ne _ w current) by assumption. rewrite Hc. cbn.
      rewrite lookup_insert_eq. cbn. reflexivity. }
    split; [apply Hd|].
    rewrite lookup_insert_eq. repeat split; reflexivity.
Qed.

(** [resetWorkInProgress] is the one that keeps a bit of the old effect tag,
    and it keeps the placement bit rather than dropping it. *)
Lemma reset_keeps_placement (h : Store) (w : addr) (wf : Fiber) (t : Z) :
  h !! w = Some wf ->
  alternate wf = None ->
  exists h' wf',
    resetWorkInProgress h w t = Some (h', w) /\
    h' !! w = Some wf' /\
    effectTag wf' = Z.land (effectTag wf) Placement.
Proof.
  intros Hw Ha. unfold resetWorkInProgress. rewrite Hw. cbn. rewrite Ha.
  eexists _, _. split; [reflexivity|]. rewrite lookup_insert_eq.
  split; reflexivity.
Qed.

(** *** The pair of a fiber and its alternate *)

Lemma set_alternate_same (f : Fiber) : set_alternate (alternate f) f = f.
Proof. destruct f; reflexivity. Qed.

(** createWorkInProgress keeps the two fibers of a node paired: on a store
    where the alternate of [current], if any, points back at [current], the
    call returns a fiber [w] other than [current] whose [alternate] is
    [current], and [current.alternate] is [w]; nothing else of [current] is
    written, no other fiber is touched, and when [current] had no alternate
    the fiber returned is a new one, whose [return] pointer is null. *)
Theorem work_in_progress_paired (h : Store) (current : addr) (cur : Fiber)
    (pendingProps0 : option Val) (expirationTime0 : Z) :
  h !! current = Some cur ->
  (forall w, alternate cur = Some w ->
             w <> current /\ exists wf, h !! w = Some wf /\ alternate wf = Some current) ->
  exists h' w wf',
    createWorkInProgress h current pendingProps0 expirationTime0 = Some (h', w) /\
    w <> current /\
    h' !! current = Some (set_alternate (Some w) cur) /\
    h' !! w = Some wf' /\
    alternate wf' = Some current /\
    (alternate cur = None -> h !! w = None /\ return_ wf' = None) /\
    (forall x, x <> w -> x <> current -> h' !! x = h !! x).
Proof.
  intros Hc Hback. unfold createWorkInProgress. rewrite Hc. cbn.
  destruct (alternate cur) as [w|] eqn:Ea.
  - destruct (Hback w eq_refl) as (Hne & wf & Hw & Hwa).
    rewrite Hw. cbn.
    rewrite (lookup_insert_ne _ w current) by assumption. rewrite Hc. cbn.
    rewrite lookup_insert_eq. cbn.
    eexists _, w, _. split; [reflexivity|]. split; [exact Hne|].
    split.
    { rewrite !(lookup_insert_ne _ w current) by assumption.
      rewrite Hc, <- Ea, set_alternate_same. reflexivity. }
    split; [rewrite lookup_insert_eq; reflexivity|].
    split; [cbn; exact Hwa|].
    split; [discriminate|].
    intros x Hx _. rewrite !lookup_insert_ne by congruence. reflexivity.
  - set (w := fresh (dom h)).
    assert (Hfresh : h !! w = None) by (apply not_elem_of_dom, is_fresh).
    assert (Hne : w <> current) by (intros E; rewrite E in Hfresh; congruence).
    cbn. rewrite lookup_alter_eq, (lookup_insert_ne _ w current), Hc by assumption. cbn.
    rewrite (lookup_alter_ne _ _ current w) by congruence.
    rewrite lookup_insert_eq. cbn.
    eexists _, w, _. split; [reflexivity|]. split; [exact Hne|].
    split.
    { rewrite (lookup_insert_ne _ w current) by assumption.
      rewrite lookup_alter_eq, (lookup_insert_ne _ w current), Hc by assumption.
      reflexivity. }
    split; [rewrite lookup_insert_eq; reflexivity|].
    split; [reflexivity|].
    split; [intros _; split; [exact Hfresh|reflexivity]|].
    intros x Hx Hxc. rewrite lookup_insert_ne by congruence.
    rewrite lookup_alter_ne by congruence.
    rewrite lookup_insert_ne by congruence. reflexivity.
Qed.

Lemma land_Placement (x : Z) :
  Z.land x Placement = NoEffect \/ Z.land x Placement = Placement.
Proof.
  destruct (Z.testbit x 1) eqn:E; [right|left]; apply Z.bits_inj'; intros n Hn;
    rewrite Z.land_spec; change Placement with (2 ^ 1); change NoEffect with 0;
    rewrite ?Z.bits_0, Z.pow2_bits_eqb by lia;
    destruct (Z.eqb_spec 1 n) as [<-|]; rewrite ?E, ?andb_false_r; reflexivity.
Qed.

(** resetWorkInProgress: of the effect tag at most the [Placement] bit
    survives and the three effect-list pointers are null; a fiber without
    alternate is emptied ([child], memoized props and state, update queue and
    dependencies null, [childExpirationTime] at [NoWork]) and given the render
    expiration time, a fiber with an alternate takes these fields from the
    alternate.  The fiber returned is the one passed in. *)
Theorem reset_work_in_progress (h : Store) (w : addr) (wf : Fiber) (t : Z) :
  h !! w = Some wf ->
  (forall c, alternate wf = Some c -> is_Some (h !! c)) ->
  exists h' wf',
    resetWorkInProgress h w t = Some (h', w) /\
    h' !! w = Some wf' /\
    (effectTag wf' = NoEffect \/ effectTag wf' = Placement) /\
    nextEffect wf' = None /\ firstEffect wf' = None /\ lastEffect wf' = None /\
    match alternate wf with
    | None =>
        child wf' = None /\ memoizedProps wf' = None /\ memoizedState wf' = None /\
        updateQueue wf' = None /\ dependencies wf' = None /\
        expirationTime wf' = t /\ childExpirationTime wf' = NoWork
    | Some c =>
        forall cur, h !! c = Some cur ->
          child wf' = child cur /\ memoizedProps wf' = memoizedProps cur /\
          memoizedState wf' = memoizedState cur /\ updateQueue wf' = updateQueue cur /\
          expirationTime wf' = expirationTime cur /\
          childExpirationTime wf' = childExpirationTime cur
    end.
Proof.
  intros Hw Halt. unfold resetWorkInProgress. rewrite Hw. cbn.
  destruct (alternate wf) as [c|] eqn:Ea.
  - destruct (Halt c eq_refl) as [cur Hcur].
    destruct (decide (c = w)) as [->|Hne].
    + rewrite lookup_insert_eq. cbn.
      eexists _, _. split; [reflexivity|]. rewrite lookup_insert_eq.
      split; [reflexivity|]. cbn. split; [apply land_Placement|].
      split; [reflexivity|]. split; [reflexivity|]. split; [reflexivity|].
      intros cur' Hcur'. assert (cur' = wf) by congruence. subst cur'.
      repeat split; reflexivity.
    + rewrite (lookup_insert_ne _ w c) by congruence. rewrite Hcur. cbn.
      eexists _, _. split; [reflexivity|]. rewrite lookup_insert_eq.
      split; [reflexivity|]. cbn. split; [apply land_Placement|].
      split; [reflexivity|]. split; [reflexivity|]. split; [reflexivity|].
      intros cur' Hcur'. assert (cur' = cur) by congruence. subst cur'.
      repeat split; reflexivity.
  - eexists _, _. split; [reflexivity|]. rewrite lookup_insert_eq.
    split; [reflexivity|]. cbn. split; [apply land_Placement|].
    repeat split; reflexivity.
Qed.

End Fibers.

(** A pair of fibers after a commit: fiber 0 is current, fiber 1 its
    alternate, left with [Placement | Update] from the previous render. *)
Section Pair.
Definition currentFiber : @Fiber unit :=
  mkFiber 5 None None None None None (Some 2%nat) None 0 None None (Some tt) (Some 9%nat)
    (Some tt) None 0 0 None None None 0 0 (Some 1%nat) None None None None.
Definition staleAlternate : @Fiber unit :=
  mkFiber 5 None None None None None None None 0 None None None None
    None None 0 PlacementAndUpdate (Some 3%nat) (Some 3%nat) (Some 3%nat) 0 0 (Some 0%nat)
    None None None None.
Definition pairStore : gmap nat (@Fiber unit) :=
  <[0%nat := currentFiber]> (<[1%nat := staleAlternate]> ∅).
End Pair.

Lemma reuse_resets_witness :
  exists h' wf',
    createWorkInProgress false 0 pairStore 0%nat (Some tt) 7 = Some (h', 1%nat) /\
    dom h' = dom pairStore /\
    h' !! 1%nat = Some wf' /\
    effectTag wf' = NoEffect /\
    nextEffect wf' = None /\ firstEffect wf' = None /\ lastEffect wf' = None /\
    pendingProps wf' = Some tt /\
    child wf' = Some 2%nat /\
    memoizedProps wf' = Some tt /\
    memoizedState wf' = Some tt /\
    updateQueue wf' = Some 9%nat /\
    expirationTime wf' = 0 /\
    childExpirationTime wf' = 0.
Proof.
  apply (reuse_resets false 0 pairStore 0%nat 1%nat currentFiber staleAlternate (Some tt) 7).
  - reflexivity.
  - reflexivity.
  - reflexivity.
Defined.

(** The effect tag of the reused alternate is not its previous value minus
    the placement bit: [Placement | Update] becomes [NoEffect], not [Update]. *)
Lemma reuse_effect_tag_counterexample :
  exists h' wf',
    createWorkInProgress false 0 pairStore 0%nat (Some tt) 7 = Some (h', 1%nat) /\
    h' !! 1%nat = Some wf' /\
    Z.land (effectTag staleAlternate) (Z.lnot Placement) = SideEffectTags.Update /\
    effectTag wf' <> Z.land (effectTag staleAlternate) (Z.lnot Placement).
Proof.
  eexists _, _. split; [reflexivity|]. split; [reflexivity|].
  split; [reflexivity|]. cbn. discriminate.
Qed.

(** A store with one fiber that has no alternate yet. *)
Section Lone.
Definition loneFiber : @Fiber unit :=
  mkFiber 1 None None (Some tt) (Some tt) None None None 0 None None (Some tt) None
    (Some tt) None 0 Update None None None 5 0 None None None None None.
Definition loneStore : gmap nat (@Fiber unit) := <[0%nat := loneFiber]> ∅.
End Lone.

Lemma work_in_progress_paired_witness :
  exists h' w wf',
    createWorkInProgress false 0 loneStore 0%nat (Some tt) 7 = Some (h', w) /\
    w <> 0%nat /\
    h' !! 0%nat = Some (set_alternate (Some w) loneFiber) /\
    h' !! w = Some wf' /\
    alternate wf' = Some 0%nat.
Proof.
  destruct (work_in_progress_paired false 0 loneStore 0%nat loneFiber (Some tt) 7)
    as (h' & w & wf' & E & Hne & Hc & Hw & Ha & _).
  - reflexivity.
  - intros w Hw. discriminate.
  - exists h', w, wf'. repeat split; assumption.
Defined.

Lemma reset_work_in_progress_witness :
  exists h' wf',
    resetWorkInProgress false 0 pairStore 1%nat 7 = Some (h', 1%nat) /\
    h' !! 1%nat = Some wf' /\
    (effectTag wf' = NoEffect \/ effectTag wf' = Placement) /\
    nextEffect wf' = None.
Proof.
  destruct (reset_work_in_progress false 0 pairStore 1%nat staleAlternate 7)
    as (h' & wf' & E & Hw & Ht & Hn & _).
  - reflexivity.
  - intros c Hc. injection Hc as <-. eexists. reflexivity.
  - exists h', wf'. repeat split; assumption.
Defined.
End Fiber.


(** ** ReactUpdateQueue.js: enqueueing on a pair of fibers

    [enqueueUpdate] writes through aliases: the two queues of a fiber pair are
    different objects that share the tail of one linked list of updates.  So
    here updates, queues and fibers are objects in a heap. *)
Module LinkedQueue.

Section Enqueue.
Context {Val : Type}.

Record Update : Type := mkUpdate {
  expirationTime : Z;
  suspenseConfig : option Val;
  tag : UpdateQueue.UpdateTag;
  payload : option Val;
  callback : option Val;
  next : option nat;
  nextEffect : option nat
}.

Record UpdateQueue : Type := mkUpdateQueue {
  baseState : option Val;
  firstUpdate : option nat;
  lastUpdate : option nat;
  firstCapturedUpdate : option nat;
  lastCapturedUpdate : option nat;
  firstEffect : option nat;
  lastEffect : option nat;
  firstCapturedEffect : option nat;
  lastCapturedEffect : option nat
}.

Record Heap : Type := mkHeap {
  fibers : gmap nat (@Fiber.Fiber Val);
  queues : gmap nat UpdateQueue;
  updates : gmap nat Update
}.

Definition createUpdateQueue (base : option Val) : UpdateQueue :=
  mkUpdateQueue base None None None None None None None None.

Definition cloneUpdateQueue (currentQueue : UpdateQueue) : UpdateQueue :=
  mkUpdateQueue (baseState currentQueue) (firstUpdate currentQueue) (lastUpdate currentQueue)
    None None None None None None.

Definition createUpdate (expirationTime0 : Z) (suspenseConfig0 : option Val) : Update :=
  mkUpdate expirationTime0 suspenseConfig0 UpdateQueue.UpdateState None None None None.

Definition set_next (v : option nat) (u : Update) : Update :=
  mkUpdate (expirationTime u) (suspenseConfig u) (tag u) (payload u) (callback u) v
    (nextEffect u).

Definition set_ends (first last : option nat) (q : UpdateQueue) : UpdateQueue :=
  mkUpdateQueue (baseState q) first last (firstCapturedUpdate q) (lastCapturedUpdate q)
    (firstEffect q) (lastEffect q) (firstCapturedEffect q) (lastCapturedEffect q).

(** A new queue object. *)
Definition allocQueue (q : UpdateQueue) (h : Heap) : Heap * nat :=
  let a := fresh (dom (queues h)) in
  (mkHeap (fibers h) (<[a := q]> (queues h)) (updates h), a).

(** [fiber.updateQueue = queue]. *)
Definition setFiberQueue (fiber queue : nat) (h : Heap) : Heap :=
  mkHeap (alter (Fiber.set_updateQueue (Some queue)) fiber (fibers h)) (queues h) (updates h).

Definition appendUpdateToQueue (queue update : nat) (h : Heap) : option Heap :=
  q ← queues h !! queue;
  match lastUpdate q with
  | None =>
      (* Queue is empty *)
      Some (mkHeap (fibers h)
              (<[queue := set_ends (Some update) (Some update) q]> (queues h))
              (updates h))
  | Some l =>
      u ← updates h !! l;
      Some (mkHeap (fibers h)
              (<[queue := set_ends (firstUpdate q) (Some update) q]> (queues h))
              (<[l := set_next (Some update) u]> (updates h)))
  end.

(** The first half of [enqueueUpdate]: update queues are created lazily.
    Returns [queue1] and [queue2]. *)
Definition ensureQueues (fiber : nat) (h : Heap) : option (Heap * nat * option nat) :=
  f ← fibers h !! fiber;
  match Fiber.alternate f with
  | None =>
      (* There's only one fiber. *)
      match Fiber.updateQueue f with
      | Some queue1 => Some (h, queue1, None)
      | None =>
          let '(h1, queue1) := allocQueue (createUpdateQueue (Fiber.memoizedState f)) h in
          Some (setFiberQueue fiber queue1 h1, queue1, None)
      end
  | Some alt =>
      (* There are two owners. *)
      a ← fibers h !! alt;
      match Fiber.updateQueue f, Fiber.updateQueue a with
      | None, None =>
          (* Neither fiber has an update queue. Create new ones. *)
          let '(h1, queue1) := allocQueue (createUpdateQueue (Fiber.memoizedState f)) h in
          let h2 := setFiberQueue fiber queue1 h1 in
          a2 ← fibers h2 !! alt;
          let '(h3, queue2) := allocQueue (createUpdateQueue (Fiber.memoizedState a2)) h2 in
          Some (setFiberQueue alt queue2 h3, queue1, Some queue2)
      | None, Some queue2 =>
          (* Only one fiber has an update queue. Clone to create a new one. *)
          q2 ← queues h !! queue2;
          let '(h1, queue1) := allocQueue (cloneUpdateQueue q2) h in
          Some (setFiberQueue fiber queue1 h1, queue1, Some queue2)
      | Some queue1, None =>
          q1 ← queues h !! queue1;
          let '(h1, queue2) := allocQueue (cloneUpdateQueue q1) h in
          Some (setFiberQueue alt queue2 h1, queue1, Some queue2)
      | Some queue1, Some queue2 =>
          (* Both owners have an update queue. *)
          Some (h, queue1, Some queue2)
      end
  end.

(** The second half: append to one queue or to both. *)
Definition appendToQueues (queue1 : nat) (queue2 : option nat) (update : nat) (h : Heap)
    : option Heap :=
  match queue2 with
  | None => appendUpdateToQueue queue1 update h
  | Some queue2 =>
      if decide (queue1 = queue2) then
        (* There's only a single queue. *)
        appendUpdateToQueue queue1 update h
      else
        q1 ← queues h !! queue1;
        q2 ← queues h !! queue2;
        match lastUpdate q1, lastUpdate q2 with
        | Some _, Some _ =>
            (* Both queues are non-empty. The last update is the same in both
               lists, because of structural sharing. So, only append to one of
               the lists, but still update the lastUpdate pointer of queue2. *)
            h1 ← appendUpdateToQueue queue1 update h;
            q2' ← queues h1 !! queue2;
            Some (mkHeap (fibers h1)
                    (<[queue2 := set_ends (firstUpdate q2') (Some update) q2']> (queues h1))
                    (updates h1))
        | _, _ =>
            (* One of the queues is empty. Add the update to both queues. *)
            h1 ← appendUpdateToQueue queue1 update h;
            appendUpdateToQueue queue2 update h1
        end
  end.

Definition enqueueUpdate (fiber update : nat) (h : Heap) : option Heap :=
  '(h1, queue1, queue2) ← ensureQueues fiber h;
  appendToQueues queue1 queue2 update h1.

(** *** Reachability along [next] *)

Inductive reachable (us : gmap nat Update) : option nat -> nat -> Prop :=
| reach_here (a : nat) : reachable us (Some a) a
| reach_next (a : nat) (u : Update) (target : nat) :
    us !! a = Some u ->
    reachable us (next u) target ->
    reachable us (Some a) target.

(** [update] is on the chain of the queue object [queue]. *)
Definition queueHolds (h : Heap) (queue update : nat) : Prop :=
  exists q, queues h !! queue = Some q /\ reachable (updates h) (firstUpdate q) update.

(** [update] is on the chain of the queue that [fiber] points to. *)
Definition fiberHolds (h : Heap) (fiber update : nat) : Prop :=
  exists f queue,
    fibers h !! fiber = Some f /\ Fiber.updateQueue f = Some queue /\
    queueHolds h queue update.

(** A queue object exists and, when it is not empty, its [lastUpdate] is an
    update object on its own chain. *)
Definition tailOnChain (h : Heap) (queue : nat) : Prop :=
  exists q,
    queues h !! queue = Some q /\
    forall l, lastUpdate q = Some l ->
      is_Some (updates h !! l) /\ reachable (updates h) (firstUpdate q) l.

(** Two distinct non-empty queues share their tail: the last update of the
    first lies on the chain of the second (in particular when, as the code
    comment has it, the last update is the same in both lists). *)
Definition sharedTail (h : Heap) (queue1 queue2 : nat) : Prop :=
  forall q1 q2 l1 l2,
    queue1 <> queue2 ->
    queues h !! queue1 = Some q1 -> queues h !! queue2 = Some q2 ->
    lastUpdate q1 = Some l1 -> lastUpdate q2 = Some l2 ->
    reachable (updates h) (firstUpdate q2) l1.

(** What [enqueueUpdate] relies on: the fiber, its alternate and their queues
    are objects of the heap, and the queues are linked as above. *)
Definition wellLinked (h : Heap) (fiber : nat) : Prop :=
  exists f,
    fibers h !! fiber = Some f /\
    (forall queue1, Fiber.updateQueue f = Some queue1 -> tailOnChain h queue1) /\
    (forall alt, Fiber.alternate f = Some alt ->
       exists a,
         fibers h !! alt = Some a /\
         (forall queue2, Fiber.updateQueue a = Some queue2 -> tailOnChain h queue2) /\
         (forall queue1 queue2,
            Fiber.updateQueue f = Some queue1 -> Fiber.updateQueue a = Some queue2 ->
            sharedTail h queue1 queue2)).

(** *** Lemmas about appending *)

(** Linking [u] behind [l] puts [u] on every chain that reaches [l]. *)
Lemma reach_after_link (us : gmap nat Update) (start : option nat) (l : nat)
    (lo : Update) (u : nat) :
  reachable us start l ->
  us !! l = Some lo ->
  reachable (<[l := set_next (Some u) lo]> us) start u.
Proof.
  intros Hr Hl.
  assert (Hlink : reachable (<[l := set_next (Some u) lo]> us) (Some l) u).
  { eapply reach_next; [apply lookup_insert_eq|]. cbn. constructor. }
  induction Hr as [a|a o t Ha Hr IH]; [exact Hlink|].
  destruct (decide (a = t)) as [->|Hne]; [exact Hlink|].
  eapply reach_next; [rewrite lookup_insert_ne by congruence; exact Ha|].
  apply IH; assumption.
Qed.

Lemma append_empty (h : Heap) (queue update : nat) (q : UpdateQueue) :
  queues h !! queue = Some q ->
  lastUpdate q = None ->
  appendUpdateToQueue queue update h =
  Some (mkHeap (fibers h)
          (<[queue := set_ends (Some update) (Some update) q]> (queues h)) (updates h)).
Proof. intros Hq Hl. unfold appendUpdateToQueue. rewrite Hq. cbn. rewrite Hl. reflexivity. Qed.

Lemma append_nonempty (h : Heap) (queue update l : nat) (q : UpdateQueue) (lo : Update) :
  queues h !! queue = Some q ->
  lastUpdate q = Some l ->
  updates h !! l = Some lo ->
  appendUpdateToQueue queue update h =
  Some (mkHeap (fibers h)
          (<[queue := set_ends (firstUpdate q) (Some update) q]> (queues h))
          (<[l := set_next (Some update) lo]> (updates h))).
Proof.
  intros Hq Hl Hu. unfold appendUpdateToQueue. rewrite Hq. cbn. rewrite Hl, Hu. reflexivity.
Qed.

(** Appending to one queue. *)
Lemma append_holds (h : Heap) (queue update : nat) :
  tailOnChain h queue ->
  exists h',
    appendUpdateToQueue queue update h = Some h' /\
    fibers h' = fibers h /\
    queueHolds h' queue update.
Proof.
  intros (q & Hq & Ht).
  destruct (lastUpdate q) as [l|] eqn:Hl.
  - destruct (Ht l eq_refl) as [[lo Hlo] Hr].
    eexists. split; [apply (append_nonempty h queue update l q lo); assumption|].
    split; [reflexivity|].
    exists (set_ends (firstUpdate q) (Some update) q). cbn.
    split; [apply lookup_insert_eq|]. apply reach_after_link; assumption.
  - eexists. split; [apply (append_empty h queue update q); assumption|].
    split; [reflexivity|].
    exists (set_ends (Some update) (Some update) q). cbn.
    split; [apply lookup_insert_eq|]. constructor.
Qed.

(** The second half of [enqueueUpdate]: the update ends up on both chains. *)
Lemma appendToQueues_holds (h : Heap) (queue1 : nat) (queue2 : option nat) (update : nat) :
  tailOnChain h queue1 ->
  (forall q2, queue2 = Some q2 -> tailOnChain h q2 /\ sharedTail h queue1 q2) ->
  exists h',
    appendToQueues queue1 queue2 update h = Some h' /\
    fibers h' = fibers h /\
    queueHolds h' queue1 update /\
    (forall q2, queue2 = Some q2 -> queueHolds h' q2 update).
Proof.
  intros H1 H2. unfold appendToQueues.
  destruct queue2 as [queue2|].
  2:{ destruct (append_holds h queue1 update H1) as (h' & E & Hf & Hh).
      exists h'. repeat split; try assumption. intros q2 Hq2. discriminate. }
  destruct (decide (queue1 = queue2)) as [<-|Hne].
  { destruct (append_holds h queue1 update H1) as (h' & E & Hf & Hh).
    exists h'. repeat split; try assumption. intros q2 Hq2. congruence. }
  destruct (H2 queue2 eq_refl) as [T2 S]. clear H2.
  destruct H1 as (q1 & Hq1 & Ht1). destruct T2 as (q2 & Hq2 & Ht2).
  rewrite Hq1, Hq2. cbn.
  destruct (lastUpdate q1) as [l1|] eqn:Hl1; destruct (lastUpdate q2) as [l2|] eqn:Hl2.
  - (* both non-empty: one physical append *)
    destruct (Ht1 l1 eq_refl) as [[lo Hlo] Hr1].
    pose proof (S q1 q2 l1 l2 Hne Hq1 Hq2 Hl1 Hl2) as Hr2.
    rewrite (append_nonempty h queue1 update l1 q1 lo Hq1 Hl1 Hlo). cbn.
    rewrite lookup_insert_ne by assumption. rewrite Hq2. cbn.
    eexists. split; [reflexivity|]. split; [reflexivity|]. split.
    + exists (set_ends (firstUpdate q1) (Some update) q1). cbn.
      split; [rewrite lookup_insert_ne by congruence; apply lookup_insert_eq|].
      apply reach_after_link; assumption.
    + intros x Hx. injection Hx as <-.
      exists (set_ends (firstUpdate q2) (Some update) q2). cbn.
      split; [apply lookup_insert_eq|]. apply reach_after_link; assumption.
  - (* queue2 is empty *)
    destruct (Ht1 l1 eq_refl) as [[lo Hlo] Hr1].
    rewrite (append_nonempty h queue1 update l1 q1 lo Hq1 Hl1 Hlo). cbn.
    erewrite append_empty;
      [|cbn; rewrite lookup_insert_ne by assumption; exact Hq2|exact Hl2].
    cbn. eexists. split; [reflexivity|]. split; [reflexivity|]. split.
    + exists (set_ends (firstUpdate q1) (Some update) q1). cbn.
      split; [rewrite lookup_insert_ne by congruence; apply lookup_insert_eq|].
      apply reach_after_link; assumption.
    + intros x Hx. injection Hx as <-.
      exists (set_ends (Some update) (Some update) q2). cbn.
      split; [apply lookup_insert_eq|]. constructor.
  - (* queue1 is empty *)
    destruct (Ht2 l2 eq_refl) as [[lo Hlo] Hr2].
    rewrite (append_empty h queue1 update q1 Hq1 Hl1). cbn.
    erewrite append_nonempty;
      [|cbn; rewrite lookup_insert_ne by assumption; exact Hq2|exact Hl2|exact Hlo].
    cbn. eexists. split; [reflexivity|]. split; [reflexivity|]. split.
    + exists (set_ends (Some update) (Some update) q1). cbn.
      split; [rewrite lookup_insert_ne by congruence; apply lookup_insert_eq|].
      constructor.
    + intros x Hx. injection Hx as <-.
      exists (set_ends (firstUpdate q2) (Some update) q2). cbn.
      split; [apply lookup_insert_eq|]. apply reach_after_link; assumption.
  - (* both empty *)
    rewrite (append_empty h queue1 update q1 Hq1 Hl1). cbn.
    erewrite append_empty;
      [|cbn; rewrite lookup_insert_ne by assumption; exact Hq2|exact Hl2].
    cbn. eexists. split; [reflexivity|]. split; [reflexivity|]. split.
    + exists (set_ends (Some update) (Some update) q1). cbn.
      split; [rewrite lookup_insert_ne by congruence; apply lookup_insert_eq|].
      constructor.
    + intros x Hx. injection Hx as <-.
      exists (set_ends (Some update) (Some update) q2). cbn.
      split; [apply lookup_insert_eq|]. constructor.
Qed.

(** *** Lemmas about the lazily created queues *)

(** [fiber.updateQueue] is one of the two queues at hand. *)
Definition owns (h : Heap) (fiber queue1 : nat) (queue2 : option nat) : Prop :=
  exists f queue,
    fibers h !! fiber = Some f /\ Fiber.updateQueue f = Some queue /\
    (queue = queue1 \/ queue2 = Some queue).

Lemma fresh_queue (m : gmap nat UpdateQueue) : m !! fresh (dom m) = None.
Proof. apply not_elem_of_dom. apply is_fresh. Qed.

Lemma tailOnChain_ext (h h' : Heap) (queue : nat) :
  queues h' !! queue = queues h !! queue ->
  updates h' = updates h ->
  tailOnChain h queue -> tailOnChain h' queue.
Proof.
  intros Eq Eu (q & Hq & Ht). exists q. rewrite Eq, Eu. split; assumption.
Qed.

Lemma tailOnChain_empty (h : Heap) (queue : nat) (q : UpdateQueue) :
  queues h !! queue = Some q -> lastUpdate q = None -> tailOnChain h queue.
Proof. intros Hq Hl. exists q. split; [assumption|]. intros l Hl'. congruence. Qed.

Lemma sharedTail_empty (h : Heap) (queue1 queue2 : nat) (q : UpdateQueue) :
  (queues h !! queue1 = Some q \/ queues h !! queue2 = Some q) ->
  lastUpdate q = None -> sharedTail h queue1 queue2.
Proof.
  intros H Hl q1 q2 l1 l2 _ H1 H2 L1 L2. destruct H; congruence.
Qed.

Lemma set_updateQueue_queue (q : option nat) (f : @Fiber.Fiber Val) :
  Fiber.updateQueue (Fiber.set_updateQueue q f) = q.
Proof. reflexivity. Qed.

Lemma ensureQueues_spec (h : Heap) (fiber : nat) (f : @Fiber.Fiber Val) :
  wellLinked h fiber ->
  fibers h !! fiber = Some f ->
  exists h1 queue1 queue2,
    ensureQueues fiber h = Some (h1, queue1, queue2) /\
    tailOnChain h1 queue1 /\
    (forall q2, queue2 = Some q2 -> tailOnChain h1 q2 /\ sharedTail h1 queue1 q2) /\
    owns h1 fiber queue1 queue2 /\
    (forall alt, Fiber.alternate f = Some alt -> owns h1 alt queue1 queue2).
Proof.
  intros (f0 & Hf0 & Hown & Halt) Hf.
  assert (f0 = f) by congruence. subst f0. clear Hf0.
  unfold ensureQueues. rewrite Hf. cbn.
  destruct (Fiber.alternate f) as [alt|] eqn:Ea.
  - destruct (Halt alt eq_refl) as (a & Ha & Hown2 & Hshare). clear Halt.
    rewrite Ha. cbn.
    destruct (Fiber.updateQueue f) as [queue1|] eqn:E1;
      destruct (Fiber.updateQueue a) as [queue2|] eqn:E2.
    + (* both owners have a queue *)
      exists h, queue1, (Some queue2). split; [reflexivity|].
      split; [apply Hown; reflexivity|]. split.
      { intros q2 Hq2. injection Hq2 as <-. split; [apply Hown2; reflexivity|].
        apply Hshare; reflexivity. }
      split.
      { exists f, queue1. repeat split; try assumption. left; reflexivity. }
      intros x Hx. injection Hx as <-.
      exists a, queue2. repeat split; try assumption. right; reflexivity.
    + (* clone queue1 for the alternate *)
      destruct (Hown queue1 eq_refl) as (q1 & Hq1 & Ht1).
      rewrite Hq1. cbn.
      set (queue2 := fresh (dom (queues h))).
      assert (Hfresh : queues h !! queue2 = None) by apply fresh_queue.
      assert (Hne : queue2 <> queue1) by congruence.
      eexists _, queue1, (Some queue2). split; [reflexivity|].
      split.
      { exists q1. cbn. split; [rewrite lookup_insert_ne by assumption; exact Hq1|].
        exact Ht1. }
      split.
      { intros x Hx. injection Hx as <-. split.
        - exists (cloneUpdateQueue q1). cbn. split; [apply lookup_insert_eq|].
          exact Ht1.
        - intros x1 x2 l1 l2 _ X1 X2 L1 L2. cbn in X1, X2 |- *.
          rewrite lookup_insert_ne in X1 by assumption.
          rewrite lookup_insert_eq in X2.
          assert (x1 = q1) by congruence. assert (x2 = cloneUpdateQueue q1) by congruence.
          subst x1 x2. cbn. apply (Ht1 l1 L1). }
      split.
      { destruct (decide (alt = fiber)) as [->|Hd].
        - assert (a = f) by congruence. subst a. congruence.
        - exists f, queue1. cbn. rewrite lookup_alter_ne by assumption.
          repeat split; try assumption. left; reflexivity. }
      intros x Hx. injection Hx as <-.
      exists (Fiber.set_updateQueue (Some queue2) a), queue2. cbn.
      rewrite lookup_alter_eq, Ha. cbn. repeat split. right; reflexivity.
    + (* clone queue2 for this fiber *)
      destruct (Hown2 queue2 eq_refl) as (q2 & Hq2 & Ht2).
      rewrite Hq2. cbn.
      set (queue1 := fresh (dom (queues h))).
      assert (Hfresh : queues h !! queue1 = None) by apply fresh_queue.
      assert (Hne : queue1 <> queue2) by congruence.
      eexists _, queue1, (Some queue2). split; [reflexivity|].
      split.
      { exists (cloneUpdateQueue q2). cbn. split; [apply lookup_insert_eq|]. exact Ht2. }
      split.
      { intros x Hx. injection Hx as <-. split.
        - exists q2. cbn. split; [rewrite lookup_insert_ne by assumption; exact Hq2|].
          exact Ht2.
        - intros x1 x2 l1 l2 _ X1 X2 L1 L2. cbn in X1, X2 |- *.
          rewrite lookup_insert_eq in X1.
          rewrite lookup_insert_ne in X2 by assumption.
          assert (x2 = q2) by congruence. assert (x1 = cloneUpdateQueue q2) by congruence.
          subst x1 x2. cbn in L1. apply (Ht2 l1 L1). }
      split.
      { exists (Fiber.set_updateQueue (Some queue1) f), queue1. cbn.
        rewrite lookup_alter_eq, Hf. cbn. repeat split. left; reflexivity. }
      intros x Hx. injection Hx as <-.
      destruct (decide (fiber = alt)) as [->|Hd].
      * assert (a = f) by congruence. subst a. congruence.
      * exists a, queue2. cbn. rewrite lookup_alter_ne by assumption.
        repeat split; try assumption. right; reflexivity.
    + (* neither fiber has a queue: create both *)
      set (queue1 := fresh (dom (queues h))).
      assert (Hfresh1 : queues h !! queue1 = None) by apply fresh_queue.
      assert (Ha2 : exists a2,
                 alter (Fiber.set_updateQueue (Some queue1)) fiber (fibers h) !! alt
                 = Some a2).
      { destruct (decide (fiber = alt)) as [->|Hd].
        - rewrite lookup_alter_eq, Hf. cbn. eauto.
        - rewrite lookup_alter_ne by assumption. eauto. }
      destruct Ha2 as [a2 Ha2]. rewrite Ha2. cbn.
      set (c1 := createUpdateQueue (Fiber.memoizedState f)).
      set (c2 := createUpdateQueue (Fiber.memoizedState a2)).
      set (queue2 := fresh (dom (<[queue1:=c1]> (queues h)))).
      assert (Hfresh2 : <[queue1:=c1]> (queues h) !! queue2 = None) by apply fresh_queue.
      assert (Hne : queue2 <> queue1).
      { intros E. rewrite E, lookup_insert_eq in Hfresh2. discriminate. }
      eexists _, queue1, (Some queue2). split; [reflexivity|].
      split.
      { apply (tailOnChain_empty _ _ c1); [|reflexivity]. cbn.
        rewrite lookup_insert_ne by assumption. apply lookup_insert_eq. }
      split.
      { intros x Hx. injection Hx as <-. split.
        - apply (tailOnChain_empty _ _ c2); [|reflexivity]. cbn. apply lookup_insert_eq.
        - apply (sharedTail_empty _ _ _ c2); [|reflexivity]. right. cbn.
          apply lookup_insert_eq. }
      split.
      { destruct (decide (alt = fiber)) as [->|Hd].
        - eexists _, queue2. cbn. rewrite lookup_alter_eq, lookup_alter_eq, Hf. cbn.
          repeat split. right; reflexivity.
        - eexists _, queue1. cbn. rewrite lookup_alter_ne by assumption.
          rewrite lookup_alter_eq, Hf. cbn. repeat split. left; reflexivity. }
      intros x Hx. injection Hx as <-.
      eexists _, queue2. cbn. rewrite lookup_alter_eq, Ha2. cbn.
      repeat split. right; reflexivity.
  - (* there is only one fiber *)
    destruct (Fiber.updateQueue f) as [queue1|] eqn:E1.
    + exists h, queue1, None. split; [reflexivity|].
      split; [apply Hown; reflexivity|]. split; [intros q2 Hq2; discriminate|].
      split; [|intros x Hx; discriminate].
      exists f, queue1. repeat split; try assumption. left; reflexivity.
    + set (queue1 := fresh (dom (queues h))).
      eexists _, queue1, None. split; [reflexivity|].
      split.
      { apply (tailOnChain_empty _ _ (createUpdateQueue (Fiber.memoizedState f)));
          [|reflexivity]. cbn. apply lookup_insert_eq. }
      split; [intros q2 Hq2; discriminate|].
      split; [|intros x Hx; discriminate].
      eexists _, queue1. cbn. rewrite lookup_alter_eq, Hf. cbn.
      repeat split. left; reflexivity.
Qed.

(** *** The claim about enqueueing *)

(** C4 (dual-queue no-loss).  On a heap where the queues of [fiber] and of
    its alternate are linked as the code keeps them ([wellLinked]: a non-empty
    queue's [lastUpdate] is on its own chain, and two distinct non-empty
    queues share their tail), [enqueueUpdate(fiber, update)] returns and
    afterwards [update] is reachable along [next] from
    [fiber.updateQueue.firstUpdate] and, when [fiber.alternate] is not null,
    from [alternate.updateQueue.firstUpdate] as well.  Nothing is assumed
    about the two [firstUpdate] pointers, so the queues may have been
    processed to different positions; the case of two non-empty queues, where
    the update is linked in once, is included. *)
Theorem enqueue_no_loss (h : Heap) (fiber update : nat) :
  wellLinked h fiber ->
  exists h',
    enqueueUpdate fiber update h = Some h' /\
    fiberHolds h' fiber update /\
    (forall f alt,
        fibers h !! fiber = Some f -> Fiber.alternate f = Some alt ->
        fiberHolds h' alt update).
Proof.
  intros Hwl'. pose proof Hwl' as (f & Hf & _).
  destruct (ensureQueues_spec h fiber f Hwl' Hf)
    as (h1 & queue1 & queue2 & E1 & T1 & T2 & O1 & O2).
  destruct (appendToQueues_holds h1 queue1 queue2 update T1 T2)
    as (h' & E2 & Hfib & Q1 & Q2).
  assert (Hholds : forall x, owns h1 x queue1 queue2 -> fiberHolds h' x update).
  { intros x (fx & q & Hx & Hq & Hor). exists fx, q. rewrite Hfib.
    repeat split; try assumption.
    destruct Hor as [->|Hq2]; [assumption|apply Q2; assumption]. }
  exists h'. split.
  - unfold enqueueUpdate. rewrite E1. cbn. exact E2.
  - split; [apply Hholds; assumption|].
    intros f' alt Hf' Halt. assert (f' = f) by congruence. subst f'.
    apply Hholds. apply O2. assumption.
Qed.

End Enqueue.

(** The picture of the file header, shortened: the list is [A - B - C]; the
    current queue (object 10, owned by fiber 20) still points at [A], the
    work-in-progress queue (object 11, owned by fiber 21) has processed more
    and points at [C]; both end at [C].  A fourth update [D] (object 3) is
    enqueued on fiber 20. *)
Section Diverged.
Definition plain (nxt : option nat) : @Update unit :=
  mkUpdate 1 None UpdateQueue.UpdateState None None nxt None.
Definition owner (queue alt : nat) : @Fiber.Fiber unit :=
  Fiber.mkFiber 1 None None None None None None None 0 None None None (Some queue)
    None None 0 0 None None None 0 0 (Some alt) None None None None.
Definition diverged : @Heap unit :=
  mkHeap
    (<[20%nat := owner 10 21]> (<[21%nat := owner 11 20]> ∅))
    (<[10%nat := mkUpdateQueue None (Some 0%nat) (Some 2%nat) None None None None None None]>
       (<[11%nat := mkUpdateQueue None (Some 2%nat) (Some 2%nat) None None None None None None]>
          ∅))
    (<[0%nat := plain (Some 1%nat)]>
       (<[1%nat := plain (Some 2%nat)]>
          (<[2%nat := plain None]> (<[3%nat := plain None]> ∅)))).
End Diverged.

Lemma diverged_wellLinked : wellLinked diverged 20%nat.
Proof.
  assert (R0 : reachable (updates diverged) (Some 0%nat) 2%nat).
  { eapply reach_next; [reflexivity|]. eapply reach_next; [reflexivity|]. apply reach_here. }
  assert (R2 : reachable (updates diverged) (Some 2%nat) 2%nat) by apply reach_here.
  exists (owner 10 21). split; [reflexivity|]. split.
  - intros q Hq. injection Hq as <-. eexists. split; [reflexivity|].
    intros l Hl. injection Hl as <-. split; [eexists; reflexivity|exact R0].
  - intros alt Halt. injection Halt as <-.
    exists (owner 11 20). split; [reflexivity|]. split.
    + intros q Hq. injection Hq as <-. eexists. split; [reflexivity|].
      intros l Hl. injection Hl as <-. split; [eexists; reflexivity|exact R2].
    + intros q1 q2 Hq1 Hq2. injection Hq1 as <-. injection Hq2 as <-.
      intros x1 x2 l1 l2 _ X1 X2 L1 L2.
      assert (K1 : queues diverged !! 10%nat =
                   Some (mkUpdateQueue None (Some 0%nat) (Some 2%nat) None None None None
                           None None)) by reflexivity.
      assert (K2 : queues diverged !! 11%nat =
                   Some (mkUpdateQueue None (Some 2%nat) (Some 2%nat) None None None None
                           None None)) by reflexivity.
      assert (Hx1 : Some x1 = Some (mkUpdateQueue None (Some 0%nat) (Some 2%nat) None None
                                      None None None None))
        by (rewrite <- X1; exact K1).
      assert (Hx2 : Some x2 = Some (mkUpdateQueue None (Some 2%nat) (Some 2%nat) None None
                                      None None None None))
        by (rewrite <- X2; exact K2).
      injection Hx1 as Hx1. injection Hx2 as Hx2.
      subst x1 x2. cbn in L1 |- *. injection L1 as <-. exact R2.
Defined.

Lemma enqueue_no_loss_witness :
  exists h',
    enqueueUpdate 20%nat 3%nat diverged = Some h' /\
    fiberHolds h' 20%nat 3%nat /\
    fiberHolds h' 21%nat 3%nat.
Proof.
  destruct (enqueue_no_loss diverged 20%nat 3%nat diverged_wellLinked) as (h' & E & H1 & H2).
  exists h'. split; [exact E|]. split; [exact H1|].
  apply (H2 (owner 10 21) 21%nat); reflexivity.
Defined.
End LinkedQueue.


(** ** ReactFiberWorkLoop.js: scheduling *)
Module WorkLoop.
Import TypeOfMode.

(** Execution contexts. *)
Definition NoContext : Z := 0.
Definition BatchedContext : Z := 1.
Definition EventContext : Z := 2.
Definition DiscreteEventContext : Z := 4.
Definition LegacyUnbatchedContext : Z := 8.
Definition RenderContext : Z := 16.
Definition CommitContext : Z := 32.

(** Root exit statuses. *)
Definition RootIncomplete : Z := 0.
Definition RootFatalErrored : Z := 1.
Definition RootErrored : Z := 2.
Definition RootSuspended : Z := 3.
Definition RootSuspendedWithDelay : Z := 4.
Definition RootCompleted : Z := 5.

(** React priority levels (SchedulerWithReactIntegration.js). *)
Definition ImmediatePriority : Z := 99.
Definition UserBlockingPriority : Z := 98.
Definition NormalPriority : Z := 97.
Definition LowPriority : Z := 96.
Definition IdlePriority : Z := 95.
Definition NoPriority : Z := 90.

(** [x | 0]: conversion to a signed 32-bit integer. *)
Definition toInt32 (z : Z) : Z := (z + 2 ^ 31) mod 2 ^ 32 - 2 ^ 31.

Section Scheduling.
Context {Val : Type} `{EqDecision Val}.
(** The constants and the three bucketing functions of
    ReactFiberExpirationTime.js, the tags of shared/ReactWorkTags and a flag
    of shared/ReactFeatureFlags; none of these files is part of the sources
    at hand, so they are parameters. *)
Variables NoWork Never Idle Batched Sync LOW_PRIORITY_EXPIRATION : Z.
Variable computeSuspenseExpiration : Z -> Z -> Z.
Variables computeInteractiveExpiration computeAsyncExpiration : Z -> Z.
Variables HostRoot ClassComponent : Z.
Variable enableProfilerTimer : bool.

Abbreviation Fiber := (@Fiber.Fiber Val).
Abbreviation Store := (gmap nat Fiber).

Record SuspenseConfig : Type := mkSuspenseConfig {
  timeoutMs : Z;
  busyDelayMs : option Z;
  busyMinDurationMs : option Z
}.

(** The module variables of the render session read or written below. *)
Record Globals : Type := mkGlobals {
  executionContext : Z;
  workInProgressRoot : option Val;
  renderExpirationTime : Z;
  workInProgressRootExitStatus : Z;
  workInProgressRootNextUnprocessedUpdateTime : Z
}.

(** *** computeExpirationForFiber *)

(** The expiration time computed from the suspense config or from the
    current priority; [None] is the invariant violation of the [default]
    branch. *)
Definition expirationForPriority (priorityLevel currentTime : Z)
    (suspenseConfig : option SuspenseConfig) : option Z :=
  match suspenseConfig with
  | Some cfg =>
      Some (computeSuspenseExpiration currentTime
              (if toInt32 (timeoutMs cfg) =? 0 then LOW_PRIORITY_EXPIRATION
               else toInt32 (timeoutMs cfg)))
  | None =>
      if priorityLevel =? ImmediatePriority then Some Sync
      else if priorityLevel =? UserBlockingPriority
           then Some (computeInteractiveExpiration currentTime)
      else if (priorityLevel =? NormalPriority) || (priorityLevel =? LowPriority)
           then Some (computeAsyncExpiration currentTime)
      else if priorityLevel =? IdlePriority then Some Idle
      else None
  end.

(** [priorityLevel] is what [getCurrentPriorityLevel()] returns. *)
Definition computeExpirationForFiber (g : Globals) (priorityLevel : Z)
    (currentTime : Z) (fiber : Fiber) (suspenseConfig : option SuspenseConfig)
    : option Z :=
  let mode := Fiber.mode fiber in
  if Z.land mode BlockingMode =? NoMode then Some Sync
  else if Z.land mode ConcurrentMode =? NoMode then
    Some (if priorityLevel =? ImmediatePriority then Sync else Batched)
  else if negb (Z.land (executionContext g) RenderContext =? NoContext) then
    (* Use whatever time we're already rendering *)
    Some (renderExpirationTime g)
  else
    expirationTime ← expirationForPriority priorityLevel currentTime suspenseConfig;
    match workInProgressRoot g with
    | Some _ =>
        if expirationTime =? renderExpirationTime g
        then Some (expirationTime - 1)   (* move this update into a separate batch *)
        else Some expirationTime
    | None => Some expirationTime
    end.

(** *** markUpdateTimeFromFiberToRoot *)

(** Calls into ReactFiberRoot.js, which is not part of the sources at hand;
    they are recorded, not interpreted. *)
Inductive RootCall : Type :=
| MarkRootSuspendedAtTime (root : Val) (time : Z)
| MarkRootUpdatedAtTime (root : Val) (time : Z).

Definition markUnprocessedUpdateTime (expirationTime : Z) (g : Globals) : Globals :=
  if workInProgressRootNextUnprocessedUpdateTime g <? expirationTime
  then mkGlobals (executionContext g) (workInProgressRoot g) (renderExpirationTime g)
                 (workInProgressRootExitStatus g) expirationTime
  else g.

(** [if (x.childExpirationTime < t) x.childExpirationTime = t], [x] non-null. *)
Definition raiseChildTime (t : Z) (x : nat) (h : Store) : option Store :=
  f ← h !! x;
  Some (if Fiber.childExpirationTime f <? t
        then <[x := Fiber.set_childExpirationTime t f]> h else h).

Definition raiseTime (t : Z) (x : nat) (h : Store) : option Store :=
  f ← h !! x;
  Some (if Fiber.expirationTime f <? t
        then <[x := Fiber.set_expirationTime t f]> h else h).

(** The body of the loop below, up to the test for the root: raise the
    [childExpirationTime] of [node] (the fiber [nf] at [n]) and of its
    alternate. *)
Definition raiseNodeAndAlternate (expirationTime : Z) (n : nat) (nf : Fiber) (h : Store)
    : option Store :=
  let alternate := Fiber.alternate nf in
  if Fiber.childExpirationTime nf <? expirationTime then
    let h' := <[n := Fiber.set_childExpirationTime expirationTime nf]> h in
    match alternate with
    | Some a => raiseChildTime expirationTime a h'
    | None => Some h'
    end
  else
    match alternate with
    | Some a => raiseChildTime expirationTime a h
    | None => Some h
    end.

(** The [while (node !== null)] loop walking the return path. *)
Fixpoint walkReturnPath (fuel : nat) (expirationTime : Z) (node : option nat) (h : Store)
    : option (Store * option Val) :=
  match node with
  | None => Some (h, None)
  | Some n =>
      match fuel with
      | O => None
      | S fuel' =>
          nf ← h !! n;
          h1 ← raiseNodeAndAlternate expirationTime n nf h;
          nf1 ← h1 !! n;
          match Fiber.return_ nf1 with
          | None =>
              if Fiber.tag nf1 =? HostRoot then Some (h1, Fiber.stateNode nf1)
              else Some (h1, None)
          | Some p => walkReturnPath fuel' expirationTime (Some p) h1
          end
      end
  end.

Definition markUpdateTimeFromFiberToRoot (fuel : nat) (g : Globals) (h : Store)
    (fiber : nat) (expirationTime : Z)
    : option (Store * Globals * list RootCall * option Val) :=
  f ← h !! fiber;
  h1 ← raiseTime expirationTime fiber h;
  h2 ← match Fiber.alternate f with
       | Some a => raiseTime expirationTime a h1
       | None => Some h1
       end;
  f2 ← h2 !! fiber;
  '(h3, root) ←
    match Fiber.return_ f2 with
    | None =>
        if Fiber.tag f2 =? HostRoot then Some (h2, Fiber.stateNode f2) else Some (h2, None)
    | Some p => walkReturnPath fuel expirationTime (Some p) h2
    end;
  match root with
  | Some r =>
      if decide (workInProgressRoot g = Some r) then
        let g1 := markUnprocessedUpdateTime expirationTime g in
        let calls :=
          if workInProgressRootExitStatus g1 =? RootSuspendedWithDelay
          then [MarkRootSuspendedAtTime r (renderExpirationTime g1)] else [] in
        Some (h3, g1, calls ++ [MarkRootUpdatedAtTime r expirationTime], Some r)
      else
        Some (h3, g, [MarkRootUpdatedAtTime r expirationTime], Some r)
  | None => Some (h3, g, [], None)
  end.

(** *** resetChildExpirationTime *)

Definition duration (d : option Z) : Z := default 0 d.

(** The loop over the children, on the three accumulators
    [newChildExpirationTime], [actualDuration] and [treeBaseDuration].  The
    last two are touched by the profiling variant only. *)
Fixpoint bubbleChildren (fuel : nat) (profiling shouldBubbleActualDurations : bool)
    (h : Store) (child : option nat) (acc : Z * Z * Z) : option (Z * Z * Z) :=
  match child with
  | None => Some acc
  | Some c =>
      match fuel with
      | O => None
      | S fuel' =>
          cf ← h !! c;
          let '(newChildExpirationTime, actualDuration, treeBaseDuration) := acc in
          let childUpdateExpirationTime := Fiber.expirationTime cf in
          let childChildExpirationTime := Fiber.childExpirationTime cf in
          let n1 := if newChildExpirationTime <? childUpdateExpirationTime
                    then childUpdateExpirationTime else newChildExpirationTime in
          let n2 := if n1 <? childChildExpirationTime
                    then childChildExpirationTime else n1 in
          let a1 := if profiling && shouldBubbleActualDurations
                    then actualDuration + duration (Fiber.actualDuration cf)
                    else actualDuration in
          let t1 := if profiling
                    then treeBaseDuration + duration (Fiber.treeBaseDuration cf)
                    else treeBaseDuration in
          bubbleChildren fuel' profiling shouldBubbleActualDurations h (Fiber.sibling cf)
            (n2, a1, t1)
      end
  end.

Definition resetChildExpirationTime (fuel : nat) (renderExpirationTime0 : Z) (h : Store)
    (completedWork : nat) : option Store :=
  cw ← h !! completedWork;
  if negb (renderExpirationTime0 =? Never) && (Fiber.childExpirationTime cw =? Never) then
    (* The children of this component are hidden. Don't bubble their
       expiration times. *)
    Some h
  else if enableProfilerTimer && negb (Z.land (Fiber.mode cw) ProfileMode =? NoMode) then
    shouldBubble ←
      match Fiber.alternate cw with
      | None => Some true
      | Some a => af ← h !! a;
                  Some (negb (bool_decide (Fiber.child cw = Fiber.child af)))
      end;
    '(newChildExpirationTime, actualDuration, treeBaseDuration) ←
      bubbleChildren fuel true shouldBubble h (Fiber.child cw)
        (NoWork, duration (Fiber.actualDuration cw), duration (Fiber.selfBaseDuration cw));
    Some (<[completedWork :=
              Fiber.set_childExpirationTime newChildExpirationTime
                (Fiber.set_durations (Some actualDuration) (Some treeBaseDuration) cw)]> h)
  else
    '(newChildExpirationTime, _, _) ←
      bubbleChildren fuel false false h (Fiber.child cw) (NoWork, 0, 0);
    Some (<[completedWork := Fiber.set_childExpirationTime newChildExpirationTime cw]> h).

(** *** The fiber tree and the child-priority invariant *)

(** [c] is on the sibling chain that starts at [start]. *)
Inductive siblingChain (h : Store) : option nat -> nat -> Prop :=
| sibling_here (a : nat) : siblingChain h (Some a) a
| sibling_next (a : nat) (f : Fiber) (c : nat) :
    h !! a = Some f ->
    siblingChain h (Fiber.sibling f) c ->
    siblingChain h (Some a) c.

Definition childOf (h : Store) (p c : nat) : Prop :=
  exists fp, h !! p = Some fp /\ siblingChain h (Fiber.child fp) c.

Inductive descendant (h : Store) : nat -> nat -> Prop :=
| descendant_child (p c : nat) : childOf h p c -> descendant h p c
| descendant_step (p c d : nat) : childOf h p c -> descendant h c d -> descendant h p d.

(** The pending-update time of every descendant of [n] is at most
    [n.childExpirationTime]. *)
Definition boundsDescendants (h : Store) (n : nat) : Prop :=
  forall d fn fd,
    descendant h n d -> h !! n = Some fn -> h !! d = Some fd ->
    Fiber.expirationTime fd <= Fiber.childExpirationTime fn.

Definition childPriorityInvariant (h : Store) : Prop :=
  forall n, boundsDescendants h n.

(** The invariant on [x] and everything below it. *)
Definition subtreeInvariant (h : Store) (x : nat) : Prop :=
  forall n, n = x \/ descendant h x n -> boundsDescendants h n.

(** The fibers met by following [return] from [start] up to null. *)
Inductive returnPath (h : Store) : option nat -> list nat -> Prop :=
| returnPath_nil : returnPath h None []
| returnPath_cons (a : nat) (f : Fiber) (l : list nat) :
    h !! a = Some f ->
    returnPath h (Fiber.return_ f) l ->
    returnPath h (Some a) (a :: l).

(** The fibers of the sibling chain from [start] up to null. *)
Inductive siblingList (h : Store) : option nat -> list nat -> Prop :=
| siblingList_nil : siblingList h None []
| siblingList_cons (a : nat) (f : Fiber) (l : list nat) :
    h !! a = Some f ->
    siblingList h (Fiber.sibling f) l ->
    siblingList h (Some a) (a :: l).

(** No [alternate] pointer dangles. *)
Definition closedAlternates (h : Store) : Prop :=
  forall a f alt, h !! a = Some f -> Fiber.alternate f = Some alt -> is_Some (h !! alt).

(** [x] is [fiber] or its alternate. *)
Definition isFiberOrAlternate (h : Store) (fiber x : nat) : Prop :=
  x = fiber \/ exists f, h !! fiber = Some f /\ Fiber.alternate f = Some x.

(** The two trees agree above [fiber]: whoever has [fiber] or its alternate
    below it, through child and sibling pointers, is on the return path of
    [fiber] or is the alternate of a fiber on that path. *)
Definition pathCoversAncestors (h : Store) (fiber : nat) (path : list nat) : Prop :=
  forall n x,
    isFiberOrAlternate h fiber x -> descendant h n x ->
    n ∈ path \/ exists m fm, m ∈ path /\ h !! m = Some fm /\ Fiber.alternate fm = Some n.

(** *** The claim about computeExpirationForFiber *)

(** C10, as the code has it (render-batch separation of new updates).
    For a fiber in concurrent mode, outside the render context and while a
    work-in-progress root exists: when [computeExpirationForFiber] returns, it
    returns the time computed from the suspense config or the current
    priority, lowered by one exactly when that time is the one being rendered;
    so the result is never the time being rendered.  (Inside the render
    context, and for fibers outside concurrent mode, the computation is not
    reached: see the counterexample.) *)
Theorem separate_batch (g : Globals) (priorityLevel currentTime : Z) (fiber : Fiber)
    (suspenseConfig : option SuspenseConfig) (root : Val) (result : Z) :
  Z.land (Fiber.mode fiber) BlockingMode <> NoMode ->
  Z.land (Fiber.mode fiber) ConcurrentMode <> NoMode ->
  Z.land (executionContext g) RenderContext = NoContext ->
  workInProgressRoot g = Some root ->
  computeExpirationForFiber g priorityLevel currentTime fiber suspenseConfig = Some result ->
  exists computed,
    expirationForPriority priorityLevel currentTime suspenseConfig = Some computed /\
    (computed = renderExpirationTime g -> result = renderExpirationTime g - 1) /\
    (computed <> renderExpirationTime g -> result = computed) /\
    result <> renderExpirationTime g.
Proof.
  intros Hb Hc Hx Hr. unfold computeExpirationForFiber.
  destruct (Z.eqb_spec (Z.land (Fiber.mode fiber) BlockingMode) NoMode); [contradiction|].
  destruct (Z.eqb_spec (Z.land (Fiber.mode fiber) ConcurrentMode) NoMode); [contradiction|].
  destruct (Z.eqb_spec (Z.land (executionContext g) RenderContext) NoContext);
    [|contradiction].
  cbn [negb]. rewrite Hr.
  destruct (expirationForPriority priorityLevel currentTime suspenseConfig) as [computed|];
    cbn; [|discriminate].
  destruct (Z.eqb_spec computed (renderExpirationTime g)) as [->|Hne];
    intros H; injection H as <-; eexists; (split; [reflexivity|]);
    repeat split; intros; lia || congruence.
Qed.

(** *** How the store evolves while times are raised *)

Definition sameShape (f f' : Fiber) : Prop :=
  Fiber.return_ f = Fiber.return_ f' /\ Fiber.child f = Fiber.child f' /\
  Fiber.sibling f = Fiber.sibling f' /\ Fiber.alternate f = Fiber.alternate f' /\
  Fiber.tag f = Fiber.tag f' /\ Fiber.stateNode f = Fiber.stateNode f'.

(** From [h] to [h'] no fiber appears, disappears or changes shape, no
    [childExpirationTime] decreases, and an [expirationTime] changes only on a
    fiber in [P], to [t]. *)
Definition evolves (P : nat -> Prop) (t : Z) (h h' : Store) : Prop :=
  forall a,
    match h !! a, h' !! a with
    | Some f, Some f' =>
        sameShape f f' /\
        Fiber.childExpirationTime f <= Fiber.childExpirationTime f' /\
        (Fiber.expirationTime f' = Fiber.expirationTime f \/
         (P a /\ Fiber.expirationTime f' = t))
    | None, None => True
    | _, _ => False
    end.

Definition childAtLeast (h : Store) (t : Z) (a : nat) : Prop :=
  exists f, h !! a = Some f /\ t <= Fiber.childExpirationTime f.

Lemma sameShape_refl (f : Fiber) : sameShape f f.
Proof. repeat split. Qed.

Lemma sameShape_trans (f g k : Fiber) : sameShape f g -> sameShape g k -> sameShape f k.
Proof.
  intros (A1 & A2 & A3 & A4 & A5 & A6) (B1 & B2 & B3 & B4 & B5 & B6).
  repeat split; congruence.
Qed.

Lemma sameShape_sym (f g : Fiber) : sameShape f g -> sameShape g f.
Proof. intros (A1 & A2 & A3 & A4 & A5 & A6). repeat split; congruence. Qed.

Lemma evolves_refl (P : nat -> Prop) (t : Z) (h : Store) : evolves P t h h.
Proof.
  intros a. destruct (h !! a) as [f|]; [|exact I].
  split; [apply sameShape_refl|]. split; [lia|]. left; reflexivity.
Qed.

Lemma evolves_trans (P : nat -> Prop) (t : Z) (h1 h2 h3 : Store) :
  evolves P t h1 h2 -> evolves P t h2 h3 -> evolves P t h1 h3.
Proof.
  intros H12 H23 a. specialize (H12 a). specialize (H23 a).
  destruct (h1 !! a) as [f1|], (h2 !! a) as [f2|], (h3 !! a) as [f3|];
    try contradiction; try exact I.
  destruct H12 as (S1 & C1 & E1), H23 as (S2 & C2 & E2).
  split; [eapply sameShape_trans; eassumption|]. split; [lia|].
  destruct E2 as [E2|[HP E2]]; [|right; split; assumption].
  destruct E1 as [E1|[HP E1]]; [left; congruence|right; split; [assumption|congruence]].
Qed.

Lemma evolves_weaken (P Q : nat -> Prop) (t : Z) (h h' : Store) :
  (forall a, P a -> Q a) -> evolves P t h h' -> evolves Q t h h'.
Proof.
  intros HPQ H a. specialize (H a).
  destruct (h !! a) as [f|], (h' !! a) as [f'|]; try contradiction; try exact I.
  destruct H as (S1 & C1 & E1). split; [assumption|]. split; [assumption|].
  destruct E1 as [E1|[HP E1]]; [left; assumption|right; split; [apply HPQ|]; assumption].
Qed.

Lemma evolves_insert (P : nat -> Prop) (t : Z) (h : Store) (x : nat) (f f' : Fiber) :
  h !! x = Some f ->
  sameShape f f' ->
  Fiber.childExpirationTime f <= Fiber.childExpirationTime f' ->
  (Fiber.expirationTime f' = Fiber.expirationTime f \/
   (P x /\ Fiber.expirationTime f' = t)) ->
  evolves P t h (<[x := f']> h).
Proof.
  intros Hx Hs Hc He a. destruct (decide (x = a)) as [<-|Hne].
  - rewrite lookup_insert_eq, Hx. split; [exact Hs|]. split; assumption.
  - rewrite lookup_insert_ne by assumption.
    destruct (h !! a) as [g|]; [|exact I].
    split; [apply sameShape_refl|]. split; [lia|]. left; reflexivity.
Qed.

Lemma evolves_lookup (P : nat -> Prop) (t : Z) (h h' : Store) (a : nat) (f : Fiber) :
  evolves P t h h' -> h !! a = Some f ->
  exists f', h' !! a = Some f' /\ sameShape f f' /\
             Fiber.childExpirationTime f <= Fiber.childExpirationTime f' /\
             (Fiber.expirationTime f' = Fiber.expirationTime f \/
              (P a /\ Fiber.expirationTime f' = t)).
Proof.
  intros H Ha. specialize (H a). rewrite Ha in H.
  destruct (h' !! a) as [f'|]; [|contradiction]. exists f'. split; [reflexivity|exact H].
Qed.

Lemma evolves_lookup_back (P : nat -> Prop) (t : Z) (h h' : Store) (a : nat) (f' : Fiber) :
  evolves P t h h' -> h' !! a = Some f' ->
  exists f, h !! a = Some f /\ sameShape f f' /\
            Fiber.childExpirationTime f <= Fiber.childExpirationTime f' /\
            (Fiber.expirationTime f' = Fiber.expirationTime f \/
             (P a /\ Fiber.expirationTime f' = t)).
Proof.
  intros H Ha. specialize (H a). rewrite Ha in H.
  destruct (h !! a) as [f|]; [|contradiction]. exists f. split; [reflexivity|exact H].
Qed.

Lemma childAtLeast_evolves (P : nat -> Prop) (t u : Z) (h h' : Store) (a : nat) :
  evolves P t h h' -> childAtLeast h u a -> childAtLeast h' u a.
Proof.
  intros H (f & Ha & Hle).
  destruct (evolves_lookup P t h h' a f H Ha) as (f' & Ha' & _ & Hc & _).
  exists f'. split; [assumption|lia].
Qed.

Lemma siblingChain_back (P : nat -> Prop) (t : Z) (h h' : Store) (s : option nat) (c : nat) :
  evolves P t h h' -> siblingChain h' s c -> siblingChain h s c.
Proof.
  intros H Hc. induction Hc as [a|a f' c Ha Hc IH]; [constructor|].
  destruct (evolves_lookup_back P t h h' a f' H Ha) as (f & Hf & Hs & _).
  eapply sibling_next; [exact Hf|]. destruct Hs as (_ & _ & -> & _). exact IH.
Qed.

Lemma childOf_back (P : nat -> Prop) (t : Z) (h h' : Store) (p c : nat) :
  evolves P t h h' -> childOf h' p c -> childOf h p c.
Proof.
  intros H (fp' & Hp & Hc).
  destruct (evolves_lookup_back P t h h' p fp' H Hp) as (fp & Hf & Hs & _).
  exists fp. split; [assumption|]. destruct Hs as (_ & -> & _).
  eapply siblingChain_back; eassumption.
Qed.

Lemma descendant_back (P : nat -> Prop) (t : Z) (h h' : Store) (n d : nat) :
  evolves P t h h' -> descendant h' n d -> descendant h n d.
Proof.
  intros H Hd. induction Hd as [p c Hc|p c d Hc Hd IH].
  - apply descendant_child. eapply childOf_back; eassumption.
  - eapply descendant_step; [eapply childOf_back; eassumption|exact IH].
Qed.

Lemma returnPath_evolves (P : nat -> Prop) (t : Z) (h h' : Store) (s : option nat)
    (l : list nat) :
  evolves P t h h' -> returnPath h s l -> returnPath h' s l.
Proof.
  intros H Hp. induction Hp as [|a f l Ha Hp IH]; [constructor|].
  destruct (evolves_lookup P t h h' a f H Ha) as (f' & Hf & Hs & _).
  eapply returnPath_cons; [exact Hf|]. destruct Hs as (<- & _). exact IH.
Qed.

Lemma closedAlternates_evolves (P : nat -> Prop) (t : Z) (h h' : Store) :
  evolves P t h h' -> closedAlternates h -> closedAlternates h'.
Proof.
  intros H Hc a f' alt Ha Halt.
  destruct (evolves_lookup_back P t h h' a f' H Ha) as (f & Hf & Hs & _).
  destruct Hs as (_ & _ & _ & Hal & _). rewrite <- Hal in Halt.
  destruct (Hc a f alt Hf Halt) as [g Hg].
  destruct (evolves_lookup P t h h' alt g H Hg) as (g' & Hg' & _). eauto.
Qed.

(** *** Lemmas about markUpdateTimeFromFiberToRoot *)

Definition nobody (a : nat) : Prop := False.

Lemma set_childExpirationTime_shape (t : Z) (f : Fiber) :
  sameShape f (Fiber.set_childExpirationTime t f).
Proof. repeat split. Qed.

Lemma set_expirationTime_shape (t : Z) (f : Fiber) :
  sameShape f (Fiber.set_expirationTime t f).
Proof. repeat split. Qed.

Lemma raiseChildTime_spec (P : nat -> Prop) (t : Z) (x : nat) (h : Store) (f : Fiber) :
  h !! x = Some f ->
  exists h', raiseChildTime t x h = Some h' /\ evolves P t h h' /\ childAtLeast h' t x.
Proof.
  intros Hx. unfold raiseChildTime. rewrite Hx. cbn.
  destruct (Z.ltb_spec (Fiber.childExpirationTime f) t) as [Hlt|Hge].
  - eexists. split; [reflexivity|]. split.
    + apply (evolves_insert P t h x f); [assumption|apply set_childExpirationTime_shape| |].
      * cbn. lia.
      * left. reflexivity.
    + eexists. split; [apply lookup_insert_eq|]. cbn. lia.
  - exists h. split; [reflexivity|]. split; [apply evolves_refl|].
    exists f. split; assumption.
Qed.

Lemma raiseTime_spec (P : nat -> Prop) (t : Z) (x : nat) (h : Store) (f : Fiber) :
  h !! x = Some f ->
  P x ->
  exists h', raiseTime t x h = Some h' /\ evolves P t h h' /\
             exists f', h' !! x = Some f' /\ t <= Fiber.expirationTime f'.
Proof.
  intros Hx HP. unfold raiseTime. rewrite Hx. cbn.
  destruct (Z.ltb_spec (Fiber.expirationTime f) t) as [Hlt|Hge].
  - eexists. split; [reflexivity|]. split.
    + apply (evolves_insert P t h x f); [assumption|apply set_expirationTime_shape| |].
      * cbn. lia.
      * right. split; [assumption|reflexivity].
    + eexists. split; [apply lookup_insert_eq|]. cbn. lia.
  - exists h. split; [reflexivity|]. split; [apply evolves_refl|].
    exists f. split; assumption.
Qed.

Lemma raiseNodeAndAlternate_spec (t : Z) (n : nat) (nf : Fiber) (h : Store) :
  h !! n = Some nf ->
  closedAlternates h ->
  exists h1,
    raiseNodeAndAlternate t n nf h = Some h1 /\
    evolves nobody t h h1 /\
    childAtLeast h1 t n /\
    (forall alt, Fiber.alternate nf = Some alt -> childAtLeast h1 t alt).
Proof.
  intros Hn Hclosed. unfold raiseNodeAndAlternate.
  assert (Hnode : exists h0,
             (if Fiber.childExpirationTime nf <? t
              then <[n := Fiber.set_childExpirationTime t nf]> h else h) = h0 /\
             evolves nobody t h h0 /\ childAtLeast h0 t n).
  { destruct (raiseChildTime_spec nobody t n h nf Hn) as (h0 & E & Hev & Hat).
    unfold raiseChildTime in E. rewrite Hn in E. cbn in E. injection E as E.
    exists h0. repeat split; assumption. }
  destruct Hnode as (h0 & E0 & Hev0 & Hat0).
  destruct (Fiber.alternate nf) as [alt|] eqn:Ealt.
  - destruct (Hclosed n nf alt Hn Ealt) as [af Haf].
    destruct (evolves_lookup nobody t h h0 alt af Hev0 Haf) as (af0 & Haf0 & _).
    destruct (raiseChildTime_spec nobody t alt h0 af0 Haf0) as (h1 & E1 & Hev1 & Hat1).
    exists h1. split.
    { destruct (Fiber.childExpirationTime nf <? t); subst h0; exact E1. }
    split; [eapply evolves_trans; eassumption|].
    split; [eapply childAtLeast_evolves; eassumption|].
    intros x Hx. injection Hx as <-. assumption.
  - exists h0. split.
    { destruct (Fiber.childExpirationTime nf <? t); subst h0; reflexivity. }
    split; [assumption|]. split; [assumption|]. intros x Hx. discriminate.
Qed.

Lemma returnPath_nil_inv (h : Store) (l : list nat) : returnPath h None l -> l = [].
Proof. intros H. inversion H. reflexivity. Qed.

(** The loop raises every fiber of the return path and its alternate. *)
Lemma walkReturnPath_spec (t : Z) (path : list nat) : forall fuel n h,
  returnPath h (Some n) path ->
  closedAlternates h ->
  (length path <= fuel)%nat ->
  exists h' root,
    walkReturnPath fuel t (Some n) h = Some (h', root) /\
    evolves nobody t h h' /\
    forall m, m ∈ path ->
      childAtLeast h' t m /\
      forall fm alt, h !! m = Some fm -> Fiber.alternate fm = Some alt ->
                     childAtLeast h' t alt.
Proof.
  induction path as [|a l IH]; intros fuel n h Hp Hclosed Hfuel.
  { inversion Hp. }
  inversion Hp as [|a' f l' Ha Hrest]; subst a' l'. subst n.
  destruct fuel as [|fuel]; [cbn in Hfuel; lia|].
  cbn [walkReturnPath]. rewrite Ha. cbn.
  destruct (raiseNodeAndAlternate_spec t a f h Ha Hclosed) as (h1 & E1 & Hev1 & Hat1 & Halt1).
  rewrite E1. cbn.
  destruct (evolves_lookup nobody t h h1 a f Hev1 Ha) as (f1 & Hf1 & Hs1 & _).
  rewrite Hf1. cbn.
  assert (Hret : Fiber.return_ f1 = Fiber.return_ f) by (destruct Hs1 as (-> & _); reflexivity).
  rewrite Hret.
  destruct (Fiber.return_ f) as [p|] eqn:Er.
  - assert (Hp1 : returnPath h1 (Some p) l) by (eapply returnPath_evolves; eassumption).
    assert (Hc1 : closedAlternates h1) by (eapply closedAlternates_evolves; eassumption).
    assert (Hl : (length l <= fuel)%nat) by (cbn in Hfuel; lia).
    destruct (IH fuel p h1 Hp1 Hc1 Hl) as (h' & root & E & Hev & Hall).
    exists h', root. split; [exact E|]. split; [eapply evolves_trans; eassumption|].
    intros m Hm. apply elem_of_cons in Hm. destruct Hm as [->|Hm].
    + split; [eapply childAtLeast_evolves; eassumption|].
      intros fm alt Hfm Halt. assert (fm = f) by congruence. subst fm.
      eapply childAtLeast_evolves; [eassumption|]. apply Halt1. assumption.
    + destruct (Hall m Hm) as [H1 H2]. split; [assumption|].
      intros fm alt Hfm Halt.
      destruct (evolves_lookup nobody t h h1 m fm Hev1 Hfm) as (fm1 & Hfm1 & Hsm & _).
      apply (H2 fm1 alt Hfm1). destruct Hsm as (_ & _ & _ & <- & _). assumption.
  - apply returnPath_nil_inv in Hrest. subst l.
    assert (Hall : forall m, m ∈ [a] ->
              childAtLeast h1 t m /\
              forall fm alt, h !! m = Some fm -> Fiber.alternate fm = Some alt ->
                             childAtLeast h1 t alt).
    { intros m Hm. apply list_elem_of_singleton in Hm. subst m.
      split; [assumption|]. intros fm alt Hfm Halt.
      assert (fm = f) by congruence. subst fm. apply Halt1. assumption. }
    destruct (Fiber.tag f1 =? HostRoot); eexists _, _;
      (split; [reflexivity|]); (split; [assumption|exact Hall]).
Qed.

Lemma markUpdateTimeFromFiberToRoot_spec (fuel : nat) (g : Globals) (h : Store)
    (fiber : nat) (t : Z) (f : Fiber) (path : list nat) :
  h !! fiber = Some f ->
  returnPath h (Fiber.return_ f) path ->
  closedAlternates h ->
  (length path <= fuel)%nat ->
  exists h' g' calls root,
    markUpdateTimeFromFiberToRoot fuel g h fiber t = Some (h', g', calls, root) /\
    evolves (isFiberOrAlternate h fiber) t h h' /\
    forall m, m ∈ path ->
      childAtLeast h' t m /\
      forall fm alt, h !! m = Some fm -> Fiber.alternate fm = Some alt ->
                     childAtLeast h' t alt.
Proof.
  intros Hf Hpath Hclosed Hfuel.
  set (P := isFiberOrAlternate h fiber).
  unfold markUpdateTimeFromFiberToRoot. rewrite Hf. cbn.
  destruct (raiseTime_spec P t fiber h f Hf) as (h1 & E1 & Hev1 & _);
    [left; reflexivity|].
  rewrite E1. cbn.
  assert (H2 : exists h2,
             match Fiber.alternate f with
             | Some a => raiseTime t a h1
             | None => Some h1
             end = Some h2 /\ evolves P t h h2).
  { destruct (Fiber.alternate f) as [a|] eqn:Ea.
    - destruct (Hclosed fiber f a Hf Ea) as [af Haf].
      destruct (evolves_lookup P t h h1 a af Hev1 Haf) as (af1 & Haf1 & _).
      destruct (raiseTime_spec P t a h1 af1 Haf1) as (h2 & E2 & Hev2 & _).
      { right. exists f. split; assumption. }
      exists h2. split; [exact E2|]. eapply evolves_trans; eassumption.
    - exists h1. split; [reflexivity|assumption]. }
  destruct H2 as (h2 & E2 & Hev2). rewrite E2. cbn.
  destruct (evolves_lookup P t h h2 fiber f Hev2 Hf) as (f2 & Hf2 & Hs2 & _).
  rewrite Hf2. cbn.
  assert (Hret : Fiber.return_ f2 = Fiber.return_ f) by (destruct Hs2 as (-> & _); reflexivity).
  assert (H3 : exists h3 root,
             match Fiber.return_ f2 with
             | Some p => walkReturnPath fuel t (Some p) h2
             | None =>
                 if Fiber.tag f2 =? HostRoot then Some (h2, Fiber.stateNode f2)
                 else Some (h2, None)
             end = Some (h3, root) /\
             evolves P t h h3 /\
             forall m, m ∈ path ->
               childAtLeast h3 t m /\
               forall fm alt, h !! m = Some fm -> Fiber.alternate fm = Some alt ->
                              childAtLeast h3 t alt).
  { rewrite Hret. destruct (Fiber.return_ f) as [p|] eqn:Er.
    - assert (Hp2 : returnPath h2 (Some p) path) by (eapply returnPath_evolves; eassumption).
      assert (Hc2 : closedAlternates h2) by (eapply closedAlternates_evolves; eassumption).
      destruct (walkReturnPath_spec t path fuel p h2 Hp2 Hc2 Hfuel)
        as (h3 & root & E3 & Hev3 & Hall).
      exists h3, root. split; [exact E3|]. split.
      + eapply evolves_trans; [eassumption|].
        eapply evolves_weaken; [|eassumption]. intros a [].
      + intros m Hm. destruct (Hall m Hm) as [A1 A2]. split; [assumption|].
        intros fm alt Hfm Halt.
        destruct (evolves_lookup P t h h2 m fm Hev2 Hfm) as (fm2 & Hfm2 & Hsm & _).
        apply (A2 fm2 alt Hfm2). destruct Hsm as (_ & _ & _ & <- & _). assumption.
    - apply returnPath_nil_inv in Hpath. subst path.
      destruct (Fiber.tag f2 =? HostRoot); eexists _, _;
        (split; [reflexivity|]); (split; [assumption|]);
        intros m Hm; apply elem_of_nil in Hm; contradiction. }
  destruct H3 as (h3 & root & E3 & Hev3 & Hall). rewrite E3. cbn.
  destruct root as [r|].
  - destruct (decide (workInProgressRoot g = Some r));
      eexists _, _, _, _; (split; [reflexivity|]); split; assumption.
  - eexists _, _, _, _. split; [reflexivity|]. split; assumption.
Qed.

(** Raising times as above keeps the invariant, provided every fiber above a
    raised one was raised as well. *)
Lemma invariant_evolves (P : nat -> Prop) (t : Z) (h h' : Store) :
  evolves P t h h' ->
  (forall n x, P x -> descendant h n x -> childAtLeast h' t n) ->
  childPriorityInvariant h ->
  childPriorityInvariant h'.
Proof.
  intros Hev Hcov Hinv n d fn' fd' Hd Hn Hdl.
  assert (Hd0 : descendant h n d) by (eapply descendant_back; eassumption).
  destruct (evolves_lookup_back P t h h' n fn' Hev Hn) as (fn & Hfn & _ & Hc & _).
  destruct (evolves_lookup_back P t h h' d fd' Hev Hdl) as (fd & Hfd & _ & _ & He).
  destruct He as [He|[HP He]].
  - rewrite He. specialize (Hinv n d fn fd Hd0 Hfn Hfd). lia.
  - destruct (Hcov n d HP Hd0) as (fn'' & Hfn'' & Hle).
    assert (fn'' = fn') by congruence. subst fn''. lia.
Qed.

(** *** Lemmas about resetChildExpirationTime *)

Lemma siblingList_lookup (h : Store) (s : option nat) (cs : list nat) (c : nat) :
  siblingList h s cs -> c ∈ cs -> is_Some (h !! c).
Proof.
  intros Hl. induction Hl as [|a f l Ha Hl IH]; intros Hc.
  - apply elem_of_nil in Hc. contradiction.
  - apply elem_of_cons in Hc. destruct Hc as [->|Hc]; [eauto|apply IH; assumption].
Qed.

Lemma siblingChain_in_list (h : Store) (s : option nat) (c : nat) :
  siblingChain h s c -> forall cs, siblingList h s cs -> c ∈ cs.
Proof.
  intros Hc. induction Hc as [a|a f c Ha Hc IH]; intros cs Hl.
  - inversion Hl; subst. apply elem_of_cons. left; reflexivity.
  - inversion Hl as [|a' f' l Ha' Hl']; subst.
    assert (f' = f) by congruence. subst f'.
    apply elem_of_cons. right. apply IH. assumption.
Qed.

Lemma bubbleChildren_spec (pf sb : bool) (h : Store) (cs : list nat) :
  forall fuel child acc,
    siblingList h child cs ->
    (length cs <= fuel)%nat ->
    exists r,
      bubbleChildren fuel pf sb h child acc = Some r /\
      acc.1.1 <= r.1.1 /\
      forall c fc, c ∈ cs -> h !! c = Some fc ->
        Fiber.expirationTime fc <= r.1.1 /\ Fiber.childExpirationTime fc <= r.1.1.
Proof.
  induction cs as [|a l IH]; intros fuel child acc Hl Hfuel.
  - inversion Hl; subst. exists acc. destruct fuel; cbn; (split; [reflexivity|]);
      (split; [lia|]); intros c fc Hc; apply elem_of_nil in Hc; contradiction.
  - inversion Hl as [|a' f l' Ha Hl']; subst.
    destruct fuel as [|fuel]; [cbn in Hfuel; lia|].
    cbn [bubbleChildren]. rewrite Ha. cbn.
    destruct acc as [[n0 a0] t0].
    set (n1 := if n0 <? Fiber.expirationTime f then Fiber.expirationTime f else n0).
    set (n2 := if n1 <? Fiber.childExpirationTime f then Fiber.childExpirationTime f else n1).
    assert (Hn1 : n0 <= n1 /\ Fiber.expirationTime f <= n1).
    { unfold n1. destruct (Z.ltb_spec n0 (Fiber.expirationTime f)); lia. }
    assert (Hn2 : n1 <= n2 /\ Fiber.childExpirationTime f <= n2).
    { unfold n2. destruct (Z.ltb_spec n1 (Fiber.childExpirationTime f)); lia. }
    assert (Hlen : (length l <= fuel)%nat) by (cbn in Hfuel; lia).
    match goal with
    | |- exists r, bubbleChildren _ _ _ _ _ ?acc' = Some r /\ _ =>
        destruct (IH fuel (Fiber.sibling f) acc' Hl' Hlen) as (r & E & Hle & Hall)
    end.
    exists r. split; [exact E|]. cbn in Hle |- *. split; [lia|].
    intros c fc Hc Hfc. apply elem_of_cons in Hc. destruct Hc as [->|Hc].
    + assert (fc = f) by congruence. subst fc. lia.
    + apply (Hall c fc); assumption.
Qed.

Lemma descendant_first (h : Store) (p d : nat) :
  descendant h p d -> exists c, childOf h p c /\ (d = c \/ descendant h c d).
Proof.
  intros Hdesc. destruct Hdesc as [p c Hc|p c d Hc Hd]; exists c; (split; [exact Hc|]).
  - left; reflexivity.
  - right; exact Hd.
Qed.

(** What [resetChildExpirationTime] writes when it recomputes. *)
Lemma resetChildExpirationTime_spec (fuel : nat) (render : Z) (h : Store) (cw : nat)
    (f : Fiber) (cs : list nat) :
  h !! cw = Some f ->
  render = Never \/ Fiber.childExpirationTime f <> Never ->
  siblingList h (Fiber.child f) cs ->
  (length cs <= fuel)%nat ->
  (forall a, Fiber.alternate f = Some a -> is_Some (h !! a)) ->
  exists f',
    resetChildExpirationTime fuel render h cw = Some (<[cw := f']> h) /\
    sameShape f f' /\
    Fiber.expirationTime f' = Fiber.expirationTime f /\
    forall c fc, c ∈ cs -> h !! c = Some fc ->
      Fiber.expirationTime fc <= Fiber.childExpirationTime f' /\
      Fiber.childExpirationTime fc <= Fiber.childExpirationTime f'.
Proof.
  intros Hf Hguard Hl Hfuel Halt. unfold resetChildExpirationTime. rewrite Hf. cbn.
  assert (G : negb (render =? Never) && (Fiber.childExpirationTime f =? Never) = false).
  { destruct (Z.eqb_spec render Never); [reflexivity|].
    destruct (Z.eqb_spec (Fiber.childExpirationTime f) Never); [|reflexivity].
    destruct Hguard; contradiction. }
  rewrite G.
  destruct (enableProfilerTimer && negb (Z.land (Fiber.mode f) ProfileMode =? NoMode)).
  - assert (Hsb : exists sb,
               match Fiber.alternate f with
               | Some a => af ← h !! a;
                           Some (negb (bool_decide (Fiber.child f = Fiber.child af)))
               | None => Some true
               end = Some sb).
    { destruct (Fiber.alternate f) as [a|]; [|eauto].
      destruct (Halt a eq_refl) as [af Haf]. rewrite Haf. cbn. eauto. }
    destruct Hsb as [sb Hsb]. rewrite Hsb. cbn.
    destruct (bubbleChildren_spec true sb h cs fuel (Fiber.child f)
                (NoWork, duration (Fiber.actualDuration f),
                 duration (Fiber.selfBaseDuration f)) Hl Hfuel)
      as ([[n a] tb] & E & _ & Hall).
    rewrite E. cbn. eexists. split; [reflexivity|].
    split; [repeat split|]. split; [reflexivity|]. exact Hall.
  - destruct (bubbleChildren_spec false false h cs fuel (Fiber.child f) (NoWork, 0, 0)
                Hl Hfuel) as ([[n a] tb] & E & _ & Hall).
    rewrite E. cbn. eexists. split; [reflexivity|].
    split; [repeat split|]. split; [reflexivity|]. exact Hall.
Qed.

Lemma siblingChain_insert_shape (h : Store) (x : nat) (f f' : Fiber) (s : option nat)
    (c : nat) :
  h !! x = Some f -> sameShape f f' ->
  siblingChain (<[x := f']> h) s c -> siblingChain h s c.
Proof.
  intros Hx Hs Hc. induction Hc as [a|a g c Ha Hc IH]; [constructor|].
  destruct (decide (x = a)) as [<-|Hne].
  - rewrite lookup_insert_eq in Ha. injection Ha as <-.
    eapply sibling_next; [exact Hx|]. destruct Hs as (_ & _ & -> & _). exact IH.
  - rewrite lookup_insert_ne in Ha by assumption.
    eapply sibling_next; [exact Ha|exact IH].
Qed.

Lemma childOf_insert_shape (h : Store) (x : nat) (f f' : Fiber) (p c : nat) :
  h !! x = Some f -> sameShape f f' ->
  childOf (<[x := f']> h) p c -> childOf h p c.
Proof.
  intros Hx Hs (fp & Hp & Hc).
  apply (siblingChain_insert_shape h x f f' _ c Hx Hs) in Hc.
  destruct (decide (x = p)) as [<-|Hne].
  - rewrite lookup_insert_eq in Hp. injection Hp as <-.
    exists f. split; [exact Hx|]. destruct Hs as (_ & -> & _). exact Hc.
  - rewrite lookup_insert_ne in Hp by assumption. exists fp. split; assumption.
Qed.

Lemma descendant_insert_shape (h : Store) (x : nat) (f f' : Fiber) (n d : nat) :
  h !! x = Some f -> sameShape f f' ->
  descendant (<[x := f']> h) n d -> descendant h n d.
Proof.
  intros Hx Hs Hd. induction Hd as [p c Hc|p c d Hc Hd IH].
  - apply descendant_child. eapply childOf_insert_shape; eassumption.
  - eapply descendant_step; [eapply childOf_insert_shape; eassumption|exact IH].
Qed.

(** *** What markUpdateTimeFromFiberToRoot returns *)

(** The root the loop ends on: the [stateNode] of the last fiber of the
    return path when that fiber is a host root, null otherwise. *)
Lemma walkReturnPath_root (t : Z) (path : list nat) :
  forall fuel n h h' root top tf,
    returnPath h (Some n) path ->
    closedAlternates h ->
    walkReturnPath fuel t (Some n) h = Some (h', root) ->
    last path = Some top ->
    h !! top = Some tf ->
    evolves nobody t h h' /\
    root = if Fiber.tag tf =? HostRoot then Fiber.stateNode tf else None.
Proof.
  induction path as [|a l IH]; intros fuel n h h' root top tf Hp Hclosed E Hlast Htop.
  { inversion Hp. }
  inversion Hp as [|a' f l' Ha Hrest]; subst a' l'. subst n.
  destruct fuel as [|fuel]; [discriminate|].
  cbn [walkReturnPath] in E. rewrite Ha in E. cbn in E.
  destruct (raiseNodeAndAlternate_spec t a f h Ha Hclosed) as (h1 & E1 & Hev1 & _).
  rewrite E1 in E. cbn in E.
  destruct (evolves_lookup nobody t h h1 a f Hev1 Ha) as (f1 & Hf1 & Hs1 & _).
  rewrite Hf1 in E. cbn in E.
  destruct Hs1 as (Hret & _ & _ & _ & Htag & Hnode).
  rewrite <- Hret in E.
  destruct (Fiber.return_ f) as [p|] eqn:Er.
  - assert (Hp1 : returnPath h1 (Some p) l) by (eapply returnPath_evolves; eassumption).
    assert (Hc1 : closedAlternates h1) by (eapply closedAlternates_evolves; eassumption).
    assert (Hl : last l = Some top).
    { inversion Hrest; subst. rewrite last_cons in Hlast.
      destruct (last (p :: l0)) eqn:El; [exact Hlast|].
      apply last_None in El. discriminate. }
    destruct (evolves_lookup nobody t h h1 top tf Hev1 Htop) as (tf1 & Htf1 & Hst & _).
    destruct (IH fuel p h1 h' root top tf1 Hp1 Hc1 E Hl Htf1) as [Hev Hroot].
    split; [eapply evolves_trans; eassumption|].
    destruct Hst as (_ & _ & _ & _ & -> & ->). exact Hroot.
  - apply returnPath_nil_inv in Hrest. subst l. cbn in Hlast. injection Hlast as <-.
    assert (tf = f) by congruence. subst tf.
    rewrite Htag, Hnode.
    destruct (Fiber.tag f1 =? HostRoot); injection E as <- <-; split;
      try exact Hev1; reflexivity.
Qed.

Lemma mark_root_inv (fuel : nat) (g : Globals) (h : Store) (fiber : nat) (t : Z)
    (f : Fiber) (path : list nat) (top : nat) (tf : Fiber)
    (h' : Store) (g' : Globals) (calls : list RootCall) (root : option Val) :
  h !! fiber = Some f ->
  returnPath h (Fiber.return_ f) path ->
  closedAlternates h ->
  last (fiber :: path) = Some top ->
  h !! top = Some tf ->
  markUpdateTimeFromFiberToRoot fuel g h fiber t = Some (h', g', calls, root) ->
  root = (if Fiber.tag tf =? HostRoot then Fiber.stateNode tf else None) /\
  (exists f', h' !! fiber = Some f' /\ t <= Fiber.expirationTime f') /\
  match root with
  | None => calls = [] /\ g' = g
  | Some r =>
      last calls = Some (MarkRootUpdatedAtTime r t) /\
      (workInProgressRoot g <> Some r -> g' = g /\ calls = [MarkRootUpdatedAtTime r t]) /\
      (workInProgressRoot g = Some r ->
       t <= workInProgressRootNextUnprocessedUpdateTime g')
  end.
Proof.
  intros Hf Hpath Hclosed Hlast Htop E.
  set (P := isFiberOrAlternate h fiber).
  unfold markUpdateTimeFromFiberToRoot in E. rewrite Hf in E. cbn in E.
  destruct (raiseTime_spec P t fiber h f Hf) as (h1 & E1 & Hev1 & f1 & Hf1 & Hle1);
    [left; reflexivity|].
  rewrite E1 in E. cbn in E.
  assert (H2 : exists h2,
             match Fiber.alternate f with
             | Some a => raiseTime t a h1
             | None => Some h1
             end = Some h2 /\ evolves P t h1 h2).
  { destruct (Fiber.alternate f) as [a|] eqn:Ea.
    - destruct (Hclosed fiber f a Hf Ea) as [af Haf].
      destruct (evolves_lookup P t h h1 a af Hev1 Haf) as (af1 & Haf1 & _).
      destruct (raiseTime_spec P t a h1 af1 Haf1) as (h2 & E2 & Hev2 & _).
      { right. exists f. split; assumption. }
      exists h2. split; [exact E2|exact Hev2].
    - exists h1. split; [reflexivity|apply evolves_refl]. }
  destruct H2 as (h2 & E2 & Hev12). rewrite E2 in E. cbn in E.
  assert (Hev2 : evolves P t h h2) by (eapply evolves_trans; eassumption).
  destruct (evolves_lookup P t h h2 fiber f Hev2 Hf) as (f2 & Hf2 & Hs2 & _).
  rewrite Hf2 in E. cbn in E.
  destruct Hs2 as (Hret & _ & _ & _ & Htag & Hnode).
  rewrite <- Hret in E.
  assert (H3 : exists h3 root0,
             match Fiber.return_ f with
             | Some p => walkReturnPath fuel t (Some p) h2
             | None =>
                 if Fiber.tag f2 =? HostRoot then Some (h2, Fiber.stateNode f2)
                 else Some (h2, None)
             end = Some (h3, root0) /\
             evolves P t h2 h3 /\
             root0 = (if Fiber.tag tf =? HostRoot then Fiber.stateNode tf else None)).
  { destruct (Fiber.return_ f) as [p|] eqn:Er.
    - destruct (walkReturnPath fuel t (Some p) h2) as [[h3 root0]|] eqn:E3;
        [|discriminate].
      assert (Hp2 : returnPath h2 (Some p) path) by (eapply returnPath_evolves; eassumption).
      assert (Hc2 : closedAlternates h2) by (eapply closedAlternates_evolves; eassumption).
      assert (Hl : last path = Some top).
      { inversion Hpath; subst. rewrite last_cons in Hlast.
        destruct (last (p :: l)) eqn:El; [exact Hlast|].
        apply last_None in El. discriminate. }
      destruct (evolves_lookup P t h h2 top tf Hev2 Htop) as (tf2 & Htf2 & Hst & _).
      destruct (walkReturnPath_root t path fuel p h2 h3 root0 top tf2 Hp2 Hc2 E3 Hl Htf2)
        as [Hev3 Hroot].
      exists h3, root0. split; [reflexivity|]. split.
      + eapply evolves_weaken; [|exact Hev3]. intros a [].
      + destruct Hst as (_ & _ & _ & _ & -> & ->). exact Hroot.
    - apply returnPath_nil_inv in Hpath. subst path. cbn in Hlast. injection Hlast as <-.
      assert (tf = f) by congruence. subst tf. rewrite Htag, Hnode.
      destruct (Fiber.tag f2 =? HostRoot); eexists _, _;
        (split; [reflexivity|]); (split; [apply evolves_refl|reflexivity]). }
  destruct H3 as (h3 & root0 & E3 & Hev3 & Hroot0). rewrite E3 in E. cbn in E.
  assert (Hfib : exists f', h3 !! fiber = Some f' /\ t <= Fiber.expirationTime f').
  { assert (Hev13 : evolves P t h1 h3) by (eapply evolves_trans; eassumption).
    destruct (evolves_lookup P t h1 h3 fiber f1 Hev13 Hf1) as (f3 & Hf3 & _ & _ & Hor).
    exists f3. split; [exact Hf3|]. destruct Hor as [->|[_ ->]]; lia. }
  destruct root0 as [r|].
  - destruct (decide (workInProgressRoot g = Some r)) as [Hr|Hr];
      injection E as <- <- <- <-; (split; [exact Hroot0|]); (split; [exact Hfib|]).
    + split; [apply last_snoc|]. split; [contradiction|]. intros _.
      unfold markUnprocessedUpdateTime.
      destruct (Z.ltb_spec (workInProgressRootNextUnprocessedUpdateTime g) t); cbn; lia.
    + split; [reflexivity|]. split; [intros _; split; reflexivity|contradiction].
  - injection E as <- <- <- <-. split; [exact Hroot0|]. split; [exact Hfib|].
    split; reflexivity.
Qed.

(** markUpdateTimeFromFiberToRoot, the value returned: on a store where the
    return path of [fiber] is finite and no alternate dangles, the call
    returns the [stateNode] of the topmost fiber of that path when this fiber
    is a host root, and null otherwise (the fiber is not mounted); [fiber]
    ends with an [expirationTime] of at least the time marked.  When null is
    returned, nothing is reported to the root and the render session is
    untouched; otherwise the last thing done is [markRootUpdatedAtTime(root,
    expirationTime)], the session is untouched unless the root is the one
    being rendered, and then the time is at most
    [workInProgressRootNextUnprocessedUpdateTime]. *)
Theorem mark_returns_root (fuel : nat) (g : Globals) (h : Store) (fiber : nat) (t : Z)
    (f : Fiber) (path : list nat) (top : nat) (tf : Fiber) :
  h !! fiber = Some f ->
  returnPath h (Fiber.return_ f) path ->
  closedAlternates h ->
  (length path <= fuel)%nat ->
  last (fiber :: path) = Some top ->
  h !! top = Some tf ->
  exists h' g' calls root,
    markUpdateTimeFromFiberToRoot fuel g h fiber t = Some (h', g', calls, root) /\
    root = (if Fiber.tag tf =? HostRoot then Fiber.stateNode tf else None) /\
    (exists f', h' !! fiber = Some f' /\ t <= Fiber.expirationTime f') /\
    match root with
    | None => calls = [] /\ g' = g
    | Some r =>
        last calls = Some (MarkRootUpdatedAtTime r t) /\
        (workInProgressRoot g <> Some r -> g' = g /\ calls = [MarkRootUpdatedAtTime r t]) /\
        (workInProgressRoot g = Some r ->
         t <= workInProgressRootNextUnprocessedUpdateTime g')
    end.
Proof.
  intros Hf Hpath Hclosed Hfuel Hlast Htop.
  destruct (markUpdateTimeFromFiberToRoot_spec fuel g h fiber t f path
              Hf Hpath Hclosed Hfuel) as (h' & g' & calls & root & E & _).
  exists h', g', calls, root. split; [exact E|].
  exact (mark_root_inv fuel g h fiber t f path top tf h' g' calls root
           Hf Hpath Hclosed Hlast Htop E).
Qed.

(** *** The claim about the child-priority invariant *)

(** C5, as the code has it (child-priority monotonicity).
    (1) [markUpdateTimeFromFiberToRoot] keeps the invariant "every fiber's
    [childExpirationTime] is at least the [expirationTime] of each of its
    descendants": on a store where the return path of [fiber] is finite, no
    alternate dangles and the fibers above [fiber] or its alternate are the
    fibers of that path and their alternates, the call returns, every fiber
    of the path ends with [childExpirationTime >= expirationTime], and the
    invariant still holds.
    (2) [resetChildExpirationTime], unless it takes its early return (render
    time other than [Never] and [completedWork.childExpirationTime === Never],
    where it writes nothing), re-establishes the invariant bottom-up: if it
    holds in the subtree of every child of [completedWork], it holds in the
    subtree of [completedWork] after the call. *)
Theorem child_priority_maintained :
  (forall (fuel : nat) (g : Globals) (h : Store) (fiber : nat) (t : Z) (f : Fiber)
          (path : list nat),
      h !! fiber = Some f ->
      returnPath h (Fiber.return_ f) path ->
      closedAlternates h ->
      pathCoversAncestors h fiber path ->
      (length path <= fuel)%nat ->
      childPriorityInvariant h ->
      exists h' g' calls root,
        markUpdateTimeFromFiberToRoot fuel g h fiber t = Some (h', g', calls, root) /\
        (forall m, m ∈ path -> childAtLeast h' t m) /\
        childPriorityInvariant h') /\
  (forall (fuel : nat) (render : Z) (h : Store) (completedWork : nat) (f : Fiber)
          (cs : list nat),
      h !! completedWork = Some f ->
      render = Never \/ Fiber.childExpirationTime f <> Never ->
      siblingList h (Fiber.child f) cs ->
      (length cs <= fuel)%nat ->
      (forall a, Fiber.alternate f = Some a -> is_Some (h !! a)) ->
      (forall c, childOf h completedWork c -> subtreeInvariant h c) ->
      exists h',
        resetChildExpirationTime fuel render h completedWork = Some h' /\
        subtreeInvariant h' completedWork).
Proof.
  split.
  - intros fuel g h fiber t f path Hf Hpath Hclosed Hcover Hfuel Hinv.
    destruct (markUpdateTimeFromFiberToRoot_spec fuel g h fiber t f path
                Hf Hpath Hclosed Hfuel) as (h' & g' & calls & root & E & Hev & Hall).
    exists h', g', calls, root. split; [exact E|].
    split; [intros m Hm; apply (Hall m Hm)|].
    apply (invariant_evolves (isFiberOrAlternate h fiber) t h h' Hev); [|exact Hinv].
    intros n x Hx Hd.
    destruct (Hcover n x Hx Hd) as [Hn|(m & fm & Hm & Hfm & Halt)].
    + apply (Hall n Hn).
    + destruct (Hall m Hm) as [_ A]. apply (A fm n Hfm Halt).
  - intros fuel render h cw f cs Hf Hguard Hl Hfuel Halt Hbelow.
    destruct (resetChildExpirationTime_spec fuel render h cw f cs Hf Hguard Hl Hfuel Halt)
      as (f' & E & Hs & He & Hall).
    eexists. split; [exact E|].
    intros n Hn d fn' fd' Hd Hfn' Hfd'.
    apply (descendant_insert_shape h cw f f' n d Hf Hs) in Hd.
    assert (Hn0 : n = cw \/ descendant h cw n).
    { destruct Hn as [->|Hn]; [left; reflexivity|right].
      eapply descendant_insert_shape; eassumption. }
    assert (Hfd : exists fd, h !! d = Some fd /\
                             Fiber.expirationTime fd' = Fiber.expirationTime fd).
    { destruct (decide (cw = d)) as [<-|Hne].
      - rewrite lookup_insert_eq in Hfd'. injection Hfd' as <-. exists f. split; assumption.
      - rewrite lookup_insert_ne in Hfd' by assumption. exists fd'. split; [assumption|reflexivity]. }
    destruct Hfd as (fd & Hfd & ->).
    destruct (decide (cw = n)) as [<-|Hne].
    + rewrite lookup_insert_eq in Hfn'. injection Hfn' as <-.
      destruct (descendant_first h cw d Hd) as (c & Hc & Hcd).
      assert (Hin : c ∈ cs).
      { destruct Hc as (fp & Hfp & Hch). assert (fp = f) by congruence. subst fp.
        eapply siblingChain_in_list; eassumption. }
      destruct (siblingList_lookup h (Fiber.child f) cs c Hl Hin) as [fc Hfc].
      destruct (Hall c fc Hin Hfc) as [A1 A2].
      destruct Hcd as [->|Hcd].
      * assert (fd = fc) by congruence. subst fd. exact A1.
      * specialize (Hbelow c Hc c (or_introl eq_refl) d fc fd Hcd Hfc Hfd). lia.
    + rewrite lookup_insert_ne in Hfn' by assumption.
      destruct Hn0 as [->|Hn0]; [congruence|].
      destruct (descendant_first h cw n Hn0) as (c & Hc & Hcn).
      assert (Hsub : n = c \/ descendant h c n) by (destruct Hcn; auto).
      apply (Hbelow c Hc n Hsub d fn' fd Hd Hfn' Hfd).
Qed.

End Scheduling.

(** A root fiber (address 0, tag [HostRoot] = 3) with one child (address 1);
    [e] is the child's [expirationTime], [c] the root's
    [childExpirationTime]. *)
Section Tiny.
Definition tinyRoot (c : Z) : @Fiber.Fiber unit :=
  Fiber.mkFiber 3 None None None (Some tt) None (Some 1%nat) None 0 None None None None
    None None 0 0 None None None 0 c None None None None None.
Definition tinyChild (e : Z) : @Fiber.Fiber unit :=
  Fiber.mkFiber 1 None None None None (Some 0%nat) None None 0 None None None None
    None None 0 0 None None None e 0 None None None None None.
Definition tiny (e c : Z) : gmap nat (@Fiber.Fiber unit) :=
  <[0%nat := tinyRoot c]> (<[1%nat := tinyChild e]> ∅).
Definition idle : @Globals unit := mkGlobals NoContext None 0 RootIncomplete 0.
End Tiny.

Lemma tiny_lookup (e c : Z) (a : nat) (f : @Fiber.Fiber unit) :
  tiny e c !! a = Some f ->
  (a = 0%nat /\ f = tinyRoot c) \/ (a = 1%nat /\ f = tinyChild e).
Proof.
  unfold tiny. intros H.
  destruct (decide (a = 0%nat)) as [->|H0].
  - rewrite lookup_insert_eq in H. left. split; congruence.
  - rewrite lookup_insert_ne in H by congruence.
    destruct (decide (a = 1%nat)) as [->|H1].
    + rewrite lookup_insert_eq in H. right. split; congruence.
    + rewrite lookup_insert_ne in H by congruence. rewrite lookup_empty in H. discriminate.
Qed.

Lemma tiny_childOf (e c : Z) (p x : nat) :
  childOf (tiny e c) p x -> p = 0%nat /\ x = 1%nat.
Proof.
  intros (fp & Hp & Hc).
  destruct (tiny_lookup e c p fp Hp) as [[-> ->]|[-> ->]]; cbn in Hc.
  - split; [reflexivity|]. inversion Hc as [|a f y Ha Hs]; subst; [reflexivity|].
    destruct (tiny_lookup e c 1%nat f Ha) as [[? _]|[_ ->]]; [discriminate|].
    cbn in Hs. inversion Hs.
  - inversion Hc.
Qed.

Lemma tiny_descendant (e c : Z) (n d : nat) :
  descendant (tiny e c) n d -> n = 0%nat /\ d = 1%nat.
Proof.
  intros Hd. induction Hd as [p x Hc|p x d Hc Hd IH].
  - apply (tiny_childOf e c). assumption.
  - destruct (tiny_childOf e c p x Hc) as [-> ->]. destruct IH as [? _]. discriminate.
Qed.

Lemma tiny_child_descends (e c : Z) : descendant (tiny e c) 0%nat 1%nat.
Proof.
  apply descendant_child. exists (tinyRoot c). split; [reflexivity|]. cbn. constructor.
Qed.

Lemma tiny_invariant (e c : Z) : e <= c -> childPriorityInvariant (tiny e c).
Proof.
  intros Hle n d fn fd Hd Hn Hdl.
  destruct (tiny_descendant e c n d Hd) as [-> ->].
  destruct (tiny_lookup e c _ _ Hn) as [[_ ->]|[? _]]; [|discriminate].
  destruct (tiny_lookup e c _ _ Hdl) as [[? _]|[_ ->]]; [discriminate|].
  cbn. exact Hle.
Qed.

Lemma tiny_leaf (e c : Z) : subtreeInvariant (tiny e c) 1%nat.
Proof.
  intros n Hn d fn fd Hd _ _.
  destruct (tiny_descendant e c n d Hd) as [-> _].
  destruct Hn as [?|Hn]; [discriminate|].
  destruct (tiny_descendant e c _ _ Hn) as [? _]. discriminate.
Qed.

Lemma child_priority_maintained_witness :
  (exists h' g' calls root,
      markUpdateTimeFromFiberToRoot 3 5 idle (tiny 0 0) 1%nat 7 = Some (h', g', calls, root) /\
      (forall m, m ∈ [0%nat] -> childAtLeast h' 7 m) /\
      childPriorityInvariant h') /\
  (exists h',
      resetChildExpirationTime 0 1 false 5 7 (tiny 7 0) 0%nat = Some h' /\
      subtreeInvariant h' 0%nat).
Proof.
  destruct (@child_priority_maintained unit _ 0 1 3 false) as [A B]. split.
  - apply (A 5%nat idle (tiny 0 0) 1%nat 7 (tinyChild 0) [0%nat]).
    + reflexivity.
    + eapply returnPath_cons; [reflexivity|]. cbn. constructor.
    + intros a f alt Hf Halt.
      destruct (tiny_lookup 0 0 a f Hf) as [[_ ->]|[_ ->]]; discriminate.
    + intros n x _ Hd. left. destruct (tiny_descendant 0 0 n x Hd) as [-> _].
      apply elem_of_cons. left; reflexivity.
    + cbn. lia.
    + apply tiny_invariant. lia.
  - apply (B 5%nat 7 (tiny 7 0) 0%nat (tinyRoot 0) [1%nat]).
    + reflexivity.
    + right. cbn. discriminate.
    + eapply siblingList_cons; [reflexivity|]. cbn. constructor.
    + cbn. lia.
    + intros a Ha. discriminate.
    + intros c Hc. destruct (tiny_childOf 7 0 0%nat c Hc) as [_ ->]. apply tiny_leaf.
Defined.

(** The early return of [resetChildExpirationTime]: a hidden subtree whose
    [childExpirationTime] is [Never] is left as it is while the child has a
    pending update at [Sync]; the invariant does not hold after the call,
    though it holds in the subtree of the only child. *)
Lemma child_priority_counterexample :
  resetChildExpirationTime 0 1 false 5 1073741823 (tiny 1073741823 1) 0%nat
    = Some (tiny 1073741823 1) /\
  subtreeInvariant (tiny 1073741823 1) 1%nat /\
  ~ childPriorityInvariant (tiny 1073741823 1).
Proof.
  split; [reflexivity|]. split; [apply tiny_leaf|].
  intros Hinv.
  specialize (Hinv 0%nat 1%nat (tinyRoot 1) (tinyChild 1073741823)
                (tiny_child_descends _ _) eq_refl eq_refl).
  cbn in Hinv. lia.
Qed.

Lemma mark_returns_root_witness :
  exists h' g' calls,
    markUpdateTimeFromFiberToRoot 3 5 idle (tiny 0 0) 1%nat 7
    = Some (h', g', calls, Some tt) /\
    g' = idle /\ calls = [MarkRootUpdatedAtTime tt 7].
Proof.
  destruct (mark_returns_root 3 5%nat idle (tiny 0 0) 1%nat 7 (tinyChild 0) [0%nat]
              0%nat (tinyRoot 0)) as (h' & g' & calls & root & E & Hroot & _ & Hrest).
  - reflexivity.
  - eapply returnPath_cons; [reflexivity|]. cbn. constructor.
  - intros a f alt Hf Halt.
    destruct (tiny_lookup 0 0 a f Hf) as [[_ ->]|[_ ->]]; discriminate.
  - cbn. lia.
  - reflexivity.
  - reflexivity.
  - cbn in Hroot. subst root. destruct Hrest as (_ & Hother & _).
    destruct Hother as [-> ->]; [discriminate|].
    exists h', idle, [MarkRootUpdatedAtTime tt 7]. repeat split. exact E.
Defined.

(** A concurrent-mode fiber and a render in progress at time 1000. *)
Section Rendering.
Definition concurrentFiber : @Fiber.Fiber unit :=
  Fiber.mkFiber 1 None None None None None None None 0 None None None None
    None None 7 0 None None None 0 0 None None None None None.
Definition legacyFiber : @Fiber.Fiber unit :=
  Fiber.mkFiber 1 None None None None None None None 0 None None None None
    None None 0 0 None None None 0 0 None None None None None.
Definition MAX_SIGNED_31_BIT_INT : Z := 1073741823.
Definition outsideRender : @Globals unit := mkGlobals NoContext (Some tt) 1000 RootIncomplete 0.
Definition insideRender : @Globals unit := mkGlobals RenderContext (Some tt) 1000 RootIncomplete 0.
Definition syncRender : @Globals unit :=
  mkGlobals NoContext (Some tt) MAX_SIGNED_31_BIT_INT RootIncomplete 0.
End Rendering.

Lemma separate_batch_witness :
  exists computed,
    expirationForPriority 2 MAX_SIGNED_31_BIT_INT 5000 (fun _ _ => 0) (fun _ => 0)
      (fun _ => 1000) NormalPriority 0 None = Some computed /\
    (computed = 1000 -> 999 = 1000 - 1) /\
    (computed <> 1000 -> 999 = computed) /\
    999 <> 1000.
Proof.
  apply (separate_batch 2 (MAX_SIGNED_31_BIT_INT - 1) MAX_SIGNED_31_BIT_INT 5000
           (fun _ _ => 0) (fun _ => 0) (fun _ => 1000)
           outsideRender NormalPriority 0 concurrentFiber None tt 999).
  - vm_compute. discriminate.
  - vm_compute. discriminate.
  - reflexivity.
  - reflexivity.
  - reflexivity.
Defined.

(** An update scheduled from inside the render phase is given exactly the
    time being rendered, and so is a sync update on a legacy-mode fiber while
    a sync render is in progress. *)
Lemma separate_batch_counterexample :
  workInProgressRoot insideRender = Some tt /\
  computeExpirationForFiber 2 (MAX_SIGNED_31_BIT_INT - 1) MAX_SIGNED_31_BIT_INT 5000
    (fun _ _ => 0) (fun _ => 0) (fun _ => 1000)
    insideRender NormalPriority 0 concurrentFiber None
  = Some (renderExpirationTime insideRender) /\
  workInProgressRoot syncRender = Some tt /\
  computeExpirationForFiber 2 (MAX_SIGNED_31_BIT_INT - 1) MAX_SIGNED_31_BIT_INT 5000
    (fun _ _ => 0) (fun _ => 0) (fun _ => 1000)
    syncRender NormalPriority 0 legacyFiber None
  = Some (renderExpirationTime syncRender).
Proof. repeat split. Qed.
End WorkLoop.


(** ** ReactFiberWorkLoop.js: the commit

    The effect list is read-only while it is walked, so it is passed around as
    the list of its fibers ([nextEffect] is the list that remains).  The
    functions of ReactFiberCommitWork.js and of the host are not part of the
    sources at hand: a call to one of them is recorded in a trace, and an
    oracle says whether it throws. *)
Module Commit.
Import SideEffectTags.

Inductive Phase : Set :=
| BeforeMutationPhase
| MutationPhase
| LayoutPhase.

(** The calls that may throw inside the three effect loops. *)
Inductive HostOp : Set :=
| CommitBeforeMutationLifeCycles (current : option nat) (finishedWork : nat)
| ScheduleFlushPassiveEffects
| CommitResetTextContent (fiber : nat)
| CommitDetachRef (current : nat)
| CommitPlacement (fiber : nat)
| CommitWork (current : option nat) (finishedWork : nat)
| CommitDeletion (fiber : nat) (renderPriorityLevel : Z)
| CommitLifeCycles (current : option nat) (finishedWork : nat) (committedExpirationTime : Z)
| CommitAttachRef (fiber : nat).

Section CommitRoot.
Context {Val Err Times : Type} `{EqDecision Val}.
(** Constants of ReactFiberExpirationTime.js and shared/ReactWorkTags. *)
Variables NoWork Sync HostRoot ClassComponent : Z.
(** [typeof ctor.getDerivedStateFromError === 'function'], on [fiber.type], and
    [typeof instance.componentDidCatch === 'function'], on [fiber.stateNode]. *)
Variable hasGetDerivedStateFromError : option Val -> bool.
Variable hasComponentDidCatch : option Val -> bool.
(** Whether a call throws, and what. *)
Variable hostThrows : HostOp -> option Err.
(** ReactFiberRoot.js: the pending-time bookkeeping of a root. *)
Variable firstPendingTime : Times -> Z.
Variable markRootFinishedAtTime : Times -> Z -> Z -> Times.

Abbreviation Fiber := (@Fiber.Fiber Val).
Abbreviation Store := (gmap nat Fiber).

(** Modelled from the spec: [createRootErrorUpdate] and
    [createClassErrorUpdate] of ReactFiberThrow.js are not part of the sources
    at hand; the spec has them build "a synthetic update scheduled at" the
    priority passed in, which carries the captured error and its source. *)
Record ErrorUpdate : Type := mkErrorUpdate {
  forRoot : bool;
  errorSource : nat;
  capturedError : Err;
  updateExpirationTime : Z
}.

Inductive Event : Type :=
| Visited (phase : Phase) (fiber : nat)
| Called (phase : Phase) (fiber : nat) (op : HostOp)
| Captured (boundary : nat) (update : ErrorUpdate)
| RootCurrentAssigned (fiber : nat)
| PassiveEffectsFlushed
| PrepareForCommit
| ResetAfterCommit
| RootFinishedAtTime (expirationTime remaining : Z)
| RequestPaint
| OnCommitRoot
| EnsureRootIsScheduled
| FlushSyncCallbackQueue.

(** What the effect loops read and write. *)
Record CommitState : Type := mkCommitState {
  store : Store;
  trace : list Event;
  rootDoesHavePassiveEffects : bool
}.

(** A piece of straight-line code inside a [try]: it changes the state and
    either completes or throws. *)
Definition Step : Type := CommitState -> CommitState * option Err.

Definition skip : Step := fun st => (st, None).

Definition andThen (s1 s2 : Step) : Step :=
  fun st => match s1 st with
            | (st1, None) => s2 st1
            | (st1, Some e) => (st1, Some e)
            end.

Definition when (b : bool) (s : Step) : Step := if b then s else skip.

Definition call (phase : Phase) (fiber : nat) (op : HostOp) : Step :=
  fun st => (mkCommitState (store st) (trace st ++ [Called phase fiber op])
                           (rootDoesHavePassiveEffects st),
             hostThrows op).

(** [fiber.effectTag &= ~bit]. *)
Definition clearEffectBit (fiber : nat) (bit : Z) : Step :=
  fun st => (mkCommitState
               (alter (fun f => Fiber.set_effectTag
                                  (Z.land (Fiber.effectTag f) (Z.lnot bit)) f)
                      fiber (store st))
               (trace st) (rootDoesHavePassiveEffects st),
             None).

Definition has (effectTag bits : Z) : bool := negb (Z.land effectTag bits =? NoEffect).

(** The body of the loop of [commitBeforeMutationEffects]. *)
Definition beforeMutationStep (nextEffect : nat) (f : Fiber) : Step :=
  let effectTag := Fiber.effectTag f in
  andThen
    (when (has effectTag Snapshot)
       (call BeforeMutationPhase nextEffect
          (CommitBeforeMutationLifeCycles (Fiber.alternate f) nextEffect)))
    (when (has effectTag Passive)
       (fun st =>
          if rootDoesHavePassiveEffects st then (st, None)
          else call BeforeMutationPhase nextEffect ScheduleFlushPassiveEffects
                 (mkCommitState (store st) (trace st) true))).

(** The body of the loop of [commitMutationEffects]. *)
Definition mutationStep (renderPriorityLevel : Z) (nextEffect : nat) (f : Fiber) : Step :=
  let effectTag := Fiber.effectTag f in
  let primaryEffectTag :=
    Z.land effectTag (Z.lor (Z.lor (Z.lor Placement Update) Deletion) Hydrating) in
  andThen
    (when (has effectTag ContentReset)
       (call MutationPhase nextEffect (CommitResetTextContent nextEffect)))
    (andThen
       (when (has effectTag Ref)
          match Fiber.alternate f with
          | Some current => call MutationPhase nextEffect (CommitDetachRef current)
          | None => skip
          end)
       (if primaryEffectTag =? Placement then
          andThen (call MutationPhase nextEffect (CommitPlacement nextEffect))
                  (clearEffectBit nextEffect Placement)
        else if primaryEffectTag =? PlacementAndUpdate then
          andThen (call MutationPhase nextEffect (CommitPlacement nextEffect))
            (andThen (clearEffectBit nextEffect Placement)
               (call MutationPhase nextEffect (CommitWork (Fiber.alternate f) nextEffect)))
        else if primaryEffectTag =? Hydrating then
          clearEffectBit nextEffect Hydrating
        else if primaryEffectTag =? HydratingAndUpdate then
          andThen (clearEffectBit nextEffect Hydrating)
            (call MutationPhase nextEffect (CommitWork (Fiber.alternate f) nextEffect))
        else if primaryEffectTag =? Update then
          call MutationPhase nextEffect (CommitWork (Fiber.alternate f) nextEffect)
        else if primaryEffectTag =? Deletion then
          call MutationPhase nextEffect (CommitDeletion nextEffect renderPriorityLevel)
        else skip)).

(** The body of the loop of [commitLayoutEffects]. *)
Definition layoutStep (committedExpirationTime : Z) (nextEffect : nat) (f : Fiber) : Step :=
  let effectTag := Fiber.effectTag f in
  andThen
    (when (has effectTag (Z.lor Update Callback))
       (call LayoutPhase nextEffect
          (CommitLifeCycles (Fiber.alternate f) nextEffect committedExpirationTime)))
    (when (has effectTag Ref)
       (call LayoutPhase nextEffect (CommitAttachRef nextEffect))).

(** How one of the three functions ends: [nextEffect] became null, or an
    exception escapes with [nextEffect] still at the fiber being handled. *)
Inductive Outcome : Type :=
| Completed
| Thrown (error : Err) (nextEffect : list nat).

Definition visit (phase : Phase) (fiber : nat) (st : CommitState) : CommitState :=
  mkCommitState (store st) (trace st ++ [Visited phase fiber]) (rootDoesHavePassiveEffects st).

(** [while (nextEffect !== null) { body; nextEffect = nextEffect.nextEffect; }],
    the shape shared by [commitBeforeMutationEffects], [commitMutationEffects]
    and [commitLayoutEffects].  [None] if a fiber of the list dangles. *)
Fixpoint effectLoop (phase : Phase) (body : nat -> Fiber -> Step) (nextEffect : list nat)
    (st : CommitState) : option (CommitState * Outcome) :=
  match nextEffect with
  | [] => Some (st, Completed)
  | a :: rest =>
      f ← store st !! a;
      match body a f (visit phase a st) with
      | (st1, None) => effectLoop phase body rest st1
      | (st1, Some e) => Some (st1, Thrown e (a :: rest))
      end
  end.

Definition commitBeforeMutationEffects := effectLoop BeforeMutationPhase beforeMutationStep.
Definition commitMutationEffects (renderPriorityLevel : Z) :=
  effectLoop MutationPhase (mutationStep renderPriorityLevel).
Definition commitLayoutEffects (committedExpirationTime : Z) :=
  effectLoop LayoutPhase (layoutStep committedExpirationTime).

(** *** captureCommitPhaseError *)

Definition isAlreadyFailedLegacyErrorBoundary (failed : option (list (option Val)))
    (instance : option Val) : bool :=
  match failed with
  | None => false
  | Some l => bool_decide (instance ∈ l)
  end.

(** The test made on a class component met on the way up. *)
Definition canCapture (failed : option (list (option Val))) (f : Fiber) : bool :=
  hasGetDerivedStateFromError (Fiber.type f) ||
  (hasComponentDidCatch (Fiber.stateNode f) &&
   negb (isAlreadyFailedLegacyErrorBoundary failed (Fiber.stateNode f))).

(** What both capturing branches do with the boundary found:
    [enqueueUpdate(boundary, update)] for an update created at [Sync], then
    [markUpdateTimeFromFiberToRoot(boundary, Sync)] and the scheduling of the
    root.  The capture is recorded as one event.  What these calls write is
    not in the store: the update queue of the boundary, the expiration times
    on the way up from it, and on the root the pending times and the
    callback fields (for the root see [rootAfterEffects] below). *)
Definition captureOn (isRoot : bool) (boundary source : nat) (error : Err) : list Event :=
  [Captured boundary (mkErrorUpdate isRoot source error Sync)].

(** The [while (fiber !== null)] loop. *)
Fixpoint captureFrom (fuel : nat) (failed : option (list (option Val))) (h : Store)
    (fiber : option nat) (source : nat) (error : Err) : option (list Event) :=
  match fiber with
  | None => Some []
  | Some a =>
      match fuel with
      | O => None
      | S fuel' =>
          f ← h !! a;
          if Fiber.tag f =? HostRoot then Some (captureOn true a source error)
          else if (Fiber.tag f =? ClassComponent) && canCapture failed f
               then Some (captureOn false a source error)
          else captureFrom fuel' failed h (Fiber.return_ f) source error
      end
  end.

Definition captureCommitPhaseError (fuel : nat) (failed : option (list (option Val)))
    (h : Store) (sourceFiber : nat) (error : Err) : option (list Event) :=
  sf ← h !! sourceFiber;
  if Fiber.tag sf =? HostRoot then Some (captureOn true sourceFiber sourceFiber error)
  else captureFrom fuel failed h (Fiber.return_ sf) sourceFiber error.

(** *** The three loops of commitRootImpl *)

(** [do { try { run(); } catch (error) { invariant(nextEffect !== null);
    captureCommitPhaseError(nextEffect, error); nextEffect =
    nextEffect.nextEffect; } } while (nextEffect !== null)].  Every round
    consumes a fiber, so [fuel] bounds the rounds; the same fuel bounds the
    walk of [captureCommitPhaseError]. *)
Fixpoint phaseLoop (fuel : nat) (captureFuel : nat) (failed : option (list (option Val)))
    (run : list nat -> CommitState -> option (CommitState * Outcome))
    (nextEffect : list nat) (st : CommitState) : option CommitState :=
  match fuel with
  | O => None
  | S fuel' =>
      '(st1, outcome) ← run nextEffect st;
      match outcome with
      | Completed => Some st1
      | Thrown error [] => None
      | Thrown error (a :: rest) =>
          events ← captureCommitPhaseError captureFuel failed (store st1) a error;
          let st2 := mkCommitState (store st1) (trace st1 ++ events)
                                   (rootDoesHavePassiveEffects st1) in
          match rest with
          | [] => Some st2
          | _ :: _ => phaseLoop fuel' captureFuel failed run rest st2
          end
      end
  end.

(** *** commitRootImpl *)

Record FiberRoot : Type := mkFiberRoot {
  current : nat;
  finishedWork : option nat;
  finishedExpirationTime : Z;
  callbackNode : option Val;
  callbackExpirationTime : Z;
  callbackPriority : Z;
  nextKnownPendingLevel : Z;
  times : Times
}.

(** Code that is not part of this model writes the root while a commit runs:
    the lifecycles run by the host calls reach [scheduleUpdateOnFiber], and
    [captureCommitPhaseError] calls [markUpdateTimeFromFiberToRoot] and
    [ensureRootIsScheduled]; they write the pending times of the root, its
    [nextKnownPendingLevel] (which [markRootUpdatedAtTime] of ReactFiberRoot.js
    keeps with the suspended times) and its three callback fields, and no
    other field of it.
    [rootAfterEffects calls root] is the root when the three effect loops are
    over, [calls] being the trace at that point.  [rootScheduled calls root]
    is the root when the call [ensureRootIsScheduled(root)] near the end of
    the commit has returned; that function works on the scheduler state
    (module Schedule) and writes the three callback fields only.  Of the two
    results only the fields named are used. *)
Variable rootAfterEffects : list Event -> FiberRoot -> FiberRoot.
Variable rootScheduled : list Event -> FiberRoot -> FiberRoot.

Definition withScheduling (from to : FiberRoot) : FiberRoot :=
  mkFiberRoot (current to) (finishedWork to) (finishedExpirationTime to)
    (callbackNode from) (callbackExpirationTime from) (callbackPriority from)
    (nextKnownPendingLevel from) (times from).

Definition withCallback (from to : FiberRoot) : FiberRoot :=
  mkFiberRoot (current to) (finishedWork to) (finishedExpirationTime to)
    (callbackNode from) (callbackExpirationTime from) (callbackPriority from)
    (nextKnownPendingLevel to) (times to).

(** The module variables read or written by [commitRootImpl], apart from
    [nextEffect] and [rootDoesHavePassiveEffects], which the loops carry. *)
Record Globals : Type := mkGlobals {
  executionContext : Z;
  workInProgressRoot : option Val;
  workInProgress : option nat;
  renderExpirationTime : Z;
  hasUncaughtError : bool;
  firstUncaughtError : option Err;
  rootWithPendingPassiveEffects : option Val;
  pendingPassiveEffectsExpirationTime : Z;
  pendingPassiveEffectsRenderPriority : Z;
  legacyErrorBoundariesThatAlreadyFailed : option (list (option Val));
  nestedUpdateCount : Z;
  rootWithNestedUpdates : option Val
}.

(** How [commitRootImpl] ends.  Its last statement is the call
    [flushSyncCallbackQueue()], which runs the sync callbacks that are
    queued, among them renders and commits of their own: with
    [FlushesSyncCallbackQueue] the result is the state in which that call
    is made, and what the call does is not part of it. *)
Inductive Completion : Type :=
| Returned
| ThrewError (error : option Err)
| InvariantFailed (message : string)
| FlushesSyncCallbackQueue.

Record Committed : Type := mkCommitted {
  finalState : CommitState;
  finalRoot : FiberRoot;
  finalGlobals : Globals;
  completion : Completion
}.

Definition log (e : Event) (st : CommitState) : CommitState :=
  mkCommitState (store st) (trace st ++ [e]) (rootDoesHavePassiveEffects st).

Definition set_current (fiber : nat) (r : FiberRoot) : FiberRoot :=
  mkFiberRoot fiber (finishedWork r) (finishedExpirationTime r) (callbackNode r)
    (callbackExpirationTime r) (callbackPriority r) (nextKnownPendingLevel r) (times r).

Definition set_executionContext (c : Z) (g : Globals) : Globals :=
  mkGlobals c (workInProgressRoot g) (workInProgress g) (renderExpirationTime g)
    (hasUncaughtError g) (firstUncaughtError g) (rootWithPendingPassiveEffects g)
    (pendingPassiveEffectsExpirationTime g) (pendingPassiveEffectsRenderPriority g)
    (legacyErrorBoundariesThatAlreadyFailed g) (nestedUpdateCount g)
    (rootWithNestedUpdates g).

Definition getRemainingExpirationTime (f : Fiber) : Z :=
  if Fiber.childExpirationTime f <? Fiber.expirationTime f
  then Fiber.expirationTime f else Fiber.childExpirationTime f.

(** The list of effects: the root's own list, with the root itself at the end
    when it has an effect ([finishedWork.lastEffect.nextEffect = finishedWork]). *)
Definition effectList (finishedWork0 : nat) (fw : Fiber) (chain : list nat)
    (st : CommitState) : CommitState * list nat :=
  if PerformedWork <? Fiber.effectTag fw then
    match Fiber.lastEffect fw with
    | Some last =>
        (mkCommitState
           (alter (Fiber.set_nextEffect (Some finishedWork0)) last (store st))
           (trace st) (rootDoesHavePassiveEffects st),
         chain ++ [finishedWork0])
    | None => (st, [finishedWork0])
    end
  else (st, chain).

(** The three passes over a non-empty effect list, with the swap of
    [root.current] between the second and the third. *)
Definition commitPhases (fuel : nat) (failed : option (list (option Val)))
    (renderPriorityLevel expirationTime : Z) (finishedWork0 : nat)
    (firstEffect : list nat) (root : FiberRoot) (st : CommitState)
    : option (CommitState * FiberRoot) :=
  let st := log PrepareForCommit st in
  st ← phaseLoop fuel fuel failed commitBeforeMutationEffects firstEffect st;
  st ← phaseLoop fuel fuel failed (commitMutationEffects renderPriorityLevel) firstEffect st;
  let st := log ResetAfterCommit st in
  (* The work-in-progress tree is now the current tree. *)
  let root := set_current finishedWork0 root in
  let st := log (RootCurrentAssigned finishedWork0) st in
  st ← phaseLoop fuel fuel failed (commitLayoutEffects expirationTime) firstEffect st;
  Some (log RequestPaint st, root).

(** [nextEffect.nextEffect = null] along the list. *)
Definition clearNextEffects (effects : list nat) (h : Store) : Store :=
  fold_left (fun acc a => alter (Fiber.set_nextEffect None) a acc) effects h.

(** [commitRootImpl(root, renderPriorityLevel)], from the point where the
    leading loop [do { flushPassiveEffects(); } while (...)] is over (that
    loop can run renders and commits of its own; [root], [g] and [st] are
    the state it leaves, and [PassiveEffectsFlushed] marks the point), up to
    the return, the throw or the final call of [flushSyncCallbackQueue].
    [rootRef] is the identity of [root], [chain] the effect list of
    [root.finishedWork].  The host functions [prepareForCommit],
    [resetAfterCommit], [requestPaint] and [onCommitRoot] are recorded
    only. *)
Definition commitRootImpl (fuel : nat) (rootRef : Val) (root : FiberRoot) (g : Globals)
    (st : CommitState) (chain : list nat) (renderPriorityLevel : Z) : option Committed :=
  let st := log PassiveEffectsFlushed st in
  if negb (Z.land (executionContext g)
                  (Z.lor WorkLoop.RenderContext WorkLoop.CommitContext)
           =? WorkLoop.NoContext)
  then Some (mkCommitted st root g (InvariantFailed "Should not already be working."))
  else
  match finishedWork root with
  | None => Some (mkCommitted st root g Returned)
  | Some fw =>
      let expirationTime := finishedExpirationTime root in
      let root :=
        mkFiberRoot (current root) None NoWork (callbackNode root)
          (callbackExpirationTime root) (callbackPriority root)
          (nextKnownPendingLevel root) (times root) in
      if bool_decide (fw = current root)
      then Some (mkCommitted st root g
                   (InvariantFailed "Cannot commit the same tree as before."))
      else
        fwf ← store st !! fw;
        let remainingExpirationTimeBeforeCommit := getRemainingExpirationTime fwf in
        let root :=
          mkFiberRoot (current root) None NoWork None NoWork WorkLoop.NoPriority NoWork
            (markRootFinishedAtTime (times root) expirationTime
               remainingExpirationTimeBeforeCommit) in
        let st := log (RootFinishedAtTime expirationTime
                         remainingExpirationTimeBeforeCommit) st in
        let g :=
          if bool_decide (workInProgressRoot g = Some rootRef)
          then mkGlobals (executionContext g) None None NoWork
                 (hasUncaughtError g) (firstUncaughtError g)
                 (rootWithPendingPassiveEffects g)
                 (pendingPassiveEffectsExpirationTime g)
                 (pendingPassiveEffectsRenderPriority g)
                 (legacyErrorBoundariesThatAlreadyFailed g) (nestedUpdateCount g)
                 (rootWithNestedUpdates g)
          else g in
        let '(st, firstEffect) := effectList fw fwf chain st in
        '(st, root) ←
          match firstEffect with
          | _ :: _ =>
              (* executionContext |= CommitContext, restored afterwards *)
              '(st, root) ←
                commitPhases fuel (legacyErrorBoundariesThatAlreadyFailed g)
                  renderPriorityLevel expirationTime fw firstEffect root st;
              Some (st, withScheduling (rootAfterEffects (trace st) root) root)
          | [] =>
              (* No effects. *)
              Some (log (RootCurrentAssigned fw) st, set_current fw root)
          end;
        let rootDidHavePassiveEffects := rootDoesHavePassiveEffects st in
        let st :=
          if rootDidHavePassiveEffects
          then mkCommitState (store st) (trace st) false
          else mkCommitState (clearNextEffects firstEffect (store st)) (trace st) false in
        let remainingExpirationTime := firstPendingTime (times root) in
        let g :=
          mkGlobals (executionContext g) (workInProgressRoot g) (workInProgress g)
            (renderExpirationTime g) (hasUncaughtError g) (firstUncaughtError g)
            (if rootDidHavePassiveEffects then Some rootRef
             else rootWithPendingPassiveEffects g)
            (if rootDidHavePassiveEffects then expirationTime
             else pendingPassiveEffectsExpirationTime g)
            (if rootDidHavePassiveEffects then renderPriorityLevel
             else pendingPassiveEffectsRenderPriority g)
            (if remainingExpirationTime =? NoWork then None
             else legacyErrorBoundariesThatAlreadyFailed g)
            (if remainingExpirationTime =? Sync then
               if bool_decide (rootWithNestedUpdates g = Some rootRef)
               then nestedUpdateCount g + 1 else 0
             else 0)
            (if remainingExpirationTime =? Sync then Some rootRef
             else rootWithNestedUpdates g) in
        let st := log EnsureRootIsScheduled (log OnCommitRoot st) in
        let root := withCallback (rootScheduled (trace st) root) root in
        if hasUncaughtError g then
          Some (mkCommitted st root
                  (mkGlobals (executionContext g) (workInProgressRoot g) (workInProgress g)
                     (renderExpirationTime g) false None
                     (rootWithPendingPassiveEffects g)
                     (pendingPassiveEffectsExpirationTime g)
                     (pendingPassiveEffectsRenderPriority g)
                     (legacyErrorBoundariesThatAlreadyFailed g) (nestedUpdateCount g)
                     (rootWithNestedUpdates g))
                  (ThrewError (firstUncaughtError g)))
        else if negb (Z.land (executionContext g) WorkLoop.LegacyUnbatchedContext
                      =? WorkLoop.NoContext)
        then Some (mkCommitted st root g Returned)
        else Some (mkCommitted (log FlushSyncCallbackQueue st) root g
                     FlushesSyncCallbackQueue)
  end.

(** *** Specification-side definitions *)

(** The test that stops the walk of [captureCommitPhaseError] at a fiber. *)
Definition capturesAt (failed : option (list (option Val))) (f : Fiber) : bool :=
  (Fiber.tag f =? HostRoot) || ((Fiber.tag f =? ClassComponent) && canCapture failed f).

(** [b] is the nearest fiber at or above [start] that captures; [skipped] are
    the fibers passed on the way. *)
Inductive boundaryAbove (failed : option (list (option Val))) (h : Store)
  : option nat -> list nat -> nat -> Prop :=
| boundary_here (a : nat) (f : Fiber) :
    h !! a = Some f -> capturesAt failed f = true ->
    boundaryAbove failed h (Some a) [] a
| boundary_up (a : nat) (f : Fiber) (skipped : list nat) (b : nat) :
    h !! a = Some f -> capturesAt failed f = false ->
    boundaryAbove failed h (Fiber.return_ f) skipped b ->
    boundaryAbove failed h (Some a) (a :: skipped) b.

(** The fiber an error thrown at [source] is attributed to: the root itself
    for the root, otherwise the nearest capturing ancestor. *)
Definition captureTarget (failed : option (list (option Val))) (h : Store)
    (source : nat) (skipped : list nat) (b : nat) : Prop :=
  exists sf,
    h !! source = Some sf /\
    ((Fiber.tag sf = HostRoot /\ b = source /\ skipped = []) \/
     (Fiber.tag sf <> HostRoot /\ boundaryAbove failed h (Fiber.return_ sf) skipped b)).

(** [source] has a capturing fiber above it (or is the root), within reach of
    the fuel. *)
Definition attached (failed : option (list (option Val))) (h : Store) (fuel : nat)
    (source : nat) : Prop :=
  exists skipped b, captureTarget failed h source skipped b /\ (length skipped < fuel)%nat.

(** A call made for [fiber] in [phase] that does not throw. *)
Definition quiet (phase : Phase) (fiber : nat) (ev : Event) : Prop :=
  exists op, ev = Called phase fiber op /\ hostThrows op = None.

(** What one pass over the effect list leaves in the trace: every fiber of
    the list is visited, in order; a visit is a run of calls that do not
    throw, possibly ended by one that throws, and then the error is captured
    on the target of that fiber by an update at [Sync], before the next fiber
    is visited. *)
Inductive phaseTrace (failed : option (list (option Val))) (h : Store) (phase : Phase)
  : list nat -> list Event -> Prop :=
| phase_end : phaseTrace failed h phase [] []
| phase_ok (a : nat) (rest : list nat) (calls tr : list Event) :
    Forall (quiet phase a) calls ->
    phaseTrace failed h phase rest tr ->
    phaseTrace failed h phase (a :: rest) (Visited phase a :: calls ++ tr)
| phase_caught (a : nat) (rest : list nat) (calls tr : list Event) (op : HostOp)
    (e : Err) (skipped : list nat) (b : nat) (bf : Fiber) :
    Forall (quiet phase a) calls ->
    hostThrows op = Some e ->
    captureTarget failed h a skipped b ->
    h !! b = Some bf ->
    phaseTrace failed h phase rest tr ->
    phaseTrace failed h phase (a :: rest)
      (Visited phase a :: calls ++
       Called phase a op ::
       Captured b (mkErrorUpdate (Fiber.tag bf =? HostRoot) a e Sync) :: tr).

Definition visitedIn (phase : Phase) (ev : Event) : option nat :=
  match ev, phase with
  | Visited BeforeMutationPhase a, BeforeMutationPhase => Some a
  | Visited MutationPhase a, MutationPhase => Some a
  | Visited LayoutPhase a, LayoutPhase => Some a
  | _, _ => None
  end.

(** The fibers visited in [phase], in order. *)
Definition visits (phase : Phase) (tr : list Event) : list nat := omap (visitedIn phase) tr.

Definition inPhase (phase : Phase) (ev : Event) : Prop :=
  match ev with
  | Visited p _ | Called p _ _ => p = phase
  | _ => False
  end.

Definition isAssignment (ev : Event) : Prop :=
  match ev with
  | RootCurrentAssigned _ => True
  | _ => False
  end.

(** A fiber without the two fields the commit writes. *)
Definition bare (f : Fiber) : Fiber := Fiber.set_nextEffect None (Fiber.set_effectTag 0 f).

(** Which of the three functions a phase runs. *)
Definition runPhase (phase : Phase) (renderPriorityLevel expirationTime : Z)
    : list nat -> CommitState -> option (CommitState * Outcome) :=
  match phase with
  | BeforeMutationPhase => commitBeforeMutationEffects
  | MutationPhase => commitMutationEffects renderPriorityLevel
  | LayoutPhase => commitLayoutEffects expirationTime
  end.

(** *** Lemmas: the commit writes only [effectTag] and [nextEffect] *)

Lemma bare_lookup (h h' : Store) (a : nat) (f : Fiber) :
  bare <$> h = bare <$> h' ->
  h !! a = Some f ->
  exists f', h' !! a = Some f' /\ bare f = bare f'.
Proof.
  intros E Ha.
  assert (E1 : (bare <$> h) !! a = (bare <$> h') !! a) by (rewrite E; reflexivity).
  rewrite !lookup_fmap, Ha in E1. cbn in E1.
  destruct (h' !! a) as [f'|]; cbn in E1; [|discriminate].
  exists f'. split; [reflexivity|congruence].
Qed.

Lemma bare_alter (g : Fiber -> Fiber) (a : nat) (h : Store) :
  (forall f, bare (g f) = bare f) ->
  bare <$> alter g a h = bare <$> h.
Proof.
  intros Hg. apply map_eq. intros i. rewrite !lookup_fmap.
  destruct (decide (a = i)) as [<-|Hne].
  - rewrite lookup_alter_eq. destruct (h !! a) as [f|]; cbn; [|reflexivity].
    rewrite Hg. reflexivity.
  - rewrite lookup_alter_ne by assumption. reflexivity.
Qed.

Lemma bare_fields (f f' : Fiber) :
  bare f = bare f' ->
  Fiber.tag f = Fiber.tag f' /\ Fiber.type f = Fiber.type f' /\
  Fiber.stateNode f = Fiber.stateNode f' /\ Fiber.return_ f = Fiber.return_ f'.
Proof.
  intros E. repeat split.
  - exact (f_equal Fiber.tag E).
  - exact (f_equal Fiber.type E).
  - exact (f_equal Fiber.stateNode E).
  - exact (f_equal Fiber.return_ E).
Qed.

Lemma capturesAt_bare (failed : option (list (option Val))) (f f' : Fiber) :
  bare f = bare f' -> capturesAt failed f = capturesAt failed f'.
Proof.
  intros E. destruct (bare_fields f f' E) as (E1 & E2 & E3 & _).
  unfold capturesAt, canCapture. rewrite E1, E2, E3. reflexivity.
Qed.

Lemma boundaryAbove_bare (failed : option (list (option Val))) (h h' : Store)
    (start : option nat) (skipped : list nat) (b : nat) :
  bare <$> h = bare <$> h' ->
  boundaryAbove failed h start skipped b -> boundaryAbove failed h' start skipped b.
Proof.
  intros E Hb. induction Hb as [a f Ha Hc|a f skipped b Ha Hc Hb IH].
  - destruct (bare_lookup h h' a f E Ha) as (f' & Ha' & Ef).
    eapply boundary_here; [exact Ha'|]. rewrite <- (capturesAt_bare failed f f' Ef). exact Hc.
  - destruct (bare_lookup h h' a f E Ha) as (f' & Ha' & Ef).
    eapply boundary_up; [exact Ha'| |].
    + rewrite <- (capturesAt_bare failed f f' Ef). exact Hc.
    + destruct (bare_fields f f' Ef) as (_ & _ & _ & <-). exact IH.
Qed.

Lemma captureTarget_bare (failed : option (list (option Val))) (h h' : Store)
    (source : nat) (skipped : list nat) (b : nat) :
  bare <$> h = bare <$> h' ->
  captureTarget failed h source skipped b -> captureTarget failed h' source skipped b.
Proof.
  intros E (sf & Hs & Hcase).
  destruct (bare_lookup h h' source sf E Hs) as (sf' & Hs' & Ef).
  destruct (bare_fields sf sf' Ef) as (Et & _ & _ & Er).
  exists sf'. split; [exact Hs'|].
  destruct Hcase as [(Ht & -> & ->)|(Ht & Hb)].
  - left. repeat split. congruence.
  - right. split; [congruence|]. rewrite <- Er.
    eapply boundaryAbove_bare; eassumption.
Qed.

Lemma attached_bare (failed : option (list (option Val))) (h h' : Store) (fuel : nat)
    (source : nat) :
  bare <$> h = bare <$> h' -> attached failed h fuel source -> attached failed h' fuel source.
Proof.
  intros E (skipped & b & Hc & Hl). exists skipped, b.
  split; [eapply captureTarget_bare; eassumption|exact Hl].
Qed.

(** *** Lemmas: captureCommitPhaseError finds the nearest boundary *)

Lemma captureFrom_spec (failed : option (list (option Val))) (h : Store)
    (start : option nat) (skipped : list nat) (b : nat) :
  boundaryAbove failed h start skipped b ->
  forall fuel source e bf,
    (length skipped < fuel)%nat ->
    h !! b = Some bf ->
    captureFrom fuel failed h start source e =
    Some [Captured b (mkErrorUpdate (Fiber.tag bf =? HostRoot) source e Sync)].
Proof.
  intros Hb. induction Hb as [a f Ha Hc|a f skipped b Ha Hc Hb IH];
    intros fuel source e bf Hfuel Hbf.
  - destruct fuel as [|fuel]; [cbn in Hfuel; lia|].
    cbn [captureFrom]. rewrite Ha. cbn.
    assert (bf = f) by congruence. subst bf.
    unfold capturesAt in Hc.
    destruct (Fiber.tag f =? HostRoot); [reflexivity|].
    cbn in Hc. rewrite Hc. reflexivity.
  - destruct fuel as [|fuel]; [cbn in Hfuel; lia|].
    cbn [captureFrom]. rewrite Ha. cbn.
    unfold capturesAt in Hc. apply orb_false_iff in Hc. destruct Hc as [H1 H2].
    rewrite H1, H2. apply IH; [cbn in Hfuel; lia|assumption].
Qed.

Lemma captureTarget_lookup (failed : option (list (option Val))) (h : Store)
    (source : nat) (skipped : list nat) (b : nat) :
  captureTarget failed h source skipped b -> is_Some (h !! b).
Proof.
  intros (sf & Hs & [(_ & -> & _)|(_ & Hb)]); [eauto|].
  clear Hs. induction Hb; eauto.
Qed.

Lemma captureCommitPhaseError_spec (failed : option (list (option Val))) (h : Store)
    (source : nat) (skipped : list nat) (b : nat) (bf : Fiber) (fuel : nat) (e : Err) :
  captureTarget failed h source skipped b ->
  h !! b = Some bf ->
  (length skipped < fuel)%nat ->
  captureCommitPhaseError fuel failed h source e =
  Some [Captured b (mkErrorUpdate (Fiber.tag bf =? HostRoot) source e Sync)].
Proof.
  intros (sf & Hs & Hcase) Hbf Hfuel. unfold captureCommitPhaseError. rewrite Hs. cbn.
  destruct Hcase as [(Ht & -> & ->)|(Ht & Hb)].
  - assert (bf = sf) by congruence. subst bf.
    destruct (Z.eqb_spec (Fiber.tag sf) HostRoot); [reflexivity|contradiction].
  - destruct (Z.eqb_spec (Fiber.tag sf) HostRoot); [contradiction|].
    eapply captureFrom_spec; eassumption.
Qed.

(** *** Lemmas: what the body of a loop may do *)

(** The calls of one visit: all quiet, or quiet up to a last one that throws
    the error the step ends with. *)
Definition stepResult (phase : Phase) (a : nat) (calls : list Event) (r : option Err) : Prop :=
  match r with
  | None => Forall (quiet phase a) calls
  | Some e =>
      exists calls0 op,
        calls = calls0 ++ [Called phase a op] /\
        Forall (quiet phase a) calls0 /\ hostThrows op = Some e
  end.

Definition goodStep (phase : Phase) (a : nat) (s : Step) : Prop :=
  forall st,
    bare <$> store (s st).1 = bare <$> store st /\
    exists calls, trace (s st).1 = trace st ++ calls /\ stepResult phase a calls (s st).2.

Lemma good_skip (phase : Phase) (a : nat) : goodStep phase a skip.
Proof.
  intros st. cbn. split; [reflexivity|]. exists []. rewrite app_nil_r.
  split; [reflexivity|constructor].
Qed.

Lemma good_call (phase : Phase) (a : nat) (op : HostOp) : goodStep phase a (call phase a op).
Proof.
  intros st. cbn. split; [reflexivity|]. exists [Called phase a op].
  split; [reflexivity|]. unfold stepResult.
  destruct (hostThrows op) as [e|] eqn:E.
  - exists [], op. repeat split; [constructor|assumption].
  - constructor; [|constructor]. exists op. split; [reflexivity|assumption].
Qed.

Lemma good_clear (phase : Phase) (a : nat) (bit : Z) :
  goodStep phase a (clearEffectBit a bit).
Proof.
  intros st. cbn. split.
  - apply bare_alter. intros f. reflexivity.
  - exists []. rewrite app_nil_r. split; [reflexivity|constructor].
Qed.

Lemma good_andThen (phase : Phase) (a : nat) (s1 s2 : Step) :
  goodStep phase a s1 -> goodStep phase a s2 -> goodStep phase a (andThen s1 s2).
Proof.
  intros H1 H2 st. unfold andThen.
  destruct (H1 st) as (B1 & calls1 & T1 & R1).
  destruct (s1 st) as [st1 [e|]]; cbn in *.
  - split; [assumption|]. exists calls1. split; assumption.
  - destruct (H2 st1) as (B2 & calls2 & T2 & R2).
    split; [congruence|]. exists (calls1 ++ calls2).
    split; [rewrite T2, T1, app_assoc; reflexivity|].
    destruct (s2 st1).2 as [e|]; cbn in *.
    + destruct R2 as (calls0 & op & -> & Q & Hop).
      exists (calls1 ++ calls0), op. rewrite app_assoc.
      repeat split; [apply Forall_app; split; assumption|assumption].
    + apply Forall_app. split; assumption.
Qed.

Lemma good_when (phase : Phase) (a : nat) (b : bool) (s : Step) :
  goodStep phase a s -> goodStep phase a (when b s).
Proof. intros Hs. destruct b; [exact Hs|apply good_skip]. Qed.

Lemma good_schedulePassive (a : nat) :
  goodStep BeforeMutationPhase a
    (fun st =>
       if rootDoesHavePassiveEffects st then (st, None)
       else call BeforeMutationPhase a ScheduleFlushPassiveEffects
              (mkCommitState (store st) (trace st) true)).
Proof.
  intros st. destruct (rootDoesHavePassiveEffects st).
  - apply (good_skip BeforeMutationPhase a st).
  - apply (good_call BeforeMutationPhase a ScheduleFlushPassiveEffects
             (mkCommitState (store st) (trace st) true)).
Qed.

Lemma good_beforeMutationStep (a : nat) (f : Fiber) :
  goodStep BeforeMutationPhase a (beforeMutationStep a f).
Proof.
  unfold beforeMutationStep. apply good_andThen; apply good_when.
  - apply good_call.
  - apply good_schedulePassive.
Qed.

Lemma good_mutationStep (renderPriorityLevel : Z) (a : nat) (f : Fiber) :
  goodStep MutationPhase a (mutationStep renderPriorityLevel a f).
Proof.
  unfold mutationStep. apply good_andThen; [apply good_when, good_call|].
  apply good_andThen.
  - apply good_when. destruct (Fiber.alternate f); [apply good_call|apply good_skip].
  - repeat match goal with
           | |- goodStep _ _ (if ?b then _ else _) => destruct b
           end;
      repeat first [apply good_andThen | apply good_call | apply good_clear | apply good_skip].
Qed.

Lemma good_layoutStep (committedExpirationTime : Z) (a : nat) (f : Fiber) :
  goodStep LayoutPhase a (layoutStep committedExpirationTime a f).
Proof.
  unfold layoutStep. apply good_andThen; apply good_when; apply good_call.
Qed.

(** *** Lemmas: the loops *)

Lemma phaseTrace_bare (failed : option (list (option Val))) (h h' : Store) (phase : Phase)
    (l : list nat) (tr : list Event) :
  bare <$> h = bare <$> h' ->
  phaseTrace failed h phase l tr -> phaseTrace failed h' phase l tr.
Proof.
  intros E Hp. induction Hp as [|a rest calls tr Hq Hp IH
                                |a rest calls tr op e skipped b bf Hq Hop Hc Hb Hp IH].
  - constructor.
  - apply phase_ok; assumption.
  - destruct (bare_lookup h h' b bf E Hb) as (bf' & Hb' & Ef).
    destruct (bare_fields bf bf' Ef) as (-> & _).
    eapply phase_caught; try eassumption.
    eapply captureTarget_bare; eassumption.
Qed.

Lemma phaseLoop_spec (phase : Phase) (body : nat -> Fiber -> Step)
    (failed : option (list (option Val))) (captureFuel : nat) :
  (forall a f, goodStep phase a (body a f)) ->
  forall l fuel st,
    (length l < fuel)%nat ->
    Forall (attached failed (store st) captureFuel) l ->
    exists st',
      phaseLoop fuel captureFuel failed (effectLoop phase body) l st = Some st' /\
      bare <$> store st' = bare <$> store st /\
      exists tr, trace st' = trace st ++ tr /\ phaseTrace failed (store st) phase l tr.
Proof.
  intros Hgood. induction l as [|a rest IH]; intros fuel st Hfuel Hatt.
  - destruct fuel as [|fuel]; [cbn in Hfuel; lia|]. cbn.
    exists st. split; [reflexivity|]. split; [reflexivity|].
    exists []. rewrite app_nil_r. split; [reflexivity|constructor].
  - destruct fuel as [|fuel]; [cbn in Hfuel; lia|].
    inversion Hatt as [|? ? Ha Hrest]; subst.
    destruct Ha as (skipped & b & Htarget & Hskip).
    pose proof Htarget as (f & Hf & _).
    destruct (Hgood a f (visit phase a st)) as (B1 & calls & T1 & R1).
    cbn [phaseLoop effectLoop]. rewrite Hf. cbn.
    destruct (body a f (visit phase a st)) as [st1 r] eqn:Ebody. cbn in B1, T1, R1.
    assert (Hatt1 : Forall (attached failed (store st1) captureFuel) rest).
    { eapply Forall_impl; [exact Hrest|]. intros x Hx.
      eapply attached_bare; [|exact Hx]. symmetry. exact B1. }
    destruct r as [e|].
    + (* the visit throws: capture, then go on with the rest *)
      destruct R1 as (calls0 & op & -> & Hq & Hop).
      assert (Ht1 : captureTarget failed (store st1) a skipped b)
        by (eapply captureTarget_bare; [symmetry; exact B1|exact Htarget]).
      destruct (captureTarget_lookup _ _ _ _ _ Ht1) as [bf1 Hbf1].
      cbn. rewrite (captureCommitPhaseError_spec failed (store st1) a skipped b bf1
                      captureFuel e Ht1 Hbf1 Hskip). cbn.
      destruct (bare_lookup (store st1) (store st) b bf1 B1 Hbf1) as (bf & Hbf & Ebf).
      destruct (bare_fields bf1 bf Ebf) as (Etag & _).
      set (st2 := mkCommitState (store st1) _ (rootDoesHavePassiveEffects st1)).
      assert (Hrec : exists st',
                 match rest with
                 | [] => Some st2
                 | _ :: _ => phaseLoop fuel captureFuel failed (effectLoop phase body) rest st2
                 end = Some st' /\
                 bare <$> store st' = bare <$> store st2 /\
                 exists tr, trace st' = trace st2 ++ tr /\
                            phaseTrace failed (store st2) phase rest tr).
      { destruct rest as [|a' rest'].
        - exists st2. split; [reflexivity|]. split; [reflexivity|].
          exists []. rewrite app_nil_r. split; [reflexivity|constructor].
        - apply IH; [cbn in Hfuel |- *; lia|exact Hatt1]. }
      destruct Hrec as (st' & E & B2 & tr & T2 & Hp).
      exists st'. split; [exact E|]. split; [cbn in B2; congruence|].
      eexists. split.
      * rewrite T2. cbn. rewrite T1. cbn. rewrite <- !app_assoc. cbn. reflexivity.
      * rewrite Etag. eapply phase_caught; try eassumption.
        eapply phaseTrace_bare; [|exact Hp]. exact B1.
    + (* the visit completes: the inner loop goes on *)
      destruct (IH (S fuel) st1) as (st' & E & B2 & tr & T2 & Hp);
        [cbn in Hfuel; lia|exact Hatt1|].
      exists st'. split.
      { cbn [phaseLoop] in E. exact E. }
      split; [congruence|].
      exists (Visited phase a :: calls ++ tr). split.
      * rewrite T2, T1. cbn. rewrite <- !app_assoc. reflexivity.
      * apply phase_ok; [exact R1|]. eapply phaseTrace_bare; [|exact Hp]. exact B1.
Qed.

Lemma visits_quiet (phase phase' : Phase) (a : nat) (calls : list Event) :
  Forall (quiet phase a) calls -> visits phase' calls = [].
Proof.
  intros Hq. induction Hq as [|ev calls (op & -> & _) _ IH]; [reflexivity|].
  unfold visits in *. cbn. destruct phase'; exact IH.
Qed.

Lemma visits_app (phase : Phase) (l1 l2 : list Event) :
  visits phase (l1 ++ l2) = visits phase l1 ++ visits phase l2.
Proof. apply omap_app. Qed.

(** Every fiber of the list is visited, in order, in this phase only. *)
Lemma phaseTrace_visits (failed : option (list (option Val))) (h : Store) (phase : Phase)
    (l : list nat) (tr : list Event) :
  phaseTrace failed h phase l tr ->
  visits phase tr = l /\ forall phase', phase' <> phase -> visits phase' tr = [].
Proof.
  intros Hp. induction Hp as [|a rest calls tr Hq Hp [IH1 IH2]
                              |a rest calls tr op e skipped b bf Hq Hop Hc Hb Hp [IH1 IH2]].
  - split; [reflexivity|]. intros; reflexivity.
  - split.
    + change (Visited phase a :: calls ++ tr) with ([Visited phase a] ++ calls ++ tr).
      rewrite !visits_app, (visits_quiet phase phase a calls Hq), IH1.
      destruct phase; reflexivity.
    + intros phase' Hne.
      change (Visited phase a :: calls ++ tr) with ([Visited phase a] ++ calls ++ tr).
      rewrite !visits_app, (visits_quiet phase phase' a calls Hq), (IH2 phase' Hne).
      destruct phase, phase'; try reflexivity; congruence.
  - split.
    + change (Visited phase a :: calls ++ ?x) with ([Visited phase a] ++ calls ++ x).
      rewrite !visits_app, (visits_quiet phase phase a calls Hq).
      change (visits phase (Called phase a op :: Captured b ?u :: tr)) with (visits phase tr).
      rewrite IH1. destruct phase; reflexivity.
    + intros phase' Hne.
      change (Visited phase a :: calls ++ ?x) with ([Visited phase a] ++ calls ++ x).
      rewrite !visits_app, (visits_quiet phase phase' a calls Hq).
      change (visits phase' (Called phase a op :: Captured b ?u :: tr))
        with (visits phase' tr).
      rewrite (IH2 phase' Hne).
      destruct phase, phase'; try reflexivity; congruence.
Qed.

(** A pass assigns nothing to [root.current] and makes no call of another
    phase. *)
Lemma phaseTrace_events (failed : option (list (option Val))) (h : Store) (phase : Phase)
    (l : list nat) (tr : list Event) :
  phaseTrace failed h phase l tr ->
  Forall (fun ev => ~ isAssignment ev /\
                    forall phase', phase' <> phase -> ~ inPhase phase' ev) tr.
Proof.
  assert (Hquiet : forall a calls,
             Forall (quiet phase a) calls ->
             Forall (fun ev => ~ isAssignment ev /\
                               forall phase', phase' <> phase -> ~ inPhase phase' ev) calls).
  { intros a calls Hq. eapply Forall_impl; [exact Hq|].
    intros ev (op & -> & _). split; [intros []|]. intros phase' Hne Hin. cbn in Hin.
    congruence. }
  intros Hp. induction Hp as [|a rest calls tr Hq Hp IH
                              |a rest calls tr op e skipped b bf Hq Hop Hc Hb Hp IH].
  - constructor.
  - constructor.
    + split; [intros []|]. intros phase' Hne Hin. cbn in Hin. congruence.
    + apply Forall_app. split; [eapply Hquiet; eassumption|exact IH].
  - constructor.
    + split; [intros []|]. intros phase' Hne Hin. cbn in Hin. congruence.
    + apply Forall_app. split; [eapply Hquiet; eassumption|].
      constructor.
      * split; [intros []|]. intros phase' Hne Hin. cbn in Hin. congruence.
      * constructor; [|exact IH]. split; [intros []|]. intros phase' Hne [].
Qed.

(** *** Lemmas: the whole commit *)

(** An event that is no assignment of [root.current] and no visit or call of
    [phase]. *)
Definition outside (phase : Phase) (ev : Event) : Prop :=
  ~ isAssignment ev /\ ~ inPhase phase ev.

(** One assignment of [root.current], with the whole mutation pass before it
    and the whole layout pass after it. *)
Definition swappedOnce (firstEffect : list nat) (before after : list Event) : Prop :=
  Forall (outside LayoutPhase) before /\
  Forall (outside MutationPhase) after /\
  visits MutationPhase before = firstEffect /\
  visits LayoutPhase after = firstEffect.

Lemma phaseTrace_outside (failed : option (list (option Val))) (h : Store)
    (phase phase' : Phase) (l : list nat) (tr : list Event) :
  phase' <> phase -> phaseTrace failed h phase l tr -> Forall (outside phase') tr.
Proof.
  intros Hne Hp. eapply Forall_impl; [exact (phaseTrace_events failed h phase l tr Hp)|].
  intros ev [Ha Hother]. split; [exact Ha|]. apply Hother. exact Hne.
Qed.

Lemma effectList_spec (fw : nat) (fwf : Fiber) (chain : list nat) (st : CommitState) :
  bare <$> store (effectList fw fwf chain st).1 = bare <$> store st /\
  trace (effectList fw fwf chain st).1 = trace st.
Proof.
  unfold effectList. destruct (PerformedWork <? Fiber.effectTag fwf); [|split; reflexivity].
  destruct (Fiber.lastEffect fwf) as [last|]; [|split; reflexivity].
  cbn. split; [|reflexivity]. apply bare_alter. intros f. reflexivity.
Qed.

Lemma effectList_snd (fw : nat) (fwf : Fiber) (chain : list nat) (st st' : CommitState) :
  (effectList fw fwf chain st).2 = (effectList fw fwf chain st').2.
Proof.
  unfold effectList. destruct (PerformedWork <? Fiber.effectTag fwf); [|reflexivity].
  destruct (Fiber.lastEffect fwf); reflexivity.
Qed.

Lemma commitPhases_spec (fuel : nat) (failed : option (list (option Val)))
    (renderPriorityLevel expirationTime : Z) (fw : nat) (firstEffect : list nat)
    (root : FiberRoot) (st : CommitState) :
  (length firstEffect < fuel)%nat ->
  Forall (attached failed (store st) fuel) firstEffect ->
  exists st' before after,
    commitPhases fuel failed renderPriorityLevel expirationTime fw firstEffect root st
    = Some (st', set_current fw root) /\
    trace st' = trace st ++ before ++ RootCurrentAssigned fw :: after /\
    swappedOnce firstEffect before after.
Proof.
  intros Hfuel Hatt. unfold commitPhases.
  destruct (phaseLoop_spec BeforeMutationPhase beforeMutationStep failed fuel
              good_beforeMutationStep firstEffect fuel (log PrepareForCommit st)
              Hfuel Hatt) as (st1 & E1 & B1 & tr1 & T1 & P1).
  assert (Hatt1 : Forall (attached failed (store st1) fuel) firstEffect).
  { eapply Forall_impl; [exact Hatt|]. intros x Hx.
    eapply attached_bare; [|exact Hx]. symmetry. exact B1. }
  destruct (phaseLoop_spec MutationPhase (mutationStep renderPriorityLevel) failed fuel
              (good_mutationStep renderPriorityLevel) firstEffect fuel st1
              Hfuel Hatt1) as (st2 & E2 & B2 & tr2 & T2 & P2).
  assert (Hatt2 : Forall (attached failed (store st2) fuel) firstEffect).
  { eapply Forall_impl; [exact Hatt1|]. intros x Hx.
    eapply attached_bare; [|exact Hx]. symmetry. exact B2. }
  destruct (phaseLoop_spec LayoutPhase (layoutStep expirationTime) failed fuel
              (good_layoutStep expirationTime) firstEffect fuel
              (log (RootCurrentAssigned fw) (log ResetAfterCommit st2))
              Hfuel Hatt2) as (st3 & E3 & B3 & tr3 & T3 & P3).
  unfold commitBeforeMutationEffects, commitMutationEffects, commitLayoutEffects.
  rewrite E1. cbn [mbind option_bind]. rewrite E2. cbn [mbind option_bind].
  rewrite E3. cbn [mbind option_bind].
  exists (log RequestPaint st3), (PrepareForCommit :: tr1 ++ tr2 ++ [ResetAfterCommit]),
         (tr3 ++ [RequestPaint]).
  split; [reflexivity|]. split.
  - cbn. rewrite T3. cbn. rewrite T2, T1. cbn.
    repeat (rewrite <- app_assoc; cbn). reflexivity.
  - destruct (phaseTrace_visits _ _ _ _ _ P1) as [_ V1].
    destruct (phaseTrace_visits _ _ _ _ _ P2) as [V2 _].
    destruct (phaseTrace_visits _ _ _ _ _ P3) as [V3 _].
    repeat split.
    + constructor; [split; intros []|].
      apply Forall_app. split; [eapply phaseTrace_outside; [|exact P1]; discriminate|].
      apply Forall_app. split; [eapply phaseTrace_outside; [|exact P2]; discriminate|].
      constructor; [split; intros []|constructor].
    + apply Forall_app. split; [eapply phaseTrace_outside; [|exact P3]; discriminate|].
      constructor; [split; intros []|constructor].
    + change (PrepareForCommit :: tr1 ++ tr2 ++ [ResetAfterCommit])
        with ([PrepareForCommit] ++ tr1 ++ tr2 ++ [ResetAfterCommit]).
      rewrite !visits_app, V2, (V1 MutationPhase) by discriminate.
      cbn. apply app_nil_r.
    + rewrite visits_app, V3. cbn. apply app_nil_r.
Qed.


(** *** Theorems *)


(** *** Legacy error boundaries that already failed *)

(** [legacyErrorBoundariesThatAlreadyFailed] is a [Set]: adding an instance
    it holds changes nothing. *)
Definition markLegacyErrorBoundaryAsFailed (instance : option Val)
    (failed : option (list (option Val))) : option (list (option Val)) :=
  match failed with
  | None => Some [instance]
  | Some l => Some (if bool_decide (instance ∈ l) then l else l ++ [instance])
  end.

Lemma marked_failed (i j : option Val) (failed : option (list (option Val))) :
  isAlreadyFailedLegacyErrorBoundary (markLegacyErrorBoundaryAsFailed i failed) j = true <->
  j = i \/ isAlreadyFailedLegacyErrorBoundary failed j = true.
Proof.
  unfold isAlreadyFailedLegacyErrorBoundary, markLegacyErrorBoundaryAsFailed.
  destruct failed as [l|].
  - rewrite !bool_decide_eq_true. destruct (bool_decide_reflect (i ∈ l)) as [Hi|Hi].
    + split; [intros H; right; exact H|]. intros [->|H]; assumption.
    + rewrite elem_of_app, list_elem_of_singleton. tauto.
  - rewrite bool_decide_eq_true, list_elem_of_singleton.
    split; [intros H; left; exact H|]. intros [H|H]; [exact H|discriminate].
Qed.

Lemma capturesAt_marked (i : option Val) (failed : option (list (option Val))) (f : Fiber) :
  capturesAt failed f = false ->
  capturesAt (markLegacyErrorBoundaryAsFailed i failed) f = false.
Proof.
  unfold capturesAt, canCapture. intros H.
  destruct (Fiber.tag f =? HostRoot); [discriminate|].
  destruct (Fiber.tag f =? ClassComponent); [|reflexivity]. cbn in *.
  destruct (hasGetDerivedStateFromError (Fiber.type f)); [discriminate|].
  destruct (hasComponentDidCatch (Fiber.stateNode f)); [|reflexivity]. cbn in *.
  apply negb_false_iff in H. apply negb_false_iff.
  apply marked_failed. right. exact H.
Qed.

Lemma boundaryAbove_marked (failed : option (list (option Val))) (h : Store)
    (b : nat) (bf : Fiber) (skipped' : list nat) (b' : nat) :
  h !! b = Some bf ->
  capturesAt (markLegacyErrorBoundaryAsFailed (Fiber.stateNode bf) failed) bf = false ->
  boundaryAbove (markLegacyErrorBoundaryAsFailed (Fiber.stateNode bf) failed) h
    (Fiber.return_ bf) skipped' b' ->
  forall start skipped,
    boundaryAbove failed h start skipped b ->
    boundaryAbove (markLegacyErrorBoundaryAsFailed (Fiber.stateNode bf) failed) h
      start (skipped ++ b :: skipped') b'.
Proof.
  intros Hb Hno Hup start skipped Habove.
  induction Habove as [a f Ha Hc|a f skipped b0 Ha Hc Habove IH].
  - assert (f = bf) by congruence. subst f.
    cbn. eapply boundary_up; eassumption.
  - cbn. eapply boundary_up; [exact Ha|apply capturesAt_marked; exact Hc|].
    apply IH; assumption.
Qed.

(** markLegacyErrorBoundaryAsFailed and captureCommitPhaseError: once the
    instance of a class component that has [componentDidCatch] but no
    [getDerivedStateFromError] is marked as failed, an error that this
    component would have captured is captured by the next capturing fiber
    above it instead, again by an update at [Sync]; and
    [isAlreadyFailedLegacyErrorBoundary] answers true for exactly the
    instances marked. *)
Theorem failed_boundary_is_skipped (failed : option (list (option Val))) (h : Store)
    (source : nat) (skipped : list nat) (b : nat) (bf : Fiber)
    (skipped' : list nat) (b' : nat) (bf' : Fiber) (fuel : nat) (e : Err) :
  let failed' := markLegacyErrorBoundaryAsFailed (Fiber.stateNode bf) failed in
  captureTarget failed h source skipped b ->
  h !! b = Some bf ->
  Fiber.tag bf <> HostRoot ->
  hasGetDerivedStateFromError (Fiber.type bf) = false ->
  boundaryAbove failed' h (Fiber.return_ bf) skipped' b' ->
  h !! b' = Some bf' ->
  (length (skipped ++ b :: skipped') < fuel)%nat ->
  captureCommitPhaseError fuel failed' h source e =
    Some [Captured b' (mkErrorUpdate (Fiber.tag bf' =? HostRoot) source e Sync)] /\
  forall j, isAlreadyFailedLegacyErrorBoundary failed' j = true <->
            j = Fiber.stateNode bf \/ isAlreadyFailedLegacyErrorBoundary failed j = true.
Proof.
  intros failed' Htarget Hb Htag Hgd Hup Hb' Hfuel.
  split; [|intros j; apply marked_failed].
  assert (Hno : capturesAt failed' bf = false).
  { unfold capturesAt, canCapture. rewrite Hgd.
    destruct (Z.eqb_spec (Fiber.tag bf) HostRoot); [contradiction|].
    destruct (Fiber.tag bf =? ClassComponent); [|reflexivity]. cbn.
    destruct (hasComponentDidCatch (Fiber.stateNode bf)); [|reflexivity]. cbn.
    apply negb_false_iff. apply marked_failed. left. reflexivity. }
  apply (captureCommitPhaseError_spec failed' h source (skipped ++ b :: skipped') b' bf');
    [|exact Hb'|exact Hfuel].
  destruct Htarget as (sf & Hsf & [(Hroot & -> & ->)|(Hnr & Habove)]).
  - assert (sf = bf) by congruence. subst sf. contradiction.
  - exists sf. split; [exact Hsf|]. right. split; [exact Hnr|].
    eapply boundaryAbove_marked; eassumption.
Qed.

(** *** What a commit leaves behind *)

Lemma clearNextEffects_bare (effects : list nat) : forall h,
  bare <$> clearNextEffects effects h = bare <$> h.
Proof.
  unfold clearNextEffects.
  induction effects as [|a l IH]; intros h; [reflexivity|].
  cbn [fold_left]. rewrite IH. apply bare_alter. intros f. reflexivity.
Qed.

Lemma clearNextEffects_keeps (effects : list nat) : forall h a f,
  h !! a = Some f -> Fiber.nextEffect f = None ->
  exists f', clearNextEffects effects h !! a = Some f' /\ Fiber.nextEffect f' = None.
Proof.
  unfold clearNextEffects.
  induction effects as [|x l IH]; intros h a f Ha Hn; [exists f; split; assumption|].
  cbn [fold_left]. destruct (decide (x = a)) as [->|Hne].
  - apply (IH _ a (Fiber.set_nextEffect None f)); [|reflexivity].
    rewrite lookup_alter_eq, Ha. reflexivity.
  - apply (IH _ a f); [|exact Hn]. rewrite lookup_alter_ne by assumption. exact Ha.
Qed.

Lemma clearNextEffects_cleared (effects : list nat) : forall h a,
  a ∈ effects -> is_Some (h !! a) ->
  exists f', clearNextEffects effects h !! a = Some f' /\ Fiber.nextEffect f' = None.
Proof.
  induction effects as [|x l IH]; intros h a Hin [f Ha].
  - apply elem_of_nil in Hin. contradiction.
  - destruct (decide (x = a)) as [->|Hne].
    + change (clearNextEffects (a :: l) h)
        with (clearNextEffects l (alter (Fiber.set_nextEffect None) a h)).
      apply (clearNextEffects_keeps l _ a (Fiber.set_nextEffect None f)); [|reflexivity].
      rewrite lookup_alter_eq, Ha. reflexivity.
    + apply elem_of_cons in Hin as [->|Hin]; [contradiction|].
      change (clearNextEffects (x :: l) h)
        with (clearNextEffects l (alter (Fiber.set_nextEffect None) x h)).
      apply IH; [exact Hin|]. rewrite lookup_alter_ne by assumption. eauto.
Qed.

Lemma commitPhases_frame (fuel : nat) (failed : option (list (option Val)))
    (renderPriorityLevel expirationTime : Z) (fw : nat) (firstEffect : list nat)
    (root : FiberRoot) (st : CommitState) :
  (length firstEffect < fuel)%nat ->
  Forall (attached failed (store st) fuel) firstEffect ->
  exists st',
    commitPhases fuel failed renderPriorityLevel expirationTime fw firstEffect root st
    = Some (st', set_current fw root) /\
    bare <$> store st' = bare <$> store st.
Proof.
  intros Hfuel Hatt. unfold commitPhases.
  destruct (phaseLoop_spec BeforeMutationPhase beforeMutationStep failed fuel
              good_beforeMutationStep firstEffect fuel (log PrepareForCommit st)
              Hfuel Hatt) as (st1 & E1 & B1 & _).
  assert (Hatt1 : Forall (attached failed (store st1) fuel) firstEffect).
  { eapply Forall_impl; [exact Hatt|]. intros x Hx.
    eapply attached_bare; [|exact Hx]. symmetry. exact B1. }
  destruct (phaseLoop_spec MutationPhase (mutationStep renderPriorityLevel) failed fuel
              (good_mutationStep renderPriorityLevel) firstEffect fuel st1
              Hfuel Hatt1) as (st2 & E2 & B2 & _).
  assert (Hatt2 : Forall (attached failed (store st2) fuel) firstEffect).
  { eapply Forall_impl; [exact Hatt1|]. intros x Hx.
    eapply attached_bare; [|exact Hx]. symmetry. exact B2. }
  destruct (phaseLoop_spec LayoutPhase (layoutStep expirationTime) failed fuel
              (good_layoutStep expirationTime) firstEffect fuel
              (log (RootCurrentAssigned fw) (log ResetAfterCommit st2))
              Hfuel Hatt2) as (st3 & E3 & B3 & _).
  unfold commitBeforeMutationEffects, commitMutationEffects, commitLayoutEffects.
  rewrite E1. cbn [mbind option_bind]. rewrite E2. cbn [mbind option_bind].
  rewrite E3. cbn [mbind option_bind].
  eexists. split; [reflexivity|]. cbn in *. congruence.
Qed.

(** The module variables as the commit leaves them; [passive] says whether
    an effect of the list asked for passive effects,
    [remainingExpirationTime] is [root.firstPendingTime] as read once the
    effect loops are over. *)
Definition timesAfterCommit (root : FiberRoot) (fwf : Fiber) : Times :=
  markRootFinishedAtTime (times root) (finishedExpirationTime root)
    (getRemainingExpirationTime fwf).

Definition globalsAfterCommit (rootRef : Val) (root : FiberRoot)
    (renderPriorityLevel : Z) (passive : bool) (remainingExpirationTime : Z)
    (g : Globals) : Globals :=
  let mine := bool_decide (workInProgressRoot g = Some rootRef) in
  mkGlobals (executionContext g)
    (if mine then None else workInProgressRoot g)
    (if mine then None else workInProgress g)
    (if mine then NoWork else renderExpirationTime g)
    false
    (if hasUncaughtError g then None else firstUncaughtError g)
    (if passive then Some rootRef else rootWithPendingPassiveEffects g)
    (if passive then finishedExpirationTime root
     else pendingPassiveEffectsExpirationTime g)
    (if passive then renderPriorityLevel else pendingPassiveEffectsRenderPriority g)
    (if remainingExpirationTime =? NoWork then None
     else legacyErrorBoundariesThatAlreadyFailed g)
    (if remainingExpirationTime =? Sync then
       if bool_decide (rootWithNestedUpdates g = Some rootRef)
       then nestedUpdateCount g + 1 else 0
     else 0)
    (if remainingExpirationTime =? Sync then Some rootRef else rootWithNestedUpdates g).

(** How a commit can end once its work is done. *)
Definition endOfCommit (g : Globals) : Completion :=
  if hasUncaughtError g then ThrewError (firstUncaughtError g)
  else if negb (Z.land (executionContext g) WorkLoop.LegacyUnbatchedContext
                =? WorkLoop.NoContext)
       then Returned
       else FlushesSyncCallbackQueue.

(** The block [if (firstEffect !== null) { ... } else { ... }] of
    [commitRootImpl], by name. *)
Definition effectsBlock (fuel : nat) (failed : option (list (option Val)))
    (renderPriorityLevel expirationTime : Z) (fw : nat) (firstEffect : list nat)
    (root1 : FiberRoot) (st1 : CommitState) : option (CommitState * FiberRoot) :=
  match firstEffect with
  | _ :: _ =>
      '(st, root) ←
        commitPhases fuel failed renderPriorityLevel expirationTime fw firstEffect
          root1 st1;
      Some (st, withScheduling (rootAfterEffects (trace st) root) root)
  | [] => Some (log (RootCurrentAssigned fw) st1, set_current fw root1)
  end.

Lemma commitRootImpl_middle (fuel : nat) (failed : option (list (option Val)))
    (renderPriorityLevel expirationTime : Z) (fw : nat) (firstEffect : list nat)
    (root1 : FiberRoot) (st1 : CommitState) :
  (length firstEffect < fuel)%nat ->
  Forall (attached failed (store st1) fuel) firstEffect ->
  exists st2 rootL before after,
    match firstEffect with
    | _ :: _ =>
        '(st, root) ←
          commitPhases fuel failed renderPriorityLevel expirationTime fw firstEffect
            root1 st1;
        Some (st, withScheduling (rootAfterEffects (trace st) root) root)
    | [] => Some (log (RootCurrentAssigned fw) st1, set_current fw root1)
    end = Some (st2, rootL) /\
    current rootL = fw /\
    finishedWork rootL = finishedWork root1 /\
    finishedExpirationTime rootL = finishedExpirationTime root1 /\
    (firstEffect = [] -> rootL = set_current fw root1) /\
    bare <$> store st2 = bare <$> store st1 /\
    trace st2 = trace st1 ++ before ++ RootCurrentAssigned fw :: after /\
    swappedOnce firstEffect before after.
Proof.
  intros Hfuel Hatt. destruct firstEffect as [|a rest] eqn:Efe.
  - exists (log (RootCurrentAssigned fw) st1), (set_current fw root1), [], [].
    split; [reflexivity|]. repeat split; constructor.
  - rewrite <- Efe in *.
    destruct (commitPhases_spec fuel failed renderPriorityLevel expirationTime fw
                firstEffect root1 st1 Hfuel Hatt) as (st2 & before & after & E & T & Hsw).
    destruct (commitPhases_frame fuel failed renderPriorityLevel expirationTime fw
                firstEffect root1 st1 Hfuel Hatt) as (st2' & E' & B).
    assert (st2' = st2) by congruence. subst st2'.
    exists st2, (withScheduling (rootAfterEffects (trace st2) (set_current fw root1))
                   (set_current fw root1)), before, after.
    split; [rewrite E; reflexivity|].
    split; [reflexivity|]. split; [reflexivity|]. split; [reflexivity|].
    split; [intros H; rewrite H in Efe; discriminate|].
    split; [exact B|]. split; [exact T|exact Hsw].
Qed.

Lemma commitRootImpl_spec (fuel : nat) (rootRef : Val) (root : FiberRoot) (g : Globals)
    (st : CommitState) (chain : list nat) (renderPriorityLevel : Z)
    (fw : nat) (fwf : Fiber) (firstEffect : list nat) :
  Z.land (executionContext g) (Z.lor WorkLoop.RenderContext WorkLoop.CommitContext)
  = WorkLoop.NoContext ->
  finishedWork root = Some fw ->
  fw <> current root ->
  store st !! fw = Some fwf ->
  (effectList fw fwf chain st).2 = firstEffect ->
  (length firstEffect < fuel)%nat ->
  Forall (attached (legacyErrorBoundariesThatAlreadyFailed g) (store st) fuel) firstEffect ->
  exists res passive before after,
    commitRootImpl fuel rootRef root g st chain renderPriorityLevel = Some res /\
    (current (finalRoot res) = fw /\
     finishedWork (finalRoot res) = None /\
     finishedExpirationTime (finalRoot res) = NoWork /\
     (firstEffect = [] ->
      nextKnownPendingLevel (finalRoot res) = NoWork /\
      times (finalRoot res) = timesAfterCommit root fwf)) /\
    completion res = endOfCommit g /\
    finalGlobals res =
      globalsAfterCommit rootRef root renderPriorityLevel passive
        (firstPendingTime (times (finalRoot res))) g /\
    bare <$> store (finalState res) = bare <$> store st /\
    rootDoesHavePassiveEffects (finalState res) = false /\
    (passive = false ->
     forall a, a ∈ firstEffect ->
       exists f, store (finalState res) !! a = Some f /\ Fiber.nextEffect f = None) /\
    (trace (finalState res) = trace st ++ before ++ RootCurrentAssigned fw :: after /\
     swappedOnce firstEffect before after) /\
    exists st2 rootL,
      effectsBlock fuel (legacyErrorBoundariesThatAlreadyFailed g) renderPriorityLevel
        (finishedExpirationTime root) fw firstEffect
        (mkFiberRoot (current root) None NoWork None NoWork WorkLoop.NoPriority NoWork
           (timesAfterCommit root fwf))
        (effectList fw fwf chain
           (log (RootFinishedAtTime (finishedExpirationTime root)
                   (getRemainingExpirationTime fwf))
              (log PassiveEffectsFlushed st))).1
      = Some (st2, rootL) /\
      passive = rootDoesHavePassiveEffects st2.
Proof.
  intros Hctx Hfw Hne Hfwf Hlist Hfuel Hatt.
  unfold commitRootImpl. rewrite Hctx, Hfw, Z.eqb_refl. cbn [negb current times].
  rewrite (bool_decide_eq_false_2 _ Hne).
  change (store (log PassiveEffectsFlushed st)) with (store st). rewrite Hfwf.
  cbn [mbind option_bind].
  set (st0 := log (RootFinishedAtTime _ _) (log PassiveEffectsFlushed st)).
  destruct (effectList_spec fw fwf chain st0) as [B0 T0].
  rewrite (effectList_snd fw fwf chain st st0) in Hlist.
  destruct (effectList fw fwf chain st0) as [st1 fe] eqn:Eel. cbn in B0, T0, Hlist.
  subst fe.
  set (g1 := if bool_decide (workInProgressRoot g = Some rootRef) then _ else g).
  assert (Hfailed : legacyErrorBoundariesThatAlreadyFailed g1
                    = legacyErrorBoundariesThatAlreadyFailed g).
  { subst g1. destruct (bool_decide _); reflexivity. }
  assert (Hctx1 : executionContext g1 = executionContext g).
  { subst g1. destruct (bool_decide _); reflexivity. }
  assert (Herr : hasUncaughtError g1 = hasUncaughtError g).
  { subst g1. destruct (bool_decide _); reflexivity. }
  set (root1 := mkFiberRoot (current root) None NoWork None NoWork WorkLoop.NoPriority
                  NoWork
                  (markRootFinishedAtTime (times root) (finishedExpirationTime root)
                     (getRemainingExpirationTime fwf))).
  assert (Hatt1 : Forall (attached (legacyErrorBoundariesThatAlreadyFailed g)
                            (store st1) fuel) firstEffect).
  { eapply Forall_impl; [exact Hatt|]. intros x Hx.
    eapply attached_bare; [|exact Hx]. symmetry. exact B0. }
  rewrite Hfailed.
  destruct (commitRootImpl_middle fuel (legacyErrorBoundariesThatAlreadyFailed g)
              renderPriorityLevel (finishedExpirationTime root) fw firstEffect root1 st1
              Hfuel Hatt1)
    as (st2 & rootL & before & after & E & Hcur & Hfin & Hfe & Hnil & B2 & T2 & Hsw).
  rewrite E. cbn [mbind option_bind].
  assert (Bst : bare <$> store st2 = bare <$> store st).
  { rewrite B2, B0. reflexivity. }
  assert (Hpresent : forall a, a ∈ firstEffect -> is_Some (store st2 !! a)).
  { intros a Ha. rewrite Forall_forall in Hatt.
    destruct (Hatt a Ha) as (skipped & b & (sf & Hsf & _) & _).
    symmetry in Bst.
    destruct (bare_lookup (store st) (store st2) a sf Bst Hsf) as (f' & Hf' & _).
    eauto. }
  destruct Hsw as (Hb & Ha & Vm & Vl).
  assert (Htail : forall tail,
             Forall (outside MutationPhase) tail ->
             visits LayoutPhase tail = [] ->
             swappedOnce firstEffect
               (PassiveEffectsFlushed ::
                RootFinishedAtTime (finishedExpirationTime root)
                  (getRemainingExpirationTime fwf) :: before)
               (after ++ tail)).
  { intros tail Ht Hv. repeat split.
    - constructor; [split; intros []|]. constructor; [split; intros []|]. exact Hb.
    - apply Forall_app. split; assumption.
    - exact Vm.
    - rewrite visits_app, Vl, Hv. apply app_nil_r. }
  assert (Htrace : forall tail,
             trace st ++
             (PassiveEffectsFlushed ::
              RootFinishedAtTime (finishedExpirationTime root)
                (getRemainingExpirationTime fwf) :: before) ++
             RootCurrentAssigned fw :: after ++ tail
             = (trace st2 ++ tail)).
  { intros tail. rewrite T2, T0. subst st0. cbn.
    repeat (rewrite <- app_assoc; cbn). reflexivity. }
  assert (Hclear : rootDoesHavePassiveEffects st2 = false ->
            forall a, a ∈ firstEffect ->
              exists f, clearNextEffects firstEffect (store st2) !! a = Some f /\
                        Fiber.nextEffect f = None).
  { intros _ a Hin. apply clearNextEffects_cleared; [exact Hin|apply Hpresent; exact Hin]. }
  assert (Hbare : bare <$> store (if rootDoesHavePassiveEffects st2
                                  then mkCommitState (store st2) (trace st2) false
                                  else mkCommitState
                                         (clearNextEffects firstEffect (store st2))
                                         (trace st2) false)
                  = bare <$> store st).
  { destruct (rootDoesHavePassiveEffects st2); cbn [store];
      [exact Bst|rewrite clearNextEffects_bare; exact Bst]. }
  assert (Hroots : current rootL = fw /\ finishedWork rootL = None /\
                   finishedExpirationTime rootL = NoWork /\
                   (firstEffect = [] ->
                    nextKnownPendingLevel rootL = NoWork /\
                    times rootL = timesAfterCommit root fwf)).
  { split; [exact Hcur|]. split; [rewrite Hfin; reflexivity|].
    split; [rewrite Hfe; reflexivity|].
    intros H. rewrite (Hnil H). split; reflexivity. }
  assert (Hg1 : g1 =
            mkGlobals (executionContext g)
              (if bool_decide (workInProgressRoot g = Some rootRef)
               then None else workInProgressRoot g)
              (if bool_decide (workInProgressRoot g = Some rootRef)
               then None else workInProgress g)
              (if bool_decide (workInProgressRoot g = Some rootRef)
               then NoWork else renderExpirationTime g)
              (hasUncaughtError g) (firstUncaughtError g)
              (rootWithPendingPassiveEffects g) (pendingPassiveEffectsExpirationTime g)
              (pendingPassiveEffectsRenderPriority g)
              (legacyErrorBoundariesThatAlreadyFailed g) (nestedUpdateCount g)
              (rootWithNestedUpdates g)).
  { subst g1. destruct (bool_decide _); [reflexivity|]. destruct g; reflexivity. }
  assert (Hexp : exists st2' rootL',
            effectsBlock fuel (legacyErrorBoundariesThatAlreadyFailed g)
              renderPriorityLevel (finishedExpirationTime root) fw firstEffect
              (mkFiberRoot (current root) None NoWork None NoWork WorkLoop.NoPriority
                 NoWork (timesAfterCommit root fwf))
              st1
            = Some (st2', rootL') /\
            rootDoesHavePassiveEffects st2 = rootDoesHavePassiveEffects st2').
  { exists st2, rootL. split; [exact E|reflexivity]. }
  clearbody root1 g1. subst g1. clear Hcur Hfin Hfe Hnil E Hfailed Hctx1 Herr.
  cbn. unfold endOfCommit, globalsAfterCommit.
  assert (Hflag : rootDoesHavePassiveEffects
                    (if rootDoesHavePassiveEffects st2
                     then mkCommitState (store st2) (trace st2) false
                     else mkCommitState (clearNextEffects firstEffect (store st2))
                            (trace st2) false) = false)
    by (destruct (rootDoesHavePassiveEffects st2); reflexivity).
  assert (Htr : trace (if rootDoesHavePassiveEffects st2
                       then mkCommitState (store st2) (trace st2) false
                       else mkCommitState (clearNextEffects firstEffect (store st2))
                              (trace st2) false) = trace st2)
    by (destruct (rootDoesHavePassiveEffects st2); reflexivity).
  assert (Hcl : rootDoesHavePassiveEffects st2 = false ->
            forall a, a ∈ firstEffect ->
              exists f,
                store (if rootDoesHavePassiveEffects st2
                       then mkCommitState (store st2) (trace st2) false
                       else mkCommitState (clearNextEffects firstEffect (store st2))
                              (trace st2) false) !! a = Some f /\
                Fiber.nextEffect f = None).
  { intros Hp. rewrite Hp. exact (Hclear Hp). }
  destruct (hasUncaughtError g) eqn:Eh;
    [|destruct (negb (Z.land (executionContext g) WorkLoop.LegacyUnbatchedContext
                      =? WorkLoop.NoContext))].
  - eexists _, (rootDoesHavePassiveEffects st2), _, (after ++ [OnCommitRoot; EnsureRootIsScheduled]).
    split; [reflexivity|]. cbn.
    split; [exact Hroots|]. split; [reflexivity|]. split; [reflexivity|].
    split; [exact Hbare|]. split; [exact Hflag|]. split; [exact Hcl|].
    split; [|exact Hexp].
    split; [|apply Htail; [repeat constructor; intros []|reflexivity]].
    rewrite Htr, <- app_assoc. symmetry. apply Htrace.
  - eexists _, (rootDoesHavePassiveEffects st2), _, (after ++ [OnCommitRoot; EnsureRootIsScheduled]).
    split; [reflexivity|]. cbn.
    split; [exact Hroots|]. split; [reflexivity|]. split; [reflexivity|].
    split; [exact Hbare|]. split; [exact Hflag|]. split; [exact Hcl|].
    split; [|exact Hexp].
    split; [|apply Htail; [repeat constructor; intros []|reflexivity]].
    rewrite Htr, <- app_assoc. symmetry. apply Htrace.
  - eexists _, (rootDoesHavePassiveEffects st2), _,
      (after ++ [OnCommitRoot; EnsureRootIsScheduled; FlushSyncCallbackQueue]).
    split; [reflexivity|]. cbn.
    split; [exact Hroots|]. split; [reflexivity|]. split; [reflexivity|].
    split; [exact Hbare|]. split; [exact Hflag|]. split; [exact Hcl|].
    split; [|exact Hexp].
    split; [|apply Htail; [repeat constructor; intros []|reflexivity]].
    rewrite Htr, <- !app_assoc. symmetry. apply Htrace.
Qed.


(** [prepareToThrowUncaughtError], exported as [onUncaughtError]. *)
Definition prepareToThrowUncaughtError (error : Err) (g : Globals) : Globals :=
  if hasUncaughtError g then g
  else mkGlobals (executionContext g) (workInProgressRoot g) (workInProgress g)
         (renderExpirationTime g) true (Some error)
         (rootWithPendingPassiveEffects g) (pendingPassiveEffectsExpirationTime g)
         (pendingPassiveEffectsRenderPriority g)
         (legacyErrorBoundariesThatAlreadyFailed g) (nestedUpdateCount g)
         (rootWithNestedUpdates g).

Definition onUncaughtError := prepareToThrowUncaughtError.




Lemma uncaught_errors_first (errors : list Err) : forall g,
  hasUncaughtError g = true ->
  fold_left (fun acc e => onUncaughtError e acc) errors g = g.
Proof.
  induction errors as [|e l IH]; intros g H; [reflexivity|].
  cbn [fold_left]. unfold onUncaughtError at 2, prepareToThrowUncaughtError.
  rewrite H. apply IH. exact H.
Qed.

(** onUncaughtError and commitRootImpl: of the uncaught errors reported
    before a commit only the first is kept; the commit does all of its work
    (the finished tree becomes [root.current]) and then throws that first
    error, clearing [hasUncaughtError] and [firstUncaughtError]. *)
Theorem commit_rethrows_first_error (fuel : nat) (rootRef : Val) (root : FiberRoot)
    (g : Globals) (st : CommitState) (chain : list nat) (renderPriorityLevel : Z)
    (fw : nat) (fwf : Fiber) (firstEffect : list nat) (e : Err) (later : list Err) :
  hasUncaughtError g = false ->
  Z.land (executionContext g) (Z.lor WorkLoop.RenderContext WorkLoop.CommitContext)
  = WorkLoop.NoContext ->
  finishedWork root = Some fw ->
  fw <> current root ->
  store st !! fw = Some fwf ->
  (effectList fw fwf chain st).2 = firstEffect ->
  (length firstEffect < fuel)%nat ->
  Forall (attached (legacyErrorBoundariesThatAlreadyFailed g) (store st) fuel) firstEffect ->
  exists res,
    commitRootImpl fuel rootRef root
      (fold_left (fun acc x => onUncaughtError x acc) (e :: later) g)
      st chain renderPriorityLevel = Some res /\
    completion res = ThrewError (Some e) /\
    current (finalRoot res) = fw /\
    hasUncaughtError (finalGlobals res) = false /\
    firstUncaughtError (finalGlobals res) = None.
Proof.
  intros Hno Hctx Hfw Hne Hfwf Hlist Hfuel Hatt.
  cbn [fold_left]. rewrite uncaught_errors_first
    by (unfold onUncaughtError, prepareToThrowUncaughtError; rewrite Hno; reflexivity).
  unfold onUncaughtError, prepareToThrowUncaughtError. rewrite Hno.
  set (g' := mkGlobals _ _ _ _ true (Some e) _ _ _ _ _ _).
  destruct (commitRootImpl_spec fuel rootRef root g' st chain renderPriorityLevel
              fw fwf firstEffect Hctx Hfw Hne Hfwf Hlist Hfuel Hatt)
    as (res & passive & before & after & E & Hroot & Hcomp & Hg & _).
  exists res. split; [exact E|]. split; [exact Hcomp|].
  split; [exact (proj1 Hroot)|]. rewrite Hg. split; reflexivity.
Qed.

(** commitRootImpl, the root and the module variables at its end (the
    return, the throw of the first uncaught error or the final call of
    [flushSyncCallbackQueue]): the root has the finished tree as [current],
    no finished work and [NoWork] as [finishedExpirationTime]; with an empty
    effect list its [nextKnownPendingLevel] is [NoWork] and its pending
    times are those of [markRootFinishedAtTime]; the execution context is
    what it was; and the render session is closed exactly if the root was
    the one being rendered.  Nothing is said of the callback fields of the
    root, which [ensureRootIsScheduled] writes. *)
Theorem commit_settles_root (fuel : nat) (rootRef : Val) (root : FiberRoot)
    (g : Globals) (st : CommitState) (chain : list nat) (renderPriorityLevel : Z)
    (fw : nat) (fwf : Fiber) (firstEffect : list nat) :
  Z.land (executionContext g) (Z.lor WorkLoop.RenderContext WorkLoop.CommitContext)
  = WorkLoop.NoContext ->
  finishedWork root = Some fw ->
  fw <> current root ->
  store st !! fw = Some fwf ->
  (effectList fw fwf chain st).2 = firstEffect ->
  (length firstEffect < fuel)%nat ->
  Forall (attached (legacyErrorBoundariesThatAlreadyFailed g) (store st) fuel) firstEffect ->
  exists res,
    commitRootImpl fuel rootRef root g st chain renderPriorityLevel = Some res /\
    current (finalRoot res) = fw /\
    finishedWork (finalRoot res) = None /\
    finishedExpirationTime (finalRoot res) = NoWork /\
    (firstEffect = [] ->
     nextKnownPendingLevel (finalRoot res) = NoWork /\
     times (finalRoot res) =
       markRootFinishedAtTime (times root) (finishedExpirationTime root)
         (getRemainingExpirationTime fwf)) /\
    executionContext (finalGlobals res) = executionContext g /\
    (workInProgressRoot g = Some rootRef ->
     workInProgressRoot (finalGlobals res) = None /\
     workInProgress (finalGlobals res) = None /\
     renderExpirationTime (finalGlobals res) = NoWork) /\
    (workInProgressRoot g <> Some rootRef ->
     workInProgressRoot (finalGlobals res) = workInProgressRoot g /\
     workInProgress (finalGlobals res) = workInProgress g /\
     renderExpirationTime (finalGlobals res) = renderExpirationTime g).
Proof.
  intros Hctx Hfw Hne Hfwf Hlist Hfuel Hatt.
  destruct (commitRootImpl_spec fuel rootRef root g st chain renderPriorityLevel
              fw fwf firstEffect Hctx Hfw Hne Hfwf Hlist Hfuel Hatt)
    as (res & passive & before & after & E & Hroot & _ & Hg & _).
  destruct Hroot as (R1 & R2 & R3 & R5).
  exists res. split; [exact E|].
  split; [exact R1|]. split; [exact R2|]. split; [exact R3|].
  split; [exact R5|]. rewrite Hg.
  unfold globalsAfterCommit. cbn.
  split; [reflexivity|]. split.
  - intros H. rewrite (bool_decide_eq_true_2 _ H). repeat split.
  - intros H. rewrite (bool_decide_eq_false_2 _ H). repeat split.
Qed.


(** What the [switch] of [commitMutationEffects] leaves of an effect tag. *)
Definition settledTag (effectTag : Z) : Z :=
  let primaryEffectTag :=
    Z.land effectTag (Z.lor (Z.lor (Z.lor Placement Update) Deletion) Hydrating) in
  if (primaryEffectTag =? Placement) || (primaryEffectTag =? PlacementAndUpdate)
  then Z.land effectTag (Z.lnot Placement)
  else if (primaryEffectTag =? Hydrating) || (primaryEffectTag =? HydratingAndUpdate)
       then Z.land effectTag (Z.lnot Hydrating)
  else effectTag.

Lemma set_effectTag_same (f : Fiber) : Fiber.set_effectTag (Fiber.effectTag f) f = f.
Proof. destruct f; reflexivity. Qed.

Lemma mutationStep_quiet (renderPriorityLevel : Z) (a : nat) (f : Fiber) (st : CommitState) :
  (forall op, hostThrows op = None) ->
  store st !! a = Some f ->
  (mutationStep renderPriorityLevel a f st).2 = None /\
  store (mutationStep renderPriorityLevel a f st).1
  = <[a := Fiber.set_effectTag (settledTag (Fiber.effectTag f)) f]> (store st).
Proof.
  intros Hq Ha.
  assert (Hsame : store st = <[a := f]> (store st))
    by (symmetry; apply insert_id; exact Ha).
  assert (Halter : forall g (s : Store), s !! a = Some f -> alter g a s = <[a := g f]> s).
  { intros g s Hs. apply map_eq. intros i. destruct (decide (a = i)) as [<-|Hne].
    - rewrite lookup_alter_eq, lookup_insert_eq, Hs. reflexivity.
    - rewrite lookup_alter_ne, lookup_insert_ne by assumption. reflexivity. }
  unfold mutationStep, settledTag, andThen, when, call, clearEffectBit, skip.
  rewrite !Hq.
  assert (Hc : forall (b : bool) (x : CommitState) (t : list Event),
             (if b then (fun st0 : CommitState =>
                           (mkCommitState (store st0) (trace st0 ++ t)
                              (rootDoesHavePassiveEffects st0), @None Err))
              else (fun st0 => (st0, None))) x
             = (mkCommitState (store x) (if b then trace x ++ t else trace x)
                  (rootDoesHavePassiveEffects x), None)).
  { intros [] [? ? ?] t; reflexivity. }
  rewrite Hc.
  destruct (has (Fiber.effectTag f) Ref), (Fiber.alternate f); cbn [fst snd store];
    repeat match goal with
           | |- context [?x =? ?y] => destruct (Z.eqb_spec x y) as [?E|?E]; cbn
           end;
    try rewrite !Hq; cbn;
    rewrite ?Halter by exact Ha;
    try (split; [reflexivity|]; try reflexivity);
    try (rewrite set_effectTag_same; exact Hsame);
    try (exfalso; unfold Placement, PlacementAndUpdate, Hydrating, HydratingAndUpdate,
           Update, Deletion in *; lia).
Qed.

Lemma effectLoop_quiet (renderPriorityLevel : Z) (l : list nat) : forall st,
  (forall op, hostThrows op = None) ->
  NoDup l ->
  (forall a, a ∈ l -> is_Some (store st !! a)) ->
  exists st',
    effectLoop MutationPhase (mutationStep renderPriorityLevel) l st = Some (st', Completed) /\
    (forall x, x ∉ l -> store st' !! x = store st !! x) /\
    (forall a f, a ∈ l -> store st !! a = Some f ->
       store st' !! a = Some (Fiber.set_effectTag (settledTag (Fiber.effectTag f)) f)).
Proof.
  induction l as [|a l IH]; intros st Hq Hnd Hall.
  - exists st. split; [reflexivity|]. split; [reflexivity|].
    intros a f Ha. apply elem_of_nil in Ha. contradiction.
  - apply NoDup_cons in Hnd as [Hnotin Hnd].
    destruct (Hall a) as [f Hf]; [apply elem_of_cons; left; reflexivity|].
    cbn [effectLoop]. rewrite Hf. cbn.
    destruct (mutationStep_quiet renderPriorityLevel a f (visit MutationPhase a st) Hq Hf)
      as [Hnone Hstore].
    destruct (mutationStep renderPriorityLevel a f (visit MutationPhase a st))
      as [st1 r]. cbn in Hnone, Hstore. subst r.
    destruct (IH st1 Hq Hnd) as (st' & E & Hout & Hin).
    { intros x Hx. rewrite Hstore.
      destruct (decide (a = x)) as [<-|Hne]; [contradiction|].
      rewrite lookup_insert_ne by assumption. apply Hall. apply elem_of_cons. right. exact Hx. }
    exists st'. split; [exact E|]. split.
    + intros x Hx. apply not_elem_of_cons in Hx as [Hxa Hxl].
      rewrite (Hout x Hxl), Hstore. apply lookup_insert_ne. congruence.
    + intros x fx Hx Hfx. apply elem_of_cons in Hx as [->|Hx].
      * rewrite (Hout a Hnotin), Hstore, lookup_insert_eq. congruence.
      * apply Hin; [exact Hx|]. rewrite Hstore.
        rewrite lookup_insert_ne by (intros ->; contradiction). exact Hfx.
Qed.

Lemma land_lnot_bit (x bit : Z) : Z.land (Z.land x (Z.lnot bit)) bit = 0.
Proof.
  rewrite <- Z.land_assoc, (Z.land_comm (Z.lnot bit) bit), Z.land_lnot_diag.
  apply Z.land_0_r.
Qed.

(** commitMutationEffects, when no host operation throws, on an effect list
    without repetition: the pass completes; every fiber of the list that was
    tagged for placement (alone or with an update) has the [Placement] bit
    cleared afterwards, every fiber tagged for hydration the [Hydrating] bit,
    every other bit of every tag is as before, and fibers outside the list
    are untouched.  So the layout pass never sees a fiber that is still to be
    placed. *)
Theorem mutation_pass_settles_placement (renderPriorityLevel : Z) (fuel captureFuel : nat)
    (failed : option (list (option Val))) (firstEffect : list nat) (st : CommitState) :
  (forall op, hostThrows op = None) ->
  NoDup firstEffect ->
  (forall a, a ∈ firstEffect -> is_Some (store st !! a)) ->
  exists st',
    phaseLoop (S fuel) captureFuel failed (commitMutationEffects renderPriorityLevel)
      firstEffect st = Some st' /\
    (forall x, x ∉ firstEffect -> store st' !! x = store st !! x) /\
    (forall a f, a ∈ firstEffect -> store st !! a = Some f ->
       store st' !! a = Some (Fiber.set_effectTag (settledTag (Fiber.effectTag f)) f) /\
       (let primaryEffectTag :=
          Z.land (Fiber.effectTag f)
            (Z.lor (Z.lor (Z.lor Placement Update) Deletion) Hydrating) in
        primaryEffectTag = Placement \/ primaryEffectTag = PlacementAndUpdate ->
        Z.land (settledTag (Fiber.effectTag f)) Placement = NoEffect)).
Proof.
  intros Hq Hnd Hall.
  destruct (effectLoop_quiet renderPriorityLevel firstEffect st Hq Hnd Hall)
    as (st' & E & Hout & Hin).
  exists st'. split.
  { cbn [phaseLoop]. unfold commitMutationEffects. rewrite E. reflexivity. }
  split; [exact Hout|].
  intros a f Ha Hf. split; [apply Hin; assumption|].
  intros primaryEffectTag Hp. unfold settledTag. fold primaryEffectTag.
  destruct Hp as [-> | ->]; cbn [Z.eqb orb]; apply land_lnot_bit.
Qed.

(** *** A commit in which no host call throws *)

(** An effect of the list has the [Passive] bit. *)
Definition asksPassive (h : Store) (l : list nat) : Prop :=
  Exists (fun a => exists f, h !! a = Some f /\ has (Fiber.effectTag f) Passive = true) l.

Lemma beforeMutationStep_quiet (a : nat) (f : Fiber) (st : CommitState) :
  (forall op, hostThrows op = None) ->
  (beforeMutationStep a f st).2 = None /\
  store (beforeMutationStep a f st).1 = store st /\
  rootDoesHavePassiveEffects (beforeMutationStep a f st).1
  = rootDoesHavePassiveEffects st || has (Fiber.effectTag f) Passive.
Proof.
  intros Hq. unfold beforeMutationStep, andThen, when, call, skip.
  destruct (has (Fiber.effectTag f) Snapshot), (has (Fiber.effectTag f) Passive),
    (rootDoesHavePassiveEffects st) eqn:Ef;
    cbn; rewrite ?Hq; cbn; rewrite ?Ef, ?Hq; cbn; rewrite ?Ef; repeat split;
    reflexivity.
Qed.

Lemma layoutStep_quiet (committedExpirationTime : Z) (a : nat) (f : Fiber)
    (st : CommitState) :
  (forall op, hostThrows op = None) ->
  (layoutStep committedExpirationTime a f st).2 = None /\
  store (layoutStep committedExpirationTime a f st).1 = store st /\
  rootDoesHavePassiveEffects (layoutStep committedExpirationTime a f st).1
  = rootDoesHavePassiveEffects st.
Proof.
  intros Hq. unfold layoutStep, andThen, when, call, skip.
  destruct (has (Fiber.effectTag f) (Z.lor Update Callback)), (has (Fiber.effectTag f) Ref);
    cbn; rewrite ?Hq; cbn; rewrite ?Hq; repeat split; reflexivity.
Qed.

Lemma mutationStep_flag (renderPriorityLevel : Z) (a : nat) (f : Fiber) (st : CommitState) :
  (forall op, hostThrows op = None) ->
  rootDoesHavePassiveEffects (mutationStep renderPriorityLevel a f st).1
  = rootDoesHavePassiveEffects st.
Proof.
  intros Hq. unfold mutationStep, andThen, when, call, clearEffectBit, skip.
  destruct (has (Fiber.effectTag f) ContentReset), (has (Fiber.effectTag f) Ref),
    (Fiber.alternate f);
    cbn; rewrite ?Hq; cbn; rewrite ?Hq;
    repeat match goal with
           | |- context [?x =? ?y] => destruct (x =? y); cbn; rewrite ?Hq; cbn
           end;
    reflexivity.
Qed.

Lemma effectLoop_flag (phase : Phase) (body : nat -> Fiber -> Step) (l : list nat) :
  (forall a f st, rootDoesHavePassiveEffects (body a f st).1
                  = rootDoesHavePassiveEffects st) ->
  forall st st' o,
    effectLoop phase body l st = Some (st', o) ->
    rootDoesHavePassiveEffects st' = rootDoesHavePassiveEffects st.
Proof.
  intros Hbody. induction l as [|a l IH]; intros st st' o H; cbn [effectLoop] in H.
  - injection H as <- _. reflexivity.
  - destruct (store st !! a) as [f|]; [|discriminate]. cbn in H.
    pose proof (Hbody a f (visit phase a st)) as Hf.
    destruct (body a f (visit phase a st)) as [st1 [e|]]; cbn in Hf.
    + injection H as <- _. exact Hf.
    + rewrite (IH _ _ _ H). exact Hf.
Qed.

Lemma effectLoop_before_quiet (l : list nat) : forall st,
  (forall op, hostThrows op = None) ->
  (forall a, a ∈ l -> is_Some (store st !! a)) ->
  exists st',
    effectLoop BeforeMutationPhase beforeMutationStep l st = Some (st', Completed) /\
    store st' = store st /\
    (rootDoesHavePassiveEffects st' = true <->
     rootDoesHavePassiveEffects st = true \/ asksPassive (store st) l).
Proof.
  induction l as [|a l IH]; intros st Hq Hall.
  - exists st. split; [reflexivity|]. split; [reflexivity|].
    split; [intros H; left; exact H|]. intros [H|H]; [exact H|]. inversion H.
  - destruct (Hall a) as [f Hf]; [apply elem_of_cons; left; reflexivity|].
    cbn [effectLoop]. rewrite Hf. cbn.
    destruct (beforeMutationStep_quiet a f (visit BeforeMutationPhase a st) Hq)
      as (Hnone & Hstore & Hflag).
    destruct (beforeMutationStep a f (visit BeforeMutationPhase a st)) as [st1 r].
    cbn in Hnone, Hstore, Hflag. subst r.
    destruct (IH st1 Hq) as (st' & E & Hs & Hp).
    { intros x Hx. rewrite Hstore. apply Hall. apply elem_of_cons. right. exact Hx. }
    exists st'. split; [exact E|]. split; [congruence|].
    rewrite Hp, Hflag, Hstore, orb_true_iff. unfold asksPassive. rewrite Exists_cons.
    split.
    + intros [[H|H]|H]; [left; exact H| |right; right; exact H].
      right. left. exists f. split; assumption.
    + intros [H|[(f' & Hf' & H)|H]]; [left; left; exact H| |right; exact H].
      left. right. congruence.
Qed.

Lemma effectLoop_layout_quiet (committedExpirationTime : Z) (l : list nat) : forall st,
  (forall op, hostThrows op = None) ->
  (forall a, a ∈ l -> is_Some (store st !! a)) ->
  exists st',
    effectLoop LayoutPhase (layoutStep committedExpirationTime) l st
    = Some (st', Completed) /\
    store st' = store st /\
    rootDoesHavePassiveEffects st' = rootDoesHavePassiveEffects st.
Proof.
  induction l as [|a l IH]; intros st Hq Hall.
  - exists st. repeat split.
  - destruct (Hall a) as [f Hf]; [apply elem_of_cons; left; reflexivity|].
    cbn [effectLoop]. rewrite Hf. cbn.
    destruct (layoutStep_quiet committedExpirationTime a f (visit LayoutPhase a st) Hq)
      as (Hnone & Hstore & Hflag).
    destruct (layoutStep committedExpirationTime a f (visit LayoutPhase a st)) as [st1 r].
    cbn in Hnone, Hstore, Hflag. subst r.
    destruct (IH st1 Hq) as (st' & E & Hs & Hp).
    { intros x Hx. rewrite Hstore. apply Hall. apply elem_of_cons. right. exact Hx. }
    exists st'. split; [exact E|]. split; congruence.
Qed.

(** The three passes when nothing throws: whether the root is left with
    passive effects to flush. *)
Lemma commitPhases_quiet (fuel : nat) (failed : option (list (option Val)))
    (renderPriorityLevel expirationTime : Z) (fw : nat) (firstEffect : list nat)
    (root : FiberRoot) (st : CommitState) :
  (forall op, hostThrows op = None) ->
  NoDup firstEffect ->
  (forall a, a ∈ firstEffect -> is_Some (store st !! a)) ->
  exists st',
    commitPhases (S fuel) failed renderPriorityLevel expirationTime fw firstEffect root st
    = Some (st', set_current fw root) /\
    (rootDoesHavePassiveEffects st' = true <->
     rootDoesHavePassiveEffects st = true \/ asksPassive (store st) firstEffect).
Proof.
  intros Hq Hnd Hall. unfold commitPhases.
  destruct (effectLoop_before_quiet firstEffect (log PrepareForCommit st) Hq Hall)
    as (st1 & E1 & S1 & P1).
  change (store (log PrepareForCommit st)) with (store st) in S1, P1.
  change (rootDoesHavePassiveEffects (log PrepareForCommit st))
    with (rootDoesHavePassiveEffects st) in P1.
  cbn [phaseLoop]. unfold commitBeforeMutationEffects. rewrite E1.
  cbn [mbind option_bind].
  destruct (effectLoop_quiet renderPriorityLevel firstEffect st1 Hq Hnd)
    as (st2 & E2 & Hout & Hin).
  { intros a Ha. rewrite S1. apply Hall. exact Ha. }
  unfold commitMutationEffects. rewrite E2. cbn [mbind option_bind].
  pose proof (effectLoop_flag MutationPhase (mutationStep renderPriorityLevel) firstEffect
                (fun a f x => mutationStep_flag renderPriorityLevel a f x Hq)
                st1 st2 Completed E2) as F2.
  destruct (effectLoop_layout_quiet expirationTime firstEffect
              (log (RootCurrentAssigned fw) (log ResetAfterCommit st2)) Hq)
    as (st3 & E3 & S3 & P3).
  { intros a Ha. cbn [log store]. destruct (Hall a Ha) as [f Hf].
    rewrite <- S1 in Hf. rewrite (Hin a f Ha Hf). eauto. }
  unfold commitLayoutEffects. rewrite E3. cbn [mbind option_bind].
  eexists. split; [reflexivity|].
  cbn [log rootDoesHavePassiveEffects]. rewrite P3. cbn [log rootDoesHavePassiveEffects].
  rewrite F2. exact P1.
Qed.

Lemma effectList_tags (fw : nat) (fwf : Fiber) (chain : list nat) (st : CommitState)
    (a : nat) :
  Fiber.effectTag <$> store (effectList fw fwf chain st).1 !! a
  = Fiber.effectTag <$> store st !! a /\
  rootDoesHavePassiveEffects (effectList fw fwf chain st).1
  = rootDoesHavePassiveEffects st.
Proof.
  unfold effectList. destruct (PerformedWork <? Fiber.effectTag fwf); [|split; reflexivity].
  destruct (Fiber.lastEffect fwf) as [last|]; [|split; reflexivity].
  cbn. split; [|reflexivity]. destruct (decide (last = a)) as [->|Hne].
  - rewrite lookup_alter_eq. destruct (store st !! a); reflexivity.
  - rewrite lookup_alter_ne by assumption. reflexivity.
Qed.

Lemma asksPassive_tags (h h' : Store) (l : list nat) :
  (forall a, Fiber.effectTag <$> h' !! a = Fiber.effectTag <$> h !! a) ->
  asksPassive h' l -> asksPassive h l.
Proof.
  intros Hsame. unfold asksPassive. intros H. eapply Exists_impl; [exact H|].
  intros a (f' & Hf' & Hp).
  specialize (Hsame a). rewrite Hf' in Hsame. cbn in Hsame.
  destruct (h !! a) as [f|]; [|discriminate]. injection Hsame as Ht.
  exists f. split; [reflexivity|]. rewrite <- Ht. exact Hp.
Qed.

(** commitRootImpl and the effect list, when no host call throws, on an
    effect list without repetition and with [rootDoesHavePassiveEffects]
    false at the start (the commit before reset it).  At the end of the
    commit (its return, its throw of the first uncaught error or its final
    call of [flushSyncCallbackQueue]) [rootDoesHavePassiveEffects] is false
    again.  If a fiber of the
    effect list has the [Passive] bit, the root, the expiration time and
    the render priority are kept for [flushPassiveEffects]; if none has,
    these three variables are untouched and every fiber of the effect list
    has a null [nextEffect]. *)
Theorem commit_releases_effect_list (fuel : nat) (rootRef : Val) (root : FiberRoot)
    (g : Globals) (st : CommitState) (chain : list nat) (renderPriorityLevel : Z)
    (fw : nat) (fwf : Fiber) (firstEffect : list nat) :
  (forall op, hostThrows op = None) ->
  rootDoesHavePassiveEffects st = false ->
  NoDup firstEffect ->
  Z.land (executionContext g) (Z.lor WorkLoop.RenderContext WorkLoop.CommitContext)
  = WorkLoop.NoContext ->
  finishedWork root = Some fw ->
  fw <> current root ->
  store st !! fw = Some fwf ->
  (effectList fw fwf chain st).2 = firstEffect ->
  (length firstEffect < fuel)%nat ->
  Forall (attached (legacyErrorBoundariesThatAlreadyFailed g) (store st) fuel) firstEffect ->
  exists res,
    commitRootImpl fuel rootRef root g st chain renderPriorityLevel = Some res /\
    rootDoesHavePassiveEffects (finalState res) = false /\
    (asksPassive (store st) firstEffect ->
     rootWithPendingPassiveEffects (finalGlobals res) = Some rootRef /\
     pendingPassiveEffectsExpirationTime (finalGlobals res) = finishedExpirationTime root /\
     pendingPassiveEffectsRenderPriority (finalGlobals res) = renderPriorityLevel) /\
    (~ asksPassive (store st) firstEffect ->
     rootWithPendingPassiveEffects (finalGlobals res) = rootWithPendingPassiveEffects g /\
     pendingPassiveEffectsExpirationTime (finalGlobals res)
     = pendingPassiveEffectsExpirationTime g /\
     pendingPassiveEffectsRenderPriority (finalGlobals res)
     = pendingPassiveEffectsRenderPriority g /\
     forall a, a ∈ firstEffect ->
       exists f, store (finalState res) !! a = Some f /\ Fiber.nextEffect f = None).
Proof.
  intros Hq Hflag0 Hnd Hctx Hfw Hne Hfwf Hlist Hfuel Hatt.
  destruct (commitRootImpl_spec fuel rootRef root g st chain renderPriorityLevel
              fw fwf firstEffect Hctx Hfw Hne Hfwf Hlist Hfuel Hatt)
    as (res & passive & before & after & E & _ & _ & Hg & _ & Hp & Hclear & _ & Hexp).
  destruct Hexp as (st2 & rootL & Eb & Hpassive).
  set (st0 := log (RootFinishedAtTime (finishedExpirationTime root)
                     (getRemainingExpirationTime fwf))
                (log PassiveEffectsFlushed st)) in *.
  assert (Htags : forall a,
            Fiber.effectTag <$> store (effectList fw fwf chain st0).1 !! a
            = Fiber.effectTag <$> store st !! a).
  { intros a. apply (effectList_tags fw fwf chain st0 a). }
  assert (Hflag1 : rootDoesHavePassiveEffects (effectList fw fwf chain st0).1 = false).
  { rewrite (proj2 (effectList_tags fw fwf chain st0 fw)). exact Hflag0. }
  assert (Hiff : passive = true <-> asksPassive (store st) firstEffect).
  { rewrite Hpassive. unfold effectsBlock in Eb.
    destruct firstEffect as [|a0 rest] eqn:Efe.
    - injection Eb as <- _. cbn [log rootDoesHavePassiveEffects]. rewrite Hflag1.
      split; [discriminate|]. intros H. inversion H.
    - rewrite <- Efe in *. destruct fuel as [|fuel]; [cbn in Hfuel; lia|].
      destruct (commitPhases_quiet fuel (legacyErrorBoundariesThatAlreadyFailed g)
                  renderPriorityLevel (finishedExpirationTime root) fw firstEffect
                  (mkFiberRoot (current root) None NoWork None NoWork WorkLoop.NoPriority
                     NoWork (timesAfterCommit root fwf))
                  (effectList fw fwf chain st0).1 Hq Hnd)
        as (st' & E' & Hp').
      { intros a Ha. rewrite Forall_forall in Hatt.
        destruct (Hatt a Ha) as (skipped & b & (sf & Hsf & _) & _).
        specialize (Htags a). rewrite Hsf in Htags. cbn in Htags.
        destruct (store (effectList fw fwf chain st0).1 !! a); [eauto|discriminate]. }
      rewrite E' in Eb. cbn in Eb. injection Eb as <- _.
      rewrite Hp', Hflag1. split.
      + intros [H|H]; [discriminate|]. eapply asksPassive_tags; [|exact H]. exact Htags.
      + intros H. right. eapply asksPassive_tags; [|exact H].
        intros a. symmetry. apply Htags. }
  exists res. split; [exact E|]. split; [exact Hp|]. rewrite Hg.
  unfold globalsAfterCommit. cbn.
  split.
  - intros H. apply Hiff in H. rewrite H. repeat split.
  - intros H. assert (Hf : passive = false).
    { destruct passive; [|reflexivity]. exfalso. apply H. apply Hiff. reflexivity. }
    rewrite Hf. repeat split. apply Hclear. exact Hf.
Qed.

End CommitRoot.

(** *** A mounted tree: root 0, a class component 1 with [componentDidCatch]
    under it, and two host components 2 and 3 under the class component,
    the first to be placed, the second to be updated.  Placing fiber 2
    throws. *)
Section Mount.
Definition noDerived : option unit -> bool := fun _ => false.
Definition catches : option unit -> bool := fun instance => bool_decide (instance = Some tt).
Definition failsPlacement : HostOp -> option nat :=
  fun op => match op with
            | CommitPlacement 2 => Some 7%nat
            | _ => None
            end.
Definition mountedRoot : @Fiber.Fiber unit :=
  Fiber.mkFiber 3 None None None (Some tt) None (Some 1%nat) None 0 None None None None
    None None 0 0 None (Some 2%nat) (Some 3%nat) 0 0 None None None None None.
Definition mountedClass : @Fiber.Fiber unit :=
  Fiber.mkFiber 1 None None (Some tt) (Some tt) (Some 0%nat) (Some 2%nat) None 0 None None None
    None None None 0 0 None (Some 2%nat) (Some 3%nat) 0 0 None None None None None.
Definition placedHost : @Fiber.Fiber unit :=
  Fiber.mkFiber 5 None None None None (Some 1%nat) None (Some 3%nat) 0 None None None None
    None None 0 Placement (Some 3%nat) None None 0 0 None None None None None.
Definition updatedHost : @Fiber.Fiber unit :=
  Fiber.mkFiber 5 None None None None (Some 1%nat) None None 1 None None None None
    None None 0 Update None None None 0 0 None None None None None.
Definition mounted : gmap nat (@Fiber.Fiber unit) :=
  <[0%nat := mountedRoot]>
    (<[1%nat := mountedClass]> (<[2%nat := placedHost]> (<[3%nat := updatedHost]> ∅))).
Definition mountedState : @CommitState unit nat := mkCommitState mounted [] false.
Definition pendingRoot : @FiberRoot unit Z :=
  mkFiberRoot 9%nat (Some 0%nat) 5 None 0 WorkLoop.NoPriority 0 0.
Definition quietGlobals : @Globals unit nat :=
  mkGlobals WorkLoop.NoContext None None 0 false None None 0 WorkLoop.NoPriority None 0 None.
Definition pendingAfter : Z -> Z -> Z -> Z := fun _ _ remaining => remaining.
(** Nothing but the commit itself writes the root. *)
Definition untouched : list (@Event nat) -> @FiberRoot unit Z -> @FiberRoot unit Z :=
  fun _ root => root.
(** An error captured on a boundary is an update at [Sync]: the root has
    synchronous work pending and a callback for it. *)
Definition isCaptured (e : @Event nat) : bool :=
  match e with
  | Captured _ _ => true
  | _ => false
  end.
Definition syncWhenCaptured : list (@Event nat) -> @FiberRoot unit Z -> @FiberRoot unit Z :=
  fun calls root =>
    if existsb isCaptured calls
    then mkFiberRoot (current root) (finishedWork root) (finishedExpirationTime root)
           (Some tt) 1073741823 WorkLoop.ImmediatePriority (nextKnownPendingLevel root)
           1073741823
    else root.
Definition quietHost : HostOp -> option nat := fun _ => None.
End Mount.

Lemma mounted_attached :
  Forall (attached 3 1 noDerived catches None mounted 3) [2%nat; 3%nat].
Proof.
  assert (Hclass : boundaryAbove 3 1 noDerived catches None mounted (Some 1%nat) [] 1%nat).
  { apply (boundary_here 3 1 noDerived catches None mounted 1%nat mountedClass);
      reflexivity. }
  constructor; [|constructor; [|constructor]].
  - exists [], 1%nat. split; [|cbn; lia].
    exists placedHost. split; [reflexivity|]. right. split; [discriminate|exact Hclass].
  - exists [], 1%nat. split; [|cbn; lia].
    exists updatedHost. split; [reflexivity|]. right. split; [discriminate|exact Hclass].
Defined.

(** The mutation pass over the mounted tree: the placement of fiber 2 throws,
    the error is captured on the class component 1 at [Sync], and fiber 3 is
    still updated. *)
Example mutation_pass_mounted :
  trace <$> phaseLoop 1073741823 3 1 noDerived catches 3 3 None
              (runPhase failsPlacement MutationPhase 97 5) [2%nat; 3%nat] mountedState
  = Some [Visited MutationPhase 2; Called MutationPhase 2 (CommitPlacement 2);
          Captured 1 (mkErrorUpdate false 2 7%nat 1073741823);
          Visited MutationPhase 3; Called MutationPhase 3 (CommitWork None 3)].
Proof. vm_compute. reflexivity. Qed.



(** The whole commit of the mounted tree, with its single assignment between
    the mutation pass and the layout pass; the error captured leaves the
    root with synchronous work. *)
Example commit_mounted :
  (fun res => (current (finalRoot res), times (finalRoot res), completion res,
               trace (finalState res))) <$>
    commitRootImpl 0 1073741823 3 1 noDerived catches failsPlacement id pendingAfter
      syncWhenCaptured untouched
      3 tt pendingRoot quietGlobals mountedState [2%nat; 3%nat] 97
  = Some (0%nat, 1073741823, FlushesSyncCallbackQueue,
          [PassiveEffectsFlushed; RootFinishedAtTime 5 0; PrepareForCommit;
           Visited BeforeMutationPhase 2; Visited BeforeMutationPhase 3;
           Visited MutationPhase 2; Called MutationPhase 2 (CommitPlacement 2);
           Captured 1 (mkErrorUpdate false 2 7%nat 1073741823);
           Visited MutationPhase 3; Called MutationPhase 3 (CommitWork None 3);
           ResetAfterCommit; RootCurrentAssigned 0;
           Visited LayoutPhase 2;
           Visited LayoutPhase 3; Called LayoutPhase 3 (CommitLifeCycles None 3 5);
           RequestPaint; OnCommitRoot; EnsureRootIsScheduled; FlushSyncCallbackQueue]).
Proof. vm_compute. reflexivity. Qed.


Lemma failed_boundary_is_skipped_witness :
  captureCommitPhaseError 1073741823 3 1 noDerived catches 3
    (markLegacyErrorBoundaryAsFailed (Some tt) None) mounted 2%nat 7%nat
  = Some [Captured 0 (mkErrorUpdate true 2 7%nat 1073741823)].
Proof.
  apply (failed_boundary_is_skipped 1073741823 3 1 noDerived catches None mounted
           2%nat [] 1%nat mountedClass [] 0%nat mountedRoot 3 7%nat).
  - exists placedHost. split; [reflexivity|]. right. split; [discriminate|].
    apply (boundary_here 3 1 noDerived catches None mounted 1%nat mountedClass);
      reflexivity.
  - reflexivity.
  - discriminate.
  - reflexivity.
  - apply (boundary_here 3 1 noDerived catches
             (markLegacyErrorBoundaryAsFailed (Some tt) None) mounted 0%nat mountedRoot);
      reflexivity.
  - reflexivity.
  - cbn. lia.
Defined.

Lemma commit_rethrows_first_error_witness :
  exists res,
    commitRootImpl 0 1073741823 3 1 noDerived catches failsPlacement id pendingAfter
      syncWhenCaptured untouched
      3 tt pendingRoot
      (fold_left (fun acc x => onUncaughtError x acc) [4%nat; 9%nat] quietGlobals)
      mountedState [2%nat; 3%nat] 97 = Some res /\
    completion res = ThrewError (Some 4%nat) /\
    current (finalRoot res) = 0%nat.
Proof.
  destruct (commit_rethrows_first_error 0 1073741823 3 1 noDerived catches failsPlacement
              id pendingAfter syncWhenCaptured untouched
              3 tt pendingRoot quietGlobals mountedState [2%nat; 3%nat] 97
              0%nat mountedRoot [2%nat; 3%nat] 4%nat [9%nat])
    as (res & E & Hc & Hr & _).
  - reflexivity.
  - reflexivity.
  - reflexivity.
  - discriminate.
  - reflexivity.
  - reflexivity.
  - cbn. lia.
  - exact mounted_attached.
  - exists res. repeat split; assumption.
Defined.

Lemma commit_settles_root_witness :
  exists res,
    commitRootImpl 0 1073741823 3 1 noDerived catches failsPlacement id pendingAfter
      syncWhenCaptured untouched
      3 tt pendingRoot quietGlobals mountedState [2%nat; 3%nat] 97 = Some res /\
    current (finalRoot res) = 0%nat /\
    finishedWork (finalRoot res) = None /\
    finishedExpirationTime (finalRoot res) = 0.
Proof.
  destruct (commit_settles_root 0 1073741823 3 1 noDerived catches failsPlacement
              id pendingAfter syncWhenCaptured untouched
              3 tt pendingRoot quietGlobals mountedState [2%nat; 3%nat] 97
              0%nat mountedRoot [2%nat; 3%nat])
    as (res & E & Hc & Hf & Ht & _).
  - reflexivity.
  - reflexivity.
  - discriminate.
  - reflexivity.
  - reflexivity.
  - cbn. lia.
  - exact mounted_attached.
  - exists res. split; [exact E|]. split; [exact Hc|]. split; [exact Hf|exact Ht].
Defined.

(** The root of that commit is left with the callback of the captured error,
    not with a null one. *)
Example commit_mounted_callback :
  (fun res => (callbackNode (finalRoot res), callbackExpirationTime (finalRoot res))) <$>
    commitRootImpl 0 1073741823 3 1 noDerived catches failsPlacement id pendingAfter
      syncWhenCaptured untouched
      3 tt pendingRoot quietGlobals mountedState [2%nat; 3%nat] 97
  = Some (Some tt, 1073741823).
Proof. vm_compute. reflexivity. Qed.

Lemma mounted_effects_NoDup : NoDup [2%nat; 3%nat].
Proof.
  repeat (apply NoDup_cons_2; [rewrite ?elem_of_cons, elem_of_nil; lia|]).
  apply NoDup_nil_2.
Defined.

Lemma commit_releases_effect_list_witness :
  exists res,
    commitRootImpl 0 1073741823 3 1 noDerived catches quietHost id pendingAfter
      untouched untouched
      3 tt pendingRoot quietGlobals mountedState [2%nat; 3%nat] 97 = Some res /\
    rootDoesHavePassiveEffects (finalState res) = false /\
    rootWithPendingPassiveEffects (finalGlobals res) = None /\
    forall a, a ∈ [2%nat; 3%nat] ->
      exists f, store (finalState res) !! a = Some f /\ Fiber.nextEffect f = None.
Proof.
  destruct (commit_releases_effect_list 0 1073741823 3 1 noDerived catches quietHost
              id pendingAfter untouched untouched
              3 tt pendingRoot quietGlobals mountedState [2%nat; 3%nat] 97
              0%nat mountedRoot [2%nat; 3%nat])
    as (res & E & Hp & _ & Hnone).
  - intros op. reflexivity.
  - reflexivity.
  - exact mounted_effects_NoDup.
  - reflexivity.
  - reflexivity.
  - discriminate.
  - reflexivity.
  - reflexivity.
  - cbn. lia.
  - exact mounted_attached.
  - exists res. split; [exact E|]. split; [exact Hp|].
    destruct Hnone as (Hr & _ & _ & Hclear).
    + intros H. unfold asksPassive in H. rewrite !Exists_cons, Exists_nil in H.
      destruct H as [(f & Hf & H)|[(f & Hf & H)|[]]];
        vm_compute in Hf; injection Hf as <-; vm_compute in H; discriminate.
    + split; [exact Hr|exact Hclear].
Defined.

(** The commit of the mounted tree, without passive effects, leaves the two
    effect fibers unlinked. *)
Example commit_mounted_unlinks :
  (fun res => Fiber.nextEffect <$> store (finalState res) !! 2%nat) <$>
    commitRootImpl 0 1073741823 3 1 noDerived catches failsPlacement id pendingAfter
      syncWhenCaptured untouched
      3 tt pendingRoot quietGlobals mountedState [2%nat; 3%nat] 97
  = Some (Some None).
Proof. vm_compute. reflexivity. Qed.

(** A root on which every commit leaves synchronous work, after fifty
    nested updates. *)
Section Nested.
Definition alwaysSync : Z -> Z -> Z -> Z := fun _ _ _ => 1073741823.
End Nested.


Lemma mutation_pass_settles_placement_witness :
  exists st',
    phaseLoop 1073741823 3 1 noDerived catches 1 0 None
      (commitMutationEffects quietHost 97) [2%nat; 3%nat] mountedState = Some st' /\
    store st' !! 2%nat = Some (Fiber.set_effectTag 0 placedHost).
Proof.
  destruct (mutation_pass_settles_placement 1073741823 3 1 noDerived catches quietHost 97
              0 0 None [2%nat; 3%nat] mountedState)
    as (st' & E & _ & Hin).
  - intros op. reflexivity.
  - repeat (apply NoDup_cons_2; [rewrite ?elem_of_cons, elem_of_nil; lia|]).
    apply NoDup_nil_2.
  - intros a Ha. rewrite !elem_of_cons, elem_of_nil in Ha.
    destruct Ha as [->|[->|[]]]; eexists; reflexivity.
  - exists st'. split; [exact E|].
    apply (Hin 2%nat placedHost); [apply elem_of_cons; left; reflexivity|reflexivity].
Defined.
End Commit.


(** ** SchedulerWithReactIntegration.js: the two priority scales

    React's priority levels are the numbers 95 to 99; the scheduler package
    has its own five constants, which are not part of the sources at hand and
    are taken as parameters. *)
Module Priorities.
Import WorkLoop.

Section Conversion.
Variables Scheduler_ImmediatePriority Scheduler_UserBlockingPriority
  Scheduler_NormalPriority Scheduler_LowPriority Scheduler_IdlePriority : Z.

(** [getCurrentPriorityLevel()], on what [Scheduler_getCurrentPriorityLevel()]
    returns; [None] is the invariant failure 'Unknown priority level.' *)
Definition getCurrentPriorityLevel (schedulerLevel : Z) : option Z :=
  if schedulerLevel =? Scheduler_ImmediatePriority then Some ImmediatePriority
  else if schedulerLevel =? Scheduler_UserBlockingPriority then Some UserBlockingPriority
  else if schedulerLevel =? Scheduler_NormalPriority then Some NormalPriority
  else if schedulerLevel =? Scheduler_LowPriority then Some LowPriority
  else if schedulerLevel =? Scheduler_IdlePriority then Some IdlePriority
  else None.

Definition reactPriorityToSchedulerPriority (reactPriorityLevel : Z) : option Z :=
  if reactPriorityLevel =? ImmediatePriority then Some Scheduler_ImmediatePriority
  else if reactPriorityLevel =? UserBlockingPriority then Some Scheduler_UserBlockingPriority
  else if reactPriorityLevel =? NormalPriority then Some Scheduler_NormalPriority
  else if reactPriorityLevel =? LowPriority then Some Scheduler_LowPriority
  else if reactPriorityLevel =? IdlePriority then Some Scheduler_IdlePriority
  else None.

(** [runWithPriority(reactPriorityLevel, fn)]: the scheduler priority [fn]
    is run at, when the conversion does not fail. *)
Definition runWithPriority (reactPriorityLevel : Z) : option Z :=
  reactPriorityToSchedulerPriority reactPriorityLevel.

(** [flushPassiveEffects()] (ReactFiberWorkLoop.js), on
    [pendingPassiveEffectsRenderPriority]: the new value of that variable and,
    when [flushPassiveEffectsImpl] is called, the outcome of the
    [runWithPriority] that calls it. *)
Definition flushPassiveEffects (pendingPassiveEffectsRenderPriority : Z)
    : Z * option (option Z) :=
  if negb (pendingPassiveEffectsRenderPriority =? NoPriority) then
    let priorityLevel :=
      if NormalPriority <? pendingPassiveEffectsRenderPriority
      then NormalPriority else pendingPassiveEffectsRenderPriority in
    (NoPriority, Some (runWithPriority priorityLevel))
  else (pendingPassiveEffectsRenderPriority, None).

(** The conversions between the two scales are inverse to each other: when
    the scheduler's five constants are pairwise different, a React level
    converted to a scheduler level converts back to itself, and conversely
    (this direction needs no assumption); the React levels that convert are
    exactly 95 to 99, so [NoPriority] is refused. *)
Theorem priority_round_trip :
  NoDup [Scheduler_ImmediatePriority; Scheduler_UserBlockingPriority;
         Scheduler_NormalPriority; Scheduler_LowPriority; Scheduler_IdlePriority] ->
  (forall p sp, reactPriorityToSchedulerPriority p = Some sp ->
                getCurrentPriorityLevel sp = Some p) /\
  (forall p sp, getCurrentPriorityLevel sp = Some p ->
                reactPriorityToSchedulerPriority p = Some sp) /\
  (forall p, is_Some (reactPriorityToSchedulerPriority p) <->
             IdlePriority <= p <= ImmediatePriority).
Proof.
  intros Hnd.
  assert (Hd : Scheduler_ImmediatePriority <> Scheduler_UserBlockingPriority /\
               Scheduler_ImmediatePriority <> Scheduler_NormalPriority /\
               Scheduler_ImmediatePriority <> Scheduler_LowPriority /\
               Scheduler_ImmediatePriority <> Scheduler_IdlePriority /\
               Scheduler_UserBlockingPriority <> Scheduler_NormalPriority /\
               Scheduler_UserBlockingPriority <> Scheduler_LowPriority /\
               Scheduler_UserBlockingPriority <> Scheduler_IdlePriority /\
               Scheduler_NormalPriority <> Scheduler_LowPriority /\
               Scheduler_NormalPriority <> Scheduler_IdlePriority /\
               Scheduler_LowPriority <> Scheduler_IdlePriority).
  { repeat match goal with
           | H : NoDup (_ :: _) |- _ => apply NoDup_cons in H as [? ?]
           end.
    repeat match goal with
           | H : _ ∉ _ :: _ |- _ => apply not_elem_of_cons in H as [? ?]
           end.
    repeat split; assumption. }
  destruct Hd as (D1 & D2 & D3 & D4 & D5 & D6 & D7 & D8 & D9 & D10).
  unfold reactPriorityToSchedulerPriority, getCurrentPriorityLevel,
    ImmediatePriority, UserBlockingPriority, NormalPriority, LowPriority, IdlePriority.
  split; [|split].
  - intros p sp.
    repeat match goal with
           | |- context [?a =? ?b] => destruct (Z.eqb_spec a b)
           end; intros H; inversion H; subst; try congruence; try lia.
  - intros p sp.
    repeat match goal with
           | |- context [?a =? ?b] => destruct (Z.eqb_spec a b)
           end; intros H; inversion H; subst; try congruence; try lia.
  - intros p.
    repeat match goal with
           | |- context [?a =? ?b] => destruct (Z.eqb_spec a b)
           end; split; intros H; try (eexists; reflexivity); try lia;
      destruct H; discriminate.
Qed.

(** flushPassiveEffects never runs the passive effects above normal
    priority: for a pending render priority among React's five levels,
    [flushPassiveEffectsImpl] is run at the scheduler's normal, low or idle
    priority, the conversion does not fail, and the pending priority is
    reset to [NoPriority], so that a second call does nothing. *)
Theorem passive_effects_priority (pending : Z) :
  IdlePriority <= pending <= ImmediatePriority ->
  exists sp,
    flushPassiveEffects pending = (NoPriority, Some (Some sp)) /\
    (sp = Scheduler_NormalPriority \/ sp = Scheduler_LowPriority \/
     sp = Scheduler_IdlePriority) /\
    flushPassiveEffects (fst (flushPassiveEffects pending)) = (NoPriority, None).
Proof.
  unfold flushPassiveEffects, runWithPriority, reactPriorityToSchedulerPriority,
    IdlePriority, ImmediatePriority, NormalPriority, NoPriority,
    UserBlockingPriority, LowPriority.
  intros H.
  destruct (Z.eqb_spec pending 90); [lia|]. cbn [negb fst].
  destruct (Z.ltb_spec 97 pending).
  - eexists. split; [reflexivity|]. split; [left; reflexivity|reflexivity].
  - destruct (Z.eqb_spec pending 99); [lia|].
    destruct (Z.eqb_spec pending 98); [lia|].
    destruct (Z.eqb_spec pending 97).
    { eexists. split; [reflexivity|]. split; [left; reflexivity|reflexivity]. }
    destruct (Z.eqb_spec pending 96).
    { eexists. split; [reflexivity|]. split; [right; left; reflexivity|reflexivity]. }
    destruct (Z.eqb_spec pending 95); [|lia].
    eexists. split; [reflexivity|]. split; [right; right; reflexivity|reflexivity].
Qed.

End Conversion.

Lemma priority_round_trip_witness :
  getCurrentPriorityLevel 1 2 3 4 5 3 = Some NormalPriority /\
  reactPriorityToSchedulerPriority 1 2 3 4 5 NormalPriority = Some 3.
Proof.
  destruct (priority_round_trip 1 2 3 4 5) as (A & B & _).
  - repeat (apply NoDup_cons_2; [rewrite ?elem_of_cons, elem_of_nil; lia|]).
    apply NoDup_nil_2.
  - split.
    + apply (A NormalPriority 3). reflexivity.
    + apply (B NormalPriority 3). reflexivity.
Defined.

Lemma passive_effects_priority_witness :
  exists sp,
    flushPassiveEffects 1 2 3 4 5 ImmediatePriority = (NoPriority, Some (Some sp)) /\
    (sp = 3 \/ sp = 4 \/ sp = 5).
Proof.
  destruct (passive_effects_priority 1 2 3 4 5 ImmediatePriority) as (sp & E & H & _).
  - unfold IdlePriority, ImmediatePriority. lia.
  - exists sp. split; assumption.
Defined.
End Priorities.


(** ** ReactFiberWorkLoop.js: how a render reports that it suspended or
    failed *)
Module RenderStatus.
Import WorkLoop.

Section Signals.
Context {Val : Type}.
Variable NoWork : Z.

Abbreviation Globals := (@WorkLoop.Globals Val).

Definition set_exitStatus (status : Z) (g : Globals) : Globals :=
  mkGlobals (executionContext g) (workInProgressRoot g) (renderExpirationTime g)
    status (workInProgressRootNextUnprocessedUpdateTime g).

Definition renderDidSuspend (g : Globals) : Globals :=
  if workInProgressRootExitStatus g =? RootIncomplete
  then set_exitStatus RootSuspended g else g.

(** The second component lists the calls into ReactFiberRoot.js. *)
Definition renderDidSuspendDelayIfPossible (g : Globals) : Globals * list RootCall :=
  let g1 :=
    if (workInProgressRootExitStatus g =? RootIncomplete) ||
       (workInProgressRootExitStatus g =? RootSuspended)
    then set_exitStatus RootSuspendedWithDelay g else g in
  match workInProgressRoot g1 with
  | Some root =>
      if negb (workInProgressRootNextUnprocessedUpdateTime g1 =? NoWork)
      then (g1, [MarkRootSuspendedAtTime root (renderExpirationTime g1);
                 MarkRootUpdatedAtTime root
                   (workInProgressRootNextUnprocessedUpdateTime g1)])
      else (g1, [])
  | None => (g1, [])
  end.

Definition renderDidError (g : Globals) : Globals :=
  if negb (workInProgressRootExitStatus g =? RootCompleted)
  then set_exitStatus RootErrored g else g.

Definition renderHasNotSuspendedYet (g : Globals) : bool :=
  workInProgressRootExitStatus g =? RootIncomplete.

(** The last statement of [completeUnitOfWork], reached at the root. *)
Definition markRootCompleted (g : Globals) : Globals :=
  if workInProgressRootExitStatus g =? RootIncomplete
  then set_exitStatus RootCompleted g else g.

(** What a render may report while it works. *)
Inductive Signal : Set :=
| DidSuspend
| DidSuspendDelay
| DidError.

#[local] Instance Signal_eq_dec : EqDecision Signal.
Proof. solve_decision. Defined.

Definition report (g : Globals) (s : Signal) : Globals :=
  match s with
  | DidSuspend => renderDidSuspend g
  | DidSuspendDelay => fst (renderDidSuspendDelayIfPossible g)
  | DidError => renderDidError g
  end.

Definition reportAll (signals : list Signal) (g : Globals) : Globals :=
  fold_left report signals g.

(** The status that a set of reports amounts to, starting from [status]. *)
Definition worst (status : Z) (signals : list Signal) : Z :=
  if bool_decide (DidError ∈ signals) || (status =? RootErrored) then RootErrored
  else if bool_decide (DidSuspendDelay ∈ signals) || (status =? RootSuspendedWithDelay)
       then RootSuspendedWithDelay
  else if bool_decide (DidSuspend ∈ signals) || (status =? RootSuspended) then RootSuspended
  else RootIncomplete.

Lemma renderDidSuspendDelay_status (g : Globals) :
  workInProgressRootExitStatus (fst (renderDidSuspendDelayIfPossible g)) =
  if (workInProgressRootExitStatus g =? RootIncomplete) ||
     (workInProgressRootExitStatus g =? RootSuspended)
  then RootSuspendedWithDelay else workInProgressRootExitStatus g.
Proof.
  unfold renderDidSuspendDelayIfPossible, set_exitStatus.
  destruct ((workInProgressRootExitStatus g =? RootIncomplete) ||
            (workInProgressRootExitStatus g =? RootSuspended));
    cbn; destruct (workInProgressRoot g); try destruct (negb _); reflexivity.
Qed.

Lemma report_worst (g : Globals) (s : Signal) :
  workInProgressRootExitStatus g ∈
    [RootIncomplete; RootErrored; RootSuspended; RootSuspendedWithDelay] ->
  workInProgressRootExitStatus (report g s) = worst (workInProgressRootExitStatus g) [s].
Proof.
  intros Hin. unfold worst.
  assert (Hs : forall x, bool_decide (x ∈ [s]) = bool_decide (x = s)).
  { intros x. apply bool_decide_ext. rewrite list_elem_of_singleton. reflexivity. }
  rewrite !Hs.
  destruct s; cbn [report]; rewrite ?renderDidSuspendDelay_status;
    unfold renderDidSuspend, renderDidError, set_exitStatus;
    rewrite !elem_of_cons, elem_of_nil in Hin;
    destruct Hin as [H|[H|[H|[H|[]]]]]; rewrite !H; cbn; rewrite ?H; reflexivity.
Qed.

Lemma worst_status (status : Z) (signals : list Signal) :
  worst status signals ∈ [RootIncomplete; RootErrored; RootSuspended; RootSuspendedWithDelay].
Proof.
  unfold worst. rewrite !elem_of_cons.
  repeat match goal with |- context [if ?b then _ else _] => destruct b end; tauto.
Qed.

Lemma worst_cons (status : Z) (s : Signal) (signals : list Signal) :
  worst (worst status [s]) signals = worst status (s :: signals).
Proof.
  unfold worst.
  assert (Hs : forall x, bool_decide (x ∈ [s]) = bool_decide (x = s)).
  { intros x. apply bool_decide_ext. rewrite list_elem_of_singleton. reflexivity. }
  assert (Hc : forall x, bool_decide (x ∈ s :: signals)
                         = bool_decide (x = s) || bool_decide (x ∈ signals)).
  { intros x. rewrite <- bool_decide_or. apply bool_decide_ext.
    rewrite elem_of_cons. reflexivity. }
  rewrite !Hs, !Hc.
  destruct (Z.eqb_spec status RootErrored) as [E1|E1];
    destruct (Z.eqb_spec status RootSuspendedWithDelay) as [E2|E2];
    destruct (Z.eqb_spec status RootSuspended) as [E3|E3];
    try (exfalso; unfold RootErrored, RootSuspendedWithDelay, RootSuspended in *; lia);
    destruct s;
    destruct (bool_decide (DidError ∈ signals)),
             (bool_decide (DidSuspendDelay ∈ signals)),
             (bool_decide (DidSuspend ∈ signals));
    reflexivity.
Qed.

Lemma reportAll_worst (signals : list Signal) : forall g,
  workInProgressRootExitStatus g ∈
    [RootIncomplete; RootErrored; RootSuspended; RootSuspendedWithDelay] ->
  workInProgressRootExitStatus (reportAll signals g)
  = worst (workInProgressRootExitStatus g) signals.
Proof.
  induction signals as [|s signals IH]; intros g Hin.
  - cbn. unfold worst. cbn.
    rewrite !elem_of_cons, elem_of_nil in Hin.
    destruct Hin as [->|[->|[->|[->|[]]]]]; reflexivity.
  - cbn [reportAll fold_left]. fold (reportAll signals (report g s)).
    rewrite IH.
    + rewrite report_worst by exact Hin. apply worst_cons.
    + rewrite report_worst by exact Hin. apply worst_status.
Qed.

(** The exit status of a render does not depend on the order of the reports:
    from [RootIncomplete] (where [prepareFreshStack] starts), after any
    sequence of [renderDidSuspend], [renderDidSuspendDelayIfPossible] and
    [renderDidError], the status is [RootErrored] if an error was reported,
    else [RootSuspendedWithDelay] if a delayed suspension was, else
    [RootSuspended] if a suspension was, else still [RootIncomplete]; and
    [renderHasNotSuspendedYet()] holds exactly when nothing was reported. *)
Theorem exit_status_order_free (g : Globals) (signals : list Signal) :
  workInProgressRootExitStatus g = RootIncomplete ->
  workInProgressRootExitStatus (reportAll signals g) =
    (if bool_decide (DidError ∈ signals) then RootErrored
     else if bool_decide (DidSuspendDelay ∈ signals) then RootSuspendedWithDelay
     else if bool_decide (DidSuspend ∈ signals) then RootSuspended
     else RootIncomplete) /\
  (renderHasNotSuspendedYet (reportAll signals g) = true <-> signals = []).
Proof.
  intros H0.
  assert (E : workInProgressRootExitStatus (reportAll signals g) = worst RootIncomplete signals).
  { rewrite reportAll_worst, H0; [reflexivity|].
    rewrite H0. apply elem_of_cons. left. reflexivity. }
  unfold renderHasNotSuspendedYet. rewrite E. unfold worst. cbn.
  rewrite !orb_false_r. split; [reflexivity|].
  destruct signals as [|s signals].
  - cbn. split; reflexivity.
  - assert (Hin : s ∈ s :: signals) by (apply elem_of_cons; left; reflexivity).
    split; [|discriminate]. intros Hz. exfalso.
    destruct s;
      repeat match type of Hz with
             | context [bool_decide ?P] => destruct (bool_decide_reflect P)
             end; try discriminate; contradiction.
Qed.

(** Once a render has completed, no report changes its status. *)
Lemma completed_is_final (g : Globals) (signals : list Signal) :
  workInProgressRootExitStatus g = RootCompleted ->
  workInProgressRootExitStatus (reportAll signals g) = RootCompleted.
Proof.
  revert g. induction signals as [|s signals IH]; intros g H; [exact H|].
  cbn [reportAll fold_left]. fold (reportAll signals (report g s)). apply IH.
  destruct s; cbn [report]; rewrite ?renderDidSuspendDelay_status;
    unfold renderDidSuspend, renderDidError; rewrite !H; cbn; rewrite ?H; reflexivity.
Qed.

End Signals.

Section Reports.
Definition freshRender : @WorkLoop.Globals unit :=
  mkGlobals RenderContext (Some tt) 1000 RootIncomplete 0.
End Reports.

Lemma exit_status_order_free_witness :
  workInProgressRootExitStatus
    (reportAll 0 [DidSuspendDelay; DidError; DidSuspend] freshRender) = RootErrored.
Proof.
  apply (proj1 (exit_status_order_free 0 freshRender [DidSuspendDelay; DidError; DidSuspend]
                  eq_refl)).
Defined.
End RenderStatus.


(** ** ReactFiberWorkLoop.js: completeUnitOfWork and the effect list

    When a fiber completes, its effect list and then the fiber itself are
    appended to the effect list of its parent.  The lists are linked through
    [nextEffect] and shared between fibers, so the store is explicit. *)
Module Complete.
Import SideEffectTags.

Section EffectList.
Context {Val : Type}.

Abbreviation Fiber := (@Fiber.Fiber Val).
Abbreviation Store := (gmap nat Fiber).

Definition set_firstEffect (v : option nat) (f : Fiber) : Fiber :=
  Fiber.mkFiber (Fiber.tag f) (Fiber.key f) (Fiber.elementType f) (Fiber.type f)
    (Fiber.stateNode f) (Fiber.return_ f) (Fiber.child f) (Fiber.sibling f) (Fiber.index f)
    (Fiber.ref f) (Fiber.pendingProps f) (Fiber.memoizedProps f) (Fiber.updateQueue f)
    (Fiber.memoizedState f) (Fiber.dependencies f) (Fiber.mode f) (Fiber.effectTag f)
    (Fiber.nextEffect f) v (Fiber.lastEffect f) (Fiber.expirationTime f)
    (Fiber.childExpirationTime f) (Fiber.alternate f) (Fiber.actualDuration f)
    (Fiber.actualStartTime f) (Fiber.selfBaseDuration f) (Fiber.treeBaseDuration f).

Definition set_lastEffect (v : option nat) (f : Fiber) : Fiber :=
  Fiber.mkFiber (Fiber.tag f) (Fiber.key f) (Fiber.elementType f) (Fiber.type f)
    (Fiber.stateNode f) (Fiber.return_ f) (Fiber.child f) (Fiber.sibling f) (Fiber.index f)
    (Fiber.ref f) (Fiber.pendingProps f) (Fiber.memoizedProps f) (Fiber.updateQueue f)
    (Fiber.memoizedState f) (Fiber.dependencies f) (Fiber.mode f) (Fiber.effectTag f)
    (Fiber.nextEffect f) (Fiber.firstEffect f) v (Fiber.expirationTime f)
    (Fiber.childExpirationTime f) (Fiber.alternate f) (Fiber.actualDuration f)
    (Fiber.actualStartTime f) (Fiber.selfBaseDuration f) (Fiber.treeBaseDuration f).

(** [x.field = v] on the fiber at [x]; [None] if [x] dangles. *)
Definition write (g : Fiber -> Fiber) (x : nat) (h : Store) : option Store :=
  f ← h !! x; Some (<[x := g f]> h).

(** The block of [completeUnitOfWork] guarded by
    [returnFiber !== null && (returnFiber.effectTag & Incomplete) === NoEffect]:
    append all the effects of the subtree and this fiber onto the effect list
    of the parent. *)
Definition appendEffects (returnFiber workInProgress : nat) (h : Store) : option Store :=
  rf ← h !! returnFiber;
  w ← h !! workInProgress;
  h1 ← match Fiber.firstEffect rf with
       | None => write (set_firstEffect (Fiber.firstEffect w)) returnFiber h
       | Some _ => Some h
       end;
  w1 ← h1 !! workInProgress;
  h2 ← match Fiber.lastEffect w1 with
       | Some _ =>
           rf1 ← h1 !! returnFiber;
           h' ← match Fiber.lastEffect rf1 with
                | Some last => write (Fiber.set_nextEffect (Fiber.firstEffect w1)) last h1
                | None => Some h1
                end;
           w' ← h' !! workInProgress;
           write (set_lastEffect (Fiber.lastEffect w')) returnFiber h'
       | None => Some h1
       end;
  w2 ← h2 !! workInProgress;
  let effectTag := Fiber.effectTag w2 in
  if PerformedWork <? effectTag then
    rf2 ← h2 !! returnFiber;
    h' ← match Fiber.lastEffect rf2 with
         | Some last => write (Fiber.set_nextEffect (Some workInProgress)) last h2
         | None => write (set_firstEffect (Some workInProgress)) returnFiber h2
         end;
    write (set_lastEffect (Some workInProgress)) returnFiber h'
  else Some h2.

(** The other branch, reached when [workInProgress] did not complete: the
    parent loses its effect list and is marked incomplete. *)
Definition markParentIncomplete (returnFiber : nat) (h : Store) : option Store :=
  h1 ← write (set_firstEffect None) returnFiber h;
  h2 ← write (set_lastEffect None) returnFiber h1;
  write (fun f => Fiber.set_effectTag (Z.lor (Fiber.effectTag f) Incomplete) f) returnFiber h2.

(** *** Specification-side definitions *)

(** The fibers met from [start] by following [nextEffect] up to null, the
    way the commit walks an effect list. *)
Inductive listFrom (h : Store) : option nat -> list nat -> Prop :=
| listFrom_nil : listFrom h None []
| listFrom_cons (a : nat) (f : Fiber) (l : list nat) :
    h !! a = Some f ->
    listFrom h (Fiber.nextEffect f) l ->
    listFrom h (Some a) (a :: l).

(** [l] is the effect list of the fiber at [x]: it starts at [firstEffect]
    and [lastEffect] is its last fiber. *)
Definition effectsOf (h : Store) (x : nat) (l : list nat) : Prop :=
  exists f, h !! x = Some f /\ listFrom h (Fiber.firstEffect f) l /\
            Fiber.lastEffect f = last l.

(** *** Lemmas about lists in the store *)

Lemma listFrom_head (h : Store) (s : option nat) (l : list nat) :
  listFrom h s l -> s = head l.
Proof. intros H. destruct H; reflexivity. Qed.

Lemma listFrom_insert_other (h : Store) (x : nat) (f' : Fiber) (s : option nat)
    (l : list nat) :
  x ∉ l -> listFrom h s l -> listFrom (<[x := f']> h) s l.
Proof.
  intros Hx H. induction H as [|a f l Ha H IH]; [constructor|].
  apply not_elem_of_cons in Hx as [Hxa Hxl].
  eapply listFrom_cons; [rewrite lookup_insert_ne by assumption; exact Ha|].
  apply IH. exact Hxl.
Qed.

(** Linking a second list behind the last fiber of a first one. *)
Lemma listFrom_link (h : Store) (z : nat) (fz : Fiber) (s2 : option nat) (l2 : list nat) :
  h !! z = Some fz ->
  z ∉ l2 ->
  listFrom h s2 l2 ->
  forall s l1,
    listFrom h s l1 -> last l1 = Some z -> NoDup l1 ->
    listFrom (<[z := Fiber.set_nextEffect s2 fz]> h) s (l1 ++ l2).
Proof.
  intros Hz Hzl2 H2 s l1 H1. induction H1 as [|a f l Ha H1 IH]; intros Hlast Hnd.
  - discriminate.
  - apply NoDup_cons in Hnd as [Hal Hnd]. destruct l as [|b l].
    + cbn in Hlast. injection Hlast as ->. cbn.
      eapply listFrom_cons; [apply lookup_insert_eq|]. cbn.
      apply listFrom_insert_other; assumption.
    + assert (Hl : last (b :: l) = Some z) by (rewrite last_cons in Hlast;
        destruct (last (b :: l)) eqn:El; [exact Hlast|apply last_None in El; discriminate]).
      assert (Hne : z <> a).
      { intros ->. apply Hal. apply last_Some_elem_of. exact Hl. }
      cbn. eapply listFrom_cons; [rewrite lookup_insert_ne by assumption; exact Ha|].
      apply IH; assumption.
Qed.

Lemma last_app_cons (l1 : list nat) (x : nat) (l2 : list nat) :
  last (l1 ++ x :: l2) = last (x :: l2).
Proof.
  induction l1 as [|a l1 IH]; [reflexivity|].
  cbn [app]. rewrite last_cons, IH. destruct (last (x :: l2)) eqn:E; [reflexivity|].
  apply last_None in E. discriminate.
Qed.

(** *** The two halves of the block *)

(** The part that appends the effect list of [workInProgress]. *)
Definition appendSubtreeEffects (returnFiber workInProgress : nat) (h : Store)
    : option Store :=
  rf ← h !! returnFiber;
  w ← h !! workInProgress;
  h1 ← match Fiber.firstEffect rf with
       | None => write (set_firstEffect (Fiber.firstEffect w)) returnFiber h
       | Some _ => Some h
       end;
  w1 ← h1 !! workInProgress;
  match Fiber.lastEffect w1 with
  | Some _ =>
      rf1 ← h1 !! returnFiber;
      h' ← match Fiber.lastEffect rf1 with
           | Some last => write (Fiber.set_nextEffect (Fiber.firstEffect w1)) last h1
           | None => Some h1
           end;
      w' ← h' !! workInProgress;
      write (set_lastEffect (Fiber.lastEffect w')) returnFiber h'
  | None => Some h1
  end.

(** The part that appends [workInProgress] itself. *)
Definition appendOwnEffect (returnFiber workInProgress : nat) (h2 : Store)
    : option Store :=
  w2 ← h2 !! workInProgress;
  let effectTag := Fiber.effectTag w2 in
  if PerformedWork <? effectTag then
    rf2 ← h2 !! returnFiber;
    h' ← match Fiber.lastEffect rf2 with
         | Some last => write (Fiber.set_nextEffect (Some workInProgress)) last h2
         | None => write (set_firstEffect (Some workInProgress)) returnFiber h2
         end;
    write (set_lastEffect (Some workInProgress)) returnFiber h'
  else Some h2.

Lemma appendEffects_halves (returnFiber workInProgress : nat) (h : Store) :
  appendEffects returnFiber workInProgress h =
  h2 ← appendSubtreeEffects returnFiber workInProgress h;
  appendOwnEffect returnFiber workInProgress h2.
Proof.
  unfold appendEffects, appendSubtreeEffects, appendOwnEffect.
  destruct (h !! returnFiber) as [rf|]; [|reflexivity]. cbn.
  destruct (h !! workInProgress) as [w|]; [|reflexivity]. cbn.
  destruct (match Fiber.firstEffect rf with
            | Some _ => Some h
            | None => write (set_firstEffect (Fiber.firstEffect w)) returnFiber h
            end) as [h1|]; [|reflexivity]. cbn.
  destruct (h1 !! workInProgress) as [w1|]; [|reflexivity]. cbn.
  destruct (Fiber.lastEffect w1); reflexivity.
Qed.

(** What is kept of the store outside the parent and the fibers of the two
    lists: every fiber but the parent keeps its [firstEffect], [lastEffect]
    and [effectTag]; a fiber outside [touched] keeps its [nextEffect]. *)
Definition keeps (h h' : Store) (returnFiber : nat) (touched : list nat) : Prop :=
  forall a f, h !! a = Some f ->
    exists f', h' !! a = Some f' /\
      Fiber.effectTag f' = Fiber.effectTag f /\
      (a <> returnFiber ->
       Fiber.firstEffect f' = Fiber.firstEffect f /\
       Fiber.lastEffect f' = Fiber.lastEffect f) /\
      (a ∉ touched -> Fiber.nextEffect f' = Fiber.nextEffect f).

Lemma keeps_refl (h : Store) (x : nat) (t : list nat) : keeps h h x t.
Proof. intros a f Ha. exists f. repeat split. exact Ha. Qed.

Lemma keeps_trans (h1 h2 h3 : Store) (x : nat) (t : list nat) :
  keeps h1 h2 x t -> keeps h2 h3 x t -> keeps h1 h3 x t.
Proof.
  intros H12 H23 a f Ha.
  destruct (H12 a f Ha) as (f2 & Ha2 & T2 & F2 & N2).
  destruct (H23 a f2 Ha2) as (f3 & Ha3 & T3 & F3 & N3).
  exists f3. split; [exact Ha3|]. split; [congruence|]. split.
  - intros Hne. destruct (F2 Hne), (F3 Hne). split; congruence.
  - intros Hn. rewrite (N3 Hn), (N2 Hn). reflexivity.
Qed.

Lemma keeps_parent (h : Store) (x : nat) (f f' : Fiber) (t : list nat) :
  h !! x = Some f ->
  Fiber.effectTag f' = Fiber.effectTag f ->
  Fiber.nextEffect f' = Fiber.nextEffect f ->
  keeps h (<[x := f']> h) x t.
Proof.
  intros Hx Ht Hn a g Ha. destruct (decide (x = a)) as [<-|Hne].
  - assert (g = f) by congruence. subst g.
    exists f'. rewrite lookup_insert_eq. split; [reflexivity|]. split; [exact Ht|].
    split; [intros Hne; contradiction|intros _; exact Hn].
  - exists g. rewrite lookup_insert_ne by assumption. repeat split. exact Ha.
Qed.

Lemma keeps_next (h : Store) (x z : nat) (fz : Fiber) (v : option nat) (t : list nat) :
  h !! z = Some fz ->
  z ∈ t ->
  keeps h (<[z := Fiber.set_nextEffect v fz]> h) x t.
Proof.
  intros Hz Hzt a g Ha. destruct (decide (z = a)) as [<-|Hne].
  - assert (g = fz) by congruence. subst g.
    eexists. rewrite lookup_insert_eq. split; [reflexivity|].
    split; [reflexivity|]. split; [intros _; split; reflexivity|]. contradiction.
  - exists g. rewrite lookup_insert_ne by assumption. repeat split. exact Ha.
Qed.

Lemma write_Some (g : Fiber -> Fiber) (x : nat) (h : Store) (f : Fiber) :
  h !! x = Some f -> write g x h = Some (<[x := g f]> h).
Proof. intros H. unfold write. rewrite H. reflexivity. Qed.

Lemma listFrom_present (h : Store) (s : option nat) (l : list nat) (z : nat) :
  listFrom h s l -> z ∈ l -> is_Some (h !! z).
Proof.
  intros H Hz. induction H as [|x f l Hx Hl IH]; [apply elem_of_nil in Hz; contradiction|].
  apply elem_of_cons in Hz as [->|Hin]; [eauto|apply IH; exact Hin].
Qed.

Lemma last_cons_is_Some (b : nat) (l : list nat) : exists y, last (b :: l) = Some y.
Proof. destruct (last (b :: l)) eqn:E; [eauto|apply last_None in E; discriminate]. Qed.

Lemma appendSubtreeEffects_spec (h : Store) (returnFiber workInProgress : nat)
    (lr lw : list nat) :
  effectsOf h returnFiber lr ->
  effectsOf h workInProgress lw ->
  NoDup (returnFiber :: lr ++ lw ++ [workInProgress]) ->
  exists h',
    appendSubtreeEffects returnFiber workInProgress h = Some h' /\
    effectsOf h' returnFiber (lr ++ lw) /\
    keeps h h' returnFiber lr.
Proof.
  intros (rf & Hrf & Hlr & Hrl) (w & Hw & Hlw & Hwl) Hnd.
  apply NoDup_cons in Hnd as [Hrnot Hnd].
  rewrite !not_elem_of_app in Hrnot. destruct Hrnot as (Hr_lr & Hr_lw & Hr_w).
  assert (Hrw : returnFiber <> workInProgress).
  { intros E. apply Hr_w. rewrite E. apply list_elem_of_singleton. reflexivity. }
  apply NoDup_app in Hnd as (Hnd_lr & Hdisj & Hnd2).
  unfold appendSubtreeEffects. rewrite Hrf, Hw. cbn [mbind option_bind].
  pose proof (listFrom_head _ _ _ Hlr) as Hfirst_r.
  pose proof (listFrom_head _ _ _ Hlw) as Hfirst_w.
  destruct lr as [|a lr].
  - (* the parent has no effects yet *)
    cbn in Hfirst_r, Hrl. rewrite Hfirst_r.
    rewrite (write_Some _ returnFiber h rf Hrf). cbn [mbind option_bind].
    rewrite (lookup_insert_ne _ returnFiber workInProgress) by assumption.
    rewrite Hw. cbn [mbind option_bind].
    destruct lw as [|b lw].
    + cbn in Hwl. rewrite Hwl. eexists. split; [reflexivity|]. split.
      * eexists. rewrite lookup_insert_eq. split; [reflexivity|]. cbn.
        rewrite Hfirst_w. split; [constructor|exact Hrl].
      * apply (keeps_parent h returnFiber rf); [exact Hrf|reflexivity|reflexivity].
    + destruct (last_cons_is_Some b lw) as [y Hy]. rewrite Hwl, Hy.
      rewrite lookup_insert_eq. cbn [mbind option_bind].
      change (Fiber.lastEffect (set_firstEffect (Fiber.firstEffect w) rf))
        with (Fiber.lastEffect rf).
      rewrite Hrl. cbn [mbind option_bind].
      rewrite (lookup_insert_ne _ returnFiber workInProgress) by assumption.
      rewrite Hw. cbn [mbind option_bind].
      rewrite (write_Some _ returnFiber _ _ (lookup_insert_eq _ _ _)).
      rewrite insert_insert_eq.
      eexists. split; [reflexivity|]. split.
      * eexists. rewrite lookup_insert_eq. split; [reflexivity|]. cbn.
        split; [|rewrite Hwl; reflexivity].
        apply listFrom_insert_other; assumption.
      * apply (keeps_parent h returnFiber rf); [exact Hrf|reflexivity|reflexivity].
  - (* the parent already has effects *)
    cbn in Hfirst_r. rewrite Hfirst_r. cbn [mbind option_bind].
    rewrite Hw. cbn [mbind option_bind].
    destruct lw as [|b lw].
    + cbn in Hwl. rewrite Hwl. exists h. split; [reflexivity|]. split.
      * rewrite app_nil_r. exists rf. repeat split; assumption.
      * apply keeps_refl.
    + destruct (last_cons_is_Some b lw) as [y Hy]. rewrite Hwl, Hy.
      rewrite Hrf. cbn [mbind option_bind].
      destruct (last_cons_is_Some a lr) as [z Hz]. rewrite Hrl, Hz.
      assert (Hz_in : z ∈ a :: lr) by (apply last_Some_elem_of; exact Hz).
      assert (Hz_lw : z ∉ b :: lw).
      { intros Hin. apply (Hdisj z Hz_in). apply elem_of_app. left. exact Hin. }
      assert (Hz_w : z <> workInProgress).
      { intros E. apply (Hdisj z Hz_in). apply elem_of_app. right.
        rewrite E. apply list_elem_of_singleton. reflexivity. }
      assert (Hz_r : z <> returnFiber) by (intros E; apply Hr_lr; rewrite <- E; exact Hz_in).
      destruct (listFrom_present h _ _ z Hlr Hz_in) as [fz Hfz].
      rewrite (write_Some _ z h fz Hfz). cbn [mbind option_bind].
      rewrite (lookup_insert_ne _ z workInProgress) by assumption.
      rewrite Hw. cbn [mbind option_bind].
      assert (Hrf' : <[z := Fiber.set_nextEffect (Fiber.firstEffect w) fz]> h !! returnFiber
                     = Some rf) by (rewrite lookup_insert_ne by assumption; exact Hrf).
      rewrite (write_Some _ returnFiber _ rf Hrf').
      eexists. split; [reflexivity|]. split.
      * eexists. rewrite lookup_insert_eq. split; [reflexivity|]. cbn.
        split.
        -- apply listFrom_insert_other.
           { change (returnFiber ∉ (a :: lr) ++ b :: lw).
             rewrite not_elem_of_app. split; assumption. }
           rewrite Hfirst_r in Hlr. rewrite Hfirst_r. rewrite Hfirst_w in *.
           apply (listFrom_link h z fz (head (b :: lw)) (b :: lw) Hfz Hz_lw Hlw
                    (Some a) (a :: lr) Hlr Hz Hnd_lr).
        -- rewrite Hwl, Hy. change (Some y = last ((a :: lr) ++ b :: lw)).
           rewrite last_app_cons. symmetry. exact Hy.
      * eapply keeps_trans.
        -- apply (keeps_next h returnFiber z fz); [exact Hfz|exact Hz_in].
        -- apply (keeps_parent _ returnFiber rf); [exact Hrf'|reflexivity|reflexivity].
Qed.

Lemma appendOwnEffect_spec (h : Store) (returnFiber workInProgress : nat)
    (l : list nat) (wf : Fiber) :
  effectsOf h returnFiber l ->
  h !! workInProgress = Some wf ->
  Fiber.nextEffect wf = None ->
  NoDup (returnFiber :: l ++ [workInProgress]) ->
  exists h',
    appendOwnEffect returnFiber workInProgress h = Some h' /\
    effectsOf h' returnFiber
      (l ++ if PerformedWork <? Fiber.effectTag wf then [workInProgress] else []) /\
    keeps h h' returnFiber l.
Proof.
  intros (rf & Hrf & Hl & Hrl) Hw Hnext Hnd.
  apply NoDup_cons in Hnd as [Hrnot Hnd].
  rewrite not_elem_of_app in Hrnot. destruct Hrnot as (Hr_l & Hr_w).
  assert (Hrw : returnFiber <> workInProgress).
  { intros E. apply Hr_w. rewrite E. apply list_elem_of_singleton. reflexivity. }
  apply NoDup_app in Hnd as (Hnd_l & Hdisj & _).
  unfold appendOwnEffect. rewrite Hw. cbn [mbind option_bind].
  destruct (PerformedWork <? Fiber.effectTag wf).
  2:{ exists h. split; [reflexivity|]. rewrite app_nil_r. split; [|apply keeps_refl].
      exists rf. repeat split; assumption. }
  rewrite Hrf. cbn [mbind option_bind].
  pose proof (listFrom_head _ _ _ Hl) as Hfirst.
  assert (Hself : listFrom h (Some workInProgress) [workInProgress]).
  { eapply listFrom_cons; [exact Hw|]. rewrite Hnext. constructor. }
  destruct l as [|a l].
  - cbn in Hrl. rewrite Hrl.
    rewrite (write_Some _ returnFiber h rf Hrf). cbn [mbind option_bind].
    rewrite (write_Some _ returnFiber _ _ (lookup_insert_eq _ _ _)).
    rewrite insert_insert_eq.
    eexists. split; [reflexivity|]. split.
    + eexists. rewrite lookup_insert_eq. split; [reflexivity|]. cbn.
      split; [|reflexivity]. apply listFrom_insert_other; assumption.
    + apply (keeps_parent h returnFiber rf); [exact Hrf|reflexivity|reflexivity].
  - destruct (last_cons_is_Some a l) as [z Hz]. rewrite Hrl, Hz.
    assert (Hz_in : z ∈ a :: l) by (apply last_Some_elem_of; exact Hz).
    assert (Hz_w : z ∉ [workInProgress]) by (apply Hdisj; exact Hz_in).
    assert (Hz_r : z <> returnFiber) by (intros E; apply Hr_l; rewrite <- E; exact Hz_in).
    destruct (listFrom_present h _ _ z Hl Hz_in) as [fz Hfz].
    rewrite (write_Some _ z h fz Hfz). cbn [mbind option_bind].
    assert (Hrf' : <[z := Fiber.set_nextEffect (Some workInProgress) fz]> h !! returnFiber
                   = Some rf) by (rewrite lookup_insert_ne by assumption; exact Hrf).
    rewrite (write_Some _ returnFiber _ rf Hrf').
    eexists. split; [reflexivity|]. split.
    + eexists. rewrite lookup_insert_eq. split; [reflexivity|]. cbn.
      split.
      * apply listFrom_insert_other.
        { change (returnFiber ∉ (a :: l) ++ [workInProgress]).
          rewrite not_elem_of_app. split; assumption. }
        cbn in Hfirst. rewrite Hfirst in Hl. rewrite Hfirst.
        apply (listFrom_link h z fz (Some workInProgress) [workInProgress] Hfz Hz_w Hself
                 (Some a) (a :: l) Hl Hz Hnd_l).
      * change (Some workInProgress = last ((a :: l) ++ [workInProgress])).
        rewrite last_app_cons. reflexivity.
    + eapply keeps_trans.
      * apply (keeps_next h returnFiber z fz); [exact Hfz|exact Hz_in].
      * apply (keeps_parent _ returnFiber rf); [exact Hrf'|reflexivity|reflexivity].
Qed.

Lemma keeps_more (h h' : Store) (x : nat) (t t' : list nat) :
  (forall a, a ∈ t -> a ∈ t') -> keeps h h' x t -> keeps h h' x t'.
Proof.
  intros Hsub H a f Ha. destruct (H a f Ha) as (f' & Ha' & T & F & N).
  exists f'. repeat split; try assumption; try (apply F; assumption).
  intros Hn. apply N. intros Hin. apply Hn. apply Hsub. exact Hin.
Qed.

Lemma appendEffects_spec (h : Store) (returnFiber workInProgress : nat)
    (lr lw : list nat) (wf : Fiber) :
  effectsOf h returnFiber lr ->
  effectsOf h workInProgress lw ->
  h !! workInProgress = Some wf ->
  Fiber.nextEffect wf = None ->
  NoDup (returnFiber :: lr ++ lw ++ [workInProgress]) ->
  exists h',
    appendEffects returnFiber workInProgress h = Some h' /\
    effectsOf h' returnFiber
      (lr ++ lw ++ if PerformedWork <? Fiber.effectTag wf then [workInProgress] else []) /\
    keeps h h' returnFiber (lr ++ lw).
Proof.
  intros Hr Hwl Hw Hnext Hnd.
  destruct (appendSubtreeEffects_spec h returnFiber workInProgress lr lw Hr Hwl Hnd)
    as (h2 & E2 & Hr2 & K2).
  destruct (K2 workInProgress wf Hw) as (wf2 & Hw2 & T2 & _ & N2).
  assert (Hw_lr : workInProgress ∉ lr).
  { apply NoDup_cons in Hnd as [_ Hnd]. apply NoDup_app in Hnd as (_ & Hdisj & _).
    intros Hin. apply (Hdisj _ Hin). apply elem_of_app. right.
    apply list_elem_of_singleton. reflexivity. }
  assert (Hnd2 : NoDup (returnFiber :: (lr ++ lw) ++ [workInProgress]))
    by (rewrite <- app_assoc; exact Hnd).
  destruct (appendOwnEffect_spec h2 returnFiber workInProgress (lr ++ lw) wf2 Hr2 Hw2)
    as (h3 & E3 & Hr3 & K3); [rewrite (N2 Hw_lr); exact Hnext|exact Hnd2|].
  exists h3. split; [rewrite appendEffects_halves, E2; exact E3|].
  split; [rewrite T2, <- app_assoc in Hr3; exact Hr3|].
  eapply keeps_trans; [|exact K3].
  eapply keeps_more; [|exact K2]. intros a Ha. apply elem_of_app. left. exact Ha.
Qed.

(** completeUnitOfWork, appending effects: when the parent's effect list is
    [lr], the completed fiber's is [lw], the completed fiber has a null
    [nextEffect], and the parent, the two lists and the completed fiber are
    all different fibers, the parent's effect list afterwards is [lr], then
    [lw], then the completed fiber itself if its effect tag is above
    [PerformedWork]: children come before their parent and earlier siblings
    before later ones.  No effect tag is written, only the parent's
    [firstEffect] and [lastEffect] are, and a [nextEffect] is written only on
    a fiber of the two lists. *)
Theorem effects_appended_in_order (h : Store) (returnFiber workInProgress : nat)
    (lr lw : list nat) (wf : Fiber) :
  effectsOf h returnFiber lr ->
  effectsOf h workInProgress lw ->
  h !! workInProgress = Some wf ->
  Fiber.nextEffect wf = None ->
  NoDup (returnFiber :: lr ++ lw ++ [workInProgress]) ->
  exists h',
    appendEffects returnFiber workInProgress h = Some h' /\
    effectsOf h' returnFiber
      (lr ++ lw ++ if PerformedWork <? Fiber.effectTag wf then [workInProgress] else []) /\
    keeps h h' returnFiber (lr ++ lw).
Proof.
  intros Hr Hwl Hw Hnext Hnd.
  destruct (appendSubtreeEffects_spec h returnFiber workInProgress lr lw Hr Hwl Hnd)
    as (h2 & E2 & Hr2 & K2).
  destruct (K2 workInProgress wf Hw) as (wf2 & Hw2 & T2 & _ & N2).
  assert (Hw_lr : workInProgress ∉ lr).
  { apply NoDup_cons in Hnd as [_ Hnd]. apply NoDup_app in Hnd as (_ & Hdisj & _).
    intros Hin. apply (Hdisj _ Hin). apply elem_of_app. right.
    apply list_elem_of_singleton. reflexivity. }
  assert (Hnd2 : NoDup (returnFiber :: (lr ++ lw) ++ [workInProgress]))
    by (rewrite <- app_assoc; exact Hnd).
  destruct (appendOwnEffect_spec h2 returnFiber workInProgress (lr ++ lw) wf2 Hr2 Hw2)
    as (h3 & E3 & Hr3 & K3); [rewrite (N2 Hw_lr); exact Hnext|exact Hnd2|].
  exists h3. split; [rewrite appendEffects_halves, E2; exact E3|].
  split; [rewrite T2, <- app_assoc in Hr3; exact Hr3|].
  eapply keeps_trans; [|exact K3].
  eapply keeps_more; [|exact K2]. intros a Ha. apply elem_of_app. left. exact Ha.
Qed.

(** *** The two branches with their guards *)

(** The completed branch of the loop body after [completeWork] returned null:
    the append block under its guard. *)
Definition collectEffects (returnFiber : option nat) (workInProgress : nat) (h : Store)
    : option Store :=
  match returnFiber with
  | Some r =>
      rf ← h !! r;
      if Z.land (Fiber.effectTag rf) Incomplete =? NoEffect
      then appendEffects r workInProgress h
      else Some h
  | None => Some h
  end.

(** The other branch after [unwindWork] returned null. *)
Definition dropEffects (returnFiber : option nat) (h : Store) : option Store :=
  match returnFiber with
  | Some r => markParentIncomplete r h
  | None => Some h
  end.

(** The completed branch run for each fiber of [siblings] in turn, all with
    the same parent. *)
Fixpoint collectAll (returnFiber : option nat) (siblings : list nat) (h : Store)
    : option Store :=
  match siblings with
  | [] => Some h
  | w :: rest => h' ← collectEffects returnFiber w h; collectAll returnFiber rest h'
  end.

Lemma lor_Incomplete (t : Z) : Z.land (Z.lor t Incomplete) Incomplete <> NoEffect.
Proof.
  rewrite Z.land_lor_distr_l, Z.land_diag. unfold NoEffect. intros E.
  apply Z.lor_eq_0_iff in E as [_ E]. discriminate E.
Qed.

(** completeUnitOfWork, a fiber that did not complete: its parent's effect
    list is emptied and the parent is marked [Incomplete]; every sibling
    that completes afterwards under this parent then leaves the store as it
    is, so the parent's effect list stays empty. *)
Theorem incomplete_parent_collects_nothing (h : Store) (r : nat) (rf : Fiber)
    (siblings : list nat) :
  h !! r = Some rf ->
  exists h1,
    dropEffects (Some r) h = Some h1 /\
    h1 !! r = Some (Fiber.set_effectTag (Z.lor (Fiber.effectTag rf) Incomplete)
                      (set_lastEffect None (set_firstEffect None rf))) /\
    (forall a, a <> r -> h1 !! a = h !! a) /\
    effectsOf h1 r [] /\
    collectAll (Some r) siblings h1 = Some h1.
Proof.
  intros Hr. cbn [dropEffects]. unfold markParentIncomplete.
  rewrite (write_Some _ r h rf Hr). cbn [mbind option_bind].
  rewrite (write_Some _ r _ _ (lookup_insert_eq _ _ _)). cbn [mbind option_bind].
  rewrite (write_Some _ r _ _ (lookup_insert_eq _ _ _)).
  rewrite !insert_insert_eq. cbn [Fiber.effectTag set_lastEffect set_firstEffect].
  eexists. split; [reflexivity|].
  split; [apply lookup_insert_eq|].
  split; [intros a Ha; apply lookup_insert_ne; congruence|].
  split.
  - eexists. split; [apply lookup_insert_eq|]. cbn. split; [constructor|reflexivity].
  - induction siblings as [|w rest IH]; [reflexivity|].
    cbn [collectAll collectEffects]. rewrite lookup_insert_eq. cbn [mbind option_bind].
    cbn [Fiber.effectTag Fiber.set_effectTag].
    destruct (Z.eqb_spec (Z.land (Z.lor (Fiber.effectTag rf) Incomplete) Incomplete)
                NoEffect) as [E|_].
    + exfalso. exact (lor_Incomplete _ E).
    + exact IH.
Qed.

End EffectList.

(** A parent at 0 whose effect list is [1], with a completed child at 2
    whose effect list is [3] and which has work of its own. *)
Section Family.
Definition member (first last : option nat) : @Fiber.Fiber unit :=
  set_lastEffect last (set_firstEffect first Fiber.loneFiber).
Definition family : gmap nat (@Fiber.Fiber unit) :=
  <[0%nat := member (Some 1%nat) (Some 1%nat)]>
  (<[1%nat := member None None]>
  (<[2%nat := member (Some 3%nat) (Some 3%nat)]>
  (<[3%nat := member None None]> ∅))).
End Family.

Lemma effects_appended_in_order_witness :
  exists h',
    appendEffects 0%nat 2%nat family = Some h' /\
    effectsOf h' 0%nat [1%nat; 3%nat; 2%nat] /\
    keeps family h' 0%nat [1%nat; 3%nat].
Proof.
  apply (effects_appended_in_order family 0%nat 2%nat [1%nat] [3%nat]
           (member (Some 3%nat) (Some 3%nat))).
  - exists (member (Some 1%nat) (Some 1%nat)). split; [reflexivity|].
    split; [|reflexivity].
    apply (listFrom_cons family 1%nat (member None None)); [reflexivity|constructor].
  - exists (member (Some 3%nat) (Some 3%nat)). split; [reflexivity|].
    split; [|reflexivity].
    apply (listFrom_cons family 3%nat (member None None)); [reflexivity|constructor].
  - reflexivity.
  - reflexivity.
  - apply (bool_decide_unpack _). vm_compute. exact I.
Defined.

Lemma incomplete_parent_collects_nothing_witness :
  exists h1,
    dropEffects (Some 0%nat) family = Some h1 /\
    h1 !! 0%nat = Some (Fiber.set_effectTag (Z.lor Update Incomplete) (member None None)) /\
    (forall a, a <> 0%nat -> h1 !! a = family !! a) /\
    effectsOf h1 0%nat [] /\
    collectAll (Some 0%nat) [2%nat; 3%nat] h1 = Some h1.
Proof.
  apply (incomplete_parent_collects_nothing family 0%nat
           (member (Some 1%nat) (Some 1%nat)) [2%nat; 3%nat]).
  reflexivity.
Defined.

End Complete.

(** ** ReactFiber.js and ReactFiberWorkLoop.js: the mode of a host root

    [createHostRootFiber] turns the tag of a root into the mode bits of its
    fiber; [computeExpirationForFiber] reads those bits first. *)
Module Roots.
Import TypeOfMode WorkLoop.

(** shared/ReactRootTags. *)
Definition LegacyRoot : Z := 0.
Definition BlockingRoot : Z := 1.
Definition ConcurrentRoot : Z := 2.

Section HostRoot.
Context {Val : Type}.
(** Flags and constants of files that are not part of the sources at hand
    (shared/ReactFeatureFlags, ReactFiberDevToolsHook.js,
    ReactFiberExpirationTime.js, shared/ReactWorkTags). *)
Variables enableProfilerTimer isDevToolsPresent : bool.
Variables NoWork Idle Batched Sync LOW_PRIORITY_EXPIRATION HostRoot : Z.
Variable computeSuspenseExpiration : Z -> Z -> Z.
Variables computeInteractiveExpiration computeAsyncExpiration : Z -> Z.

Definition createHostRootFiber (tag : Z) : @Fiber.Fiber Val :=
  let mode :=
    if tag =? ConcurrentRoot then Z.lor (Z.lor ConcurrentMode BlockingMode) StrictMode
    else if tag =? BlockingRoot then Z.lor BlockingMode StrictMode
    else NoMode in
  let mode :=
    if enableProfilerTimer && isDevToolsPresent
    then Z.lor mode ProfileMode   (* always collect profile timings with DevTools *)
    else mode in
  Fiber.createFiber enableProfilerTimer NoWork HostRoot None None mode.

(** The host root fiber of a root that is neither concurrent nor blocking
    (a legacy root) gets [Sync] for every update, whatever the priority, the
    execution context, the render in progress and the suspense config; that
    of a blocking root gets [Sync] at immediate priority and [Batched]
    otherwise; only that of a concurrent root has both the blocking and the
    concurrent bit, and so reaches the times computed from the priority.
    The profile bit changes none of this. *)
Theorem host_root_expiration (tag : Z) (g : Globals) (priorityLevel currentTime : Z)
    (suspenseConfig : option SuspenseConfig) :
  let root := createHostRootFiber tag in
  let result :=
    computeExpirationForFiber Idle Batched Sync LOW_PRIORITY_EXPIRATION
      computeSuspenseExpiration computeInteractiveExpiration computeAsyncExpiration
      g priorityLevel currentTime root suspenseConfig in
  Fiber.tag root = HostRoot /\
  (tag <> ConcurrentRoot -> tag <> BlockingRoot -> result = Some Sync) /\
  (tag = BlockingRoot ->
   result = Some (if priorityLevel =? ImmediatePriority then Sync else Batched)) /\
  (Z.land (Fiber.mode root) BlockingMode <> NoMode /\
   Z.land (Fiber.mode root) ConcurrentMode <> NoMode <-> tag = ConcurrentRoot).
Proof.
  cbn zeta. split; [reflexivity|].
  unfold computeExpirationForFiber, createHostRootFiber, Fiber.createFiber.
  cbn [Fiber.mode].
  unfold ConcurrentRoot, BlockingRoot.
  destruct (Z.eqb_spec tag 2) as [E2|N2]; destruct (Z.eqb_spec tag 1) as [E1|N1];
    try lia;
    destruct (enableProfilerTimer && isDevToolsPresent);
    cbn;
    (split; [intros; try reflexivity; lia|]);
    (split; [intros; try reflexivity; lia|]);
    (split; [intros [A B]; try assumption; exfalso; (apply A; reflexivity) || (apply B; reflexivity)
            |intros; try lia; split; discriminate]).
Qed.

End HostRoot.

Lemma host_root_expiration_witness :
  computeExpirationForFiber 2 1073741822 1073741823 5000
    (fun _ _ => 7) (fun _ => 8) (fun _ => 9)
    (mkGlobals RenderContext (Some tt) 1000 RootIncomplete 0) NormalPriority 12
    (createHostRootFiber true true 0 3 LegacyRoot) None
  = Some 1073741823.
Proof.
  destruct (host_root_expiration true true 0 2 1073741822 1073741823 5000 3
              (fun _ _ => 7) (fun _ => 8) (fun _ => 9) LegacyRoot
              (mkGlobals RenderContext (Some tt) 1000 RootIncomplete 0)
              NormalPriority 12 None) as (_ & H & _).
  apply H; discriminate.
Defined.

End Roots.

(** ** ReactFiberWorkLoop.js: roots with pending discrete updates

    [rootsWithPendingDiscreteUpdates] is a [Map] from roots to expiration
    times, or null.  A [Map] is walked in the order its keys were first
    inserted, so it is an association list here; a root is any type with
    decidable equality. *)
Module Discrete.
Import WorkLoop.

Section Pending.
Context {Root : Type} `{EqDecision Root}.

Abbreviation RootMap := (list (Root * Z)).

(** [Map.prototype.get] ([None] is [undefined]) and [Map.prototype.set]. *)
Fixpoint get (root : Root) (m : RootMap) : option Z :=
  match m with
  | [] => None
  | (r, t) :: rest => if decide (r = root) then Some t else get root rest
  end.

Fixpoint set (root : Root) (expirationTime : Z) (m : RootMap) : RootMap :=
  match m with
  | [] => [(root, expirationTime)]
  | (r, t) :: rest =>
      if decide (r = root) then (r, expirationTime) :: rest
      else (r, t) :: set root expirationTime rest
  end.

(** The last statement of [scheduleUpdateOnFiber], on the execution context,
    the priority level read before, the root found and the time of the
    update. *)
Definition trackDiscreteUpdate (executionContext priorityLevel : Z) (root : Root)
    (expirationTime : Z) (rootsWithPendingDiscreteUpdates : option RootMap)
    : option RootMap :=
  if negb (Z.land executionContext DiscreteEventContext =? NoContext) &&
     ((priorityLevel =? UserBlockingPriority) || (priorityLevel =? ImmediatePriority))
  then
    match rootsWithPendingDiscreteUpdates with
    | None => Some [(root, expirationTime)]
    | Some roots =>
        match get root roots with
        | None => Some (set root expirationTime roots)
        | Some lastDiscreteTime =>
            if expirationTime <? lastDiscreteTime
            then Some (set root expirationTime roots)
            else Some roots
        end
    end
  else rootsWithPendingDiscreteUpdates.

(** Calls that leave this part of the module; they are recorded. *)
Inductive Call : Type :=
| MarkRootExpiredAtTime (root : Root) (expirationTime : Z)
| EnsureRootIsScheduled (root : Root)
| FlushSyncCallbackQueue
| FlushPassiveEffects.

Definition flushPendingDiscreteUpdates (rootsWithPendingDiscreteUpdates : option RootMap)
    : option RootMap * list Call :=
  match rootsWithPendingDiscreteUpdates with
  | Some roots =>
      (None,
       flat_map (fun '(root, expirationTime) =>
                   [MarkRootExpiredAtTime root expirationTime; EnsureRootIsScheduled root])
                roots
       ++ [FlushSyncCallbackQueue])
  | None => (None, [])
  end.

Definition flushDiscreteUpdates (executionContext : Z)
    (rootsWithPendingDiscreteUpdates : option RootMap) : option RootMap * list Call :=
  if negb (Z.land executionContext
             (Z.lor (Z.lor BatchedContext RenderContext) CommitContext) =? NoContext)
  then (rootsWithPendingDiscreteUpdates, [])
  else
    let '(m, calls) := flushPendingDiscreteUpdates rootsWithPendingDiscreteUpdates in
    (m, calls ++ [FlushPassiveEffects]).

(** *** Specification-side definitions *)

(** One update reaching the end of [scheduleUpdateOnFiber]. *)
Record Scheduled : Type := mkScheduled {
  context : Z;
  priority : Z;
  rootOf : Root;
  time : Z
}.

Definition track (m : option RootMap) (u : Scheduled) : option RootMap :=
  trackDiscreteUpdate (context u) (priority u) (rootOf u) (time u) m.

Definition trackAll (us : list Scheduled) (m : option RootMap) : option RootMap :=
  fold_left track us m.

(** A discrete update: made in a discrete event, at user-blocking or
    immediate priority. *)
Definition discrete (u : Scheduled) : Prop :=
  Z.land (context u) DiscreteEventContext <> NoContext /\
  (priority u = UserBlockingPriority \/ priority u = ImmediatePriority).

#[local] Instance discrete_dec (u : Scheduled) : Decision (discrete u).
Proof. unfold discrete. apply _. Defined.

(** The roots of a list in the order they first occur. *)
Definition firstSeen (l : list Root) : list Root :=
  fold_left (fun acc r => if decide (r ∈ acc) then acc else acc ++ [r]) l [].

Definition minimum (l : list Z) : option Z :=
  fold_left (fun acc t => Some (match acc with Some m => Z.min m t | None => t end)) l None.

Definition timesOf (root : Root) (us : list Scheduled) : list Z :=
  time <$> filter (fun u => rootOf u = root) us.

(** *** Lemmas *)

Lemma get_None (root : Root) (m : RootMap) : get root m = None <-> root ∉ m.*1.
Proof.
  induction m as [|[r t] m IH]; cbn.
  - split; [intros _; apply not_elem_of_nil|reflexivity].
  - destruct (decide (r = root)) as [->|Hne].
    + split; [discriminate|]. intros H. exfalso. apply H. left.
    + rewrite IH, not_elem_of_cons. split; [intros H; split; [congruence|exact H]|tauto].
Qed.

Lemma get_elem_of (root : Root) (t : Z) (m : RootMap) :
  NoDup m.*1 -> (root, t) ∈ m <-> get root m = Some t.
Proof.
  induction m as [|[r x] m IH]; cbn; intros Hnd.
  - split; [intros H; apply elem_of_nil in H; contradiction|discriminate].
  - apply NoDup_cons in Hnd as [Hr Hnd]. rewrite elem_of_cons.
    destruct (decide (r = root)) as [->|Hne].
    + split.
      * intros [H|H]; [congruence|]. exfalso. apply Hr.
        apply (list_elem_of_fmap_2 fst) in H. exact H.
      * intros H. left. congruence.
    + rewrite <- (IH Hnd). split; [intros [H|H]; [congruence|exact H]|tauto].
Qed.

Lemma get_set (root root' : Root) (t : Z) (m : RootMap) :
  get root' (set root t m) = if decide (root = root') then Some t else get root' m.
Proof.
  induction m as [|[r x] m IH]; cbn.
  - reflexivity.
  - destruct (decide (r = root)) as [->|Hne]; cbn.
    + destruct (decide (root = root')); reflexivity.
    + destruct (decide (r = root')) as [->|Hne'].
      * destruct (decide (root = root')); [congruence|reflexivity].
      * exact IH.
Qed.

Lemma keys_set (root : Root) (t : Z) (m : RootMap) :
  (set root t m).*1 = if decide (root ∈ m.*1) then m.*1 else m.*1 ++ [root].
Proof.
  induction m as [|[r x] m IH]; cbn.
  - destruct (decide (root ∈ [])) as [H|_]; [apply elem_of_nil in H; contradiction|].
    reflexivity.
  - destruct (decide (r = root)) as [->|Hne]; cbn.
    + destruct (decide (root ∈ root :: m.*1)) as [_|H]; [reflexivity|].
      exfalso. apply H. left.
    + rewrite IH. destruct (decide (root ∈ m.*1)) as [Hin|Hnin].
      * destruct (decide (root ∈ r :: m.*1)) as [_|H]; [reflexivity|].
        exfalso. apply H. right. exact Hin.
      * destruct (decide (root ∈ r :: m.*1)) as [H|_]; [|reflexivity].
        apply elem_of_cons in H as [H|H]; [congruence|contradiction].
Qed.

Lemma firstSeen_snoc (l : list Root) (r : Root) :
  firstSeen (l ++ [r]) =
  if decide (r ∈ firstSeen l) then firstSeen l else firstSeen l ++ [r].
Proof. unfold firstSeen. rewrite fold_left_app. reflexivity. Qed.

Lemma minimum_snoc (l : list Z) (t : Z) :
  minimum (l ++ [t]) = Some (match minimum l with Some m => Z.min m t | None => t end).
Proof. unfold minimum. rewrite fold_left_app. reflexivity. Qed.

Lemma timesOf_snoc (root : Root) (us : list Scheduled) (u : Scheduled) :
  timesOf root (us ++ [u]) =
  timesOf root us ++ if decide (rootOf u = root) then [time u] else [].
Proof.
  unfold timesOf. rewrite filter_app, fmap_app. f_equal.
  destruct (decide (rootOf u = root)) as [E|N].
  - rewrite filter_cons_True by exact E. reflexivity.
  - rewrite filter_cons_False by exact N. reflexivity.
Qed.

(** What the map holds after the discrete updates [reg], in this order. *)
Definition holds (reg : list Scheduled) (m : option RootMap) : Prop :=
  match m with
  | None => reg = []
  | Some roots =>
      reg <> [] /\
      roots.*1 = firstSeen (rootOf <$> reg) /\
      NoDup roots.*1 /\
      forall root, get root roots = minimum (timesOf root reg)
  end.

Lemma track_other (m : option RootMap) (u : Scheduled) :
  ~ discrete u -> track m u = m.
Proof.
  unfold discrete, track, trackDiscreteUpdate. intros H.
  destruct (Z.eqb_spec (Z.land (context u) DiscreteEventContext) NoContext) as [|Hc];
    [reflexivity|]. cbn [negb andb].
  destruct (Z.eqb_spec (priority u) UserBlockingPriority) as [E1|N1]; [tauto|].
  destruct (Z.eqb_spec (priority u) ImmediatePriority) as [E2|N2]; [tauto|].
  reflexivity.
Qed.

Lemma track_discrete (reg : list Scheduled) (m : option RootMap) (u : Scheduled) :
  discrete u -> holds reg m -> holds (reg ++ [u]) (track m u).
Proof.
  intros [Hc Hp] Hm. unfold track, trackDiscreteUpdate.
  destruct (Z.eqb_spec (Z.land (context u) DiscreteEventContext) NoContext) as [|_];
    [contradiction|]. cbn [negb andb].
  assert (Hor : (priority u =? UserBlockingPriority) || (priority u =? ImmediatePriority)
                = true).
  { destruct Hp as [->| ->]; reflexivity. }
  rewrite Hor. clear Hor.
  assert (Hne : reg ++ [u] <> []) by (destruct reg; discriminate).
  destruct m as [roots|]; cbn [holds] in *.
  - destruct Hm as (_ & Hkeys & Hnd & Hget).
    assert (Hother : forall root, rootOf u <> root ->
              minimum (timesOf root (reg ++ [u])) = minimum (timesOf root reg)).
    { intros root Hr. rewrite timesOf_snoc.
      destruct (decide (rootOf u = root)); [contradiction|]. rewrite app_nil_r. reflexivity. }
    assert (Hsame : minimum (timesOf (rootOf u) (reg ++ [u])) =
              Some (match get (rootOf u) roots with
                    | Some m => Z.min m (time u) | None => time u end)).
    { rewrite timesOf_snoc. destruct (decide (rootOf u = rootOf u)); [|contradiction].
      rewrite minimum_snoc, Hget. reflexivity. }
    assert (Hseen : firstSeen (rootOf <$> reg ++ [u]) =
              if decide (rootOf u ∈ roots.*1) then roots.*1 else roots.*1 ++ [rootOf u]).
    { rewrite fmap_app. cbn [fmap list_fmap]. rewrite firstSeen_snoc, <- Hkeys. reflexivity. }
    destruct (get (rootOf u) roots) as [lastDiscreteTime|] eqn:Elast.
    + assert (Hin : rootOf u ∈ roots.*1).
      { destruct (decide (rootOf u ∈ roots.*1)) as [H|H]; [exact H|].
        apply get_None in H. congruence. }
      destruct (decide (rootOf u ∈ roots.*1)); [|contradiction].
      destruct (Z.ltb_spec (time u) lastDiscreteTime) as [Hlt|Hge].
      * split; [exact Hne|]. rewrite keys_set.
        destruct (decide (rootOf u ∈ roots.*1)); [|contradiction].
        split; [symmetry; exact Hseen|]. split; [exact Hnd|].
        intros root. rewrite get_set.
        destruct (decide (rootOf u = root)) as [<-|Hr].
        -- rewrite Hsame. f_equal. lia.
        -- rewrite Hother by exact Hr. apply Hget.
      * split; [exact Hne|]. split; [symmetry; exact Hseen|]. split; [exact Hnd|].
        intros root. destruct (decide (rootOf u = root)) as [<-|Hr].
        -- rewrite Hsame, Elast. f_equal. lia.
        -- rewrite Hother by exact Hr. apply Hget.
    + assert (Hnin : rootOf u ∉ roots.*1) by (apply get_None; exact Elast).
      destruct (decide (rootOf u ∈ roots.*1)); [contradiction|].
      split; [exact Hne|]. rewrite keys_set.
      destruct (decide (rootOf u ∈ roots.*1)); [contradiction|].
      split; [symmetry; exact Hseen|].
      split.
      { apply NoDup_app. split; [exact Hnd|]. split.
        - intros x Hx Hx'. apply list_elem_of_singleton in Hx'. congruence.
        - apply NoDup_singleton. }
      intros root. rewrite get_set.
      destruct (decide (rootOf u = root)) as [<-|Hr].
      * rewrite Hsame. reflexivity.
      * rewrite Hother by exact Hr. apply Hget.
  - subst reg. split; [discriminate|].
    split.
    { change (rootOf <$> [] ++ [u]) with ([] ++ [rootOf u]). rewrite firstSeen_snoc.
      change (firstSeen []) with (@nil Root).
      destruct (decide (rootOf u ∈ [])) as [H|_]; [|reflexivity].
      apply elem_of_nil in H. contradiction. }
    split; [apply NoDup_singleton|].
    intros root. rewrite timesOf_snoc. cbn [get].
    destruct (decide (rootOf u = root)) as [E|N]; reflexivity.
Qed.

Lemma trackAll_holds (us : list Scheduled) :
  holds (filter discrete us) (trackAll us None).
Proof.
  induction us as [|u us IH] using rev_ind; [reflexivity|].
  unfold trackAll. rewrite fold_left_app. cbn [fold_left]. fold (trackAll us None).
  rewrite filter_app. destruct (decide (discrete u)) as [Hd|Hn].
  - rewrite (filter_cons_True _ _ _ Hd). cbn [filter list_filter].
    apply track_discrete; assumption.
  - rewrite (filter_cons_False _ _ _ Hn), track_other by exact Hn.
    cbn [filter list_filter]. rewrite app_nil_r. exact IH.
Qed.

(** scheduleUpdateOnFiber and flushPendingDiscreteUpdates: after any
    sequence of updates, when at least one of them was discrete,
    [rootsWithPendingDiscreteUpdates] holds each root that had a discrete
    update once, in the order of their first discrete update, with the
    smallest expiration time of its discrete updates; updates that are not
    discrete leave no trace.  [flushPendingDiscreteUpdates] then marks each
    of these roots expired at that time and schedules it, in that order,
    flushes the sync queue once at the end, and leaves the variable null,
    so that a second flush does nothing. *)
Theorem discrete_updates_flushed_once (us : list Scheduled) :
  let reg := filter discrete us in
  reg <> [] ->
  exists roots,
    trackAll us None = Some roots /\
    roots.*1 = firstSeen (rootOf <$> reg) /\
    (forall root t, (root, t) ∈ roots <-> minimum (timesOf root reg) = Some t) /\
    flushPendingDiscreteUpdates (Some roots) =
      (None,
       flat_map (fun '(root, t) => [MarkRootExpiredAtTime root t; EnsureRootIsScheduled root])
                roots
       ++ [FlushSyncCallbackQueue]) /\
    flushPendingDiscreteUpdates (fst (flushPendingDiscreteUpdates (Some roots))) = (None, []).
Proof.
  intros reg Hne. pose proof (trackAll_holds us) as H. fold reg in H.
  destruct (trackAll us None) as [roots|]; cbn [holds] in H; [|contradiction].
  destruct H as (_ & Hkeys & Hnd & Hget).
  exists roots. split; [reflexivity|]. split; [exact Hkeys|].
  split; [|split; reflexivity].
  intros root t. rewrite <- Hget. apply get_elem_of. exact Hnd.
Qed.

(** Without a discrete update the variable stays null, and
    [flushPendingDiscreteUpdates] calls nothing, not even
    [flushSyncCallbackQueue]; [flushDiscreteUpdates] does nothing at all
    inside a batch, a render or a commit, whatever is pending. *)
Theorem discrete_flush_skipped (us : list Scheduled) (executionContext : Z)
    (pending : option RootMap) :
  (filter discrete us = [] ->
   trackAll us None = None /\
   flushPendingDiscreteUpdates (trackAll us None) = (None, [])) /\
  (Z.land executionContext (Z.lor (Z.lor BatchedContext RenderContext) CommitContext)
     <> NoContext ->
   flushDiscreteUpdates executionContext pending = (pending, [])).
Proof.
  split.
  - intros Hnil. pose proof (trackAll_holds us) as H. rewrite Hnil in H.
    destruct (trackAll us None) as [roots|]; cbn [holds] in H.
    + destruct H as [H _]. contradiction.
    + split; reflexivity.
  - intros Hctx. unfold flushDiscreteUpdates.
    destruct (Z.eqb_spec (Z.land executionContext
                (Z.lor (Z.lor BatchedContext RenderContext) CommitContext)) NoContext);
      [contradiction|reflexivity].
Qed.

End Pending.

(** Two clicks on root 1 and one on root 2 in discrete events, and an update
    on root 3 outside any event. *)
Section Clicks.
Definition clicks : list (@Scheduled nat) :=
  [mkScheduled DiscreteEventContext UserBlockingPriority 1%nat 50;
   mkScheduled DiscreteEventContext ImmediatePriority 2%nat 70;
   mkScheduled NoContext NormalPriority 3%nat 10;
   mkScheduled (Z.lor DiscreteEventContext BatchedContext) UserBlockingPriority 1%nat 30].
Definition timers : list (@Scheduled nat) :=
  [mkScheduled NoContext NormalPriority 3%nat 10;
   mkScheduled DiscreteEventContext NormalPriority 1%nat 20].
End Clicks.

Lemma discrete_updates_flushed_once_witness :
  trackAll clicks None = Some [(1%nat, 30); (2%nat, 70)] /\
  exists roots,
    trackAll clicks None = Some roots /\
    roots.*1 = firstSeen (rootOf <$> filter discrete clicks) /\
    (forall root t, (root, t) ∈ roots <->
                    minimum (timesOf root (filter discrete clicks)) = Some t) /\
    flushPendingDiscreteUpdates (Some roots) =
      (None,
       flat_map (fun '(root, t) => [MarkRootExpiredAtTime root t; EnsureRootIsScheduled root])
                roots
       ++ [FlushSyncCallbackQueue]) /\
    flushPendingDiscreteUpdates (fst (flushPendingDiscreteUpdates (Some roots))) = (None, []).
Proof.
  split; [reflexivity|].
  apply (discrete_updates_flushed_once clicks).
  unfold clicks. rewrite filter_cons_True; [discriminate|].
  split; [vm_compute; discriminate|left; reflexivity].
Defined.

Lemma discrete_flush_skipped_witness :
  trackAll timers None = None /\
  flushDiscreteUpdates BatchedContext (trackAll clicks None) = (trackAll clicks None, []).
Proof.
  destruct (discrete_flush_skipped timers BatchedContext (trackAll clicks None)) as [A B].
  split.
  - apply A. reflexivity.
  - apply B. vm_compute. discriminate.
Defined.
End Discrete.

(** ** ReactFiberWorkLoop.js: batching wrappers

    [batchedUpdates] and its relatives run a function under a changed
    [executionContext] and restore it in a [finally] block.  The function
    run is any transformer of the module state that returns or throws.
    [flushSyncCallbackQueue] is a recorded call that may throw; the
    callbacks it runs are taken to leave [executionContext] as they found
    it.  [Scheduler_runWithPriority] is taken to call its function and hand
    on what it returns or throws. *)
Module Batching.
Import WorkLoop.

Section Wrappers.
Context {R Err Label : Type}.

Inductive Call : Type :=
| FlushSyncCallbackQueue
| RunWithPriority (reactPriorityLevel : Z)
| Did (what : Label).

Record State : Type := mkState {
  executionContext : Z;
  calls : list Call
}.

(** A function returns a value ([None] is [undefined]) or throws. *)
Inductive Result : Type :=
| Returned (value : option R)
| Thrown (error : Err).

Definition Fn : Type := State -> State * Result.

(** What [flushSyncCallbackQueue] throws, given the calls made so far. *)
Variable flushThrows : list Call -> option Err.

Definition set_executionContext (c : Z) (s : State) : State := mkState c (calls s).

Definition record (c : Call) (s : State) : State :=
  mkState (executionContext s) (calls s ++ [c]).

Definition flushSyncCallbackQueue (s : State) : State * option Err :=
  (record FlushSyncCallbackQueue s, flushThrows (calls s)).

(** [flushSyncCallbackQueue()] as a statement of a [finally] block: an error
    it throws replaces the outcome of the [try] block. *)
Definition thenFlush (out : State * Result) : State * Result :=
  let '(s, thrown) := flushSyncCallbackQueue (fst out) in
  (s, match thrown with Some e => Thrown e | None => snd out end).

(** [runWithPriority(reactPriorityLevel, fn)], for the two constant levels
    it is called with below, which [reactPriorityToSchedulerPriority]
    accepts. *)
Definition runWithPriority (reactPriorityLevel : Z) (fn : Fn) : Fn :=
  fun s => fn (record (RunWithPriority reactPriorityLevel) s).

Definition batchedUpdates (fn : Fn) : Fn := fun s =>
  let prevExecutionContext := executionContext s in
  let '(s1, r) := fn (set_executionContext (Z.lor (executionContext s) BatchedContext) s) in
  let s2 := set_executionContext prevExecutionContext s1 in
  if executionContext s2 =? NoContext then thenFlush (s2, r) else (s2, r).

Definition batchedEventUpdates (fn : Fn) : Fn := fun s =>
  let prevExecutionContext := executionContext s in
  let '(s1, r) := fn (set_executionContext (Z.lor (executionContext s) EventContext) s) in
  let s2 := set_executionContext prevExecutionContext s1 in
  if executionContext s2 =? NoContext then thenFlush (s2, r) else (s2, r).

Definition discreteUpdates (fn : Fn) : Fn := fun s =>
  let prevExecutionContext := executionContext s in
  let '(s1, r) :=
    runWithPriority UserBlockingPriority fn
      (set_executionContext (Z.lor (executionContext s) DiscreteEventContext) s) in
  let s2 := set_executionContext prevExecutionContext s1 in
  if executionContext s2 =? NoContext then thenFlush (s2, r) else (s2, r).

Definition unbatchedUpdates (fn : Fn) : Fn := fun s =>
  let prevExecutionContext := executionContext s in
  let s0 := set_executionContext (Z.land (executionContext s) (Z.lnot BatchedContext)) s in
  let '(s1, r) :=
    fn (set_executionContext (Z.lor (executionContext s0) LegacyUnbatchedContext) s0) in
  let s2 := set_executionContext prevExecutionContext s1 in
  if executionContext s2 =? NoContext then thenFlush (s2, r) else (s2, r).

(** [None] is the invariant violation 'flushSync was called from inside a
    lifecycle method'. *)
Definition flushSync (fn : Fn) (s : State) : option (State * Result) :=
  if negb (Z.land (executionContext s) (Z.lor RenderContext CommitContext) =? NoContext)
  then None
  else
    let prevExecutionContext := executionContext s in
    let '(s1, r) :=
      runWithPriority ImmediatePriority fn
        (set_executionContext (Z.lor (executionContext s) BatchedContext) s) in
    let s2 := set_executionContext prevExecutionContext s1 in
    Some (thenFlush (s2, r)).

(** [flushControlled] returns nothing, whatever [fn] returned. *)
Definition flushControlled (fn : Fn) : Fn := fun s =>
  let prevExecutionContext := executionContext s in
  let '(s1, r) :=
    runWithPriority ImmediatePriority fn
      (set_executionContext (Z.lor (executionContext s) BatchedContext) s) in
  let r' := match r with Returned _ => Returned None | Thrown e => Thrown e end in
  let s2 := set_executionContext prevExecutionContext s1 in
  if executionContext s2 =? NoContext then thenFlush (s2, r') else (s2, r').

(** *** Specification-side definitions *)

(** A function that only adds calls, and does not flush the sync queue
    when it is started inside some execution context. *)
Definition batchable (fn : Fn) : Prop :=
  forall s, exists more,
    calls (fst (fn s)) = calls s ++ more /\
    (executionContext s <> NoContext -> FlushSyncCallbackQueue ∉ more).

(** The model of an update scheduled at [Sync] (the second branch of
    [scheduleUpdateOnFiber]): it flushes only outside every context. *)
Definition syncUpdate (what : Label) : Fn := fun s =>
  let s1 := record (Did what) s in
  if executionContext s1 =? NoContext
  then (fst (flushSyncCallbackQueue s1), Returned None)
  else (s1, Returned None).

(** *** Lemmas *)

Lemma lor_bit_nonzero (c bit : Z) : bit <> 0 -> Z.lor c bit <> NoContext.
Proof. intros Hb E. apply Z.lor_eq_0_iff in E as [_ E]. contradiction. Qed.

Lemma syncUpdate_batchable (what : Label) : batchable (syncUpdate what).
Proof.
  intros s. unfold syncUpdate. cbn [record executionContext].
  destruct (Z.eqb_spec (executionContext s) NoContext) as [E|N].
  - exists [Did what; FlushSyncCallbackQueue]. cbn. rewrite <- app_assoc.
    split; [reflexivity|]. intros H. contradiction.
  - exists [Did what]. cbn. split; [reflexivity|]. intros _ H.
    apply list_elem_of_singleton in H. discriminate.
Qed.

(** The common shape of the five wrappers that flush only when they return
    to no context. *)
Definition wraps (wrapper : Fn -> Fn) : Prop :=
  exists (enter : Z -> Z) (before : list Call) (after : Result -> Result),
    (forall c, enter c <> NoContext) /\
    (FlushSyncCallbackQueue ∉ before) /\
    forall fn s,
      wrapper fn s =
      let out := fn (mkState (enter (executionContext s)) (calls s ++ before)) in
      let s2 := set_executionContext (executionContext s) (fst out) in
      if executionContext s =? NoContext then thenFlush (s2, after (snd out))
      else (s2, after (snd out)).

Lemma wraps_five (wrapper : Fn -> Fn) :
  wrapper ∈ [batchedUpdates; batchedEventUpdates; discreteUpdates; unbatchedUpdates;
             flushControlled] ->
  wraps wrapper.
Proof.
  intros H. repeat (apply elem_of_cons in H as [->|H]).
  - exists (fun c => Z.lor c BatchedContext), [], (fun r => r).
    split; [intros c; apply lor_bit_nonzero; discriminate|].
    split; [apply not_elem_of_nil|]. intros fn s. unfold batchedUpdates.
    cbn [set_executionContext calls]. rewrite app_nil_r.
    destruct (fn _) as [s1 r]. reflexivity.
  - exists (fun c => Z.lor c EventContext), [], (fun r => r).
    split; [intros c; apply lor_bit_nonzero; discriminate|].
    split; [apply not_elem_of_nil|]. intros fn s. unfold batchedEventUpdates.
    cbn [set_executionContext calls]. rewrite app_nil_r.
    destruct (fn _) as [s1 r]. reflexivity.
  - exists (fun c => Z.lor c DiscreteEventContext), [RunWithPriority UserBlockingPriority],
      (fun r => r).
    split; [intros c; apply lor_bit_nonzero; discriminate|].
    split; [intros H; apply list_elem_of_singleton in H; discriminate|].
    intros fn s. unfold discreteUpdates, runWithPriority.
    cbn [set_executionContext record calls executionContext].
    destruct (fn _) as [s1 r]. reflexivity.
  - exists (fun c => Z.lor (Z.land c (Z.lnot BatchedContext)) LegacyUnbatchedContext), [],
      (fun r => r).
    split; [intros c; apply lor_bit_nonzero; discriminate|].
    split; [apply not_elem_of_nil|]. intros fn s. unfold unbatchedUpdates.
    cbn [set_executionContext calls executionContext]. rewrite app_nil_r.
    destruct (fn _) as [s1 r]. reflexivity.
  - exists (fun c => Z.lor c BatchedContext), [RunWithPriority ImmediatePriority],
      (fun r => match r with Returned _ => Returned None | Thrown e => Thrown e end).
    split; [intros c; apply lor_bit_nonzero; discriminate|].
    split; [intros H; apply list_elem_of_singleton in H; discriminate|].
    intros fn s. unfold flushControlled, runWithPriority.
    cbn [set_executionContext record calls executionContext].
    destruct (fn _) as [s1 r]. reflexivity.
  - apply elem_of_nil in H. contradiction.
Qed.

Lemma wraps_spec (wrapper : Fn -> Fn) (fn : Fn) :
  wraps wrapper -> batchable fn ->
  forall s, exists more,
    (FlushSyncCallbackQueue ∉ more) /\
    executionContext (fst (wrapper fn s)) = executionContext s /\
    calls (fst (wrapper fn s)) =
      calls s ++ more ++
      if executionContext s =? NoContext then [FlushSyncCallbackQueue] else [].
Proof.
  intros (enter & before & after & Henter & Hbefore & Hw) Hfn s.
  rewrite Hw. cbn zeta.
  destruct (Hfn (mkState (enter (executionContext s)) (calls s ++ before)))
    as (more & Hcalls & Hquiet).
  cbn [calls executionContext] in Hcalls, Hquiet. specialize (Hquiet (Henter _)).
  exists (before ++ more). split.
  { rewrite not_elem_of_app. split; assumption. }
  destruct (executionContext s =? NoContext).
  - unfold thenFlush, flushSyncCallbackQueue. cbn. rewrite Hcalls.
    split; [reflexivity|]. rewrite <- !app_assoc. reflexivity.
  - cbn. rewrite Hcalls. split; [reflexivity|]. rewrite <- !app_assoc, app_nil_r.
    reflexivity.
Qed.

(** batchedUpdates, batchedEventUpdates, discreteUpdates, unbatchedUpdates
    and flushControlled, around a function that does not flush the sync
    queue when started inside an execution context: the execution context is
    afterwards what it was before, whatever the function did to it and
    whether it returned or threw; [flushSyncCallbackQueue] is called exactly
    once, as the last call, when the wrapper was entered with no context, and
    not at all otherwise; and the wrapped function is again such a function,
    so wrappers nested to any depth flush once, when the outermost returns. *)
Theorem batch_flushes_on_exit (wrapper : Fn -> Fn) (fn : Fn) :
  wrapper ∈ [batchedUpdates; batchedEventUpdates; discreteUpdates; unbatchedUpdates;
             flushControlled] ->
  batchable fn ->
  batchable (wrapper fn) /\
  forall s, exists more,
    (FlushSyncCallbackQueue ∉ more) /\
    executionContext (fst (wrapper fn s)) = executionContext s /\
    calls (fst (wrapper fn s)) =
      calls s ++ more ++
      if executionContext s =? NoContext then [FlushSyncCallbackQueue] else [].
Proof.
  intros Hin Hfn. apply wraps_five in Hin.
  split; [|apply wraps_spec; assumption].
  intros s. destruct (wraps_spec wrapper fn Hin Hfn s) as (more & Hmore & _ & Hcalls).
  eexists. split; [exact Hcalls|]. intros Hctx.
  destruct (Z.eqb_spec (executionContext s) NoContext); [contradiction|].
  rewrite app_nil_r. exact Hmore.
Qed.

(** flushSync refuses to run inside a render or a commit; anywhere else,
    also inside a batch, it runs the function at immediate priority with
    the batched bit set, restores the execution context and flushes the sync
    queue as its last call, even when the function threw. *)
Theorem flush_sync_flushes_inside_batch (fn : Fn) (s : State) :
  batchable fn ->
  (Z.land (executionContext s) (Z.lor RenderContext CommitContext) <> NoContext ->
   flushSync fn s = None) /\
  (Z.land (executionContext s) (Z.lor RenderContext CommitContext) = NoContext ->
   exists out more,
     flushSync fn s = Some out /\
     (FlushSyncCallbackQueue ∉ more) /\
     executionContext (fst out) = executionContext s /\
     calls (fst out) =
       calls s ++ RunWithPriority ImmediatePriority :: more ++ [FlushSyncCallbackQueue]).
Proof.
  intros Hfn. unfold flushSync.
  destruct (Z.eqb_spec (Z.land (executionContext s) (Z.lor RenderContext CommitContext))
              NoContext) as [E|N]; cbn [negb].
  - split; [intros H; contradiction|]. intros _.
    unfold runWithPriority. cbn [set_executionContext record calls executionContext].
    destruct (Hfn (mkState (Z.lor (executionContext s) BatchedContext)
                     (calls s ++ [RunWithPriority ImmediatePriority])))
      as (more & Hcalls & Hquiet).
    cbn [calls executionContext] in Hcalls, Hquiet.
    destruct (fn _) as [s1 r]. cbn [fst] in Hcalls.
    eexists. exists more. split; [reflexivity|].
    split; [apply Hquiet; apply lor_bit_nonzero; discriminate|].
    unfold thenFlush, flushSyncCallbackQueue. cbn. rewrite Hcalls.
    split; [reflexivity|]. rewrite <- !app_assoc. reflexivity.
  - split; [reflexivity|]. intros H. contradiction.
Qed.

End Wrappers.

(** A click handler that schedules one sync update, and a sync queue whose
    callbacks never throw. *)
Section Click.
Definition neverThrows : list (@Call nat) -> option nat := fun _ => None.
Definition handler : @Fn unit nat nat := syncUpdate neverThrows 1%nat.
Definition inBatch : @State nat := mkState BatchedContext [].
Definition inRender : @State nat := mkState RenderContext [].
End Click.

Lemma batch_flushes_on_exit_witness :
  batchable (batchedUpdates neverThrows (discreteUpdates neverThrows handler)) /\
  forall s, exists more,
    (FlushSyncCallbackQueue ∉ more) /\
    executionContext
      (fst (batchedUpdates neverThrows (discreteUpdates neverThrows handler) s))
    = executionContext s /\
    calls (fst (batchedUpdates neverThrows (discreteUpdates neverThrows handler) s)) =
      calls s ++ more ++
      if executionContext s =? NoContext then [FlushSyncCallbackQueue] else [].
Proof.
  apply (batch_flushes_on_exit neverThrows (batchedUpdates neverThrows)
           (discreteUpdates neverThrows handler)).
  - apply list_elem_of_here.
  - apply (batch_flushes_on_exit neverThrows (discreteUpdates neverThrows) handler).
    + apply list_elem_of_further, list_elem_of_further, list_elem_of_here.
    + apply syncUpdate_batchable.
Defined.

Example batch_of_click :
  calls (fst (batchedUpdates neverThrows (discreteUpdates neverThrows handler)
                (mkState NoContext []))) =
  [RunWithPriority UserBlockingPriority; Did 1%nat; FlushSyncCallbackQueue].
Proof. reflexivity. Qed.

Lemma flush_sync_flushes_inside_batch_witness :
  flushSync neverThrows handler inRender = None /\
  exists out more,
    flushSync neverThrows handler inBatch = Some out /\
    (FlushSyncCallbackQueue ∉ more) /\
    executionContext (fst out) = BatchedContext /\
    calls (fst out) =
      [] ++ RunWithPriority ImmediatePriority :: more ++ [FlushSyncCallbackQueue].
Proof.
  split.
  - apply (flush_sync_flushes_inside_batch neverThrows handler inRender).
    + apply syncUpdate_batchable.
    + discriminate.
  - apply (flush_sync_flushes_inside_batch neverThrows handler inBatch).
    + apply syncUpdate_batchable.
    + reflexivity.
Defined.
End Batching.

(** ** ReactFiberWorkLoop.js and SchedulerWithReactIntegration.js: one
    callback per root

    [ensureRootIsScheduled] keeps, on the root, the node of the callback
    that will work on it.  The host scheduler is a list of tasks, a node is
    an index into it; the sync queue holds the roots whose
    [performSyncWorkOnRoot] was pushed. *)
Module Schedule.
Import WorkLoop.

Inductive CallbackNode : Set :=
| fakeCallbackNode
| HostNode (index : nat).

Section Ensure.
Context {RootId Suspended : Type}.
(** Constants and functions of ReactFiberExpirationTime.js, the suspended
    range test of ReactFiberRoot.js, a flag of shared/ReactFeatureFlags, the
    scheduler's priorities and its clock: none of them is part of the
    sources at hand.  [now k] is what the [k]-th call of [now()] returns. *)
Variables NoWork Sync : Z.
Variable inferPriorityFromExpirationTime : Z -> Z -> Z.
Variables msToExpirationTime expirationTimeToMs : Z -> Z.
Variable isRootSuspendedAtTime : Suspended -> Z -> bool.
Variable disableSchedulerTimeoutBasedOnReactExpirationTime : bool.
Variables Scheduler_ImmediatePriority Scheduler_UserBlockingPriority
  Scheduler_NormalPriority Scheduler_LowPriority Scheduler_IdlePriority : Z.
Variable now : nat -> Z.

Record FiberRoot : Type := mkFiberRoot {
  lastExpiredTime : Z;
  firstPendingTime : Z;
  lastPingedTime : Z;
  nextKnownPendingLevel : Z;
  suspended : Suspended;
  callbackNode : option CallbackNode;
  callbackExpirationTime : Z;
  callbackPriority : Z
}.

Inductive Task : Type :=
| flushSyncCallbackQueueImpl
| performConcurrentWorkOnRoot (root : RootId).

Record Entry : Type := mkEntry {
  entryPriority : Z;
  entryTask : Task;
  entryTimeout : option Z;
  entryCancelled : bool
}.

(** The module variables of the two files, the host's task list and the
    number of clock readings so far. *)
Record Env : Type := mkEnv {
  executionContext : Z;
  currentEventTime : Z;
  syncQueue : option (list RootId);
  immediateQueueCallbackNode : option nat;
  hostTasks : list Entry;
  reads : nat
}.

Definition Scheduler_scheduleCallback (priorityLevel : Z) (task : Task)
    (timeout : option Z) (e : Env) : CallbackNode * Env :=
  (HostNode (length (hostTasks e)),
   mkEnv (executionContext e) (currentEventTime e) (syncQueue e)
         (immediateQueueCallbackNode e)
         (hostTasks e ++ [mkEntry priorityLevel task timeout false]) (reads e)).

Definition Scheduler_cancelCallback (index : nat) (e : Env) : Env :=
  mkEnv (executionContext e) (currentEventTime e) (syncQueue e)
        (immediateQueueCallbackNode e)
        (alter (fun t => mkEntry (entryPriority t) (entryTask t) (entryTimeout t) true)
               index (hostTasks e))
        (reads e).

(** [now()]. *)
Definition readClock (e : Env) : Z * Env :=
  (now (reads e),
   mkEnv (executionContext e) (currentEventTime e) (syncQueue e)
         (immediateQueueCallbackNode e) (hostTasks e) (S (reads e))).

(** SchedulerWithReactIntegration.js; [None] is the invariant violation
    'Unknown priority level.' *)
Definition scheduleCallback (reactPriorityLevel : Z) (callback : Task)
    (timeout : option Z) (e : Env) : option (CallbackNode * Env) :=
  priorityLevel ← Priorities.reactPriorityToSchedulerPriority
                    Scheduler_ImmediatePriority Scheduler_UserBlockingPriority
                    Scheduler_NormalPriority Scheduler_LowPriority Scheduler_IdlePriority
                    reactPriorityLevel;
  Some (Scheduler_scheduleCallback priorityLevel callback timeout e).

(** [scheduleSyncCallback(performSyncWorkOnRoot.bind(null, root))]. *)
Definition scheduleSyncCallback (root : RootId) (e : Env) : CallbackNode * Env :=
  match syncQueue e with
  | None =>
      let '(node, e1) :=
        Scheduler_scheduleCallback Scheduler_ImmediatePriority flushSyncCallbackQueueImpl
          None e in
      (fakeCallbackNode,
       mkEnv (executionContext e1) (currentEventTime e1) (Some [root])
             (match node with HostNode i => Some i | fakeCallbackNode => None end)
             (hostTasks e1) (reads e1))
  | Some queue =>
      (fakeCallbackNode,
       mkEnv (executionContext e) (currentEventTime e) (Some (queue ++ [root]))
             (immediateQueueCallbackNode e) (hostTasks e) (reads e))
  end.

Definition cancelCallback (callbackNode0 : CallbackNode) (e : Env) : Env :=
  match callbackNode0 with
  | fakeCallbackNode => e
  | HostNode index => Scheduler_cancelCallback index e
  end.

(** ReactFiberWorkLoop.js. *)
Definition requestCurrentTimeForUpdate (e : Env) : Z * Env :=
  if negb (Z.land (executionContext e) (Z.lor RenderContext CommitContext) =? NoContext)
  then
    (* We're inside React, so it's fine to read the actual time. *)
    let '(ms, e1) := readClock e in (msToExpirationTime ms, e1)
  else if negb (currentEventTime e =? NoWork) then
    (* Use the same start time for all updates until we enter React again. *)
    (currentEventTime e, e)
  else
    let '(ms, e1) := readClock e in
    let t := msToExpirationTime ms in
    (t, mkEnv (executionContext e1) t (syncQueue e1) (immediateQueueCallbackNode e1)
              (hostTasks e1) (reads e1)).

Definition getNextRootExpirationTimeToWorkOn (root : FiberRoot) : Z :=
  if negb (lastExpiredTime root =? NoWork) then lastExpiredTime root
  else if negb (isRootSuspendedAtTime (suspended root) (firstPendingTime root))
  then firstPendingTime root
  else if nextKnownPendingLevel root <? lastPingedTime root
  then lastPingedTime root
  else nextKnownPendingLevel root.

Definition set_callback (node : option CallbackNode) (expirationTime priorityLevel : Z)
    (root : FiberRoot) : FiberRoot :=
  mkFiberRoot (lastExpiredTime root) (firstPendingTime root) (lastPingedTime root)
    (nextKnownPendingLevel root) (suspended root) node expirationTime priorityLevel.

Definition ensureRootIsScheduled (id : RootId) (root : FiberRoot) (e : Env)
    : option (FiberRoot * Env) :=
  if negb (lastExpiredTime root =? NoWork) then
    (* Special case: expired work should flush synchronously. *)
    let '(node, e1) := scheduleSyncCallback id e in
    Some (set_callback (Some node) Sync ImmediatePriority root, e1)
  else
    let expirationTime := getNextRootExpirationTimeToWorkOn root in
    let existingCallbackNode := callbackNode root in
    if expirationTime =? NoWork then
      (* There's nothing to work on. *)
      match existingCallbackNode with
      | Some _ => Some (set_callback None NoWork NoPriority root, e)
      | None => Some (root, e)
      end
    else
      let '(currentTime, e1) := requestCurrentTimeForUpdate e in
      let priorityLevel := inferPriorityFromExpirationTime currentTime expirationTime in
      let reuse :=
        match existingCallbackNode with
        | Some _ =>
            (callbackExpirationTime root =? expirationTime) &&
            (priorityLevel <=? callbackPriority root)
        | None => false
        end in
      if reuse then Some (root, e1)
      else
        let e2 :=
          match existingCallbackNode with
          | Some node => cancelCallback node e1
          | None => e1
          end in
        if expirationTime =? Sync then
          let '(node, e3) := scheduleSyncCallback id e2 in
          Some (set_callback (Some node) expirationTime priorityLevel root, e3)
        else if disableSchedulerTimeoutBasedOnReactExpirationTime then
          '(node, e3) ← scheduleCallback priorityLevel (performConcurrentWorkOnRoot id)
                          None e2;
          Some (set_callback (Some node) expirationTime priorityLevel root, e3)
        else
          let '(ms, e3) := readClock e2 in
          '(node, e4) ← scheduleCallback priorityLevel (performConcurrentWorkOnRoot id)
                          (Some (expirationTimeToMs expirationTime - ms)) e3;
          Some (set_callback (Some node) expirationTime priorityLevel root, e4).

(** *** Specification-side definitions *)

(** The queue as a list: null is the empty queue. *)
Definition queued (e : Env) : list RootId := default [] (syncQueue e).

(** What the scheduling functions never undo: the execution context is
    kept, the sync queue grows by [added] at its end, and no host task is
    removed. *)
Definition grows (added : list RootId) (e e1 : Env) : Prop :=
  executionContext e1 = executionContext e /\
  queued e1 = queued e ++ added /\
  (length (hostTasks e) <= length (hostTasks e1))%nat.

(** *** Lemmas *)

Lemma grows_refl (e : Env) : grows [] e e.
Proof. unfold grows. rewrite app_nil_r. repeat split; lia. Qed.

Lemma grows_trans (a b : list RootId) (e1 e2 e3 : Env) :
  grows a e1 e2 -> grows b e2 e3 -> grows (a ++ b) e1 e3.
Proof.
  intros (C1 & Q1 & L1) (C2 & Q2 & L2). unfold grows.
  rewrite C2, C1, Q2, Q1, app_assoc. repeat split; lia.
Qed.

Lemma readClock_grows (e : Env) :
  grows [] e (snd (readClock e)) /\
  currentEventTime (snd (readClock e)) = currentEventTime e.
Proof. unfold grows, queued. cbn. rewrite app_nil_r. repeat split; lia. Qed.

Lemma cancelCallback_grows (node : CallbackNode) (e : Env) :
  grows [] e (cancelCallback node e) /\
  currentEventTime (cancelCallback node e) = currentEventTime e.
Proof.
  destruct node as [|i]; cbn; [split; [apply grows_refl|reflexivity]|].
  unfold grows, queued. cbn. rewrite app_nil_r, length_alter. repeat split; lia.
Qed.

Lemma scheduleSyncCallback_grows (id : RootId) (e : Env) :
  fst (scheduleSyncCallback id e) = fakeCallbackNode /\
  grows [id] e (snd (scheduleSyncCallback id e)) /\
  currentEventTime (snd (scheduleSyncCallback id e)) = currentEventTime e.
Proof.
  unfold scheduleSyncCallback, grows, queued.
  destruct (syncQueue e) as [q|] eqn:Eq; cbn; rewrite ?Eq; cbn.
  - repeat split; lia.
  - rewrite length_app. repeat split; lia.
Qed.

Lemma scheduleSyncCallback_keeps_tasks (id : RootId) (e : Env) :
  exists more, hostTasks (snd (scheduleSyncCallback id e)) = hostTasks e ++ more.
Proof.
  unfold scheduleSyncCallback. destruct (syncQueue e); cbn.
  - exists []. rewrite app_nil_r. reflexivity.
  - eexists. reflexivity.
Qed.

Lemma scheduleCallback_grows (p : Z) (task : Task) (timeout : option Z) (e : Env)
    (node : CallbackNode) (e1 : Env) :
  scheduleCallback p task timeout e = Some (node, e1) ->
  grows [] e e1 /\ currentEventTime e1 = currentEventTime e /\
  exists i, node = HostNode i.
Proof.
  unfold scheduleCallback.
  destruct (Priorities.reactPriorityToSchedulerPriority _ _ _ _ _ p) as [sp|];
    [|discriminate].
  cbn. intros H. injection H as <- <-. unfold grows, queued. cbn.
  rewrite app_nil_r, length_app. split; [repeat split; lia|]. split; [reflexivity|].
  eexists. reflexivity.
Qed.

Lemma requestCurrentTimeForUpdate_grows (e : Env) :
  grows [] e (snd (requestCurrentTimeForUpdate e)).
Proof.
  unfold requestCurrentTimeForUpdate.
  destruct (negb _); [apply readClock_grows|].
  destruct (negb _); [apply grows_refl|].
  unfold grows, queued. cbn. rewrite app_nil_r. repeat split; lia.
Qed.

Lemma requestCurrentTimeForUpdate_same_event (e : Env) :
  Z.land (executionContext e) (Z.lor RenderContext CommitContext) = NoContext ->
  currentEventTime e <> NoWork ->
  requestCurrentTimeForUpdate e = (currentEventTime e, e).
Proof.
  intros Hc Ht. unfold requestCurrentTimeForUpdate. rewrite Hc. cbn [Z.eqb negb].
  destruct (Z.eqb_spec (currentEventTime e) NoWork); [contradiction|]. reflexivity.
Qed.

Lemma getNext_set_callback (node : option CallbackNode) (t p : Z) (root : FiberRoot) :
  getNextRootExpirationTimeToWorkOn (set_callback node t p root) =
  getNextRootExpirationTimeToWorkOn root.
Proof. reflexivity. Qed.

Lemma set_callback_id (root : FiberRoot) :
  root = set_callback (callbackNode root) (callbackExpirationTime root)
           (callbackPriority root) root.
Proof. destruct root; reflexivity. Qed.

(** A second call with the callback already in place. *)
Lemma ensure_reuse (id : RootId) (root : FiberRoot) (e : Env) :
  lastExpiredTime root = NoWork ->
  Z.land (executionContext e) (Z.lor RenderContext CommitContext) = NoContext ->
  currentEventTime e <> NoWork ->
  getNextRootExpirationTimeToWorkOn root <> NoWork ->
  is_Some (callbackNode root) ->
  callbackExpirationTime root = getNextRootExpirationTimeToWorkOn root ->
  inferPriorityFromExpirationTime (currentEventTime e)
    (getNextRootExpirationTimeToWorkOn root) <= callbackPriority root ->
  ensureRootIsScheduled id root e = Some (root, e).
Proof.
  intros Hexp Hc Ht Hwork [node Hnode] Hcet Hprio. unfold ensureRootIsScheduled.
  rewrite Hexp, Z.eqb_refl. cbn [negb].
  destruct (Z.eqb_spec (getNextRootExpirationTimeToWorkOn root) NoWork); [contradiction|].
  rewrite (requestCurrentTimeForUpdate_same_event e Hc Ht), Hnode, Hcet, Z.eqb_refl.
  cbn [andb].
  destruct (Z.leb_spec (inferPriorityFromExpirationTime (currentEventTime e)
                          (getNextRootExpirationTimeToWorkOn root))
                       (callbackPriority root)); [reflexivity|lia].
Qed.

(** ensureRootIsScheduled, called twice in the same event on a root without
    expired work: the second call changes nothing and calls nothing.  (The
    event has a time, and we are outside a render and a commit, so the
    second call sees the same current time as the first.) *)
Theorem ensure_scheduled_idempotent (id : RootId) (root root1 : FiberRoot) (e e1 : Env) :
  lastExpiredTime root = NoWork ->
  Z.land (executionContext e) (Z.lor RenderContext CommitContext) = NoContext ->
  currentEventTime e <> NoWork ->
  ensureRootIsScheduled id root e = Some (root1, e1) ->
  ensureRootIsScheduled id root1 e1 = Some (root1, e1).
Proof.
  intros Hexp Hc Ht H. pose proof H as H0. unfold ensureRootIsScheduled in H.
  rewrite Hexp, Z.eqb_refl in H. cbn [negb] in H.
  destruct (Z.eqb_spec (getNextRootExpirationTimeToWorkOn root) NoWork) as [Hno|Hwork].
  - destruct (callbackNode root) eqn:Enode; injection H as <- <-; [|exact H0].
    unfold ensureRootIsScheduled. cbn [set_callback lastExpiredTime callbackNode].
    rewrite Hexp, Z.eqb_refl, getNext_set_callback, Hno, Z.eqb_refl. reflexivity.
  - rewrite (requestCurrentTimeForUpdate_same_event e Hc Ht) in H.
    set (t := getNextRootExpirationTimeToWorkOn root) in *.
    set (p := inferPriorityFromExpirationTime (currentEventTime e) t) in *.
    destruct (match callbackNode root with
              | Some _ => (callbackExpirationTime root =? t) && (p <=? callbackPriority root)
              | None => false
              end) eqn:Ereuse.
    { injection H as <- <-. exact H0. }
    set (e2 := match callbackNode root with
               | Some node => cancelCallback node e
               | None => e
               end) in *.
    assert (H2 : executionContext e2 = executionContext e /\
                 currentEventTime e2 = currentEventTime e).
    { subst e2. destruct (callbackNode root) as [node|]; [|split; reflexivity].
      destruct (cancelCallback_grows node e) as [(C & _) T]. split; assumption. }
    destruct H2 as [C2 T2].
    assert (Hfinal : exists node,
              root1 = set_callback (Some node) t p root /\
              executionContext e1 = executionContext e /\
              currentEventTime e1 = currentEventTime e).
    { destruct (t =? Sync).
      - destruct (scheduleSyncCallback_grows id e2) as (_ & (C & _) & T).
        destruct (scheduleSyncCallback id e2) as [node e3]. injection H as <- <-.
        exists node. cbn [snd] in C, T. split; [reflexivity|]. split; congruence.
      - destruct disableSchedulerTimeoutBasedOnReactExpirationTime.
        + destruct (scheduleCallback p (performConcurrentWorkOnRoot id) None e2)
            as [[node e3]|] eqn:Es; [|discriminate]. injection H as <- <-.
          destruct (scheduleCallback_grows _ _ _ _ _ _ Es) as ((C & _) & T & _).
          exists node. split; [reflexivity|]. split; congruence.
        + destruct (readClock_grows e2) as [(C3 & _) T3].
          destruct (readClock e2) as [ms e3]. cbn [snd] in C3, T3.
          destruct (scheduleCallback p (performConcurrentWorkOnRoot id)
                      (Some (expirationTimeToMs t - ms)) e3)
            as [[node e4]|] eqn:Es; [|discriminate]. injection H as <- <-.
          destruct (scheduleCallback_grows _ _ _ _ _ _ Es) as ((C & _) & T & _).
          exists node. split; [reflexivity|]. split; congruence. }
    destruct Hfinal as (node & -> & C1 & T1).
    apply ensure_reuse.
    + exact Hexp.
    + rewrite C1. exact Hc.
    + rewrite T1. exact Ht.
    + exact Hwork.
    + eexists. reflexivity.
    + reflexivity.
    + rewrite T1. cbn [set_callback callbackPriority].
      rewrite getNext_set_callback. fold t. fold p. lia.
Qed.

(** ensureRootIsScheduled, whenever it returns: only the three callback
    fields of the root are written; the root has a callback node exactly
    when it has work, and then [callbackExpirationTime] is [Sync] for expired
    work and the next expiration time to work on otherwise; without work
    nothing is called, not even to cancel the callback the root forgets.
    Nothing is ever taken off the sync queue or the host's task list, and
    at most this root is added to the queue.  Expired work is pushed on the
    sync queue at every call, also when the root's previous callback sits
    there already, and no task of the host is cancelled for it. *)
Theorem ensure_scheduled_result (id : RootId) (root root1 : FiberRoot) (e e1 : Env) :
  ensureRootIsScheduled id root e = Some (root1, e1) ->
  let t := getNextRootExpirationTimeToWorkOn root in
  root1 = set_callback (callbackNode root1) (callbackExpirationTime root1)
            (callbackPriority root1) root /\
  (t = NoWork -> callbackNode root1 = None /\ e1 = e) /\
  (t <> NoWork ->
   is_Some (callbackNode root1) /\
   callbackExpirationTime root1 = (if lastExpiredTime root =? NoWork then t else Sync)) /\
  (exists added, grows added e e1 /\ (added = [] \/ added = [id])) /\
  (lastExpiredTime root <> NoWork ->
   callbackNode root1 = Some fakeCallbackNode /\
   callbackPriority root1 = ImmediatePriority /\
   queued e1 = queued e ++ [id] /\
   exists more, hostTasks e1 = hostTasks e ++ more).
Proof.
  intros H t. unfold ensureRootIsScheduled in H. fold t in H.
  assert (Ht : lastExpiredTime root <> NoWork -> t <> NoWork).
  { intros Hx. subst t. unfold getNextRootExpirationTimeToWorkOn.
    destruct (Z.eqb_spec (lastExpiredTime root) NoWork); [contradiction|]. exact Hx. }
  destruct (Z.eqb_spec (lastExpiredTime root) NoWork) as [Hexp|Hexp]; cbn [negb] in H.
  2:{ destruct (scheduleSyncCallback_grows id e) as (Hfake & Hg & _).
      pose proof (scheduleSyncCallback_keeps_tasks id e) as Hk.
      destruct (scheduleSyncCallback id e) as [node e3]. injection H as <- <-.
      cbn [fst snd] in Hfake, Hg, Hk. subst node.
      split; [reflexivity|].
      split; [intros Hno; exfalso; exact (Ht Hexp Hno)|].
      split; [intros _; split; [eexists; reflexivity|reflexivity]|].
      split; [exists [id]; split; [exact Hg|right; reflexivity]|].
      intros _. split; [reflexivity|]. split; [reflexivity|].
      split; [apply Hg|exact Hk]. }
  destruct (Z.eqb_spec t NoWork) as [Hno|Hwork].
  { assert (Hres : callbackNode root1 = None /\ e1 = e /\
                   root1 = set_callback (callbackNode root1) (callbackExpirationTime root1)
                             (callbackPriority root1) root).
    { destruct (callbackNode root) eqn:Enode; injection H as <- <-.
      - repeat split.
      - split; [exact Enode|]. split; [reflexivity|]. rewrite <- ?Enode.
        apply set_callback_id. }
    destruct Hres as (Hnode & -> & Hroot).
    split; [exact Hroot|].
    split; [intros _; split; [exact Hnode|reflexivity]|].
    split; [intros Hx; contradiction|].
    split; [exists []; split; [apply grows_refl|left; reflexivity]|].
    intros Hx; contradiction. }
  pose proof (requestCurrentTimeForUpdate_grows e) as Hg1.
  destruct (requestCurrentTimeForUpdate e) as [currentTime e0]. cbn [snd] in Hg1.
  set (p := inferPriorityFromExpirationTime currentTime t) in *.
  destruct (match callbackNode root with
            | Some _ => (callbackExpirationTime root =? t) && (p <=? callbackPriority root)
            | None => false
            end) eqn:Ereuse.
  { injection H as <- <-.
    destruct (callbackNode root) as [node|] eqn:Enode; [|discriminate].
    apply andb_prop in Ereuse as [Ecet _]. apply Z.eqb_eq in Ecet.
    split; [rewrite <- Enode; apply set_callback_id|].
    split; [intros Hx; contradiction|].
    split; [intros _; split; [eexists; reflexivity|exact Ecet]|].
    split; [exists []; split; [exact Hg1|left; reflexivity]|].
    intros Hx; contradiction. }
  set (e2 := match callbackNode root with
             | Some node => cancelCallback node e0
             | None => e0
             end) in *.
  assert (Hg2 : grows [] e e2).
  { subst e2. destruct (callbackNode root) as [node|]; [|exact Hg1].
    apply (grows_trans [] [] e e0); [exact Hg1|apply cancelCallback_grows]. }
  destruct (Z.eqb_spec t Sync) as [Hsync|Hnsync].
  - destruct (scheduleSyncCallback_grows id e2) as (Hfake & Hg & _).
    destruct (scheduleSyncCallback id e2) as [node e3]. injection H as <- <-.
    cbn [fst snd] in Hfake, Hg. subst node.
    assert (Hg3 : grows [id] e e3) by (apply (grows_trans [] [id] e e2); assumption).
    split; [reflexivity|].
    split; [intros Hx; contradiction|].
    split; [intros _; split; [eexists; reflexivity|reflexivity]|].
    split; [exists [id]; split; [exact Hg3|right; reflexivity]|].
    intros Hx; contradiction.
  - assert (Hhost : exists node e3,
              root1 = set_callback (Some node) t p root /\ e1 = e3 /\ grows [] e e3).
    { destruct disableSchedulerTimeoutBasedOnReactExpirationTime.
      - destruct (scheduleCallback p (performConcurrentWorkOnRoot id) None e2)
          as [[node e3]|] eqn:Es; [|discriminate]. injection H as <- <-.
        destruct (scheduleCallback_grows _ _ _ _ _ _ Es) as (Hg & _).
        exists node, e3. split; [reflexivity|]. split; [reflexivity|].
        apply (grows_trans [] [] e e2); assumption.
      - destruct (readClock_grows e2) as [Hg3 _].
        destruct (readClock e2) as [ms e3]. cbn [snd] in Hg3.
        destruct (scheduleCallback p (performConcurrentWorkOnRoot id)
                    (Some (expirationTimeToMs t - ms)) e3)
          as [[node e4]|] eqn:Es; [|discriminate]. injection H as <- <-.
        destruct (scheduleCallback_grows _ _ _ _ _ _ Es) as (Hg & _).
        exists node, e4. split; [reflexivity|]. split; [reflexivity|].
        apply (grows_trans [] [] e e3); [|exact Hg].
        apply (grows_trans [] [] e e2); assumption. }
    destruct Hhost as (node & e3 & -> & -> & Hg).
    split; [reflexivity|].
    split; [intros Hx; contradiction|].
    split; [intros _; split; [eexists; reflexivity|reflexivity]|].
    split; [exists []; split; [exact Hg|left; reflexivity]|].
    intros Hx; contradiction.
Qed.

End Ensure.

(** A root with pending work at time 500 and no callback, in an event that
    started at time 1000; the same root with that work expired and a sync
    callback already in the queue. *)
Section Sample.
Definition normal : Z -> Z -> Z := fun _ _ => NormalPriority.
Definition tenth : Z -> Z := fun ms => 1073741821 - ms / 10.
Definition tenfold : Z -> Z := fun t => (1073741821 - t) * 10.
Definition neverSuspended : unit -> Z -> bool := fun _ _ => false.
Definition clock : nat -> Z := fun k => 20 * Z.of_nat k.
Definition pending : @FiberRoot unit := mkFiberRoot 0 500 0 0 tt None 0 NoPriority.
Definition expired : @FiberRoot unit :=
  mkFiberRoot 500 500 0 0 tt (Some fakeCallbackNode) 1073741823 ImmediatePriority.
Definition event : @Env nat := mkEnv NoContext 1000 None None [] 0.
Definition flushing : @Env nat :=
  mkEnv NoContext 1000 (Some [7%nat]) (Some 0%nat)
        [mkEntry 1 flushSyncCallbackQueueImpl None false] 0.
Definition ensure : nat -> @FiberRoot unit -> @Env nat -> option (@FiberRoot unit * @Env nat) :=
  ensureRootIsScheduled 0 1073741823 normal tenth tenfold neverSuspended false 1 2 3 4 5 clock.
End Sample.

Lemma ensure_scheduled_idempotent_witness :
  exists root1 e1,
    ensure 7%nat pending event = Some (root1, e1) /\
    callbackNode root1 = Some (HostNode 0) /\
    ensure 7%nat root1 e1 = Some (root1, e1).
Proof.
  eexists _, _. split; [reflexivity|]. split; [reflexivity|].
  apply (ensure_scheduled_idempotent 0 1073741823 normal tenth tenfold neverSuspended false
           1 2 3 4 5 clock 7%nat pending _ event _).
  - reflexivity.
  - reflexivity.
  - discriminate.
  - reflexivity.
Defined.

Lemma ensure_scheduled_result_witness :
  exists root1 e1,
    ensure 7%nat expired flushing = Some (root1, e1) /\
    callbackNode root1 = Some fakeCallbackNode /\
    callbackPriority root1 = ImmediatePriority /\
    queued e1 = [7%nat; 7%nat] /\
    exists more, hostTasks e1 = hostTasks flushing ++ more.
Proof.
  eexists _, _. split; [reflexivity|].
  apply (ensure_scheduled_result 0 1073741823 normal tenth tenfold neverSuspended false
           1 2 3 4 5 clock 7%nat expired _ flushing _).
  - reflexivity.
  - discriminate.
Defined.
End Schedule.
